(** * The CSS animation and transition engine of WebCore (AnimationController.cpp)

    A shallow embedding of [WebCore/page/AnimationController.cpp]: the blend
    functions, the property-wrapper registry, the per-animation state machine
    of [AnimationBase], the two kinds of animation built on it
    ([ImplicitAnimation], [KeyframeAnimation]), [CompositeAnimation] and the
    entry point [AnimationController::updateAnimations].

    Conventions.
    - A C++ [double] is a primitive binary64 [float]; arithmetic and
      comparisons are those of IEEE 754 (a comparison with NaN is false).
      A C++ [float] is a [float] that [narrowPrecisionToFloat] leaves alone.
    - A C++ [int] is a [Z] kept in the 32-bit range by [wrap_int].
    - [currentTime()] is an explicit argument [now]: one reading of the clock
      per call into the engine.
    - A null pointer is [None]; dereferencing it, or indexing a vector out of
      range, makes the operation return [None] (the program has no defined
      behaviour there).
    - [ASSERT]s are compiled out (release build) and are not modelled.
    - What a virtual call does is decided by the kind of the animation
      ([m_kind]); calls that reach sibling objects or the host are recorded
      as [Effect]s and [Call]s in program order. *)

From Stdlib Require Import ZArith List Bool Lia Floats Uint63 String.
From Stdlib Require Import Sorting.Sorted Sorting.Permutation.
Import ListNotations.
Open Scope Z_scope.

(* ================================================================= *)
(** ** Numbers *)

Definition INT_MIN : Z := - 2 ^ 31.
Definition INT_MAX : Z := 2 ^ 31 - 1.

(** Two's complement wrap-around of a 32-bit [int]. *)
Definition wrap_int (z : Z) : Z := (z + 2 ^ 31) mod 2 ^ 32 - 2 ^ 31.

(** Conversion of an [int] to [unsigned short] and to [short]. *)
Definition to_ushort (z : Z) : Z := z mod 2 ^ 16.
Definition to_short (z : Z) : Z := (z + 2 ^ 15) mod 2 ^ 16 - 2 ^ 15.

(** Wrap-around of a [uint32_t] counter. *)
Definition wrap_uint32 (z : Z) : Z := z mod 2 ^ 32.

(** [int] to [double]: exact. *)
Definition double_of_int (z : Z) : float :=
  if z <? 0 then PrimFloat.opp (PrimFloat.of_uint63 (Uint63.of_Z (- z)))
  else PrimFloat.of_uint63 (Uint63.of_Z z).

(** The integer part of a finite float, rounded toward zero. *)
Definition trunc_SF (x : spec_float) : option Z :=
  match x with
  | S754_zero _ => Some 0
  | S754_finite s m e =>
      let v := if 0 <=? e then Z.shiftl (Zpos m) e else Z.shiftr (Zpos m) (- e) in
      Some (if s then - v else v)
  | _ => None
  end.

(** [(int) d]: truncation toward zero.  Outside the range of [int] (and for
    NaN) C++ leaves the result undefined; the model returns what the x86
    conversion instruction produces, [INT_MIN]. *)
Definition double_to_int (d : float) : Z :=
  match trunc_SF (Prim2SF d) with
  | Some v => if (INT_MIN <=? v) && (v <=? INT_MAX) then v else INT_MIN
  | None => INT_MIN
  end.

(** [fmod(x, y)]: the exact remainder of the truncated division, with the
    sign of [x]. *)
Definition fmod (x y : float) : float :=
  match Prim2SF x, Prim2SF y with
  | S754_nan, _ | _, S754_nan => nan
  | S754_infinity _, _ => nan
  | _, S754_zero _ => nan
  | S754_zero _, _ => x
  | _, S754_infinity _ => x
  | S754_finite sx mx ex, S754_finite _ my ey =>
      let ez := Z.min ex ey in
      let X := Z.shiftl (Zpos mx) (ex - ez) in
      let Y := Z.shiftl (Zpos my) (ey - ez) in
      let R := Z.rem X Y in
      SF2Prim (binary_normalize prec emax (if sx then - R else R) ez sx)
  end.

(** [narrowPrecisionToFloat]: round a [double] to the nearest binary32 value
    (ties to even), kept as the [double] of the same value. *)
Definition narrowPrecisionToFloat (d : float) : float :=
  match Prim2SF d with
  | S754_finite s m e => SF2Prim (binary_round 24 128 s m e)
  | _ => d
  end.

(** *** Integers as binary64 values

    The canonical binary64 representation of an integer below 2^53: the
    mantissa is the integer shifted left until it has 53 digits. *)

Definition canon_shift (p : positive) : nat := 53 - Pos.to_nat (digits2_pos p).

Definition SF_of_pos (s : bool) (p : positive) : spec_float :=
  S754_finite s (Nat.iter (canon_shift p) xO p) (- Z.of_nat (canon_shift p)).

Definition SF_of_Z (z : Z) : spec_float :=
  match z with
  | Z0 => S754_zero false
  | Zpos p => SF_of_pos false p
  | Zneg p => SF_of_pos true p
  end.

(** Neither an infinity nor NaN. *)
Definition SF_is_finite (x : spec_float) : bool :=
  match x with
  | S754_zero _ | S754_finite _ _ _ => true
  | _ => false
  end.

Definition SF_is_zero (x : spec_float) : bool :=
  match x with S754_zero _ => true | _ => false end.

Definition is_finite (x : float) : bool := SF_is_finite (Prim2SF x).

(** The values of an [int]. *)
Definition int_range (z : Z) : Prop := INT_MIN <= z <= INT_MAX.

(** C++ comparison operators on [double]. *)
Definition dlt (x y : float) : bool := PrimFloat.ltb x y.
Definition dle (x y : float) : bool := PrimFloat.leb x y.
Definition dgt (x y : float) : bool := PrimFloat.ltb y x.
Definition dge (x y : float) : bool := PrimFloat.leb y x.
Definition deq (x y : float) : bool := PrimFloat.eqb x y.
Definition dne (x y : float) : bool := negb (PrimFloat.eqb x y).

(* ================================================================= *)
(** ** Values of style properties *)

(** [Color]: four channels and a validity flag.  The four-argument
    constructor clamps each channel to 0..255 and yields a valid colour;
    equality compares channels and validity. *)
Record Color := { red : Z; green : Z; blue : Z; alpha : Z; isValid : bool }.

Definition clamp255 (v : Z) : Z := Z.max 0 (Z.min v 255).

Definition Color_rgba (r g b a : Z) : Color :=
  {| red := clamp255 r; green := clamp255 g; blue := clamp255 b;
     alpha := clamp255 a; isValid := true |}.

Definition Color_transparent : Color := Color_rgba 0 0 0 0.

Definition Color_eq (a b : Color) : bool :=
  (red a =? red b) && (green a =? green b) && (blue a =? blue b)
  && (alpha a =? alpha b) && Bool.eqb (isValid a) (isValid b).

Record IntSize := { width : Z; height : Z }.

Definition IntSize_eq (a b : IntSize) : bool :=
  (width a =? width b) && (height a =? height b).

Record ShadowData := { sh_x : Z; sh_y : Z; sh_blur : Z; sh_color : Color }.

Definition ShadowData_eq (a b : ShadowData) : bool :=
  (sh_x a =? sh_x b) && (sh_y a =? sh_y b) && (sh_blur a =? sh_blur b)
  && Color_eq (sh_color a) (sh_color b).

Inductive EVisibility := VISIBLE | HIDDEN | COLLAPSE.

Definition EVisibility_eq (a b : EVisibility) : bool :=
  match a, b with
  | VISIBLE, VISIBLE | HIDDEN, HIDDEN | COLLAPSE, COLLAPSE => true
  | _, _ => false
  end.

(** The properties that [ensurePropertyMap] registers, in the order of
    registration, followed by one property it does not register. *)
Inductive CSSPropertyID :=
  | CSSPropertyLeft | CSSPropertyRight | CSSPropertyTop | CSSPropertyBottom
  | CSSPropertyWidth | CSSPropertyHeight
  | CSSPropertyBorderLeftWidth | CSSPropertyBorderRightWidth
  | CSSPropertyBorderTopWidth | CSSPropertyBorderBottomWidth
  | CSSPropertyMarginLeft | CSSPropertyMarginRight
  | CSSPropertyMarginTop | CSSPropertyMarginBottom
  | CSSPropertyPaddingLeft | CSSPropertyPaddingRight
  | CSSPropertyPaddingTop | CSSPropertyPaddingBottom
  | CSSPropertyOpacity | CSSPropertyColor | CSSPropertyBackgroundColor
  | CSSPropertyFontSize | CSSPropertyWebkitColumnRuleWidth
  | CSSPropertyWebkitColumnGap | CSSPropertyWebkitColumnCount
  | CSSPropertyWebkitColumnWidth
  | CSSPropertyWebkitBorderHorizontalSpacing
  | CSSPropertyWebkitBorderVerticalSpacing
  | CSSPropertyZIndex | CSSPropertyLineHeight | CSSPropertyOutlineOffset
  | CSSPropertyOutlineWidth | CSSPropertyLetterSpacing | CSSPropertyWordSpacing
  | CSSPropertyWebkitTransform
  | CSSPropertyWebkitTransformOriginX | CSSPropertyWebkitTransformOriginY
  | CSSPropertyWebkitBorderTopLeftRadius | CSSPropertyWebkitBorderTopRightRadius
  | CSSPropertyWebkitBorderBottomLeftRadius
  | CSSPropertyWebkitBorderBottomRightRadius
  | CSSPropertyVisibility | CSSPropertyZoom
  | CSSPropertyWebkitColumnRuleColor | CSSPropertyWebkitTextStrokeColor
  | CSSPropertyWebkitTextFillColor
  | CSSPropertyBorderLeftColor | CSSPropertyBorderRightColor
  | CSSPropertyBorderTopColor | CSSPropertyBorderBottomColor
  | CSSPropertyOutlineColor
  | CSSPropertyWebkitBoxShadow | CSSPropertyTextShadow
  | CSSPropertyDisplay.

Scheme Equality for CSSPropertyID.

(* ================================================================= *)
(** ** Animation declarations *)

Inductive TimingFunctionType := LinearTimingFunction | CubicBezierTimingFunction.

Record TimingFunction := {
  tf_type : TimingFunctionType;
  tf_x1 : float; tf_y1 : float; tf_x2 : float; tf_y2 : float
}.

Inductive EAnimPlayState := AnimPlayStatePlaying | AnimPlayStatePaused.

Definition EAnimPlayState_eq (a b : EAnimPlayState) : bool :=
  match a, b with
  | AnimPlayStatePlaying, AnimPlayStatePlaying
  | AnimPlayStatePaused, AnimPlayStatePaused => true
  | _, _ => false
  end.

(** A keyframe: its key and its style. *)
Record KeyframeValue (S : Type) := { kf_key : float; kf_style : S }.
Arguments kf_key {S} _.
Arguments kf_style {S} _.

(** A keyframe list: the keyframes in order and the set of properties they
    animate (a hash set, here in its iteration order). *)
Record KeyframeList (S : Type) := {
  keyframes : list (KeyframeValue S);
  properties : list Z
}.
Arguments keyframes {S} _.
Arguments properties {S} _.

(** [Animation]: one declaration of a transition or of a keyframe animation.
    [direction] is true for an alternating animation; a non-positive
    [iterationCount] stands for an unbounded one. *)
Record Animation_ (S : Type) := {
  duration : float;
  delay : float;
  iterationCount : Z;
  direction : bool;
  timingFunction : TimingFunction;
  playState : EAnimPlayState;
  property : Z;
  name : string;
  keyframeList : option (KeyframeList S);
  isValidAnimation : bool
}.
Arguments duration {S} _.
Arguments delay {S} _.
Arguments iterationCount {S} _.
Arguments direction {S} _.
Arguments timingFunction {S} _.
Arguments playState {S} _.
Arguments property {S} _.
Arguments name {S} _.
Arguments keyframeList {S} _.
Arguments isValidAnimation {S} _.

(** What the file uses and does not define: the classes [Length],
    [TransformOperation] and [UnitBezier], and the constants of the
    generated header CSSPropertyNames.h and of the animation declarations. *)
Class Platform := {
  Length : Type;
  (** [a == b] on lengths *)
  Length_eq : Length -> Length -> bool;
  (** [Length_blend to from progress] is [to.blend(from, progress)] *)
  Length_blend : Length -> Length -> float -> Length;
  TransformOperation : Type;
  TransformOperation_eq : TransformOperation -> TransformOperation -> bool;
  (** [TransformOperation_blend op from progress blendToIdentity] is
      [op->blend(from, progress, blendToIdentity)]; the result may be null *)
  TransformOperation_blend :
    TransformOperation -> option TransformOperation -> float -> bool ->
    option TransformOperation;
  (** [UnitBezier_solve p1x p1y p2x p2y x epsilon] is
      [UnitBezier(p1x, p1y, p2x, p2y).solve(x, epsilon)] *)
  UnitBezier_solve : float -> float -> float -> float -> float -> float -> float;
  firstCSSProperty : Z;
  numCSSProperties : Z;
  CSSPropertyInvalid : Z;
  cAnimateAll : Z;
  (** the numeric value of each property constant *)
  propertyID : CSSPropertyID -> Z
}.

Section Model.
Context {P : Platform}.

Definition TransformOperations := list TransformOperation.

Fixpoint TransformOperations_eq (a b : TransformOperations) : bool :=
  match a, b with
  | [], [] => true
  | x :: a', y :: b' => TransformOperation_eq x y && TransformOperations_eq a' b'
  | _, _ => false
  end.

(* ================================================================= *)
(** ** Styles *)

(** [RenderStyle]: the values of the animatable properties, each family of
    properties in a table indexed by the property, and the declared
    animations and transitions (null when there are none). *)
#[warnings="-register-all"]
Inductive RenderStyle : Type := Build_RenderStyle {
  lengthValue : CSSPropertyID -> Length;
  intValue : CSSPropertyID -> Z;
  floatValue : CSSPropertyID -> float;
  colorValue : CSSPropertyID -> Color;
  sizeValue : CSSPropertyID -> IntSize;
  shadowValue : CSSPropertyID -> option ShadowData;
  transform : TransformOperations;
  visibility : EVisibility;
  hasAutoZIndex : bool;
  animations : option (list (Animation_ RenderStyle));
  transitions : option (list (Animation_ RenderStyle))
}.

Definition Animation := Animation_ RenderStyle.

Definition upd {A : Type} (f : CSSPropertyID -> A) (k : CSSPropertyID) (v : A)
  : CSSPropertyID -> A :=
  fun k' => if CSSPropertyID_beq k k' then v else f k'.

Definition setLengthValue (k : CSSPropertyID) (v : Length) (s : RenderStyle) :=
  Build_RenderStyle (upd (lengthValue s) k v) (intValue s) (floatValue s)
    (colorValue s) (sizeValue s) (shadowValue s) (transform s) (visibility s)
    (hasAutoZIndex s) (animations s) (transitions s).

Definition setIntValue (k : CSSPropertyID) (v : Z) (s : RenderStyle) :=
  Build_RenderStyle (lengthValue s) (upd (intValue s) k v) (floatValue s)
    (colorValue s) (sizeValue s) (shadowValue s) (transform s) (visibility s)
    (hasAutoZIndex s) (animations s) (transitions s).

Definition setFloatValue (k : CSSPropertyID) (v : float) (s : RenderStyle) :=
  Build_RenderStyle (lengthValue s) (intValue s) (upd (floatValue s) k v)
    (colorValue s) (sizeValue s) (shadowValue s) (transform s) (visibility s)
    (hasAutoZIndex s) (animations s) (transitions s).

Definition setColorValue (k : CSSPropertyID) (v : Color) (s : RenderStyle) :=
  Build_RenderStyle (lengthValue s) (intValue s) (floatValue s)
    (upd (colorValue s) k v) (sizeValue s) (shadowValue s) (transform s)
    (visibility s) (hasAutoZIndex s) (animations s) (transitions s).

Definition setSizeValue (k : CSSPropertyID) (v : IntSize) (s : RenderStyle) :=
  Build_RenderStyle (lengthValue s) (intValue s) (floatValue s) (colorValue s)
    (upd (sizeValue s) k v) (shadowValue s) (transform s) (visibility s)
    (hasAutoZIndex s) (animations s) (transitions s).

Definition setShadowValue (k : CSSPropertyID) (v : option ShadowData)
    (s : RenderStyle) :=
  Build_RenderStyle (lengthValue s) (intValue s) (floatValue s) (colorValue s)
    (sizeValue s) (upd (shadowValue s) k v) (transform s) (visibility s)
    (hasAutoZIndex s) (animations s) (transitions s).

Definition setTransform (v : TransformOperations) (s : RenderStyle) :=
  Build_RenderStyle (lengthValue s) (intValue s) (floatValue s) (colorValue s)
    (sizeValue s) (shadowValue s) v (visibility s)
    (hasAutoZIndex s) (animations s) (transitions s).

Definition setVisibility (v : EVisibility) (s : RenderStyle) :=
  Build_RenderStyle (lengthValue s) (intValue s) (floatValue s) (colorValue s)
    (sizeValue s) (shadowValue s) (transform s) v
    (hasAutoZIndex s) (animations s) (transitions s).

(** [RenderStyle::setZIndex]: stores the index and clears the auto flag. *)
Definition setZIndex (v : Z) (s : RenderStyle) :=
  Build_RenderStyle (lengthValue s) (upd (intValue s) CSSPropertyZIndex v)
    (floatValue s) (colorValue s) (sizeValue s) (shadowValue s) (transform s)
    (visibility s) false (animations s) (transitions s).

Definition zIndex (s : RenderStyle) : Z := intValue s CSSPropertyZIndex.
Definition opacity (s : RenderStyle) : float := floatValue s CSSPropertyOpacity.
Definition color (s : RenderStyle) : Color := colorValue s CSSPropertyColor.
Definition hasTransform (s : RenderStyle) : bool :=
  match transform s with [] => false | _ => true end.
Definition hasAnimations (s : RenderStyle) : bool :=
  match animations s with Some (_ :: _) => true | _ => false end.

(* ================================================================= *)
(** ** The blend functions *)

Definition blendFunc_int (from to : Z) (progress : float) : Z :=
  double_to_int
    (double_of_int from + double_of_int (wrap_int (to - from)) * progress)%float.

Definition blendFunc_double (from to : float) (progress : float) : float :=
  (from + (to - from) * progress)%float.

Definition blendFunc_float (from to : float) (progress : float) : float :=
  narrowPrecisionToFloat
    (from + narrowPrecisionToFloat (to - from) * progress)%float.

Definition blendFunc_Color (from to : Color) (progress : float) : Color :=
  Color_rgba (blendFunc_int (red from) (red to) progress)
             (blendFunc_int (green from) (green to) progress)
             (blendFunc_int (blue from) (blue to) progress)
             (blendFunc_int (alpha from) (alpha to) progress).

Definition blendFunc_Length (from to : Length) (progress : float) : Length :=
  Length_blend to from progress.

Definition blendFunc_IntSize (from to : IntSize) (progress : float) : IntSize :=
  {| width := blendFunc_int (width from) (width to) progress;
     height := blendFunc_int (height from) (height to) progress |}.

Definition blendFunc_ShadowData (from to : ShadowData) (progress : float)
  : ShadowData :=
  {| sh_x := blendFunc_int (sh_x from) (sh_x to) progress;
     sh_y := blendFunc_int (sh_y from) (sh_y to) progress;
     sh_blur := blendFunc_int (sh_blur from) (sh_blur to) progress;
     sh_color := blendFunc_Color (sh_color from) (sh_color to) progress |}.

(** One turn of the loop of the transform-list blend, at position [i]. *)
Definition blendTransformAt (from to : TransformOperations) (progress : float)
    (result : TransformOperations) (i : nat) : TransformOperations :=
  let fromOp := nth_error from i in
  let toOp := nth_error to i in
  let blendedOp :=
    match toOp with
    | Some t => TransformOperation_blend t fromOp progress false
    | None =>
        match fromOp with
        | Some f => TransformOperation_blend f None progress true
        | None => None
        end
    end in
  match blendedOp with
  | Some b => result ++ [b]
  | None => result
  end.

Definition blendFunc_TransformOperations (from to : TransformOperations)
    (progress : float) : TransformOperations :=
  let size := Nat.max (List.length from) (List.length to) in
  fold_left (blendTransformAt from to progress) (seq 0 size) [].

Definition blendFunc_EVisibility (from to : EVisibility) (progress : float)
  : EVisibility :=
  let fromVal := match from with VISIBLE => 1%float | _ => 0%float end in
  let toVal := match to with VISIBLE => 1%float | _ => 0%float end in
  if deq fromVal toVal then to
  else
    let result := blendFunc_double fromVal toVal progress in
    if dgt result 0 then VISIBLE
    else if negb (EVisibility_eq to VISIBLE) then to else from.

(* ================================================================= *)
(** ** Property wrappers and their registry *)

(** [PropertyWrapperBase]: the property, its equality test and its blend
    (which returns the new contents of [dst]). *)
Record PropertyWrapperBase := {
  m_prop : Z;
  equals : RenderStyle -> RenderStyle -> bool;
  blend : RenderStyle -> RenderStyle -> RenderStyle -> float -> RenderStyle
}.

(** [PropertyWrapper<Length>] *)
Definition PropertyWrapper_Length (id : CSSPropertyID) : PropertyWrapperBase :=
  {| m_prop := propertyID id;
     equals a b := Length_eq (lengthValue a id) (lengthValue b id);
     blend dst a b prog :=
       setLengthValue id
         (blendFunc_Length (lengthValue a id) (lengthValue b id) prog) dst |}.

(** [PropertyWrapper<int>] *)
Definition PropertyWrapper_int (id : CSSPropertyID) : PropertyWrapperBase :=
  {| m_prop := propertyID id;
     equals a b := intValue a id =? intValue b id;
     blend dst a b prog :=
       setIntValue id (blendFunc_int (intValue a id) (intValue b id) prog) dst |}.

(** [PropertyWrapper<int>] of z-index, whose setter is [setZIndex] *)
Definition PropertyWrapper_zIndex : PropertyWrapperBase :=
  {| m_prop := propertyID CSSPropertyZIndex;
     equals a b := zIndex a =? zIndex b;
     blend dst a b prog :=
       setZIndex (blendFunc_int (zIndex a) (zIndex b) prog) dst |}.

(** [PropertyWrapper<unsigned short>]: the operands are promoted to [int]
    and the blended [int] is converted back *)
Definition PropertyWrapper_ushort (id : CSSPropertyID) : PropertyWrapperBase :=
  {| m_prop := propertyID id;
     equals a b := intValue a id =? intValue b id;
     blend dst a b prog :=
       setIntValue id
         (to_ushort (blendFunc_int (intValue a id) (intValue b id) prog)) dst |}.

(** [PropertyWrapper<short>] *)
Definition PropertyWrapper_short (id : CSSPropertyID) : PropertyWrapperBase :=
  {| m_prop := propertyID id;
     equals a b := intValue a id =? intValue b id;
     blend dst a b prog :=
       setIntValue id
         (to_short (blendFunc_int (intValue a id) (intValue b id) prog)) dst |}.

(** [PropertyWrapper<float>] *)
Definition PropertyWrapper_float (id : CSSPropertyID) : PropertyWrapperBase :=
  {| m_prop := propertyID id;
     equals a b := deq (floatValue a id) (floatValue b id);
     blend dst a b prog :=
       setFloatValue id
         (blendFunc_float (floatValue a id) (floatValue b id) prog) dst |}.

(** [PropertyWrapper<const Color&>] *)
Definition PropertyWrapper_Color (id : CSSPropertyID) : PropertyWrapperBase :=
  {| m_prop := propertyID id;
     equals a b := Color_eq (colorValue a id) (colorValue b id);
     blend dst a b prog :=
       setColorValue id
         (blendFunc_Color (colorValue a id) (colorValue b id) prog) dst |}.

(** [PropertyWrapper<const TransformOperations&>] *)
Definition PropertyWrapper_Transform : PropertyWrapperBase :=
  {| m_prop := propertyID CSSPropertyWebkitTransform;
     equals a b := TransformOperations_eq (transform a) (transform b);
     blend dst a b prog :=
       setTransform
         (blendFunc_TransformOperations (transform a) (transform b) prog) dst |}.

(** [PropertyWrapper<const IntSize&>] *)
Definition PropertyWrapper_IntSize (id : CSSPropertyID) : PropertyWrapperBase :=
  {| m_prop := propertyID id;
     equals a b := IntSize_eq (sizeValue a id) (sizeValue b id);
     blend dst a b prog :=
       setSizeValue id
         (blendFunc_IntSize (sizeValue a id) (sizeValue b id) prog) dst |}.

(** [PropertyWrapper<EVisibility>] *)
Definition PropertyWrapper_EVisibility : PropertyWrapperBase :=
  {| m_prop := propertyID CSSPropertyVisibility;
     equals a b := EVisibility_eq (visibility a) (visibility b);
     blend dst a b prog :=
       setVisibility (blendFunc_EVisibility (visibility a) (visibility b) prog)
         dst |}.

(** [PropertyWrapperShadow] *)
Definition PropertyWrapperShadow (id : CSSPropertyID) : PropertyWrapperBase :=
  {| m_prop := propertyID id;
     equals a b :=
       match shadowValue a id, shadowValue b id with
       | None, Some _ | Some _, None => false
       | Some shadowa, Some shadowb => ShadowData_eq shadowa shadowb
       | None, None => true
       end;
     blend dst a b prog :=
       let defaultShadowData :=
         {| sh_x := 0; sh_y := 0; sh_blur := 0; sh_color := Color_transparent |} in
       let shadowa :=
         match shadowValue a id with Some s => s | None => defaultShadowData end in
       let shadowb :=
         match shadowValue b id with Some s => s | None => defaultShadowData end in
       setShadowValue id (Some (blendFunc_ShadowData shadowa shadowb prog)) dst |}.

(** [PropertyWrapperMaybeInvalidColor] *)
Definition PropertyWrapperMaybeInvalidColor (id : CSSPropertyID)
  : PropertyWrapperBase :=
  {| m_prop := propertyID id;
     equals a b :=
       let fromColor := colorValue a id in
       let toColor := colorValue b id in
       let fromColor := if isValid fromColor then fromColor else color a in
       let toColor := if isValid toColor then toColor else color b in
       Color_eq fromColor toColor;
     blend dst a b prog :=
       let fromColor := colorValue a id in
       let toColor := colorValue b id in
       let fromColor := if isValid fromColor then fromColor else color a in
       let toColor := if isValid toColor then toColor else color b in
       setColorValue id (blendFunc_Color fromColor toColor prog) dst |}.

(** The vector that [ensurePropertyMap] builds, in the order of the appends. *)
Definition gPropertyWrappers : list PropertyWrapperBase :=
  [ PropertyWrapper_Length CSSPropertyLeft;
    PropertyWrapper_Length CSSPropertyRight;
    PropertyWrapper_Length CSSPropertyTop;
    PropertyWrapper_Length CSSPropertyBottom;
    PropertyWrapper_Length CSSPropertyWidth;
    PropertyWrapper_Length CSSPropertyHeight;
    PropertyWrapper_ushort CSSPropertyBorderLeftWidth;
    PropertyWrapper_ushort CSSPropertyBorderRightWidth;
    PropertyWrapper_ushort CSSPropertyBorderTopWidth;
    PropertyWrapper_ushort CSSPropertyBorderBottomWidth;
    PropertyWrapper_Length CSSPropertyMarginLeft;
    PropertyWrapper_Length CSSPropertyMarginRight;
    PropertyWrapper_Length CSSPropertyMarginTop;
    PropertyWrapper_Length CSSPropertyMarginBottom;
    PropertyWrapper_Length CSSPropertyPaddingLeft;
    PropertyWrapper_Length CSSPropertyPaddingRight;
    PropertyWrapper_Length CSSPropertyPaddingTop;
    PropertyWrapper_Length CSSPropertyPaddingBottom;
    PropertyWrapper_float CSSPropertyOpacity;
    PropertyWrapper_Color CSSPropertyColor;
    PropertyWrapper_Color CSSPropertyBackgroundColor;
    PropertyWrapper_int CSSPropertyFontSize;
    PropertyWrapper_ushort CSSPropertyWebkitColumnRuleWidth;
    PropertyWrapper_float CSSPropertyWebkitColumnGap;
    PropertyWrapper_ushort CSSPropertyWebkitColumnCount;
    PropertyWrapper_float CSSPropertyWebkitColumnWidth;
    PropertyWrapper_short CSSPropertyWebkitBorderHorizontalSpacing;
    PropertyWrapper_short CSSPropertyWebkitBorderVerticalSpacing;
    PropertyWrapper_zIndex;
    PropertyWrapper_Length CSSPropertyLineHeight;
    PropertyWrapper_int CSSPropertyOutlineOffset;
    PropertyWrapper_ushort CSSPropertyOutlineWidth;
    PropertyWrapper_int CSSPropertyLetterSpacing;
    PropertyWrapper_int CSSPropertyWordSpacing;
    PropertyWrapper_Transform;
    PropertyWrapper_Length CSSPropertyWebkitTransformOriginX;
    PropertyWrapper_Length CSSPropertyWebkitTransformOriginY;
    PropertyWrapper_IntSize CSSPropertyWebkitBorderTopLeftRadius;
    PropertyWrapper_IntSize CSSPropertyWebkitBorderTopRightRadius;
    PropertyWrapper_IntSize CSSPropertyWebkitBorderBottomLeftRadius;
    PropertyWrapper_IntSize CSSPropertyWebkitBorderBottomRightRadius;
    PropertyWrapper_EVisibility;
    PropertyWrapper_float CSSPropertyZoom;
    PropertyWrapperMaybeInvalidColor CSSPropertyWebkitColumnRuleColor;
    PropertyWrapperMaybeInvalidColor CSSPropertyWebkitTextStrokeColor;
    PropertyWrapperMaybeInvalidColor CSSPropertyWebkitTextFillColor;
    PropertyWrapperMaybeInvalidColor CSSPropertyBorderLeftColor;
    PropertyWrapperMaybeInvalidColor CSSPropertyBorderRightColor;
    PropertyWrapperMaybeInvalidColor CSSPropertyBorderTopColor;
    PropertyWrapperMaybeInvalidColor CSSPropertyBorderBottomColor;
    PropertyWrapperMaybeInvalidColor CSSPropertyOutlineColor;
    PropertyWrapperShadow CSSPropertyWebkitBoxShadow;
    PropertyWrapperShadow CSSPropertyTextShadow ].

(** [array[i] = v] on an [int] array; [None] when [i] is out of range. *)
Definition array_set (a : list Z) (i : Z) (v : Z) : option (list Z) :=
  if (0 <=? i) && (i <? Z.of_nat (List.length a))
  then Some (firstn (Z.to_nat i) a ++ v :: skipn (S (Z.to_nat i)) a)
  else None.

(** [array[i]]; [None] when [i] is out of range. *)
Definition array_get {A : Type} (a : list A) (i : Z) : option A :=
  if 0 <=? i then nth_error a (Z.to_nat i) else None.

(** The second loop of [ensurePropertyMap], from index [i] on. *)
Fixpoint fillPropertyWrapperMap (ws : list PropertyWrapperBase) (i : Z)
    (map : list Z) : option (list Z) :=
  match ws with
  | [] => Some map
  | w :: ws' =>
      match array_set map (wrap_int (m_prop w - firstCSSProperty)) i with
      | Some map' => fillPropertyWrapperMap ws' (i + 1) map'
      | None => None
      end
  end.

(** The two static tables: the vector of wrappers and, for each property
    index, the position of its wrapper in the vector. *)
Record PropertyMap := {
  wrappers : list PropertyWrapperBase;
  gPropertyWrapperMap : list Z
}.

(** [ensurePropertyMap], for a given vector of wrappers: every slot of the
    array is first given the value [CSSPropertyInvalid]. *)
Definition ensurePropertyMap_of (ws : list PropertyWrapperBase)
  : option PropertyMap :=
  match fillPropertyWrapperMap ws 0
          (repeat CSSPropertyInvalid (Z.to_nat numCSSProperties)) with
  | Some map => Some {| wrappers := ws; gPropertyWrapperMap := map |}
  | None => None
  end.

Definition ensurePropertyMap : option PropertyMap :=
  ensurePropertyMap_of gPropertyWrappers.

(** [wrapper->equals(a, b)] through two pointers. *)
Definition equals_ptr (w : PropertyWrapperBase) (a b : option RenderStyle)
  : option bool :=
  match a, b with
  | Some a, Some b => Some (equals w a b)
  | _, _ => None
  end.

(** The loop of [propertiesEqual] for [cAnimateAll]. *)
Fixpoint allPropertiesEqual (ws : list PropertyWrapperBase)
    (a b : option RenderStyle) : option bool :=
  match ws with
  | [] => Some true
  | w :: ws' =>
      match equals_ptr w a b with
      | Some true => allPropertiesEqual ws' a b
      | Some false => Some false
      | None => None
      end
  end.

Definition propertiesEqual (pm : PropertyMap) (prop : Z)
    (a b : option RenderStyle) : option bool :=
  if prop =? cAnimateAll then allPropertiesEqual (wrappers pm) a b
  else
    let propIndex := wrap_int (prop - firstCSSProperty) in
    if (0 <=? propIndex) && (propIndex <? numCSSProperties) then
      match array_get (gPropertyWrapperMap pm) propIndex with
      | None => None
      | Some i =>
          if 0 <=? i then
            match array_get (wrappers pm) i with
            | Some w => equals_ptr w a b
            | None => None
            end
          else Some true
      end
    else Some true.

Definition getNumProperties (pm : PropertyMap) : Z :=
  Z.of_nat (List.length (wrappers pm)).

Definition getPropertyAtIndex (pm : PropertyMap) (i : Z) : Z :=
  if (i <? 0) || (getNumProperties pm <=? i) then CSSPropertyInvalid
  else match array_get (wrappers pm) i with
       | Some w => m_prop w
       | None => CSSPropertyInvalid
       end.

(** [wrapper->blend(dst, a, b, prog)] through pointers. *)
Definition blend_ptr (w : PropertyWrapperBase) (dst : RenderStyle)
    (a b : option RenderStyle) (prog : float) : option RenderStyle :=
  match a, b with
  | Some a, Some b => Some (blend w dst a b prog)
  | _, _ => None
  end.

(** The loop of [blendProperties] for [cAnimateAll]. *)
Fixpoint blendAllProperties (ws : list PropertyWrapperBase) (dst : RenderStyle)
    (a b : option RenderStyle) (prog : float) (needsTimer : bool)
  : option (bool * RenderStyle) :=
  match ws with
  | [] => Some (needsTimer, dst)
  | wrapper :: ws' =>
      match equals_ptr wrapper a b with
      | None => None
      | Some true => blendAllProperties ws' dst a b prog needsTimer
      | Some false =>
          match blend_ptr wrapper dst a b prog with
          | Some dst' => blendAllProperties ws' dst' a b prog true
          | None => None
          end
      end
  end.

(** [blendProperties]: the flag it returns and the new contents of [dst]. *)
Definition blendProperties (pm : PropertyMap) (prop : Z) (dst : RenderStyle)
    (a b : option RenderStyle) (prog : float) : option (bool * RenderStyle) :=
  if prop =? cAnimateAll then blendAllProperties (wrappers pm) dst a b prog false
  else
    let propIndex := wrap_int (prop - firstCSSProperty) in
    if (0 <=? propIndex) && (propIndex <? numCSSProperties) then
      match array_get (gPropertyWrapperMap pm) propIndex with
      | None => None
      | Some i =>
          if 0 <=? i then
            match array_get (wrappers pm) i with
            | Some wrapper =>
                match blend_ptr wrapper dst a b prog with
                | Some dst' => Some (true, dst')
                | None => None
                end
            | None => None
            end
          else Some (false, dst)
      end
    else Some (false, dst).

(* ================================================================= *)
(** ** AnimationBase *)

Inductive AnimState :=
  | STATE_NEW
  | STATE_START_WAIT_TIMER
  | STATE_START_WAIT_STYLE_AVAILABLE
  | STATE_START_WAIT_RESPONSE
  | STATE_LOOPING
  | STATE_ENDING
  | STATE_PAUSED_WAIT_TIMER
  | STATE_PAUSED_WAIT_RESPONSE
  | STATE_PAUSED_RUN
  | STATE_DONE.

Inductive AnimStateInput :=
  | STATE_INPUT_MAKE_NEW
  | STATE_INPUT_START_ANIMATION
  | STATE_INPUT_RESTART_ANIMATION
  | STATE_INPUT_START_TIMER_FIRED
  | STATE_INPUT_STYLE_AVAILABLE
  | STATE_INPUT_START_TIME_SET
  | STATE_INPUT_LOOP_TIMER_FIRED
  | STATE_INPUT_END_TIMER_FIRED
  | STATE_INPUT_PAUSE_OVERRIDE
  | STATE_INPUT_RESUME_OVERRIDE
  | STATE_INPUT_PLAY_STATE_RUNNING
  | STATE_INPUT_PLAY_STATE_PAUSED
  | STATE_INPUT_END_ANIMATION.

Inductive EventType :=
  | webkitAnimationStartEvent
  | webkitAnimationIterationEvent
  | webkitAnimationEndEvent
  | webkitTransitionEndEvent.

Inductive ListenerType :=
  | ANIMATIONSTART_LISTENER
  | ANIMATIONITERATION_LISTENER
  | ANIMATIONEND_LISTENER
  | TRANSITIONEND_LISTENER.

(** The name carried by an event: an animation name, the name of a
    property, or the null string. *)
Inductive EventName :=
  | NullName
  | AnimationName (s : string)
  | PropertyName (id : Z).

(** What the state machine reads from the renderer: whether its node is an
    element, and which listener types its document has. *)
Record Host := {
  hasElementNode : bool;
  hasListenerType : ListenerType -> bool
}.

(** [AnimationTimerCallback]: the one-shot timer ([Some timeout] when armed)
    and what it will report when it fires. *)
Record AnimationTimerCallback := {
  tc_timer : option float;
  tc_eventType : option EventType;
  tc_elapsedTime : float
}.

(** [AnimationEventDispatcher] *)
Record AnimationEventDispatcher := {
  ed_timer : option float;
  ed_element : bool;
  ed_name : EventName;
  ed_property : Z;
  ed_reset : bool;
  ed_eventType : option EventType;
  ed_elapsedTime : float
}.

(** A pointer to a style: its address in the store of styles. *)
Definition StylePtr := nat.

(** The members that [ImplicitAnimation] adds. *)
Record ImplicitData := {
  m_transitionProperty : Z;
  m_animatingProperty : Z;
  m_overridden : bool;
  m_fromStyle : option StylePtr;
  m_toStyle : option StylePtr
}.

(** The members that [KeyframeAnimation] adds. *)
Record KeyframeData := {
  m_keyframes : option (KeyframeList RenderStyle);
  m_name : string;
  m_index : Z
}.

Inductive AnimKind :=
  | IsImplicitAnimation (d : ImplicitData)
  | IsKeyframeAnimation (d : KeyframeData).

Record AnimationBase := {
  m_animState : AnimState;
  m_iteration : Z;
  m_animating : bool;
  m_waitedForResponse : bool;
  m_startTime : float;
  m_pauseTime : float;
  m_animationTimerCallback : AnimationTimerCallback;
  m_animationEventDispatcher : AnimationEventDispatcher;
  m_animation : Animation;
  m_waitingForEndEvent : bool;
  m_kind : AnimKind
}.

(** What a call leaves for the owner of the animation and for the host. *)
Inductive Effect :=
  | E_setChanged
  | E_startUpdateRenderingDispatcher
  | E_setWaitingForStyleAvailable (waiting : bool)
  | E_overrideImplicitAnimations (property : Z)
  | E_resumeOverriddenImplicitAnimations (property : Z).

Definition set_animState (a : AnimationBase) (s : AnimState) : AnimationBase :=
  {| m_animState := s; m_iteration := m_iteration a;
     m_animating := m_animating a;
     m_waitedForResponse := m_waitedForResponse a;
     m_startTime := m_startTime a; m_pauseTime := m_pauseTime a;
     m_animationTimerCallback := m_animationTimerCallback a;
     m_animationEventDispatcher := m_animationEventDispatcher a;
     m_animation := m_animation a;
     m_waitingForEndEvent := m_waitingForEndEvent a; m_kind := m_kind a |}.

Definition setAnimating (a : AnimationBase) (inAnimating : bool) : AnimationBase :=
  {| m_animState := m_animState a; m_iteration := m_iteration a;
     m_animating := inAnimating;
     m_waitedForResponse := m_waitedForResponse a;
     m_startTime := m_startTime a; m_pauseTime := m_pauseTime a;
     m_animationTimerCallback := m_animationTimerCallback a;
     m_animationEventDispatcher := m_animationEventDispatcher a;
     m_animation := m_animation a;
     m_waitingForEndEvent := m_waitingForEndEvent a; m_kind := m_kind a |}.

Definition set_waitedForResponse (a : AnimationBase) (b : bool) : AnimationBase :=
  {| m_animState := m_animState a; m_iteration := m_iteration a;
     m_animating := m_animating a;
     m_waitedForResponse := b;
     m_startTime := m_startTime a; m_pauseTime := m_pauseTime a;
     m_animationTimerCallback := m_animationTimerCallback a;
     m_animationEventDispatcher := m_animationEventDispatcher a;
     m_animation := m_animation a;
     m_waitingForEndEvent := m_waitingForEndEvent a; m_kind := m_kind a |}.

Definition set_startTime (a : AnimationBase) (t : float) : AnimationBase :=
  {| m_animState := m_animState a; m_iteration := m_iteration a;
     m_animating := m_animating a;
     m_waitedForResponse := m_waitedForResponse a;
     m_startTime := t; m_pauseTime := m_pauseTime a;
     m_animationTimerCallback := m_animationTimerCallback a;
     m_animationEventDispatcher := m_animationEventDispatcher a;
     m_animation := m_animation a;
     m_waitingForEndEvent := m_waitingForEndEvent a; m_kind := m_kind a |}.

Definition set_pauseTime (a : AnimationBase) (t : float) : AnimationBase :=
  {| m_animState := m_animState a; m_iteration := m_iteration a;
     m_animating := m_animating a;
     m_waitedForResponse := m_waitedForResponse a;
     m_startTime := m_startTime a; m_pauseTime := t;
     m_animationTimerCallback := m_animationTimerCallback a;
     m_animationEventDispatcher := m_animationEventDispatcher a;
     m_animation := m_animation a;
     m_waitingForEndEvent := m_waitingForEndEvent a; m_kind := m_kind a |}.

Definition set_animationTimerCallback (a : AnimationBase)
    (t : AnimationTimerCallback) : AnimationBase :=
  {| m_animState := m_animState a; m_iteration := m_iteration a;
     m_animating := m_animating a;
     m_waitedForResponse := m_waitedForResponse a;
     m_startTime := m_startTime a; m_pauseTime := m_pauseTime a;
     m_animationTimerCallback := t;
     m_animationEventDispatcher := m_animationEventDispatcher a;
     m_animation := m_animation a;
     m_waitingForEndEvent := m_waitingForEndEvent a; m_kind := m_kind a |}.

Definition set_animationEventDispatcher (a : AnimationBase)
    (d : AnimationEventDispatcher) : AnimationBase :=
  {| m_animState := m_animState a; m_iteration := m_iteration a;
     m_animating := m_animating a;
     m_waitedForResponse := m_waitedForResponse a;
     m_startTime := m_startTime a; m_pauseTime := m_pauseTime a;
     m_animationTimerCallback := m_animationTimerCallback a;
     m_animationEventDispatcher := d;
     m_animation := m_animation a;
     m_waitingForEndEvent := m_waitingForEndEvent a; m_kind := m_kind a |}.

Definition setAnimation (a : AnimationBase) (anim : Animation) : AnimationBase :=
  {| m_animState := m_animState a; m_iteration := m_iteration a;
     m_animating := m_animating a;
     m_waitedForResponse := m_waitedForResponse a;
     m_startTime := m_startTime a; m_pauseTime := m_pauseTime a;
     m_animationTimerCallback := m_animationTimerCallback a;
     m_animationEventDispatcher := m_animationEventDispatcher a;
     m_animation := anim;
     m_waitingForEndEvent := m_waitingForEndEvent a; m_kind := m_kind a |}.

Definition set_waitingForEndEvent (a : AnimationBase) (b : bool) : AnimationBase :=
  {| m_animState := m_animState a; m_iteration := m_iteration a;
     m_animating := m_animating a;
     m_waitedForResponse := m_waitedForResponse a;
     m_startTime := m_startTime a; m_pauseTime := m_pauseTime a;
     m_animationTimerCallback := m_animationTimerCallback a;
     m_animationEventDispatcher := m_animationEventDispatcher a;
     m_animation := m_animation a;
     m_waitingForEndEvent := b; m_kind := m_kind a |}.

Definition set_kind (a : AnimationBase) (k : AnimKind) : AnimationBase :=
  {| m_animState := m_animState a; m_iteration := m_iteration a;
     m_animating := m_animating a;
     m_waitedForResponse := m_waitedForResponse a;
     m_startTime := m_startTime a; m_pauseTime := m_pauseTime a;
     m_animationTimerCallback := m_animationTimerCallback a;
     m_animationEventDispatcher := m_animationEventDispatcher a;
     m_animation := m_animation a;
     m_waitingForEndEvent := m_waitingForEndEvent a; m_kind := k |}.

(** The constructor of [AnimationBase]; each of the two timer objects arms
    its timer with a zero timeout when it is built. *)
Definition AnimationBase_new (transition : Animation) (k : AnimKind)
  : AnimationBase :=
  {| m_animState := STATE_NEW; m_iteration := 0; m_animating := false;
     m_waitedForResponse := false; m_startTime := 0%float;
     m_pauseTime := (-1)%float;
     m_animationTimerCallback :=
       {| tc_timer := Some 0%float; tc_eventType := None;
          tc_elapsedTime := 0%float |};
     m_animationEventDispatcher :=
       {| ed_timer := Some 0%float; ed_element := false; ed_name := NullName;
          ed_property := CSSPropertyInvalid; ed_reset := false;
          ed_eventType := None; ed_elapsedTime := (-1)%float |};
     m_animation := transition; m_waitingForEndEvent := false; m_kind := k |}.

Definition AnimState_eq (x y : AnimState) : bool :=
  match x, y with
  | STATE_NEW, STATE_NEW
  | STATE_START_WAIT_TIMER, STATE_START_WAIT_TIMER
  | STATE_START_WAIT_STYLE_AVAILABLE, STATE_START_WAIT_STYLE_AVAILABLE
  | STATE_START_WAIT_RESPONSE, STATE_START_WAIT_RESPONSE
  | STATE_LOOPING, STATE_LOOPING
  | STATE_ENDING, STATE_ENDING
  | STATE_PAUSED_WAIT_TIMER, STATE_PAUSED_WAIT_TIMER
  | STATE_PAUSED_WAIT_RESPONSE, STATE_PAUSED_WAIT_RESPONSE
  | STATE_PAUSED_RUN, STATE_PAUSED_RUN
  | STATE_DONE, STATE_DONE => true
  | _, _ => false
  end.

Definition waitingToStart (a : AnimationBase) : bool :=
  AnimState_eq (m_animState a) STATE_NEW
  || AnimState_eq (m_animState a) STATE_START_WAIT_TIMER.

Definition preactive (a : AnimationBase) : bool :=
  AnimState_eq (m_animState a) STATE_NEW
  || AnimState_eq (m_animState a) STATE_START_WAIT_TIMER
  || AnimState_eq (m_animState a) STATE_START_WAIT_STYLE_AVAILABLE
  || AnimState_eq (m_animState a) STATE_START_WAIT_RESPONSE.

Definition postactive (a : AnimationBase) : bool :=
  AnimState_eq (m_animState a) STATE_DONE.

Definition isnew (a : AnimationBase) : bool :=
  AnimState_eq (m_animState a) STATE_NEW.

Definition active (a : AnimationBase) : bool :=
  negb (postactive a) && negb (preactive a).

Definition running (a : AnimationBase) : bool :=
  negb (isnew a) && negb (postactive a).

Definition paused (a : AnimationBase) : bool := dge (m_pauseTime a) 0.

Definition waitingForStartTime (a : AnimationBase) : bool :=
  AnimState_eq (m_animState a) STATE_START_WAIT_RESPONSE.

Definition waitingForStyleAvailable (a : AnimationBase) : bool :=
  AnimState_eq (m_animState a) STATE_START_WAIT_STYLE_AVAILABLE.

Definition waitingForEndEvent (a : AnimationBase) : bool :=
  m_waitingForEndEvent a.

Definition animating (a : AnimationBase) : bool := m_animating a.

Definition playStatePlaying (a : AnimationBase) : bool :=
  EAnimPlayState_eq (playState (m_animation a)) AnimPlayStatePlaying.

(** *** Timers *)

Definition cancelTimers (a : AnimationBase) : AnimationBase :=
  let tc := m_animationTimerCallback a in
  let ed := m_animationEventDispatcher a in
  set_animationEventDispatcher
    (set_animationTimerCallback a
       {| tc_timer := None; tc_eventType := tc_eventType tc;
          tc_elapsedTime := tc_elapsedTime tc |})
    {| ed_timer := None; ed_element := ed_element ed; ed_name := ed_name ed;
       ed_property := ed_property ed; ed_reset := ed_reset ed;
       ed_eventType := ed_eventType ed; ed_elapsedTime := ed_elapsedTime ed |}.

(** [m_animationTimerCallback.startTimer(timeout, eventType, elapsedTime)] *)
Definition startTimerCallback (a : AnimationBase) (timeout : float)
    (eventType : EventType) (elapsedTime : float) : AnimationBase :=
  set_animationTimerCallback a
    {| tc_timer := Some timeout; tc_eventType := Some eventType;
       tc_elapsedTime := elapsedTime |}.

(** [m_animationEventDispatcher.startTimer(element, name, property, reset,
    eventType, elapsedTime)] *)
Definition startEventDispatcher (a : AnimationBase) (nm : EventName)
    (prop : Z) (reset : bool) (eventType : EventType) (elapsedTime : float)
  : AnimationBase :=
  set_animationEventDispatcher a
    {| ed_timer := Some 0%float; ed_element := true; ed_name := nm;
       ed_property := prop; ed_reset := reset; ed_eventType := Some eventType;
       ed_elapsedTime := elapsedTime |}.

(** *** The virtual functions, by kind of animation *)

Definition overridden (a : AnimationBase) : bool :=
  match m_kind a with
  | IsImplicitAnimation d => m_overridden d
  | IsKeyframeAnimation _ => false
  end.

(** The properties of the keyframe list ([m_keyframes->beginProperties()]
    to [endProperties()]); a keyframe animation is only ever built with a
    keyframe list. *)
Definition keyframeProperties (d : KeyframeData) : list Z :=
  match m_keyframes d with
  | Some k => properties k
  | None => []
  end.

Definition affectsProperty (a : AnimationBase) (prop : Z) : bool :=
  match m_kind a with
  | IsImplicitAnimation d => m_animatingProperty d =? prop
  | IsKeyframeAnimation d => existsb (fun p => p =? prop) (keyframeProperties d)
  end.

(** [startAnimation]: neither class overrides the default, which starts
    nothing and answers false. *)
Definition startAnimation (a : AnimationBase) (beginTime : float) : bool := false.

(** [endAnimation(reset)] *)
Definition endAnimation (a : AnimationBase) (reset : bool) : list Effect :=
  match m_kind a with
  | IsImplicitAnimation _ => []
  | IsKeyframeAnimation _ => [E_setChanged]
  end.

(** [KeyframeAnimation::sendAnimationEvent] *)
Definition sendAnimationEvent (h : Host) (d : KeyframeData) (a : AnimationBase)
    (inEventType : EventType) (inElapsedTime : float) : bool * AnimationBase :=
  let listenerType :=
    match inEventType with
    | webkitAnimationIterationEvent => ANIMATIONITERATION_LISTENER
    | webkitAnimationEndEvent => ANIMATIONEND_LISTENER
    | _ => ANIMATIONSTART_LISTENER
    end in
  if hasListenerType h listenerType then
    if hasElementNode h then
      (true,
       startEventDispatcher (set_waitingForEndEvent a true)
         (AnimationName (m_name d)) (-1) true inEventType inElapsedTime)
    else (false, a)
  else (false, a).

(** [ImplicitAnimation::sendTransitionEvent] *)
Definition sendTransitionEvent (h : Host) (d : ImplicitData) (a : AnimationBase)
    (inEventType : EventType) (inElapsedTime : float) : bool * AnimationBase :=
  match inEventType with
  | webkitTransitionEndEvent =>
      if hasListenerType h TRANSITIONEND_LISTENER then
        if hasElementNode h then
          let propertyName :=
            if negb (m_transitionProperty d =? cAnimateAll)
            then PropertyName (m_transitionProperty d) else NullName in
          (true,
           startEventDispatcher (set_waitingForEndEvent a true)
             propertyName (m_transitionProperty d) true inEventType
             inElapsedTime)
        else (false, a)
      else (false, a)
  | _ => (false, a)
  end.

Definition onAnimationStart (h : Host) (a : AnimationBase) (elapsedTime : float)
  : AnimationBase :=
  match m_kind a with
  | IsImplicitAnimation _ => a
  | IsKeyframeAnimation d =>
      snd (sendAnimationEvent h d a webkitAnimationStartEvent elapsedTime)
  end.

Definition onAnimationIteration (h : Host) (a : AnimationBase)
    (elapsedTime : float) : AnimationBase :=
  match m_kind a with
  | IsImplicitAnimation _ => a
  | IsKeyframeAnimation d =>
      snd (sendAnimationEvent h d a webkitAnimationIterationEvent elapsedTime)
  end.

Definition onAnimationEnd (h : Host) (a : AnimationBase) (elapsedTime : float)
  : AnimationBase * list Effect :=
  match m_kind a with
  | IsImplicitAnimation d =>
      let '(sent, a') :=
        sendTransitionEvent h d a webkitTransitionEndEvent elapsedTime in
      if sent then (a', []) else (a', endAnimation a' true)
  | IsKeyframeAnimation d =>
      let '(sent, a') :=
        sendAnimationEvent h d a webkitAnimationEndEvent elapsedTime in
      if sent then (a', []) else (a', endAnimation a' true)
  end.

Definition overrideAnimations (a : AnimationBase) : list Effect :=
  match m_kind a with
  | IsImplicitAnimation _ => []
  | IsKeyframeAnimation d => map E_overrideImplicitAnimations (keyframeProperties d)
  end.

Definition resumeOverriddenAnimations (a : AnimationBase) : list Effect :=
  match m_kind a with
  | IsImplicitAnimation _ => []
  | IsKeyframeAnimation d =>
      map E_resumeOverriddenImplicitAnimations (keyframeProperties d)
  end.

(** *** Timing *)

Definition solveEpsilon (duration : float) : float :=
  (1 / (200 * duration))%float.

Definition solveCubicBezierFunction (p1x p1y p2x p2y t duration : float) : float :=
  UnitBezier_solve p1x p1y p2x p2y t (solveEpsilon duration).

Definition primeEventTimers (a : AnimationBase) (now : float) : AnimationBase :=
  let ct := now in
  let elapsedDuration := (ct - m_startTime a)%float in
  let anim := m_animation a in
  let totalDuration :=
    if 0 <? iterationCount anim
    then (duration anim * double_of_int (iterationCount anim))%float
    else (-1)%float in
  let '(durationLeft, nextIterationTime) :=
    if dlt totalDuration 0 || dlt elapsedDuration totalDuration then
      let durationLeft :=
        (duration anim - fmod elapsedDuration (duration anim))%float in
      (durationLeft, (elapsedDuration + durationLeft)%float)
    else (0%float, totalDuration) in
  if dlt totalDuration 0 || dlt nextIterationTime totalDuration then
    startTimerCallback (set_animState a STATE_LOOPING) durationLeft
      webkitAnimationIterationEvent nextIterationTime
  else
    startTimerCallback (set_animState a STATE_ENDING) durationLeft
      webkitAnimationEndEvent nextIterationTime.

Definition progress (a : AnimationBase) (scale offset : float) (now : float)
  : float :=
  if preactive a then 0%float
  else
    let elapsedTime :=
      if running a then (now - m_startTime a)%float
      else (m_pauseTime a - m_startTime a)%float in
    if running a && dlt elapsedTime 0 then 0%float
    else
      let anim := m_animation a in
      let dur := duration anim in
      let dur :=
        if 0 <? iterationCount anim
        then (dur * double_of_int (iterationCount anim))%float else dur in
      if postactive a || deq (duration anim) 0
         || ((0 <? iterationCount anim) && dge elapsedTime dur)
      then 1%float
      else
        let fractionalTime := (elapsedTime / duration anim)%float in
        let integralTime := double_to_int fractionalTime in
        let fractionalTime :=
          (fractionalTime - double_of_int integralTime)%float in
        let fractionalTime :=
          if direction anim && negb (Z.land integralTime 1 =? 0)
          then (1 - fractionalTime)%float else fractionalTime in
        let fractionalTime :=
          if dne scale 1 || dne offset 0
          then ((fractionalTime - offset) * scale)%float else fractionalTime in
        match tf_type (timingFunction anim) with
        | LinearTimingFunction => fractionalTime
        | CubicBezierTimingFunction =>
            solveCubicBezierFunction
              (tf_x1 (timingFunction anim)) (tf_y1 (timingFunction anim))
              (tf_x2 (timingFunction anim)) (tf_y2 (timingFunction anim))
              fractionalTime (duration anim)
        end.

(** *** The state machine

    [updateStateMachine] calls itself in five places, each time right after
    it has assigned [m_animState]; the two cases those calls reach are
    written first ([startFromNew] for [STATE_INPUT_START_ANIMATION] in
    [STATE_NEW], [startTimeSet] for [STATE_INPUT_START_TIME_SET] in
    [STATE_START_WAIT_RESPONSE]) and are also the bodies of these cases in
    the switch. *)

(** Case [STATE_NEW], input [START_ANIMATION] or [PLAY_STATE_RUNNING]. *)
Definition startFromNew (a : AnimationBase) : AnimationBase * list Effect :=
  let a := set_waitedForResponse a false in
  let a := set_animState a STATE_START_WAIT_TIMER in
  (startTimerCallback a (delay (m_animation a)) webkitAnimationStartEvent
     (delay (m_animation a)), []).

(** Case [STATE_START_WAIT_RESPONSE], input [START_TIME_SET]. *)
Definition startTimeSet (a : AnimationBase) (param now : float)
  : AnimationBase * list Effect :=
  let a := if dle (m_startTime a) 0 then set_startTime a param else a in
  let a := primeEventTimers a now in
  (a, [E_setChanged; E_startUpdateRenderingDispatcher]).

(** The pause branch shared by [STATE_LOOPING] and [STATE_ENDING]. *)
Definition pauseWhileRunning (a : AnimationBase) (now : float)
  : AnimationBase * list Effect :=
  let a := set_pauseTime a now in
  let a := cancelTimers a in
  let e := endAnimation a false in
  (set_animState a STATE_PAUSED_RUN, e).

Definition waitingEffect (a : AnimationBase) : list Effect :=
  if AnimState_eq (m_animState a) STATE_START_WAIT_STYLE_AVAILABLE
  then [E_setWaitingForStyleAvailable false] else [].

Definition updateStateMachine (h : Host) (a : AnimationBase)
    (input : AnimStateInput) (param now : float) : AnimationBase * list Effect :=
  match input with
  | STATE_INPUT_MAKE_NEW =>
      let e1 := waitingEffect a in
      let a := set_animState a STATE_NEW in
      let a := set_startTime a 0%float in
      let a := set_pauseTime a (-1)%float in
      let a := set_waitedForResponse a false in
      (a, e1 ++ endAnimation a false)
  | STATE_INPUT_RESTART_ANIMATION =>
      let a := cancelTimers a in
      let e1 := waitingEffect a in
      let a := set_animState a STATE_NEW in
      let a := set_startTime a 0%float in
      let a := set_pauseTime a (-1)%float in
      let e2 := endAnimation a false in
      if negb (paused a) then
        let '(a', e3) := startFromNew a in (a', e1 ++ e2 ++ e3)
      else (a, e1 ++ e2)
  | STATE_INPUT_END_ANIMATION =>
      let a := cancelTimers a in
      let e1 := waitingEffect a in
      let a := set_animState a STATE_DONE in
      (a, e1 ++ endAnimation a true)
  | STATE_INPUT_PAUSE_OVERRIDE =>
      if AnimState_eq (m_animState a) STATE_START_WAIT_RESPONSE then
        let e1 := endAnimation a false in
        let '(a', e2) := startTimeSet a now now in (a', e1 ++ e2)
      else (a, [])
  | STATE_INPUT_RESUME_OVERRIDE =>
      if AnimState_eq (m_animState a) STATE_LOOPING
         || AnimState_eq (m_animState a) STATE_ENDING
      then let _ := startAnimation a (m_startTime a) in (a, [])
      else (a, [])
  | _ =>
      match m_animState a with
      | STATE_NEW =>
          match input with
          | STATE_INPUT_START_ANIMATION | STATE_INPUT_PLAY_STATE_RUNNING =>
              startFromNew a
          | _ => (a, [])
          end
      | STATE_START_WAIT_TIMER =>
          match input with
          | STATE_INPUT_START_TIMER_FIRED =>
              (set_animState a STATE_START_WAIT_STYLE_AVAILABLE,
               [E_setWaitingForStyleAvailable true; E_setChanged;
                E_startUpdateRenderingDispatcher])
          | _ =>
              let a := set_pauseTime a now in
              let a := cancelTimers a in
              (set_animState a STATE_PAUSED_WAIT_TIMER, [])
          end
      | STATE_START_WAIT_STYLE_AVAILABLE =>
          let e1 := [E_setWaitingForStyleAvailable false] in
          match input with
          | STATE_INPUT_STYLE_AVAILABLE =>
              let a := set_animState a STATE_START_WAIT_RESPONSE in
              let e2 := overrideAnimations a in
              let a := onAnimationStart h a 0%float in
              if overridden a || negb (startAnimation a 0%float) then
                let a := set_animState a STATE_START_WAIT_RESPONSE in
                let '(a', e3) := startTimeSet a now now in
                (a', e1 ++ e2 ++ e3)
              else (set_waitedForResponse a true, e1 ++ e2)
          | _ =>
              let a := set_pauseTime a 0%float in
              (set_animState a STATE_START_WAIT_RESPONSE, e1)
          end
      | STATE_START_WAIT_RESPONSE =>
          match input with
          | STATE_INPUT_START_TIME_SET => startTimeSet a param now
          | _ =>
              let a := set_pauseTime a 0%float in
              let e := endAnimation a false in
              (set_animState a STATE_PAUSED_WAIT_RESPONSE, e)
          end
      | STATE_LOOPING =>
          match input with
          | STATE_INPUT_LOOP_TIMER_FIRED =>
              let a := onAnimationIteration h a param in
              (primeEventTimers a now, [])
          | _ => pauseWhileRunning a now
          end
      | STATE_ENDING =>
          match input with
          | STATE_INPUT_END_TIMER_FIRED =>
              let '(a, e1) := onAnimationEnd h a param in
              let e2 := resumeOverriddenAnimations a in
              (set_animState a STATE_DONE,
               e1 ++ e2 ++ [E_setChanged; E_startUpdateRenderingDispatcher])
          | _ => pauseWhileRunning a now
          end
      | STATE_PAUSED_WAIT_TIMER =>
          let a := set_startTime a (m_startTime a + (now - m_pauseTime a))%float in
          let a := set_pauseTime a (-1)%float in
          let a := set_animState a STATE_NEW in
          startFromNew a
      | STATE_PAUSED_WAIT_RESPONSE | STATE_PAUSED_RUN =>
          let a :=
            if AnimState_eq (m_animState a) STATE_PAUSED_RUN
            then set_startTime a (m_startTime a + (now - m_pauseTime a))%float
            else set_startTime a 0%float in
          let a := set_pauseTime a (-1)%float in
          let a := set_animState a STATE_START_WAIT_RESPONSE in
          if overridden a || negb (startAnimation a (m_startTime a)) then
            startTimeSet a now now
          else (set_waitedForResponse a true, [])
      | STATE_DONE => (a, [])
      end
  end.

(** [animationTimerCallbackFired] *)
Definition animationTimerCallbackFired (h : Host) (a : AnimationBase)
    (eventType : option EventType) (elapsedTime now : float)
  : AnimationBase * list Effect :=
  match eventType with
  | Some webkitAnimationStartEvent =>
      updateStateMachine h a STATE_INPUT_START_TIMER_FIRED elapsedTime now
  | Some webkitAnimationIterationEvent =>
      updateStateMachine h a STATE_INPUT_LOOP_TIMER_FIRED elapsedTime now
  | Some webkitAnimationEndEvent =>
      updateStateMachine h a STATE_INPUT_END_TIMER_FIRED elapsedTime now
  | _ => (a, [])
  end.

(** [updatePlayState] *)
Definition updatePlayState (h : Host) (a : AnimationBase) (run : bool)
    (now : float) : AnimationBase * list Effect :=
  if Bool.eqb (paused a) run || isnew a then
    updateStateMachine h a
      (if run then STATE_INPUT_PLAY_STATE_RUNNING
       else STATE_INPUT_PLAY_STATE_PAUSED) (-1)%float now
  else (a, []).

(** [AnimationBase::isAnimatingProperty] *)
Definition isAnimatingProperty_anim (a : AnimationBase) (prop : Z)
    (isRunningNow : bool) : bool :=
  if isRunningNow then
    (negb (waitingToStart a) && negb (postactive a)) && affectsProperty a prop
  else negb (postactive a) && affectsProperty a prop.

(** [animationEventDispatcherFired]: the event is handed to the element;
    after an animation-end event the element is marked for a style change. *)
Definition animationEventDispatcherFired (a : AnimationBase) (element : bool)
    (eventType : option EventType) : AnimationBase * list Effect :=
  let a := set_waitingForEndEvent a false in
  if negb element then (a, [])
  else
    match eventType with
    | Some webkitAnimationEndEvent => (a, [E_setChanged])
    | _ => (a, [])
    end.

(* ================================================================= *)
(** ** The store of styles

    Styles are reached through pointers; the store maps an address to the
    contents of the style that lives there.  Reference counts are not
    modelled: a style stays in the store. *)

Definition StyleStore := list RenderStyle.

Definition style_deref (store : StyleStore) (p : StylePtr) : option RenderStyle :=
  nth_error store p.

Definition style_deref_opt (store : StyleStore) (p : option StylePtr)
  : option RenderStyle :=
  match p with
  | Some p => style_deref store p
  | None => None
  end.

(** [new RenderStyle(s)] *)
Definition style_alloc (store : StyleStore) (s : RenderStyle)
  : StylePtr * StyleStore :=
  (List.length store, store ++ [s]).

Definition style_write (store : StyleStore) (p : StylePtr) (s : RenderStyle)
  : StyleStore :=
  if Nat.ltb p (List.length store)
  then firstn p store ++ s :: skipn (S p) store
  else store.

(** When [animatedStyle] is still null, it becomes a new copy of the
    target style. *)
Definition ensureAnimatedStyle (store : StyleStore) (targetStyle : StylePtr)
    (animatedStyle : option StylePtr) : option (StylePtr * StyleStore) :=
  match animatedStyle with
  | Some p => Some (p, store)
  | None =>
      match style_deref store targetStyle with
      | Some t => Some (style_alloc store t)
      | None => None
      end
  end.

(* ================================================================= *)
(** ** ImplicitAnimation *)

Definition ImplicitAnimation_new (transition : Animation) (animatingProperty : Z)
  : AnimationBase :=
  AnimationBase_new transition
    (IsImplicitAnimation
       {| m_transitionProperty := property transition;
          m_animatingProperty := animatingProperty;
          m_overridden := false; m_fromStyle := None; m_toStyle := None |}).

Definition animatingProperty (a : AnimationBase) : Z :=
  match m_kind a with
  | IsImplicitAnimation d => m_animatingProperty d
  | IsKeyframeAnimation _ => CSSPropertyInvalid
  end.

Definition hasStyle (a : AnimationBase) : bool :=
  match m_kind a with
  | IsImplicitAnimation d =>
      match m_fromStyle d, m_toStyle d with
      | Some _, Some _ => true
      | _, _ => false
      end
  | IsKeyframeAnimation _ => false
  end.

(** [reset(renderer, from, to)]; the default of [AnimationBase] does
    nothing. *)
Definition reset (h : Host) (a : AnimationBase) (from to : option StylePtr)
    (now : float) : AnimationBase * list Effect :=
  match m_kind a with
  | IsImplicitAnimation d =>
      let a :=
        set_kind a
          (IsImplicitAnimation
             {| m_transitionProperty := m_transitionProperty d;
                m_animatingProperty := m_animatingProperty d;
                m_overridden := m_overridden d;
                m_fromStyle := from; m_toStyle := to |}) in
      match from, to with
      | Some _, Some _ =>
          updateStateMachine h a STATE_INPUT_RESTART_ANIMATION (-1)%float now
      | _, _ => (a, [])
      end
  | IsKeyframeAnimation _ => (a, [])
  end.

Definition setOverridden (h : Host) (a : AnimationBase) (b : bool) (now : float)
  : AnimationBase * list Effect :=
  match m_kind a with
  | IsImplicitAnimation d =>
      if negb (Bool.eqb b (m_overridden d)) then
        let a :=
          set_kind a
            (IsImplicitAnimation
               {| m_transitionProperty := m_transitionProperty d;
                  m_animatingProperty := m_animatingProperty d;
                  m_overridden := b;
                  m_fromStyle := m_fromStyle d; m_toStyle := m_toStyle d |}) in
        updateStateMachine h a
          (if b then STATE_INPUT_PAUSE_OVERRIDE else STATE_INPUT_RESUME_OVERRIDE)
          (-1)%float now
      else (a, [])
  | IsKeyframeAnimation _ => (a, [])
  end.

Definition isTargetPropertyEqual (pm : PropertyMap) (store : StyleStore)
    (a : AnimationBase) (prop : Z) (targetStyle : StylePtr) : option bool :=
  match m_kind a with
  | IsImplicitAnimation d =>
      propertiesEqual pm prop (style_deref_opt store (m_toStyle d))
        (style_deref store targetStyle)
  | IsKeyframeAnimation _ => None
  end.

(** The destructor of an animation: an animation that is not yet done is
    given [STATE_INPUT_END_ANIMATION] first. *)
Definition destroyAnimation (h : Host) (a : AnimationBase) (now : float)
  : list Effect :=
  if negb (postactive a) then
    snd (updateStateMachine h a STATE_INPUT_END_ANIMATION (-1)%float now)
  else [].

(** The result of [animate] on one animation: the animation, the store, the
    pointer [animatedStyle] and the effects. *)
Definition AnimateResult : Type :=
  AnimationBase * StyleStore * option StylePtr * list Effect.

Definition ImplicitAnimation_animate (pm : PropertyMap) (h : Host)
    (a : AnimationBase) (store : StyleStore)
    (currentStyle targetStyle : StylePtr) (animatedStyle : option StylePtr)
    (now : float) : option AnimateResult :=
  if paused a then Some (a, store, animatedStyle, [])
  else if postactive a then Some (a, store, animatedStyle, [])
  else
    let '(a, e) :=
      if isnew a then reset h a (Some currentStyle) (Some targetStyle) now
      else (a, []) in
    match ensureAnimatedStyle store targetStyle animatedStyle with
    | None => None
    | Some (p, store) =>
        let prog := progress a 1%float 0%float now in
        match m_kind a, style_deref store p with
        | IsImplicitAnimation d, Some dst =>
            match blendProperties pm (m_animatingProperty d) dst
                    (style_deref_opt store (m_fromStyle d))
                    (style_deref_opt store (m_toStyle d)) prog with
            | Some (needsAnim, dst') =>
                Some (if needsAnim then setAnimating a true else a,
                      style_write store p dst', Some p, e)
            | None => None
            end
        | _, _ => None
        end
    end.

(* ================================================================= *)
(** ** KeyframeAnimation *)

Definition KeyframeAnimation_new (animation : Animation) (index : Z)
  : AnimationBase :=
  AnimationBase_new animation
    (IsKeyframeAnimation
       {| m_keyframes := keyframeList animation;
          m_name := name animation; m_index := index |}).

Definition kf_name (a : AnimationBase) : string :=
  match m_kind a with
  | IsKeyframeAnimation d => m_name d
  | IsImplicitAnimation _ => EmptyString
  end.

Definition index (a : AnimationBase) : Z :=
  match m_kind a with
  | IsKeyframeAnimation d => m_index d
  | IsImplicitAnimation _ => 0
  end.

(** The loop of [KeyframeAnimation::animate] that looks for the pair of
    keyframes around [t]: the styles found, and [scale] and [offset]. *)
Fixpoint findKeyframes (kfs : list (KeyframeValue RenderStyle)) (t : float)
    (fromStyle : option RenderStyle) (scale offset : float)
  : option RenderStyle * option RenderStyle * float * float :=
  match kfs with
  | [] => (fromStyle, None, scale, offset)
  | it :: rest =>
      if dlt t (kf_key it) then
        match fromStyle with
        | None => (None, None, scale, offset)
        | Some _ =>
            (fromStyle, Some (kf_style it),
             (1 / (kf_key it - offset))%float, offset)
        end
      else findKeyframes rest t (Some (kf_style it)) scale (kf_key it)
  end.

(** The fractional time [t] that [KeyframeAnimation::animate] computes. *)
Definition keyframeTime (a : AnimationBase) (now : float) : float :=
  let elapsedTime :=
    if dgt (m_startTime a) 0
    then ((if negb (paused a) then now else m_pauseTime a) - m_startTime a)%float
    else 0%float in
  let elapsedTime := if dlt elapsedTime 0 then 0%float else elapsedTime in
  let t :=
    if dne (duration (m_animation a)) 0
    then (elapsedTime / duration (m_animation a))%float else 1%float in
  let i := double_to_int t in
  let t := (t - double_of_int i)%float in
  if direction (m_animation a) && negb (Z.land i 1 =? 0)
  then (1 - t)%float else t.

(** The last loop of [KeyframeAnimation::animate]: one blend for each
    property of the keyframe list. *)
Fixpoint blendKeyframeProperties (pm : PropertyMap) (props : list Z)
    (a : AnimationBase) (dst : RenderStyle) (fromStyle toStyle : RenderStyle)
    (prog : float) : option (AnimationBase * RenderStyle) :=
  match props with
  | [] => Some (a, dst)
  | p :: rest =>
      match blendProperties pm p dst (Some fromStyle) (Some toStyle) prog with
      | Some (needsAnim, dst') =>
          blendKeyframeProperties pm rest
            (if needsAnim then setAnimating a true else a) dst'
            fromStyle toStyle prog
      | None => None
      end
  end.

Definition KeyframeAnimation_animate (pm : PropertyMap) (h : Host)
    (a : AnimationBase) (store : StyleStore)
    (currentStyle : option StylePtr) (targetStyle : StylePtr)
    (animatedStyle : option StylePtr) (now : float) : option AnimateResult :=
  match m_kind a with
  | IsImplicitAnimation _ => None
  | IsKeyframeAnimation d =>
      let '(a, e1) :=
        if isnew a
           && EAnimPlayState_eq (playState (m_animation a)) AnimPlayStatePlaying
        then updateStateMachine h a STATE_INPUT_START_ANIMATION (-1)%float now
        else (a, []) in
      if postactive a then
        Some (a, store,
              match animatedStyle with
              | Some p => Some p
              | None => Some targetStyle
              end, e1)
      else if waitingToStart a && dgt (delay (m_animation a)) 0 then
        Some (a, store, animatedStyle, e1)
      else
        let t := keyframeTime a now in
        let '(fromStyle, toStyle, scale, offset) :=
          match m_keyframes d with
          | Some k => findKeyframes (keyframes k) t None 1%float 0%float
          | None => (None, None, 1%float, 0%float)
          end in
        match fromStyle, toStyle with
        | Some fromStyle, Some toStyle =>
            match ensureAnimatedStyle store targetStyle animatedStyle with
            | None => None
            | Some (p, store) =>
                let prog := progress a scale offset now in
                match style_deref store p with
                | None => None
                | Some dst =>
                    match blendKeyframeProperties pm (keyframeProperties d) a
                            dst fromStyle toStyle prog with
                    | Some (a, dst') =>
                        Some (a, style_write store p dst', Some p, e1)
                    | None => None
                    end
                end
            end
        | _, _ =>
            let '(a, e2) :=
              updateStateMachine h a STATE_INPUT_END_ANIMATION (-1)%float now in
            Some (a, store, animatedStyle, e1 ++ e2)
        end
  end.

(* ================================================================= *)
(** ** CompositeAnimation

    A hash map is kept as the list of its entries in iteration order, with
    at most one entry for a key; a new key goes to the end. *)

Section HashMap.
Context {K V : Type} (eqb : K -> K -> bool).

Fixpoint map_get (m : list (K * V)) (k : K) : option V :=
  match m with
  | [] => None
  | (k', v) :: m' => if eqb k' k then Some v else map_get m' k
  end.

Fixpoint map_set (m : list (K * V)) (k : K) (v : V) : list (K * V) :=
  match m with
  | [] => [(k, v)]
  | (k', v') :: m' =>
      if eqb k' k then (k', v) :: m' else (k', v') :: map_set m' k v
  end.

Fixpoint map_remove (m : list (K * V)) (k : K) : list (K * V) :=
  match m with
  | [] => []
  | (k', v') :: m' =>
      if eqb k' k then map_remove m' k else (k', v') :: map_remove m' k
  end.
End HashMap.

(** A loop whose body can fail. *)
Fixpoint fold_option {A B : Type} (f : A -> B -> option A) (l : list B) (a : A)
  : option A :=
  match l with
  | [] => Some a
  | b :: l' =>
      match f a b with
      | Some a' => fold_option f l' a'
      | None => None
      end
  end.

Record CompositeAnimation := {
  m_transitions : list (Z * AnimationBase);
  m_keyframeAnimations : list (string * AnimationBase);
  m_suspended : bool;
  m_numStyleAvailableWaiters : Z
}.

Definition CompositeAnimation_new : CompositeAnimation :=
  {| m_transitions := []; m_keyframeAnimations := []; m_suspended := false;
     m_numStyleAvailableWaiters := 0 |}.

(** The calls that a pass makes on the animations, in program order. *)
Inductive Call :=
  | C_newImplicitAnimation (prop : Z)
  | C_deleteImplicitAnimation (prop : Z)
  | C_animateTransition (prop : Z)
  | C_animateKeyframe (nm : string)
  | C_styleAvailableKeyframe (nm : string) (idx : Z)
  | C_styleAvailableTransition (prop : Z).

(** What a method of [CompositeAnimation] works on: the object itself, the
    store of styles, and what it has asked of the host and of the
    controller ([w_effects]) and called on its animations ([w_calls]). *)
Record World := {
  w_comp : CompositeAnimation;
  w_store : StyleStore;
  w_effects : list Effect;
  w_calls : list Call
}.

Definition with_transitions (w : World) (ts : list (Z * AnimationBase)) : World :=
  {| w_comp :=
       {| m_transitions := ts;
          m_keyframeAnimations := m_keyframeAnimations (w_comp w);
          m_suspended := m_suspended (w_comp w);
          m_numStyleAvailableWaiters := m_numStyleAvailableWaiters (w_comp w) |};
     w_store := w_store w; w_effects := w_effects w; w_calls := w_calls w |}.

Definition with_keyframeAnimations (w : World)
    (ks : list (string * AnimationBase)) : World :=
  {| w_comp :=
       {| m_transitions := m_transitions (w_comp w);
          m_keyframeAnimations := ks;
          m_suspended := m_suspended (w_comp w);
          m_numStyleAvailableWaiters := m_numStyleAvailableWaiters (w_comp w) |};
     w_store := w_store w; w_effects := w_effects w; w_calls := w_calls w |}.

Definition with_waiters (w : World) (n : Z) : World :=
  {| w_comp :=
       {| m_transitions := m_transitions (w_comp w);
          m_keyframeAnimations := m_keyframeAnimations (w_comp w);
          m_suspended := m_suspended (w_comp w);
          m_numStyleAvailableWaiters := n |};
     w_store := w_store w; w_effects := w_effects w; w_calls := w_calls w |}.

Definition with_store (w : World) (s : StyleStore) : World :=
  {| w_comp := w_comp w; w_store := s; w_effects := w_effects w;
     w_calls := w_calls w |}.

Definition add_effect (w : World) (e : Effect) : World :=
  {| w_comp := w_comp w; w_store := w_store w;
     w_effects := w_effects w ++ [e]; w_calls := w_calls w |}.

Definition add_call (w : World) (c : Call) : World :=
  {| w_comp := w_comp w; w_store := w_store w; w_effects := w_effects w;
     w_calls := w_calls w ++ [c] |}.

(** [CompositeAnimation::setWaitingForStyleAvailable]: the counter of the
    object, then the same call on the controller. *)
Definition setWaitingForStyleAvailable (w : World) (waiting : bool) : World :=
  let n := m_numStyleAvailableWaiters (w_comp w) in
  add_effect
    (with_waiters w (wrap_uint32 (if waiting then n + 1 else n - 1)))
    (E_setWaitingForStyleAvailable waiting).

(** An effect of an animation that does not reach its siblings. *)
Definition hostEffect (w : World) (e : Effect) : World :=
  match e with
  | E_setWaitingForStyleAvailable waiting => setWaitingForStyleAvailable w waiting
  | _ => add_effect w e
  end.

(** The loop of [overrideImplicitAnimations] (for [b] true) and of
    [resumeOverriddenImplicitAnimations] (for [b] false). *)
Fixpoint setOverriddenAll (h : Host) (ts : list (Z * AnimationBase))
    (prop : Z) (b : bool) (now : float)
  : list (Z * AnimationBase) * list Effect :=
  match ts with
  | [] => ([], [])
  | (k, anim) :: rest =>
      let '(anim', e1) :=
        if animatingProperty anim =? prop then setOverridden h anim b now
        else (anim, []) in
      let '(rest', e2) := setOverriddenAll h rest prop b now in
      ((k, anim') :: rest', e1 ++ e2)
  end.

(** What the owner does with one effect of one of its animations. *)
Definition childEffect (h : Host) (now : float) (w : World) (e : Effect) : World :=
  match e with
  | E_overrideImplicitAnimations p =>
      let '(ts, es) :=
        setOverriddenAll h (m_transitions (w_comp w)) p true now in
      fold_left hostEffect es (with_transitions w ts)
  | E_resumeOverriddenImplicitAnimations p =>
      let '(ts, es) :=
        setOverriddenAll h (m_transitions (w_comp w)) p false now in
      fold_left hostEffect es (with_transitions w ts)
  | _ => hostEffect w e
  end.

Definition childEffects (h : Host) (now : float) (es : list Effect) (w : World)
  : World :=
  fold_left (childEffect h now) es w.

(** *** updateTransitions *)

(** The body of the inner loop of [updateTransitions], for one property. *)
Definition updateTransitionFor (pm : PropertyMap) (h : Host) (now : float)
    (currentStyle targetStyle : StylePtr) (anim : Animation)
    (w : World) (prop : Z) : option World :=
  let create (w : World) :=
    add_call
      (with_transitions w
         (map_set Z.eqb (m_transitions (w_comp w)) prop
            (ImplicitAnimation_new anim prop)))
      (C_newImplicitAnimation prop) in
  match map_get Z.eqb (m_transitions (w_comp w)) prop with
  | Some implAnim =>
      match isTargetPropertyEqual pm (w_store w) implAnim prop targetStyle with
      | None => None
      | Some true => Some w
      | Some false =>
          let '(implAnim, e1) := reset h implAnim None None now in
          let e2 := destroyAnimation h implAnim now in
          let w := childEffects h now (e1 ++ e2) w in
          let w :=
            add_call
              (with_transitions w
                 (map_remove Z.eqb (m_transitions (w_comp w)) prop))
              (C_deleteImplicitAnimation prop) in
          Some (create w)
      end
  | None =>
      match propertiesEqual pm prop (style_deref (w_store w) currentStyle)
              (style_deref (w_store w) targetStyle) with
      | None => None
      | Some true => Some w
      | Some false => Some (create w)
      end
  end.

(** The properties that the inner loop visits: every registered property
    for [cAnimateAll], the declared property otherwise. *)
Definition transitionProperties (pm : PropertyMap) (anim : Animation) : list Z :=
  if property anim =? cAnimateAll
  then map (fun i => getPropertyAtIndex pm (Z.of_nat i))
           (seq 0 (Z.to_nat (getNumProperties pm)))
  else [property anim].

(** The body of the outer loop of [updateTransitions], for one declared
    transition. *)
Definition updateTransitionsFor (pm : PropertyMap) (h : Host) (now : float)
    (currentStyle targetStyle : StylePtr) (w : World) (anim : Animation)
  : option World :=
  if deq (duration anim) 0 && dle (delay anim) 0 then Some w
  else
    fold_option (updateTransitionFor pm h now currentStyle targetStyle anim)
      (transitionProperties pm anim) w.

Definition updateTransitions (pm : PropertyMap) (h : Host) (now : float)
    (currentStyle : option StylePtr) (targetStyle : StylePtr) (w : World)
  : option World :=
  match currentStyle with
  | None => Some w
  | Some currentStyle =>
      match style_deref (w_store w) targetStyle with
      | None => None
      | Some target =>
          match transitions target with
          | None => Some w
          | Some l =>
              fold_option
                (updateTransitionsFor pm h now currentStyle targetStyle) l w
          end
      end
  end.

(** *** updateKeyframeAnimations *)

Definition TimingFunction_eq (a b : TimingFunction) : bool :=
  match tf_type a, tf_type b with
  | LinearTimingFunction, LinearTimingFunction => true
  | CubicBezierTimingFunction, CubicBezierTimingFunction =>
      deq (tf_x1 a) (tf_x1 b) && deq (tf_y1 a) (tf_y1 b)
      && deq (tf_x2 a) (tf_x2 b) && deq (tf_y2 a) (tf_y2 b)
  | _, _ => false
  end.

(** Modelled from the spec: [Animation::animationsMatch] and the equality of
    two animation lists, which are not defined in the source.  Two
    declarations match when they agree on everything but the play state;
    two lists are equal when they agree entry by entry, play state
    included. *)
Definition animationsMatch (a b : Animation) : bool :=
  deq (duration a) (duration b) && deq (delay a) (delay b)
  && (iterationCount a =? iterationCount b)
  && Bool.eqb (direction a) (direction b)
  && TimingFunction_eq (timingFunction a) (timingFunction b)
  && (property a =? property b) && String.eqb (name a) (name b).

Fixpoint AnimationList_eq (l1 l2 : list Animation) : bool :=
  match l1, l2 with
  | [], [] => true
  | a :: l1', b :: l2' =>
      animationsMatch a b && EAnimPlayState_eq (playState a) (playState b)
      && AnimationList_eq l1' l2'
  | _, _ => false
  end.

(** The body of the first loop of [updateKeyframeAnimations]: the state is
    the world and the flag [animsChanged]. *)
Definition matchKeyframeAnimation (h : Host) (now : float)
    (st : World * bool) (anim : Animation) : World * bool :=
  let '(w, animsChanged) := st in
  if negb (isValidAnimation anim) then (w, true)
  else
    match map_get String.eqb (m_keyframeAnimations (w_comp w)) (name anim) with
    | None => (w, true)
    | Some kfAnim =>
        if negb (animationsMatch (m_animation kfAnim) anim) then (w, true)
        else
          let '(kfAnim, es) :=
            updatePlayState h kfAnim
              (EAnimPlayState_eq (playState anim) AnimPlayStatePlaying) now in
          let kfAnim := setAnimation kfAnim anim in
          let w :=
            with_keyframeAnimations w
              (map_set String.eqb (m_keyframeAnimations (w_comp w))
                 (name anim) kfAnim) in
          (childEffects h now es w, animsChanged)
    end.

(** [resetAnimations]: every keyframe animation is deleted. *)
Definition resetAnimations (h : Host) (now : float) (w : World) : World :=
  let es :=
    flat_map (fun e => destroyAnimation h (snd e) now)
      (m_keyframeAnimations (w_comp w)) in
  with_keyframeAnimations (childEffects h now es w) [].

(** The body of the last loop of [updateKeyframeAnimations]: the state is
    the world and the next index. *)
Definition addKeyframeAnimation (st : World * Z) (anim : Animation) : World * Z :=
  let '(w, idx) := st in
  if negb (isValidAnimation anim) then (w, idx)
  else if (dne (duration anim) 0 || dne (delay anim) 0)
          && negb (iterationCount anim =? 0)
          && match keyframeList anim with
             | Some k => match keyframes k with [] => false | _ => true end
             | None => false
             end
  then
    let kfanim := KeyframeAnimation_new anim idx in
    (with_keyframeAnimations w
       (map_set String.eqb (m_keyframeAnimations (w_comp w))
          (kf_name kfanim) kfanim),
     wrap_int (idx + 1))
  else (w, idx).

Definition updateKeyframeAnimations (h : Host) (now : float)
    (currentStyle : option StylePtr) (targetStyle : StylePtr) (w : World)
  : option World :=
  match style_deref (w_store w) targetStyle with
  | None => None
  | Some target =>
      let noKeyframeAnimations :=
        match m_keyframeAnimations (w_comp w) with [] => true | _ => false end in
      if noKeyframeAnimations && negb (hasAnimations target) then Some w
      else
        let same :=
          match currentStyle with
          | None => Some false
          | Some c =>
              match style_deref (w_store w) c with
              | None => None
              | Some current =>
                  Some (hasAnimations current && hasAnimations target
                        && match animations current, animations target with
                           | Some l1, Some l2 => AnimationList_eq l1 l2
                           | _, _ => false
                           end)
              end
          end in
        match same with
        | None => None
        | Some true => Some w
        | Some false =>
            let declared :=
              match animations target with Some l => l | None => [] end in
            let '(w, animsChanged) :=
              fold_left (matchKeyframeAnimation h now) declared (w, false) in
            let numAnims := Z.of_nat (List.length declared) in
            let animsChanged :=
              animsChanged
              || negb (Z.of_nat (List.length (m_keyframeAnimations (w_comp w)))
                       =? numAnims) in
            if negb animsChanged then Some w
            else
              let w := resetAnimations h now w in
              match animations target with
              | None => Some w
              | Some l => Some (fst (fold_left addKeyframeAnimation l (w, 0)))
              end
        end
  end.

(** *** animate *)

(** One turn of the loop over the transitions: the state is the world and
    the pointer [resultStyle]. *)
Definition animateTransition (pm : PropertyMap) (h : Host) (now : float)
    (currentStyle targetStyle : StylePtr)
    (st : World * option StylePtr) (key : Z) : option (World * option StylePtr) :=
  let '(w, resultStyle) := st in
  match map_get Z.eqb (m_transitions (w_comp w)) key with
  | None => Some (w, resultStyle)
  | Some anim =>
      match ImplicitAnimation_animate pm h anim (w_store w) currentStyle
              targetStyle resultStyle now with
      | None => None
      | Some (anim', store', resultStyle', es) =>
          let w := add_call w (C_animateTransition key) in
          let w :=
            with_store
              (with_transitions w
                 (map_set Z.eqb (m_transitions (w_comp w)) key anim')) store' in
          Some (childEffects h now es w, resultStyle')
      end
  end.

(** One turn of the loop over the declared animations. *)
Definition animateKeyframe (pm : PropertyMap) (h : Host) (now : float)
    (currentStyle : option StylePtr) (targetStyle : StylePtr)
    (st : World * option StylePtr) (anim : Animation)
  : option (World * option StylePtr) :=
  let '(w, resultStyle) := st in
  if isValidAnimation anim then
    match map_get String.eqb (m_keyframeAnimations (w_comp w)) (name anim) with
    | None => Some (w, resultStyle)
    | Some keyframeAnim =>
        match KeyframeAnimation_animate pm h keyframeAnim (w_store w)
                currentStyle targetStyle resultStyle now with
        | None => None
        | Some (keyframeAnim', store', resultStyle', es) =>
            let w := add_call w (C_animateKeyframe (name anim)) in
            let w :=
              with_store
                (with_keyframeAnimations w
                   (map_set String.eqb (m_keyframeAnimations (w_comp w))
                      (name anim) keyframeAnim')) store' in
            Some (childEffects h now es w, resultStyle')
        end
    end
  else Some (w, resultStyle).

(** [cleanupFinishedAnimations] *)
Definition cleanupFinishedAnimations (h : Host) (now : float) (w : World)
  : World :=
  if m_suspended (w_comp w) then w
  else
    let finished (a : AnimationBase) :=
      postactive a && negb (waitingForEndEvent a) in
    let finishedTransitions :=
      map (fun e => animatingProperty (snd e))
        (filter (fun e => finished (snd e)) (m_transitions (w_comp w))) in
    let w :=
      fold_left
        (fun w p =>
           let w :=
             match map_get Z.eqb (m_transitions (w_comp w)) p with
             | Some anim =>
                 let '(anim, e1) := reset h anim None None now in
                 add_call
                   (childEffects h now (e1 ++ destroyAnimation h anim now) w)
                   (C_deleteImplicitAnimation p)
             | None => w
             end in
           with_transitions w (map_remove Z.eqb (m_transitions (w_comp w)) p))
        finishedTransitions w in
    let finishedAnimations :=
      map (fun e => kf_name (snd e))
        (filter (fun e => finished (snd e)) (m_keyframeAnimations (w_comp w))) in
    fold_left
      (fun w n =>
         let w :=
           match map_get String.eqb (m_keyframeAnimations (w_comp w)) n with
           | Some kfanim =>
               let '(kfanim, e1) := reset h kfanim None None now in
               childEffects h now (e1 ++ destroyAnimation h kfanim now) w
           | None => w
           end in
         with_keyframeAnimations w
           (map_remove String.eqb (m_keyframeAnimations (w_comp w)) n))
      finishedAnimations w.

(** [CompositeAnimation::animate]: the world after the pass and the pointer
    it returns. *)
Definition CompositeAnimation_animate (pm : PropertyMap) (h : Host)
    (now : float) (currentStyle : option StylePtr) (targetStyle : StylePtr)
    (w : World) : option (World * StylePtr) :=
  let resultStyle : option StylePtr := None in
  match updateTransitions pm h now currentStyle targetStyle w with
  | None => None
  | Some w =>
      match
        match currentStyle with
        | Some c =>
            fold_option (animateTransition pm h now c targetStyle)
              (map fst (m_transitions (w_comp w))) (w, resultStyle)
        | None => Some (w, resultStyle)
        end
      with
      | None => None
      | Some (w, resultStyle) =>
          match updateKeyframeAnimations h now currentStyle targetStyle w with
          | None => None
          | Some w =>
              match style_deref (w_store w) targetStyle with
              | None => None
              | Some target =>
                  match
                    if hasAnimations target then
                      fold_option
                        (animateKeyframe pm h now currentStyle targetStyle)
                        (match animations target with
                         | Some l => l
                         | None => []
                         end) (w, resultStyle)
                    else Some (w, resultStyle)
                  with
                  | None => None
                  | Some (w, resultStyle) =>
                      let w := cleanupFinishedAnimations h now w in
                      Some (w, match resultStyle with
                               | Some p => p
                               | None => targetStyle
                               end)
                  end
              end
          end
      end
  end.

(** *** styleAvailable *)

(** Insertion of [a] in a list sorted by index, before the first entry that
    does not come before it. *)
Fixpoint insertByIndex (a : string * AnimationBase)
    (l : list (string * AnimationBase)) : list (string * AnimationBase) :=
  match l with
  | [] => [a]
  | b :: l' =>
      if index (snd a) <=? index (snd b) then a :: b :: l'
      else b :: insertByIndex a l'
  end.

(** [std::stable_sort] with [compareAnimationIndices]. *)
Definition stable_sort_by_index (l : list (string * AnimationBase))
  : list (string * AnimationBase) :=
  fold_right insertByIndex [] l.

Definition styleAvailableKeyframe (h : Host) (now : float) (w : World)
    (key : string) : World :=
  match map_get String.eqb (m_keyframeAnimations (w_comp w)) key with
  | None => w
  | Some anim =>
      if waitingForStyleAvailable anim then
        let '(anim', es) :=
          updateStateMachine h anim STATE_INPUT_STYLE_AVAILABLE (-1)%float now in
        let w := add_call w (C_styleAvailableKeyframe key (index anim)) in
        childEffects h now es
          (with_keyframeAnimations w
             (map_set String.eqb (m_keyframeAnimations (w_comp w)) key anim'))
      else w
  end.

Definition styleAvailableTransition (h : Host) (now : float) (w : World)
    (key : Z) : World :=
  match map_get Z.eqb (m_transitions (w_comp w)) key with
  | None => w
  | Some anim =>
      if waitingForStyleAvailable anim then
        let '(anim', es) :=
          updateStateMachine h anim STATE_INPUT_STYLE_AVAILABLE (-1)%float now in
        let w := add_call w (C_styleAvailableTransition key) in
        childEffects h now es
          (with_transitions w
             (map_set Z.eqb (m_transitions (w_comp w)) key anim'))
      else w
  end.

Definition CompositeAnimation_styleAvailable (h : Host) (now : float)
    (w : World) : World :=
  if m_numStyleAvailableWaiters (w_comp w) =? 0 then w
  else
    let animations := m_keyframeAnimations (w_comp w) in
    let animations :=
      if Nat.ltb 1 (List.length animations)
      then stable_sort_by_index animations else animations in
    let w := fold_left (styleAvailableKeyframe h now) (map fst animations) w in
    fold_left (styleAvailableTransition h now)
      (map fst (m_transitions (w_comp w))) w.

(** [AnimationTimerCallback::timerFired] for the keyframe animation under
    [key]: the timer hands the animation the event it was armed with. *)
Definition timerFiredKeyframe (h : Host) (now : float) (w : World)
    (key : string) : World :=
  match map_get String.eqb (m_keyframeAnimations (w_comp w)) key with
  | None => w
  | Some anim =>
      let tc := m_animationTimerCallback anim in
      let '(anim', es) :=
        animationTimerCallbackFired h anim (tc_eventType tc)
          (tc_elapsedTime tc) now in
      childEffects h now es
        (with_keyframeAnimations w
           (map_set String.eqb (m_keyframeAnimations (w_comp w)) key anim'))
  end.

(** *** Queries *)

Definition CompositeAnimation_isAnimatingProperty (c : CompositeAnimation)
    (prop : Z) (isRunningNow : bool) : bool :=
  existsb (fun e => isAnimatingProperty_anim (snd e) prop isRunningNow)
    (m_keyframeAnimations c)
  || existsb (fun e => isAnimatingProperty_anim (snd e) prop isRunningNow)
       (m_transitions c).

Definition CompositeAnimation_animating (c : CompositeAnimation) : bool :=
  existsb (fun e => animating (snd e) && running (snd e)) (m_transitions c)
  || existsb (fun e => negb (paused (snd e)) && animating (snd e)
                       && active (snd e)) (m_keyframeAnimations c).

Definition CompositeAnimation_setAnimating (c : CompositeAnimation)
    (inAnimating : bool) : CompositeAnimation :=
  {| m_transitions :=
       map (fun e => (fst e, setAnimating (snd e) inAnimating)) (m_transitions c);
     m_keyframeAnimations :=
       map (fun e => (fst e, setAnimating (snd e) inAnimating))
         (m_keyframeAnimations c);
     m_suspended := m_suspended c;
     m_numStyleAvailableWaiters := m_numStyleAvailableWaiters c |}.

(** [CompositeAnimation::hasAnimationForProperty] *)
Definition hasAnimationForProperty (c : CompositeAnimation) (prop : Z) : bool :=
  match map_get Z.eqb (m_transitions c) prop with
  | Some _ => true
  | None => false
  end.

(** [CompositeAnimation::findKeyframeAnimation] *)
Definition findKeyframeAnimation (c : CompositeAnimation) (nm : string)
  : option AnimationBase :=
  map_get String.eqb (m_keyframeAnimations c) nm.

(** *** resetTransitions and the destructor *)

(** [resetTransitions]: every transition is reset and deleted, and the map
    is cleared. *)
Definition resetTransitions (h : Host) (now : float) (w : World) : World :=
  let es :=
    flat_map
      (fun e =>
         let '(a, e1) := reset h (snd e) None None now in
         e1 ++ destroyAnimation h a now)
      (m_transitions (w_comp w)) in
  with_transitions (childEffects h now es w) [].

(** The destructor of [CompositeAnimation]: the animations of both maps
    are deleted. *)
Definition CompositeAnimation_delete (h : Host) (now : float) (w : World)
  : World :=
  let es :=
    flat_map (fun e => destroyAnimation h (snd e) now)
      (m_transitions (w_comp w))
    ++ flat_map (fun e => destroyAnimation h (snd e) now)
         (m_keyframeAnimations (w_comp w)) in
  with_keyframeAnimations (with_transitions (childEffects h now es w) []) [].

(** *** Start times *)

(** One turn of the loop of [setAnimationStartTime]. *)
Definition setStartTimeKeyframe (h : Host) (now t : float) (w : World)
    (key : string) : World :=
  match map_get String.eqb (m_keyframeAnimations (w_comp w)) key with
  | None => w
  | Some anim =>
      if waitingForStartTime anim then
        let '(anim', es) :=
          updateStateMachine h anim STATE_INPUT_START_TIME_SET t now in
        childEffects h now es
          (with_keyframeAnimations w
             (map_set String.eqb (m_keyframeAnimations (w_comp w)) key anim'))
      else w
  end.

Definition CompositeAnimation_setAnimationStartTime (h : Host) (now t : float)
    (w : World) : World :=
  fold_left (setStartTimeKeyframe h now t)
    (map fst (m_keyframeAnimations (w_comp w))) w.

(** One turn of the loop of [setTransitionStartTime]. *)
Definition setStartTimeTransition (h : Host) (now : float) (prop : Z)
    (t : float) (w : World) (key : Z) : World :=
  match map_get Z.eqb (m_transitions (w_comp w)) key with
  | None => w
  | Some anim =>
      if waitingForStartTime anim && (animatingProperty anim =? prop) then
        let '(anim', es) :=
          updateStateMachine h anim STATE_INPUT_START_TIME_SET t now in
        childEffects h now es
          (with_transitions w
             (map_set Z.eqb (m_transitions (w_comp w)) key anim'))
      else w
  end.

Definition CompositeAnimation_setTransitionStartTime (h : Host) (now : float)
    (prop : Z) (t : float) (w : World) : World :=
  fold_left (setStartTimeTransition h now prop t)
    (map fst (m_transitions (w_comp w))) w.

(** *** Suspension *)

Definition with_suspended (w : World) (b : bool) : World :=
  {| w_comp :=
       {| m_transitions := m_transitions (w_comp w);
          m_keyframeAnimations := m_keyframeAnimations (w_comp w);
          m_suspended := b;
          m_numStyleAvailableWaiters := m_numStyleAvailableWaiters (w_comp w) |};
     w_store := w_store w; w_effects := w_effects w; w_calls := w_calls w |}.

(** [anim->updatePlayState(run)] on the keyframe animation under [key], when
    it passes the test of the loop. *)
Definition updatePlayStateKeyframe (h : Host) (now : float) (run : bool)
    (test : AnimationBase -> bool) (w : World) (key : string) : World :=
  match map_get String.eqb (m_keyframeAnimations (w_comp w)) key with
  | None => w
  | Some anim =>
      if test anim then
        let '(anim', es) := updatePlayState h anim run now in
        childEffects h now es
          (with_keyframeAnimations w
             (map_set String.eqb (m_keyframeAnimations (w_comp w)) key anim'))
      else w
  end.

(** The same on the transition under [key]. *)
Definition updatePlayStateTransition (h : Host) (now : float) (run : bool)
    (test : AnimationBase -> bool) (w : World) (key : Z) : World :=
  match map_get Z.eqb (m_transitions (w_comp w)) key with
  | None => w
  | Some anim =>
      if test anim then
        let '(anim', es) := updatePlayState h anim run now in
        childEffects h now es
          (with_transitions w
             (map_set Z.eqb (m_transitions (w_comp w)) key anim'))
      else w
  end.

(** [CompositeAnimation::suspendAnimations] *)
Definition CompositeAnimation_suspendAnimations (h : Host) (now : float)
    (w : World) : World :=
  if m_suspended (w_comp w) then w
  else
    let w := with_suspended w true in
    let w :=
      fold_left (updatePlayStateKeyframe h now false (fun _ => true))
        (map fst (m_keyframeAnimations (w_comp w))) w in
    fold_left (updatePlayStateTransition h now false hasStyle)
      (map fst (m_transitions (w_comp w))) w.

(** [CompositeAnimation::resumeAnimations] *)
Definition CompositeAnimation_resumeAnimations (h : Host) (now : float)
    (w : World) : World :=
  if negb (m_suspended (w_comp w)) then w
  else
    let w := with_suspended w false in
    let w :=
      fold_left (updatePlayStateKeyframe h now true playStatePlaying)
        (map fst (m_keyframeAnimations (w_comp w))) w in
    fold_left (updatePlayStateTransition h now true hasStyle)
      (map fst (m_transitions (w_comp w))) w.

(* ================================================================= *)
(** ** AnimationController *)

Record Document := {
  inPageCache : bool;
  doc_hasListenerType : ListenerType -> bool
}.

(** What the controller reads from a renderer: its identity, its document
    (null for a detached renderer), its current style (null before the
    first style is set) and whether its node is an element. *)
Record RenderObject := {
  ro_id : nat;
  ro_document : option Document;
  ro_style : option StylePtr;
  ro_isElement : bool
}.

Definition hostOf (renderer : RenderObject) : Host :=
  {| hasElementNode := ro_isElement renderer;
     hasListenerType :=
       match ro_document renderer with
       | Some d => doc_hasListenerType d
       | None => fun _ => false
       end |}.

(** [AnimationControllerPrivate]; a timer is represented by whether it is
    active. *)
Record AnimationControllerPrivate := {
  m_compositeAnimations : list (nat * CompositeAnimation);
  m_animationTimer : bool;
  m_updateRenderingDispatcher : bool;
  ctl_numStyleAvailableWaiters : Z
}.

Definition AnimationControllerPrivate_new : AnimationControllerPrivate :=
  {| m_compositeAnimations := []; m_animationTimer := false;
     m_updateRenderingDispatcher := false; ctl_numStyleAvailableWaiters := 0 |}.

(** [accessCompositeAnimation]: get or create. *)
Definition accessCompositeAnimation (ctl : AnimationControllerPrivate)
    (renderer : RenderObject) : CompositeAnimation * AnimationControllerPrivate :=
  match map_get Nat.eqb (m_compositeAnimations ctl) (ro_id renderer) with
  | Some animation => (animation, ctl)
  | None =>
      (CompositeAnimation_new,
       {| m_compositeAnimations :=
            map_set Nat.eqb (m_compositeAnimations ctl) (ro_id renderer)
              CompositeAnimation_new;
          m_animationTimer := m_animationTimer ctl;
          m_updateRenderingDispatcher := m_updateRenderingDispatcher ctl;
          ctl_numStyleAvailableWaiters := ctl_numStyleAvailableWaiters ctl |})
  end.

(** What the controller does with an effect that reaches it; a change
    asked of a node stays with the host. *)
Definition controllerEffect (ctl : AnimationControllerPrivate) (e : Effect)
  : AnimationControllerPrivate :=
  match e with
  | E_setWaitingForStyleAvailable waiting =>
      {| m_compositeAnimations := m_compositeAnimations ctl;
         m_animationTimer := m_animationTimer ctl;
         m_updateRenderingDispatcher := m_updateRenderingDispatcher ctl;
         ctl_numStyleAvailableWaiters :=
           wrap_uint32 (if waiting then ctl_numStyleAvailableWaiters ctl + 1
                        else ctl_numStyleAvailableWaiters ctl - 1) |}
  | E_startUpdateRenderingDispatcher =>
      {| m_compositeAnimations := m_compositeAnimations ctl;
         m_animationTimer := m_animationTimer ctl;
         m_updateRenderingDispatcher := true;
         ctl_numStyleAvailableWaiters := ctl_numStyleAvailableWaiters ctl |}
  | _ => ctl
  end.

(** [updateAnimationTimer] *)
Definition updateAnimationTimer (ctl : AnimationControllerPrivate)
  : AnimationControllerPrivate :=
  let animating :=
    existsb (fun e => negb (m_suspended (snd e))
                      && CompositeAnimation_animating (snd e))
      (m_compositeAnimations ctl) in
  {| m_compositeAnimations := m_compositeAnimations ctl;
     m_animationTimer := animating;
     m_updateRenderingDispatcher := m_updateRenderingDispatcher ctl;
     ctl_numStyleAvailableWaiters := ctl_numStyleAvailableWaiters ctl |}.

(** The state that [updateAnimations] works on, and what it returns. *)
Record UpdateResult := {
  r_controller : AnimationControllerPrivate;
  r_store : StyleStore;
  r_style : StylePtr;
  r_effects : list Effect;
  r_calls : list Call
}.

Definition declaresNothing (s : RenderStyle) : bool :=
  match animations s, transitions s with
  | None, None => true
  | _, _ => false
  end.

(** [AnimationController::updateAnimations] *)
Definition updateAnimations (pm : PropertyMap)
    (ctl : AnimationControllerPrivate) (store : StyleStore)
    (renderer : RenderObject) (newStyle : StylePtr) (now : float)
  : option UpdateResult :=
  let unchanged :=
    Some {| r_controller := ctl; r_store := store; r_style := newStyle;
            r_effects := []; r_calls := [] |} in
  match ro_document renderer with
  | None => unchanged
  | Some doc =>
      if inPageCache doc then unchanged
      else
        let oldStyle := ro_style renderer in
        match
          match oldStyle with
          | None => Some true
          | Some p =>
              match style_deref store p with
              | Some old => Some (declaresNothing old)
              | None => None
              end
          end, style_deref store newStyle
        with
        | Some oldDeclaresNothing, Some new =>
            if oldDeclaresNothing && declaresNothing new then unchanged
            else
              let '(rendererAnimations, ctl) :=
                accessCompositeAnimation ctl renderer in
              match
                CompositeAnimation_animate pm (hostOf renderer) now oldStyle
                  newStyle
                  {| w_comp := rendererAnimations; w_store := store;
                     w_effects := []; w_calls := [] |}
              with
              | None => None
              | Some (w, blendedStyle) =>
                  let ctl :=
                    {| m_compositeAnimations :=
                         map_set Nat.eqb (m_compositeAnimations ctl)
                           (ro_id renderer) (w_comp w);
                       m_animationTimer := m_animationTimer ctl;
                       m_updateRenderingDispatcher :=
                         m_updateRenderingDispatcher ctl;
                       ctl_numStyleAvailableWaiters :=
                         ctl_numStyleAvailableWaiters ctl |} in
                  let ctl := fold_left controllerEffect (w_effects w) ctl in
                  let ctl := updateAnimationTimer ctl in
                  let store := w_store w in
                  match style_deref store blendedStyle with
                  | None => None
                  | Some blended =>
                      let store :=
                        if negb (Nat.eqb blendedStyle newStyle)
                           && hasAutoZIndex blended
                           && (dlt (opacity blended) 1 || hasTransform blended)
                        then style_write store blendedStyle (setZIndex 0 blended)
                        else store in
                      Some {| r_controller := ctl; r_store := store;
                              r_style := blendedStyle;
                              r_effects := w_effects w; r_calls := w_calls w |}
                  end
              end
        | _, _ => None
        end
  end.

(** [AnimationControllerPrivate::hasAnimations] *)
Definition AnimationControllerPrivate_hasAnimations
    (ctl : AnimationControllerPrivate) : bool :=
  match m_compositeAnimations ctl with [] => false | _ => true end.

(** [AnimationControllerPrivate::isAnimatingPropertyOnRenderer] *)
Definition isAnimatingPropertyOnRenderer (ctl : AnimationControllerPrivate)
    (obj : RenderObject) (prop : Z) (isRunningNow : bool) : bool :=
  match map_get Nat.eqb (m_compositeAnimations ctl) (ro_id obj) with
  | None => false
  | Some animation =>
      CompositeAnimation_isAnimatingProperty animation prop isRunningNow
  end.

(** [AnimationControllerPrivate::clear]: the answer, the controller, and
    what the deleted animations asked of the host. *)
Definition AnimationControllerPrivate_clear (ctl : AnimationControllerPrivate)
    (store : StyleStore) (renderer : RenderObject) (now : float)
  : bool * AnimationControllerPrivate * list Effect :=
  match map_get Nat.eqb (m_compositeAnimations ctl) (ro_id renderer) with
  | None => (false, ctl, [])
  | Some animation =>
      let ctl :=
        {| m_compositeAnimations :=
             map_remove Nat.eqb (m_compositeAnimations ctl) (ro_id renderer);
           m_animationTimer := m_animationTimer ctl;
           m_updateRenderingDispatcher := m_updateRenderingDispatcher ctl;
           ctl_numStyleAvailableWaiters := ctl_numStyleAvailableWaiters ctl |} in
      let w :=
        resetTransitions (hostOf renderer) now
          {| w_comp := animation; w_store := store; w_effects := [];
             w_calls := [] |} in
      let wasSuspended := m_suspended (w_comp w) in
      let w := CompositeAnimation_delete (hostOf renderer) now w in
      (negb wasSuspended, fold_left controllerEffect (w_effects w) ctl,
       w_effects w)
  end.

(** [AnimationController::cancelAnimations] *)
Definition cancelAnimations (ctl : AnimationControllerPrivate)
    (store : StyleStore) (renderer : RenderObject) (now : float)
  : AnimationControllerPrivate * list Effect :=
  if negb (AnimationControllerPrivate_hasAnimations ctl) then (ctl, [])
  else
    let '(cleared, ctl', es) :=
      AnimationControllerPrivate_clear ctl store renderer now in
    (ctl', es ++ if cleared then [E_setChanged] else []).

(* ================================================================= *)
(** ** Vocabulary of the statements *)

(** *** Progress *)

(** The elapsed time that [progress] works with. *)
Definition elapsedTime (a : AnimationBase) (now : float) : float :=
  if running a then (now - m_startTime a)%float
  else (m_pauseTime a - m_startTime a)%float.

(** The duration of all the iterations, for a finite iteration count. *)
Definition totalDuration (anim : Animation) : float :=
  if 0 <? iterationCount anim
  then (duration anim * double_of_int (iterationCount anim))%float
  else duration anim.

(** Not active yet: a preactive state, or a negative elapsed time while
    running. *)
Definition notYetActive (a : AnimationBase) (now : float) : bool :=
  preactive a || (running a && dlt (elapsedTime a now) 0).

(** Past the active window: postactive, a zero duration, or a finite
    iteration count whose total duration has elapsed. *)
Definition pastActiveWindow (a : AnimationBase) (now : float) : bool :=
  postactive a || deq (duration (m_animation a)) 0
  || ((0 <? iterationCount (m_animation a))
      && dge (elapsedTime a now) (totalDuration (m_animation a))).

(** The fractional part of a time counted in iterations, and the same
    flipped on an odd iteration of an alternating animation. *)
Definition fractionOf (x : float) : float :=
  (x - double_of_int (double_to_int x))%float.

Definition alternated (anim : Animation) (x : float) : float :=
  if direction anim && Z.odd (double_to_int x)
  then (1 - fractionOf x)%float else fractionOf x.

(** The remapping by [(scale, offset)]. *)
Definition remapped (scale offset f : float) : float :=
  if dne scale 1 || dne offset 0 then ((f - offset) * scale)%float else f.

(** The timing function of a declaration. *)
Definition timed (anim : Animation) (f : float) : float :=
  match tf_type (timingFunction anim) with
  | LinearTimingFunction => f
  | CubicBezierTimingFunction =>
      solveCubicBezierFunction
        (tf_x1 (timingFunction anim)) (tf_y1 (timingFunction anim))
        (tf_x2 (timingFunction anim)) (tf_y2 (timingFunction anim))
        f (duration anim)
  end.

(** *** Runs of the state machine *)

(** One call of [updateStateMachine]: the input, its parameter and the
    reading of the clock during the call. *)
Record Step := { s_input : AnimStateInput; s_param : float; s_now : float }.

Definition run (h : Host) (a : AnimationBase) (l : list Step) : AnimationBase :=
  fold_left
    (fun a s => fst (updateStateMachine h a (s_input s) (s_param s) (s_now s)))
    l a.

(** In one of the three paused states. *)
Definition logicallyPaused (a : AnimationBase) : bool :=
  AnimState_eq (m_animState a) STATE_PAUSED_WAIT_TIMER
  || AnimState_eq (m_animState a) STATE_PAUSED_WAIT_RESPONSE
  || AnimState_eq (m_animState a) STATE_PAUSED_RUN.

(** Before the style-available handshake has completed. *)
Definition beforeStart (a : AnimationBase) : bool :=
  AnimState_eq (m_animState a) STATE_NEW
  || AnimState_eq (m_animState a) STATE_START_WAIT_TIMER
  || AnimState_eq (m_animState a) STATE_START_WAIT_STYLE_AVAILABLE.

(** What holds of the pause time in every reachable state: it is not
    negative in a paused state, and it is still -1 before the
    style-available handshake has completed. *)
Definition pauseInvariant (a : AnimationBase) : Prop :=
  (logicallyPaused a = true -> paused a = true)
  /\ (beforeStart a = true -> m_pauseTime a = (-1)%float).

(** The clock never reads a negative time. *)
Definition clockNonNegative (l : list Step) : Prop :=
  Forall (fun s => dle 0 (s_now s) = true) l.

(** *** Declarations and calls *)

(** The test with which [updateTransitions] skips a declaration. *)
Definition emptyTransition (anim : Animation) : bool :=
  deq (duration anim) 0 && dle (delay anim) 0.

Definition isAnimateTransition (c : Call) : bool :=
  match c with C_animateTransition _ => true | _ => false end.

Definition isAnimateKeyframe (c : Call) : bool :=
  match c with C_animateKeyframe _ => true | _ => false end.

(** The keyframe animations released by a call of [styleAvailable], in the
    order of their release, each with its index. *)
Fixpoint keyframeReleases (l : list Call) : list (string * Z) :=
  match l with
  | [] => []
  | C_styleAvailableKeyframe nm idx :: l' => (nm, idx) :: keyframeReleases l'
  | _ :: l' => keyframeReleases l'
  end.

(** *** Worlds *)

(** Two lists of transitions with the same keys in the same order, each
    animation with the declaration it had. *)
Definition sameTransitions (l l' : list (Z * AnimationBase)) : Prop :=
  Forall2 (fun e e' => fst e = fst e'
                       /\ m_animation (snd e) = m_animation (snd e')) l l'.

(** What the effects of an animation leave alone in the world of its
    owner: the store, the calls, the keyframe animations, the suspension
    flag, and the keys and declarations of the transitions. *)
Definition frame (w w' : World) : Prop :=
  w_store w' = w_store w /\ w_calls w' = w_calls w
  /\ m_keyframeAnimations (w_comp w') = m_keyframeAnimations (w_comp w)
  /\ m_suspended (w_comp w') = m_suspended (w_comp w)
  /\ sameTransitions (m_transitions (w_comp w)) (m_transitions (w_comp w')).

(** *** Calls of a pass *)

(** [w'] has the calls of [w] and after them calls that satisfy [Q]. *)
Definition callsExtend (Q : Call -> Prop) (w w' : World) : Prop :=
  exists new, w_calls w' = w_calls w ++ new /\ Forall Q new.

(** A call that advances neither a transition nor a keyframe animation. *)
Definition notAnimate (c : Call) : Prop :=
  isAnimateTransition c = false /\ isAnimateKeyframe c = false.

(** The keyframe animations of [ks] that wait for the style, each with its
    index, in the order of [ks]. *)
Definition waitingKeyframes (ks : list (string * AnimationBase))
  : list (string * Z) :=
  map (fun e => (fst e, index (snd e)))
    (filter (fun e => waitingForStyleAvailable (snd e)) ks).

(** The order of [compareAnimationIndices], on entries and on releases. *)
Definition indexLe (a b : string * AnimationBase) : Prop :=
  index (snd a) <= index (snd b).

Definition releaseLe (a b : string * Z) : Prop := snd a <= snd b.

(** *** Keyframes *)

(** The animation after the first statement of [KeyframeAnimation::animate],
    which starts a new animation whose play state is playing. *)
Definition keyframeStart (h : Host) (a : AnimationBase) (now : float)
  : AnimationBase * list Effect :=
  if isnew a
     && EAnimPlayState_eq (playState (m_animation a)) AnimPlayStatePlaying
  then updateStateMachine h a STATE_INPUT_START_ANIMATION (-1)%float now
  else (a, []).

(** The styles that the search of [KeyframeAnimation::animate] leaves in
    [fromStyle] and [toStyle] for the fractional time [t]. *)
Definition bracketingKeyframes (d : KeyframeData) (t : float)
  : option RenderStyle * option RenderStyle :=
  match m_keyframes d with
  | Some k => fst (fst (findKeyframes (keyframes k) t None 1%float 0%float))
  | None => (None, None)
  end.

Definition noBracketingPair (d : KeyframeData) (t : float) : bool :=
  match bracketingKeyframes d t with
  | (Some _, Some _) => false
  | _ => true
  end.

(** *** Values *)

Definition Color_wf (c : Color) : Prop :=
  0 <= red c <= 255 /\ 0 <= green c <= 255 /\ 0 <= blue c <= 255
  /\ 0 <= alpha c <= 255.

Definition nonVisible (v : EVisibility) : bool := negb (EVisibility_eq v VISIBLE).

(** The style that [updateAnimations] returns when the blended style is a
    new one: the z-index is forced to 0 when it was automatic and the style
    is translucent or transformed. *)
Definition imposeStackingRules (blended : RenderStyle) : RenderStyle :=
  if hasAutoZIndex blended && (dlt (opacity blended) 1 || hasTransform blended)
  then setZIndex 0 blended else blended.

(** *** updateAnimations *)

(** The result of [updateAnimations] when it returns [newStyle] at once. *)
Definition unchangedResult (ctl : AnimationControllerPrivate)
    (store : StyleStore) (newStyle : StylePtr) : UpdateResult :=
  {| r_controller := ctl; r_store := store; r_style := newStyle;
     r_effects := []; r_calls := [] |}.

(** The world that [updateAnimations] hands to [CompositeAnimation::animate]:
    the animations of the renderer and the store. *)
Definition passWorld (ctl : AnimationControllerPrivate) (store : StyleStore)
    (renderer : RenderObject) : World :=
  {| w_comp := fst (accessCompositeAnimation ctl renderer); w_store := store;
     w_effects := []; w_calls := [] |}.

(** The old style of the renderer is null or declares nothing. *)
Definition oldDeclaresNothing (store : StyleStore) (renderer : RenderObject)
  : Prop :=
  match ro_style renderer with
  | None => True
  | Some p => exists old, style_deref store p = Some old
                          /\ declaresNothing old = true
  end.

(** The condition of the stacking rule. *)
Definition needsStackingContext (s : RenderStyle) : bool :=
  hasAutoZIndex s && (dlt (opacity s) 1 || hasTransform s).

(** A property map is well formed when the array has one slot for each
    property index. *)
Definition PropertyMap_wf (pm : PropertyMap) : Prop :=
  List.length (gPropertyWrapperMap pm) = Z.to_nat numCSSProperties.

(** [prop] is the property of one of the wrappers. *)
Definition registered (pm : PropertyMap) (prop : Z) : Prop :=
  In prop (map m_prop (wrappers pm)).

(** *** Further vocabulary of the state machine *)

(** The two inputs that take an animation back to [STATE_NEW]. *)
Definition revives (i : AnimStateInput) : bool :=
  match i with
  | STATE_INPUT_MAKE_NEW | STATE_INPUT_RESTART_ANIMATION => true
  | _ => false
  end.

Definition forcesEnd (i : AnimStateInput) : bool :=
  match i with STATE_INPUT_END_ANIMATION => true | _ => false end.

(** What a list of effects adds to the counters of style-available
    waiters. *)
Definition waiterDelta (es : list Effect) : Z :=
  fold_right
    (fun e n =>
       match e with
       | E_setWaitingForStyleAvailable true => n + 1
       | E_setWaitingForStyleAvailable false => n - 1
       | _ => n
       end) 0 es.

(** 1 for an animation that waits for the style, 0 otherwise. *)
Definition waitingCount (a : AnimationBase) : Z :=
  if waitingForStyleAvailable a then 1 else 0.

(** The timer callback of an animation agrees with its state: in a state
    that waits for a timer the timer is armed for the event of that state,
    and in [STATE_PAUSED_WAIT_TIMER] and [STATE_PAUSED_RUN] it is
    cancelled. *)
Definition timerMatchesState (a : AnimationBase) : Prop :=
  let tc := m_animationTimerCallback a in
  match m_animState a with
  | STATE_START_WAIT_TIMER =>
      tc_eventType tc = Some webkitAnimationStartEvent /\ tc_timer tc <> None
  | STATE_LOOPING =>
      tc_eventType tc = Some webkitAnimationIterationEvent
      /\ tc_timer tc <> None
  | STATE_ENDING =>
      tc_eventType tc = Some webkitAnimationEndEvent /\ tc_timer tc <> None
  | STATE_PAUSED_WAIT_TIMER | STATE_PAUSED_RUN => tc_timer tc = None
  | _ => True
  end.

(** The timer input that a state waits for. *)
Definition expectedTimerInput (s : AnimState) : option AnimStateInput :=
  match s with
  | STATE_START_WAIT_TIMER => Some STATE_INPUT_START_TIMER_FIRED
  | STATE_LOOPING => Some STATE_INPUT_LOOP_TIMER_FIRED
  | STATE_ENDING => Some STATE_INPUT_END_TIMER_FIRED
  | _ => None
  end.

(** The test of [cleanupFinishedAnimations]: done, and no event pending. *)
Definition finished (a : AnimationBase) : bool :=
  postactive a && negb (waitingForEndEvent a).

(** Whether the end of the animation is announced by an event: the
    document listens for it and the node is an element. *)
Definition sendsEndEvent (h : Host) (a : AnimationBase) : bool :=
  match m_kind a with
  | IsImplicitAnimation _ =>
      hasListenerType h TRANSITIONEND_LISTENER && hasElementNode h
  | IsKeyframeAnimation _ =>
      hasListenerType h ANIMATIONEND_LISTENER && hasElementNode h
  end.

(** *** Further vocabulary of the registry and of the keyframes *)

(** The slot of the array [gPropertyWrapperMap] that belongs to a wrapper. *)
Definition slotOf (w : PropertyWrapperBase) : Z :=
  wrap_int (m_prop w - firstCSSProperty).

(** The test with which [updateKeyframeAnimations] decides to build a
    [KeyframeAnimation] for a declaration. *)
Definition animatable (anim : Animation) : bool :=
  isValidAnimation anim
  && ((dne (duration anim) 0 || dne (delay anim) 0)
      && negb (iterationCount anim =? 0)
      && match keyframeList anim with
         | Some k => match keyframes k with [] => false | _ => true end
         | None => false
         end).

(** New keyframe animations for the declarations [l], numbered from [idx]
    on, each under its name. *)
Fixpoint numbered (idx : Z) (l : list Animation)
  : list (string * AnimationBase) :=
  match l with
  | [] => []
  | anim :: l' =>
      (name anim, KeyframeAnimation_new anim idx) :: numbered (idx + 1) l'
  end.

(** [k1] and [k2] are neighbours in [kfs] and are the keyframes around
    [t]: no key up to [k1] is after [t], and the key of [k2] is. *)
Definition bracket (kfs : list (KeyframeValue RenderStyle)) (t : float)
    (k1 k2 : KeyframeValue RenderStyle) : Prop :=
  exists pre post,
    kfs = pre ++ k1 :: k2 :: post
    /\ Forall (fun k => dlt t (kf_key k) = false) (pre ++ [k1])
    /\ dlt t (kf_key k2) = true.

(** *** Further vocabulary of the composite *)

(** Every transition is stored under the property it animates, and every
    keyframe animation under its name. *)
Definition keyedByProperty (ts : list (Z * AnimationBase)) : Prop :=
  Forall (fun e => fst e = animatingProperty (snd e)) ts.

Definition keyedByName (ks : list (string * AnimationBase)) : Prop :=
  Forall (fun e => fst e = kf_name (snd e)) ks.

(** The styles that [store] holds are still in [store'], unchanged. *)
Definition oldStylesKept (store store' : StyleStore) : Prop :=
  forall p, (p < List.length store)%nat ->
    style_deref store' p = style_deref store p.

(** The bodies of the two deleting loops of [cleanupFinishedAnimations]. *)
Definition deleteTransition (h : Host) (now : float) (w : World) (p : Z)
  : World :=
  let w :=
    match map_get Z.eqb (m_transitions (w_comp w)) p with
    | Some anim =>
        let '(anim, e1) := reset h anim None None now in
        add_call (childEffects h now (e1 ++ destroyAnimation h anim now) w)
          (C_deleteImplicitAnimation p)
    | None => w
    end in
  with_transitions w (map_remove Z.eqb (m_transitions (w_comp w)) p).

Definition deleteKeyframeAnimation (h : Host) (now : float) (w : World)
    (n : string) : World :=
  let w :=
    match map_get String.eqb (m_keyframeAnimations (w_comp w)) n with
    | Some kfanim =>
        let '(kfanim, e1) := reset h kfanim None None now in
        childEffects h now (e1 ++ destroyAnimation h kfanim now) w
    | None => w
    end in
  with_keyframeAnimations w
    (map_remove String.eqb (m_keyframeAnimations (w_comp w)) n).

(** An effect that reaches the host or the counters, and no sibling. *)
Definition hostOnly (e : Effect) : bool :=
  match e with
  | E_overrideImplicitAnimations _ | E_resumeOverriddenImplicitAnimations _ =>
      false
  | _ => true
  end.

(** The update of the entry under [key], if there is one. *)
Definition updateEntry {K : Type} (eqb : K -> K -> bool)
    (upd : AnimationBase -> AnimationBase) (m : list (K * AnimationBase))
    (key : K) : list (K * AnimationBase) :=
  match map_get eqb m key with
  | Some a => map_set eqb m key (upd a)
  | None => m
  end.

(** What [setAnimationStartTime] and [setTransitionStartTime] do to one
    animation that waits for its start time. *)
Definition giveStartTime (a : AnimationBase) (t now : float) : AnimationBase :=
  if waitingForStartTime a then fst (startTimeSet a t now) else a.





(** An animation of the class [ImplicitAnimation]. *)
Definition isImplicit (a : AnimationBase) : bool :=
  match m_kind a with
  | IsImplicitAnimation _ => true
  | IsKeyframeAnimation _ => false
  end.

(** The pause time says what the state says: it is not negative exactly
    in the three paused states. *)
Definition pauseFlagExact (a : AnimationBase) : bool :=
  Bool.eqb (paused a) (logicallyPaused a).

(** Where a suspension leaves an animation: new, or done, or with a pause
    time and in one of the three paused states or waiting for its start
    time. *)
Definition suspendedState (a : AnimationBase) : bool :=
  isnew a || postactive a
  || (paused a && (logicallyPaused a || waitingForStartTime a)).

End Model.

(* ================================================================= *)
(** ** A platform for the examples

    The numeric constants are those of the generated header: properties are
    numbered from [firstCSSProperty] on and [CSSPropertyInvalid] is 0; the
    header is not part of the source, so the examples number the properties
    named in this file consecutively.  A length is a number of pixels and a
    transform operation a horizontal translation, both blended as integers;
    the timing curve solver is the identity. *)

Definition CSSPropertyID_index (p : CSSPropertyID) : Z :=
  match p with
  | CSSPropertyLeft => 0
  | CSSPropertyRight => 1
  | CSSPropertyTop => 2
  | CSSPropertyBottom => 3
  | CSSPropertyWidth => 4
  | CSSPropertyHeight => 5
  | CSSPropertyBorderLeftWidth => 6
  | CSSPropertyBorderRightWidth => 7
  | CSSPropertyBorderTopWidth => 8
  | CSSPropertyBorderBottomWidth => 9
  | CSSPropertyMarginLeft => 10
  | CSSPropertyMarginRight => 11
  | CSSPropertyMarginTop => 12
  | CSSPropertyMarginBottom => 13
  | CSSPropertyPaddingLeft => 14
  | CSSPropertyPaddingRight => 15
  | CSSPropertyPaddingTop => 16
  | CSSPropertyPaddingBottom => 17
  | CSSPropertyOpacity => 18
  | CSSPropertyColor => 19
  | CSSPropertyBackgroundColor => 20
  | CSSPropertyFontSize => 21
  | CSSPropertyWebkitColumnRuleWidth => 22
  | CSSPropertyWebkitColumnGap => 23
  | CSSPropertyWebkitColumnCount => 24
  | CSSPropertyWebkitColumnWidth => 25
  | CSSPropertyWebkitBorderHorizontalSpacing => 26
  | CSSPropertyWebkitBorderVerticalSpacing => 27
  | CSSPropertyZIndex => 28
  | CSSPropertyLineHeight => 29
  | CSSPropertyOutlineOffset => 30
  | CSSPropertyOutlineWidth => 31
  | CSSPropertyLetterSpacing => 32
  | CSSPropertyWordSpacing => 33
  | CSSPropertyWebkitTransform => 34
  | CSSPropertyWebkitTransformOriginX => 35
  | CSSPropertyWebkitTransformOriginY => 36
  | CSSPropertyWebkitBorderTopLeftRadius => 37
  | CSSPropertyWebkitBorderTopRightRadius => 38
  | CSSPropertyWebkitBorderBottomLeftRadius => 39
  | CSSPropertyWebkitBorderBottomRightRadius => 40
  | CSSPropertyVisibility => 41
  | CSSPropertyZoom => 42
  | CSSPropertyWebkitColumnRuleColor => 43
  | CSSPropertyWebkitTextStrokeColor => 44
  | CSSPropertyWebkitTextFillColor => 45
  | CSSPropertyBorderLeftColor => 46
  | CSSPropertyBorderRightColor => 47
  | CSSPropertyBorderTopColor => 48
  | CSSPropertyBorderBottomColor => 49
  | CSSPropertyOutlineColor => 50
  | CSSPropertyWebkitBoxShadow => 51
  | CSSPropertyTextShadow => 52
  | CSSPropertyDisplay => 53
  end.

Definition examplePlatform : Platform :=
  {| Length := Z;
     Length_eq := Z.eqb;
     Length_blend := fun to from progress =>
       double_to_int
         (double_of_int from + double_of_int (wrap_int (to - from)) * progress)%float;
     TransformOperation := Z;
     TransformOperation_eq := Z.eqb;
     TransformOperation_blend := fun op from progress blendToIdentity =>
       let fromValue := match from with Some f => f | None => 0 end in
       Some (double_to_int
               (if blendToIdentity
                then (double_of_int op
                      + double_of_int (wrap_int (0 - op)) * progress)%float
                else (double_of_int fromValue
                      + double_of_int (wrap_int (op - fromValue)) * progress)%float));
     UnitBezier_solve := fun p1x p1y p2x p2y x epsilon => x;
     firstCSSProperty := 1001;
     numCSSProperties := 300;
     CSSPropertyInvalid := 0;
     cAnimateAll := -2;
     propertyID := fun p => 1001 + CSSPropertyID_index p |}.

(** A style with every length and number zero, every colour invalid, no
    shadow, no transform, visible, automatic z-index and nothing declared. *)
Definition exampleStyle : @RenderStyle examplePlatform :=
  @Build_RenderStyle examplePlatform
    (fun _ => 0) (fun _ => 0) (fun _ => 0%float)
    (fun _ => {| red := 0; green := 0; blue := 0; alpha := 0; isValid := false |})
    (fun _ => {| width := 0; height := 0 |}) (fun _ => None)
    [] VISIBLE true None None.

Definition exampleLinear : TimingFunction :=
  {| tf_type := LinearTimingFunction; tf_x1 := 0%float; tf_y1 := 0%float;
     tf_x2 := 0%float; tf_y2 := 0%float |}.

(** A declaration on [prop] that lasts [dur] seconds after [dly] seconds. *)
Definition exampleDeclaration (prop : Z) (dur dly : float) (count : Z)
  : @Animation examplePlatform :=
  {| duration := dur; delay := dly; iterationCount := count;
     direction := false; timingFunction := exampleLinear;
     playState := AnimPlayStatePlaying; property := prop;
     name := EmptyString; keyframeList := None; isValidAnimation := true |}.

Definition exampleHost : Host :=
  {| hasElementNode := true; hasListenerType := fun _ => false |}.

(** An animation named [nm] over the keyframes [kfs], which lasts two
    seconds and plays once. *)
Definition exampleKeyframeDeclaration (nm : string)
    (kfs : list (KeyframeValue (@RenderStyle examplePlatform)))
  : @Animation examplePlatform :=
  {| duration := 2%float; delay := 0%float; iterationCount := 1;
     direction := false; timingFunction := exampleLinear;
     playState := AnimPlayStatePlaying; property := 0;
     name := nm;
     keyframeList := Some {| keyframes := kfs; properties := [1001] |};
     isValidAnimation := true |}.

(** An element in a live document whose current style is at [p]. *)
Definition exampleRenderer (p : option StylePtr) : RenderObject :=
  {| ro_id := 0%nat;
     ro_document := Some {| inPageCache := false;
                            doc_hasListenerType := fun _ => false |};
     ro_style := p; ro_isElement := true |}.

(** The property map of the example platform. *)
Definition examplePropertyMap : @PropertyMap examplePlatform :=
  match @ensurePropertyMap examplePlatform with
  | Some pm => pm
  | None => {| wrappers := []; gPropertyWrapperMap := [] |}
  end.

(** A renderer that has no animation yet, over a store of styles. *)
Definition exampleWorld (store : @StyleStore examplePlatform)
  : @World examplePlatform :=
  {| w_comp := CompositeAnimation_new; w_store := store; w_effects := [];
     w_calls := [] |}.

(** The example style with [left] at [x] and the transitions [l] declared. *)
Definition exampleStyleAt (x : Z)
    (l : option (list (@Animation examplePlatform)))
  : @RenderStyle examplePlatform :=
  @Build_RenderStyle examplePlatform
    (fun p => match p with CSSPropertyLeft => x | _ => 0 end)
    (fun _ => 0) (fun _ => 0%float)
    (fun _ => {| red := 0; green := 0; blue := 0; alpha := 0; isValid := false |})
    (fun _ => {| width := 0; height := 0 |}) (fun _ => None)
    [] VISIBLE true None l.

(** The example style with the keyframe animations [l] declared. *)
Definition exampleStyleAnimating
    (l : option (list (@Animation examplePlatform)))
  : @RenderStyle examplePlatform :=
  @Build_RenderStyle examplePlatform
    (fun _ => 0) (fun _ => 0) (fun _ => 0%float)
    (fun _ => {| red := 0; green := 0; blue := 0; alpha := 0; isValid := false |})
    (fun _ => {| width := 0; height := 0 |}) (fun _ => None)
    [] VISIBLE true l None.

(** Two keyframes, at the start and at the end. *)
Definition exampleKeyframes
  : list (KeyframeValue (@RenderStyle examplePlatform)) :=
  [ {| kf_key := 0%float; kf_style := exampleStyleAt 0 None |};
    {| kf_key := 1%float; kf_style := exampleStyleAt 100 None |} ].

(** A renderer with the transitions [ts] and the keyframe animations [ks],
    not suspended, over an empty store. *)
Definition exampleComposite (ts : list (Z * @AnimationBase examplePlatform))
    (ks : list (string * @AnimationBase examplePlatform))
  : @World examplePlatform :=
  {| w_comp := {| m_transitions := ts; m_keyframeAnimations := ks;
                  m_suspended := false; m_numStyleAvailableWaiters := 0 |};
     w_store := []; w_effects := []; w_calls := [] |}.



(* ================================================================= *)
(** * Properties *)

(** ** Exact cases of binary64 arithmetic *)

Section Rounding.
Variables prec emax : Z.

Lemma iter_pos_nat {A} (f : A -> A) (p : positive) (x : A) :
  iter_pos f p x = Nat.iter (Pos.to_nat p) f x.
Proof.
  revert x; induction p as [p IH|p IH|]; intros x; cbn [iter_pos].
  - rewrite !IH, Pos2Nat.inj_xI.
    replace (S (2 * Pos.to_nat p))%nat
      with (Pos.to_nat p + S (Pos.to_nat p))%nat by lia.
    rewrite Nat.iter_add, Nat.iter_succ_r. reflexivity.
  - rewrite !IH, Pos2Nat.inj_xO.
    replace (2 * Pos.to_nat p)%nat with (Pos.to_nat p + Pos.to_nat p)%nat by lia.
    rewrite Nat.iter_add. reflexivity.
  - reflexivity.
Qed.

Lemma digits2_iter_xO (n : nat) (m : positive) :
  Zpos (digits2_pos (Nat.iter n xO m)) = Zpos (digits2_pos m) + Z.of_nat n.
Proof.
  induction n as [|n IH].
  - simpl. lia.
  - rewrite Nat.iter_succ. cbn [digits2_pos]. rewrite Pos2Z.inj_succ, IH. lia.
Qed.

Lemma Zpos_iter_xO (n : nat) (m : positive) :
  Zpos (Nat.iter n xO m) = Zpos m * 2 ^ Z.of_nat n.
Proof.
  induction n as [|n IH].
  - simpl. lia.
  - rewrite Nat.iter_succ, Pos2Z.inj_xO, IH, Nat2Z.inj_succ, Z.pow_succ_r by lia.
    lia.
Qed.

Lemma shr_1_iter_xO (n : nat) (m : positive) :
  Nat.iter n shr_1 {| shr_m := Zpos (Nat.iter n xO m); shr_r := false; shr_s := false |}
  = {| shr_m := Zpos m; shr_r := false; shr_s := false |}.
Proof.
  induction n as [|n IH].
  - reflexivity.
  - rewrite Nat.iter_succ_r. rewrite Nat.iter_succ. cbn [shr_1 orb]. exact IH.
Qed.

Lemma shr_exact (n : nat) (m : positive) (e : Z) :
  shr {| shr_m := Zpos (Nat.iter n xO m); shr_r := false; shr_s := false |}
      e (Z.of_nat n)
  = ({| shr_m := Zpos m; shr_r := false; shr_s := false |}, e + Z.of_nat n).
Proof.
  destruct n as [|n].
  - simpl. f_equal. lia.
  - unfold shr. change (Z.of_nat (S n)) with (Zpos (Pos.of_succ_nat n)).
    cbv iota beta.
    rewrite (iter_pos_nat shr_1), SuccNat2Pos.id_succ, shr_1_iter_xO. reflexivity.
Qed.

Lemma canonical_fexp (m : positive) (e : Z) :
  bounded prec emax m e = true ->
  fexp prec emax (Zpos (digits2_pos m) + e) = e /\ e <= emax - prec.
Proof.
  unfold bounded, canonical_mantissa. intros H.
  apply andb_true_iff in H. destruct H as [H1 H2].
  apply Z.eqb_eq in H1. apply Z.leb_le in H2. auto.
Qed.

(** Rounding a mantissa that ends in [n] zeros, when dropping them leaves a
    canonical float, is exact. *)
Lemma binary_round_aux_exact (s : bool) (m : positive) (e : Z) (n : nat) :
  bounded prec emax m e = true ->
  binary_round_aux prec emax s (Zpos (Nat.iter n xO m)) (e - Z.of_nat n) loc_Exact
  = S754_finite s m e.
Proof.
  intros Hb. destruct (canonical_fexp m e Hb) as [Hc He].
  unfold binary_round_aux.
  assert (H1 : shr_fexp prec emax (Zpos (Nat.iter n xO m)) (e - Z.of_nat n) loc_Exact
               = ({| shr_m := Zpos m; shr_r := false; shr_s := false |}, e)).
  { unfold shr_fexp. cbn [Zdigits2 shr_record_of_loc].
    rewrite digits2_iter_xO.
    replace (Zpos (digits2_pos m) + Z.of_nat n + (e - Z.of_nat n))
      with (Zpos (digits2_pos m) + e) by lia.
    rewrite Hc. replace (e - (e - Z.of_nat n)) with (Z.of_nat n) by lia.
    rewrite shr_exact. f_equal. lia. }
  rewrite H1. cbn [shr_m loc_of_shr_record round_nearest_even].
  assert (H2 : shr_fexp prec emax (Zpos m) e loc_Exact
               = ({| shr_m := Zpos m; shr_r := false; shr_s := false |}, e)).
  { unfold shr_fexp. cbn [Zdigits2 shr_record_of_loc]. rewrite Hc, Z.sub_diag.
    reflexivity. }
  rewrite H2. cbn [shr_m].
  apply Z.leb_le in He. rewrite He. reflexivity.
Qed.

Lemma binary_round_exact_shr (s : bool) (m : positive) (e : Z) (n : nat) :
  bounded prec emax m e = true ->
  binary_round prec emax s (Nat.iter n xO m) (e - Z.of_nat n) = S754_finite s m e.
Proof.
  intros Hb. destruct (canonical_fexp m e Hb) as [Hc He].
  unfold binary_round, shl_align.
  rewrite digits2_iter_xO.
  replace (Zpos (digits2_pos m) + Z.of_nat n + (e - Z.of_nat n))
    with (Zpos (digits2_pos m) + e) by lia.
  rewrite Hc. replace (e - (e - Z.of_nat n)) with (Z.of_nat n) by lia.
  destruct n as [|n]; cbn [Z.of_nat];
    [ change (e - 0) with (e - Z.of_nat 0)
    | change (Zpos (Pos.of_succ_nat n)) with (Z.of_nat (S n)) ];
    apply binary_round_aux_exact; assumption.
Qed.

Lemma binary_round_exact_shl (s : bool) (m : positive) (e : Z) (k : nat) :
  bounded prec emax (Nat.iter k xO m) e = true ->
  binary_round prec emax s m (e + Z.of_nat k) = S754_finite s (Nat.iter k xO m) e.
Proof.
  intros Hb. destruct (canonical_fexp _ e Hb) as [Hc He].
  rewrite digits2_iter_xO in Hc.
  unfold binary_round, shl_align.
  replace (Zpos (digits2_pos m) + (e + Z.of_nat k))
    with (Zpos (digits2_pos m) + Z.of_nat k + e) by lia.
  rewrite Hc. replace (e - (e + Z.of_nat k)) with (- Z.of_nat k) by lia.
  destruct k as [|k].
  - cbn [Z.of_nat Z.opp]. replace (e + 0) with (e - Z.of_nat 0) by (simpl; lia).
    apply (binary_round_aux_exact s m e 0). exact Hb.
  - cbn [Z.of_nat Z.opp].
    rewrite Pos2Nat.inj_iter, SuccNat2Pos.id_succ.
    replace e with (e - Z.of_nat 0) at 1 by (simpl; lia).
    apply (binary_round_aux_exact s (Nat.iter (S k) xO m) e 0). exact Hb.
Qed.

End Rounding.

Lemma digits2_pos_size (p : positive) : digits2_pos p = Pos.size p.
Proof. induction p; simpl; congruence. Qed.

Lemma digits_le_53 (p : positive) :
  Zpos p < 2 ^ 53 -> (Pos.to_nat (digits2_pos p) <= 53)%nat.
Proof.
  intros H. rewrite digits2_pos_size.
  pose proof (Pos.size_le p) as Hle.
  destruct (Nat.le_gt_cases (Pos.to_nat (Pos.size p)) 53) as [|Hgt]; [assumption|].
  exfalso.
  assert (Hs : 54 <= Zpos (Pos.size p)) by lia.
  assert (H2 : 2 ^ 54 <= 2 ^ Zpos (Pos.size p)).
  { apply Z.pow_le_mono_r; lia. }
  assert (H3 : Zpos (2 ^ Pos.size p) <= Zpos p~0) by exact Hle.
  rewrite Pos2Z.inj_pow in H3.
  change (2 ^ 54) with 18014398509481984 in H2.
  change (2 ^ 53) with 9007199254740992 in H. lia.
Qed.

Lemma bounded_of_pos (p : positive) :
  Zpos p < 2 ^ 53 ->
  bounded 53 1024 (Nat.iter (canon_shift p) xO p) (- Z.of_nat (canon_shift p)) = true.
Proof.
  intros H. pose proof (digits_le_53 p H) as Hd.
  unfold bounded, canonical_mantissa, fexp, SpecFloat.emin.
  rewrite digits2_iter_xO. unfold canon_shift.
  apply andb_true_iff; split; [apply Z.eqb_eq | apply Z.leb_le]; lia.
Qed.

Lemma binary_round_int (s : bool) (p : positive) (K : nat) :
  Zpos p < 2 ^ 53 ->
  binary_round 53 1024 s (Nat.iter K xO p) (- Z.of_nat K) = SF_of_pos s p.
Proof.
  intros H. pose proof (bounded_of_pos p H) as Hb. unfold SF_of_pos.
  set (kc := canon_shift p) in *.
  destruct (Nat.le_gt_cases kc K) as [Hle|Hgt].
  - replace (Nat.iter K xO p) with (Nat.iter (K - kc) xO (Nat.iter kc xO p)).
    2:{ rewrite <- Nat.iter_add. f_equal. lia. }
    replace (- Z.of_nat K) with (- Z.of_nat kc - Z.of_nat (K - kc)) by lia.
    apply binary_round_exact_shr. exact Hb.
  - replace (- Z.of_nat K) with (- Z.of_nat kc + Z.of_nat (kc - K)) by lia.
    replace (Nat.iter kc xO p) with (Nat.iter (kc - K) xO (Nat.iter K xO p)).
    + apply binary_round_exact_shl. rewrite <- Nat.iter_add.
      replace (kc - K + K)%nat with kc by lia. exact Hb.
    + rewrite <- Nat.iter_add. f_equal. lia.
Qed.

Lemma binary_normalize_int (c : Z) (K : nat) :
  - 2 ^ 53 < c < 2 ^ 53 ->
  binary_normalize 53 1024 (c * 2 ^ Z.of_nat K) (- Z.of_nat K) false = SF_of_Z c.
Proof.
  intros H. destruct c as [|p|p].
  - reflexivity.
  - rewrite <- Zpos_iter_xO. cbn [binary_normalize SF_of_Z].
    apply binary_round_int. lia.
  - change (Zneg p) with (- Zpos p). rewrite Z.mul_opp_l, <- Zpos_iter_xO.
    cbn [Z.opp binary_normalize SF_of_Z]. apply binary_round_int. lia.
Qed.

Lemma Prim2SF_of_uint63 (z : Z) :
  0 <= z < 2 ^ 53 -> Prim2SF (of_uint63 (Uint63.of_Z z)) = SF_of_Z z.
Proof.
  intros H. rewrite of_uint63_spec, Uint63.of_Z_spec.
  rewrite Z.mod_small.
  - pose proof (binary_normalize_int z 0) as Hn. cbn [Z.of_nat Z.opp] in Hn.
    rewrite Z.pow_0_r, Z.mul_1_r in Hn. apply Hn. lia.
  - change wB with (2 ^ 63). split; [lia|].
    apply Z.lt_trans with (2 ^ 53); [lia|]. reflexivity.
Qed.

Lemma Prim2SF_double_of_int (z : Z) :
  - 2 ^ 53 < z < 2 ^ 53 -> Prim2SF (double_of_int z) = SF_of_Z z.
Proof.
  intros H. unfold double_of_int. destruct (Z.ltb_spec z 0) as [Hneg|Hpos].
  - rewrite FloatAxioms.opp_spec, Prim2SF_of_uint63 by lia.
    destruct z as [|p|p]; try lia. reflexivity.
  - apply Prim2SF_of_uint63. lia.
Qed.

Lemma trunc_SF_of_pos (s : bool) (p : positive) :
  trunc_SF (SF_of_pos s p) = Some (if s then Zneg p else Zpos p).
Proof.
  unfold SF_of_pos, trunc_SF. set (k := canon_shift p).
  rewrite Zpos_iter_xO.
  destruct (Z.leb_spec 0 (- Z.of_nat k)) as [H|H].
  - assert (k = 0%nat) by lia. subst k. rewrite H0. cbn [Z.of_nat Z.opp].
    rewrite Z.shiftl_0_r, Z.pow_0_r, Z.mul_1_r. destruct s; reflexivity.
  - rewrite Z.opp_involutive, Z.shiftr_div_pow2 by lia.
    rewrite Z.div_mul by (apply Z.pow_nonzero; lia).
    destruct s; reflexivity.
Qed.

Lemma trunc_SF_of_Z (z : Z) : trunc_SF (SF_of_Z z) = Some z.
Proof. destruct z; [reflexivity | apply trunc_SF_of_pos ..]. Qed.

Lemma double_to_int_of_int (z : Z) :
  INT_MIN <= z <= INT_MAX -> double_to_int (double_of_int z) = z.
Proof.
  unfold INT_MIN, INT_MAX. intros H. unfold double_to_int.
  rewrite Prim2SF_double_of_int, trunc_SF_of_Z by lia.
  unfold INT_MIN, INT_MAX.
  destruct (Z.leb_spec (- 2 ^ 31) z); [|lia].
  destruct (Z.leb_spec z (2 ^ 31 - 1)); [|lia]. reflexivity.
Qed.

(** Multiplication by one and by zero, addition of zero *)

Lemma Pos_mul_iter_xO (m : positive) (n : nat) (q : positive) :
  Zpos q = 2 ^ Z.of_nat n -> (m * q)%positive = Nat.iter n xO m.
Proof.
  intros H. apply Pos2Z.inj. rewrite Pos2Z.inj_mul, Zpos_iter_xO, H. reflexivity.
Qed.

Lemma SF64mul_one (x : spec_float) :
  valid_binary x = true -> SF64mul x (Prim2SF 1%float) = x.
Proof.
  intros Hv. change (Prim2SF 1) with (S754_finite false 4503599627370496 (-52)).
  destruct x as [s|s| |s m e];
    [destruct s; reflexivity | destruct s; reflexivity | reflexivity | ].
  unfold SF64mul, SFmul.
  rewrite (Pos_mul_iter_xO m 52) by reflexivity.
  rewrite xorb_false_r. change (e + -52) with (e - Z.of_nat 52).
  apply binary_round_aux_exact. exact Hv.
Qed.

Lemma mul_one (x : float) : (x * 1)%float = x.
Proof.
  apply Prim2SF_inj. rewrite FloatAxioms.mul_spec. apply SF64mul_one. apply Prim2SF_valid.
Qed.

Lemma SF64mul_zero (x : spec_float) :
  SF_is_finite x = true -> SF_is_zero (SF64mul x (Prim2SF 0%float)) = true.
Proof.
  change (Prim2SF 0) with (S754_zero false).
  destruct x as [s|s| |s m e]; intros H; try discriminate; reflexivity.
Qed.

Lemma SF64add_zero_r (x z : spec_float) :
  SF_is_finite x = true -> SF_is_zero z = true ->
  SFeqb (SF64add x z) x = true.
Proof.
  destruct z as [sz| | |]; try discriminate. intros Hx _.
  destruct x as [s|s| |s m e]; try discriminate.
  - destruct s, sz; reflexivity.
  - unfold SF64add, SFadd, SFeqb, SFcompare.
    rewrite Z.compare_refl, Pos.compare_cont_refl. destruct s; reflexivity.
Qed.

(** Addition of two integers *)

Lemma shl_align_value (m : positive) (e e' : Z) :
  e' <= e -> Zpos (fst (shl_align m e e')) = Zpos m * 2 ^ (e - e').
Proof.
  intros H. unfold shl_align.
  destruct (e' - e) as [|d|d] eqn:Hd; cbn [fst].
  - replace (e - e') with 0 by lia. lia.
  - lia.
  - replace (PosDef.Pos.iter xO m d) with (Nat.iter (Pos.to_nat d) xO m)
      by (symmetry; apply Pos2Nat.inj_iter).
    rewrite Zpos_iter_xO. f_equal. f_equal. lia.
Qed.

Lemma SF_of_Z_exponent (z : Z) (s : bool) (m : positive) (e : Z) :
  SF_of_Z z = S754_finite s m e ->
  exists k : nat, e = - Z.of_nat k /\
    cond_Zopp s (Zpos m) = z * 2 ^ Z.of_nat k.
Proof.
  destruct z as [|p|p]; cbn [SF_of_Z]; unfold SF_of_pos; intros H;
    inversion H; subst; clear H.
  - exists (canon_shift p). split; [reflexivity|].
    cbn [cond_Zopp]. apply Zpos_iter_xO.
  - exists (canon_shift p). split; [reflexivity|].
    cbn [cond_Zopp]. rewrite Zpos_iter_xO. change (Zneg p) with (- Zpos p). lia.
Qed.

Lemma SF64add_of_Z (a b : Z) :
  - 2 ^ 53 < a + b < 2 ^ 53 ->
  SF64add (SF_of_Z a) (SF_of_Z b) = SF_of_Z (a + b).
Proof.
  intros Hab.
  destruct (SF_of_Z a) as [sa| | |sa ma ea] eqn:Ha;
    try (destruct a; discriminate).
  { (* a = 0 *)
    assert (a = 0) by (destruct a; [reflexivity | discriminate ..]).
    subst a. inversion Ha; subst sa. rewrite Z.add_0_l.
    destruct b; reflexivity. }
  destruct (SF_of_Z b) as [sb| | |sb mb eb] eqn:Hb;
    try (destruct b; discriminate).
  { assert (b = 0) by (destruct b; [reflexivity | discriminate ..]).
    subst b. inversion Hb; subst sb. rewrite Z.add_0_r, Ha.
    reflexivity. }
  destruct (SF_of_Z_exponent a sa ma ea Ha) as [ka [Hea Hma]].
  destruct (SF_of_Z_exponent b sb mb eb Hb) as [kb [Heb Hmb]].
  unfold SF64add, SFadd.
  set (ez := Z.min ea eb).
  assert (Hez : ez = - Z.of_nat (Nat.max ka kb)) by (unfold ez; lia).
  assert (Hsum :
    cond_Zopp sa (Zpos (fst (shl_align ma ea ez)))
    + cond_Zopp sb (Zpos (fst (shl_align mb eb ez)))
    = (a + b) * 2 ^ Z.of_nat (Nat.max ka kb)).
  { rewrite !shl_align_value by lia.
    assert (Hc : forall s m x, cond_Zopp s (m * x) = cond_Zopp s m * x).
    { intros [] m x; cbn [cond_Zopp]; lia. }
    rewrite !Hc, Hma, Hmb, Z.mul_add_distr_r, <- !Z.mul_assoc,
      <- !Z.pow_add_r by lia.
    f_equal; f_equal; f_equal; lia. }
  rewrite Hsum, Hez. apply binary_normalize_int. exact Hab.
Qed.

Lemma double_of_int_add (a b : Z) :
  - 2 ^ 53 < a < 2 ^ 53 -> - 2 ^ 53 < b < 2 ^ 53 -> - 2 ^ 53 < a + b < 2 ^ 53 ->
  (double_of_int a + double_of_int b)%float = double_of_int (a + b).
Proof.
  intros Ha Hb Hab. apply Prim2SF_inj.
  rewrite FloatAxioms.add_spec, !Prim2SF_double_of_int by assumption.
  apply SF64add_of_Z. exact Hab.
Qed.

(** ** The blend functions at the two ends *)

Lemma SF64add_zero_of_Z (a : Z) (z : spec_float) :
  SF_is_zero z = true -> SF64add (SF_of_Z a) z = SF_of_Z a.
Proof.
  destruct z as [sz| | |]; try discriminate. intros _.
  destruct a as [|p|p]; [destruct sz; reflexivity | reflexivity ..].
Qed.

Lemma SF_of_Z_finite (a : Z) : SF_is_finite (SF_of_Z a) = true.
Proof. destruct a; reflexivity. Qed.

Lemma int_range_53 (z : Z) : int_range z -> - 2 ^ 53 < z < 2 ^ 53.
Proof. unfold int_range, INT_MIN, INT_MAX. lia. Qed.

Lemma wrap_int_range (z : Z) : int_range (wrap_int z).
Proof.
  unfold int_range, wrap_int, INT_MIN, INT_MAX.
  pose proof (Z.mod_pos_bound (z + 2 ^ 31) (2 ^ 32) ltac:(lia)). lia.
Qed.

Lemma wrap_int_small (z : Z) : int_range z -> wrap_int z = z.
Proof.
  unfold int_range, wrap_int, INT_MIN, INT_MAX. intros H.
  rewrite Z.mod_small by lia. lia.
Qed.

Lemma blendFunc_int_0 (from to : Z) :
  int_range from -> blendFunc_int from to 0 = from.
Proof.
  intros Hf. unfold blendFunc_int.
  assert (E : (double_of_int from + double_of_int (wrap_int (to - from)) * 0)%float
              = double_of_int from).
  { apply Prim2SF_inj.
    rewrite FloatAxioms.add_spec, FloatAxioms.mul_spec.
    rewrite (Prim2SF_double_of_int from) by (apply int_range_53; assumption).
    apply SF64add_zero_of_Z. apply SF64mul_zero.
    rewrite Prim2SF_double_of_int
      by (apply int_range_53, wrap_int_range).
    apply SF_of_Z_finite. }
  rewrite E. apply double_to_int_of_int. exact Hf.
Qed.

Lemma blendFunc_int_1 (from to : Z) :
  int_range from -> int_range to -> int_range (to - from) ->
  blendFunc_int from to 1 = to.
Proof.
  intros Hf Ht Hd. unfold blendFunc_int.
  rewrite mul_one, wrap_int_small by assumption.
  rewrite double_of_int_add by (apply int_range_53; try assumption;
    replace (from + (to - from)) with to by lia; assumption).
  replace (from + (to - from)) with to by lia.
  apply double_to_int_of_int. exact Ht.
Qed.

Lemma clamp255_id (v : Z) : 0 <= v <= 255 -> clamp255 v = v.
Proof. unfold clamp255. lia. Qed.

Lemma byte_int_range (v : Z) : 0 <= v <= 255 -> int_range v.
Proof. unfold int_range, INT_MIN, INT_MAX. lia. Qed.

Lemma byte_diff_int_range (u v : Z) :
  0 <= u <= 255 -> 0 <= v <= 255 -> int_range (v - u).
Proof. unfold int_range, INT_MIN, INT_MAX. lia. Qed.

Lemma blendFunc_Color_0 (from to : Color) :
  Color_wf from -> isValid from = true -> blendFunc_Color from to 0 = from.
Proof.
  intros (Hr & Hg & Hb & Ha) Hv. unfold blendFunc_Color, Color_rgba.
  rewrite !blendFunc_int_0 by (apply byte_int_range; assumption).
  rewrite !clamp255_id by assumption.
  destruct from; cbn in *; subst; reflexivity.
Qed.

Lemma blendFunc_Color_1 (from to : Color) :
  Color_wf from -> Color_wf to -> isValid to = true ->
  blendFunc_Color from to 1 = to.
Proof.
  intros (Hr & Hg & Hb & Ha) (Hr' & Hg' & Hb' & Ha') Hv.
  unfold blendFunc_Color, Color_rgba.
  rewrite !blendFunc_int_1
    by first [ apply byte_diff_int_range; assumption
             | apply byte_int_range; assumption ].
  rewrite !clamp255_id by assumption.
  destruct to; cbn in *; subst; reflexivity.
Qed.

Lemma blendFunc_EVisibility_1 (from to : EVisibility) :
  blendFunc_EVisibility from to 1 = to.
Proof. destruct from, to; vm_compute; reflexivity. Qed.

Lemma blendFunc_EVisibility_0 (from to : EVisibility) :
  blendFunc_EVisibility from to 0
  = if nonVisible from && nonVisible to then to else from.
Proof. destruct from, to; vm_compute; reflexivity. Qed.

Lemma blendFunc_EVisibility_hidden (from to : EVisibility) (progress : float) :
  nonVisible from = true -> nonVisible to = true ->
  blendFunc_EVisibility from to progress = to.
Proof. destruct from, to; try discriminate; intros _ _; reflexivity. Qed.

Lemma blendFunc_double_1 (from to : float) :
  blendFunc_double from to 1 = (from + (to - from))%float.
Proof. unfold blendFunc_double. rewrite mul_one. reflexivity. Qed.

Lemma SFeqb_refl_finite (x : spec_float) :
  SF_is_finite x = true -> SFeqb x x = true.
Proof.
  destruct x as [s|s| |s m e]; try discriminate; intros _.
  - reflexivity.
  - unfold SFeqb, SFcompare.
    rewrite Z.compare_refl, Pos.compare_cont_refl. destruct s; reflexivity.
Qed.

(** A finite number plus a zero is the number itself, but for the sign of
    a zero. *)
Lemma add_zero_r (x z : float) :
  is_finite x = true -> SF_is_zero (Prim2SF z) = true ->
  (x + z)%float = x \/ (SF_is_zero (Prim2SF x) = true
                        /\ SF_is_zero (Prim2SF (x + z)%float) = true).
Proof.
  unfold is_finite. intros Hx Hz.
  destruct (Prim2SF x) as [s|s| |s m e] eqn:Ex; try discriminate.
  - right. split; [reflexivity|].
    rewrite FloatAxioms.add_spec, Ex.
    destruct (Prim2SF z) as [sz| | |]; try discriminate.
    destruct s, sz; reflexivity.
  - left. apply Prim2SF_inj. rewrite FloatAxioms.add_spec, Ex.
    destruct (Prim2SF z) as [sz| | |]; try discriminate. reflexivity.
Qed.

Lemma deq_zeros (x y : float) :
  SF_is_zero (Prim2SF x) = true -> SF_is_zero (Prim2SF y) = true ->
  deq x y = true.
Proof.
  unfold deq. rewrite FloatAxioms.eqb_spec.
  destruct (Prim2SF x); try discriminate.
  destruct (Prim2SF y); try discriminate. reflexivity.
Qed.

Lemma deq_refl_finite (x : float) : is_finite x = true -> deq x x = true.
Proof.
  unfold deq, is_finite. rewrite FloatAxioms.eqb_spec. apply SFeqb_refl_finite.
Qed.

Lemma mul_zero_finite (x : float) :
  is_finite x = true -> SF_is_zero (Prim2SF (x * 0)%float) = true.
Proof.
  unfold is_finite. intros H. rewrite FloatAxioms.mul_spec.
  apply SF64mul_zero. exact H.
Qed.

Lemma blendFunc_double_0 (from to : float) :
  is_finite from = true -> is_finite (to - from)%float = true ->
  deq (blendFunc_double from to 0) from = true.
Proof.
  intros Hf Hd. unfold blendFunc_double.
  destruct (add_zero_r from ((to - from) * 0)%float Hf (mul_zero_finite _ Hd))
    as [E|[Hz1 Hz2]].
  - rewrite E. apply deq_refl_finite. exact Hf.
  - apply deq_zeros; assumption.
Qed.

Lemma narrow_zero (x : float) :
  SF_is_zero (Prim2SF x) = true -> narrowPrecisionToFloat x = x.
Proof.
  unfold narrowPrecisionToFloat. destruct (Prim2SF x); try discriminate.
  reflexivity.
Qed.

Lemma blendFunc_float_0 (from to : float) :
  narrowPrecisionToFloat from = from ->
  is_finite from = true ->
  is_finite (narrowPrecisionToFloat (to - from)%float) = true ->
  deq (blendFunc_float from to 0) from = true.
Proof.
  intros Hn Hf Hd. unfold blendFunc_float.
  destruct (add_zero_r from (narrowPrecisionToFloat (to - from) * 0)%float Hf
              (mul_zero_finite _ Hd)) as [E|[Hz1 Hz2]].
  - rewrite E, Hn. apply deq_refl_finite. exact Hf.
  - rewrite narrow_zero by assumption. apply deq_zeros; assumption.
Qed.

Lemma blendFunc_float_1 (from to : float) :
  blendFunc_float from to 1
  = narrowPrecisionToFloat (from + narrowPrecisionToFloat (to - from))%float.
Proof. unfold blendFunc_float. rewrite mul_one. reflexivity. Qed.

Lemma blendFunc_IntSize_0 (from to : IntSize) :
  int_range (width from) -> int_range (height from) ->
  blendFunc_IntSize from to 0 = from.
Proof.
  intros Hw Hh. unfold blendFunc_IntSize.
  rewrite !blendFunc_int_0 by assumption. destruct from; reflexivity.
Qed.

Lemma blendFunc_IntSize_1 (from to : IntSize) :
  int_range (width from) -> int_range (height from) ->
  int_range (width to) -> int_range (height to) ->
  int_range (width to - width from) -> int_range (height to - height from) ->
  blendFunc_IntSize from to 1 = to.
Proof.
  intros. unfold blendFunc_IntSize.
  rewrite !blendFunc_int_1 by assumption. destruct to; reflexivity.
Qed.

Lemma blendFunc_ShadowData_0 (from to : ShadowData) :
  int_range (sh_x from) -> int_range (sh_y from) -> int_range (sh_blur from) ->
  Color_wf (sh_color from) -> isValid (sh_color from) = true ->
  blendFunc_ShadowData from to 0 = from.
Proof.
  intros. unfold blendFunc_ShadowData.
  rewrite !blendFunc_int_0, blendFunc_Color_0 by assumption.
  destruct from; reflexivity.
Qed.

Lemma blendFunc_ShadowData_1 (from to : ShadowData) :
  int_range (sh_x from) -> int_range (sh_y from) -> int_range (sh_blur from) ->
  int_range (sh_x to) -> int_range (sh_y to) -> int_range (sh_blur to) ->
  int_range (sh_x to - sh_x from) -> int_range (sh_y to - sh_y from) ->
  int_range (sh_blur to - sh_blur from) ->
  Color_wf (sh_color from) -> Color_wf (sh_color to) ->
  isValid (sh_color to) = true ->
  blendFunc_ShadowData from to 1 = to.
Proof.
  intros. unfold blendFunc_ShadowData.
  rewrite !blendFunc_int_1, blendFunc_Color_1 by assumption.
  destruct to; reflexivity.
Qed.

Section TransformLists.
Context {P : Platform}.

Lemma skipn_nth_error {A : Type} (l : list A) (i : nat) (x : A) :
  nth_error l i = Some x -> skipn i l = x :: skipn (S i) l.
Proof.
  revert i; induction l as [|y l IH]; intros [|i] H; try discriminate.
  - injection H as ->. reflexivity.
  - cbn in H. rewrite skipn_cons. apply IH. exact H.
Qed.

Lemma Forall2_nth_error_pair {A B : Type} (R : A -> B -> Prop)
    (l1 : list A) (l2 : list B) :
  Forall2 R l1 l2 ->
  forall i a b, nth_error l1 i = Some a -> nth_error l2 i = Some b -> R a b.
Proof.
  induction 1 as [|x y l1 l2 Hxy Hl IH]; intros [|i] a b Ha Hb;
    try discriminate.
  - cbn in Ha, Hb. injection Ha as <-. injection Hb as <-. exact Hxy.
  - cbn in Ha, Hb. exact (IH i a b Ha Hb).
Qed.

(** When at every position the blend of the two operations of that
    position yields the operation [pick f t], the blend of the two lists is
    the list of these operations. *)
Lemma blendTransform_fold (pick : TransformOperation -> TransformOperation ->
                                  TransformOperation)
    (from to : TransformOperations) (progress : float) :
  Forall2 (fun f t => TransformOperation_blend t (Some f) progress false
                      = Some (pick f t)) from to ->
  forall k i acc, (i + k <= List.length from)%nat ->
    fold_left (blendTransformAt from to progress) (seq i k) acc
    = acc ++ map (fun ft => pick (fst ft) (snd ft))
               (firstn k (skipn i (combine from to))).
Proof.
  intros Hb.
  assert (Hlen : List.length from = List.length to)
    by (exact (Forall2_length Hb)).
  induction k as [|k IH]; intros i acc Hik.
  - cbn. rewrite app_nil_r. reflexivity.
  - cbn [seq fold_left].
    destruct (nth_error from i) as [f|] eqn:Ef.
    2:{ apply nth_error_None in Ef. lia. }
    destruct (nth_error to i) as [t|] eqn:Et.
    2:{ apply nth_error_None in Et. lia. }
    assert (Ec : nth_error (combine from to) i = Some (f, t)).
    { clear - Ef Et. revert to i Ef Et.
      induction from as [|x from IHf]; intros [|y to] [|i] Ef Et;
        try discriminate; cbn in *.
      - congruence.
      - apply IHf; assumption. }
    rewrite (skipn_nth_error _ _ _ Ec). cbn [firstn map fst snd].
    unfold blendTransformAt at 2. rewrite Ef, Et.
    rewrite (Forall2_nth_error_pair _ _ _ Hb i f t Ef Et).
    rewrite IH by lia. rewrite <- app_assoc. reflexivity.
Qed.

Lemma blendFunc_TransformOperations_0 (from to : TransformOperations) :
  Forall2 (fun f t => TransformOperation_blend t (Some f) 0 false = Some f)
    from to ->
  blendFunc_TransformOperations from to 0 = from.
Proof.
  intros Hb.
  assert (Hlen : List.length from = List.length to)
    by (exact (Forall2_length Hb)).
  unfold blendFunc_TransformOperations.
  rewrite <- Hlen, Nat.max_id.
  rewrite (blendTransform_fold (fun f _ => f) from to 0 Hb) by lia.
  cbn [skipn app]. rewrite firstn_all2 by (rewrite length_combine; lia).
  clear Hb. revert to Hlen.
  induction from as [|x from IH]; intros [|y to] Hlen; try discriminate.
  - reflexivity.
  - cbn. f_equal. apply IH. cbn in Hlen. lia.
Qed.

Lemma blendFunc_TransformOperations_1 (from to : TransformOperations) :
  Forall2 (fun f t => TransformOperation_blend t (Some f) 1 false = Some t)
    from to ->
  blendFunc_TransformOperations from to 1 = to.
Proof.
  intros Hb.
  assert (Hlen : List.length from = List.length to)
    by (exact (Forall2_length Hb)).
  unfold blendFunc_TransformOperations.
  rewrite <- Hlen, Nat.max_id.
  rewrite (blendTransform_fold (fun _ t => t) from to 1 Hb) by lia.
  cbn [skipn app]. rewrite firstn_all2 by (rewrite length_combine; lia).
  clear Hb. revert to Hlen.
  induction from as [|x from IH]; intros [|y to] Hlen; try discriminate.
  - reflexivity.
  - cbn. f_equal. apply IH. cbn in Hlen. lia.
Qed.

(** A list that is longer than the target keeps its length when every
    operation blends to something. *)
Lemma blendTransformAt_length (from to : TransformOperations)
    (progress : float) :
  (forall t f b, TransformOperation_blend t f progress b <> None) ->
  forall l acc,
    Forall (fun i => (i < Nat.max (List.length from) (List.length to))%nat) l ->
    List.length (fold_left (blendTransformAt from to progress) l acc)
    = (List.length acc + List.length l)%nat.
Proof.
  intros Hb. induction l as [|i l IH]; intros acc Hl.
  - cbn. lia.
  - cbn [fold_left]. inversion Hl as [|? ? Hi Hl']; subst.
    rewrite IH by assumption.
    unfold blendTransformAt.
    destruct (nth_error to i) as [t|] eqn:Et.
    + destruct (TransformOperation_blend t (nth_error from i) progress false)
        eqn:Eb; [|exfalso; eapply Hb; eassumption].
      rewrite length_app. cbn. lia.
    + destruct (nth_error from i) as [f|] eqn:Ef.
      * destruct (TransformOperation_blend f None progress true) eqn:Eb;
          [|exfalso; eapply Hb; eassumption].
        rewrite length_app. cbn. lia.
      * apply nth_error_None in Et. apply nth_error_None in Ef. lia.
Qed.

End TransformLists.

(** What the numeric strategies lose at progress 1: the sum
    [from + (to - from)] is rounded. *)
Example blendFunc_double_rounds :
  blendFunc_double 1e16 1 1 = 0%float /\ blendFunc_float 33554432 1 1 = 0%float.
Proof. split; vm_compute; reflexivity. Qed.

(** An invalid colour is not reproduced: the blend is always valid. *)
Example blendFunc_Color_invalid :
  isValid (blendFunc_Color
             {| red := 0; green := 0; blue := 0; alpha := 0; isValid := false |}
             Color_transparent 0) = true.
Proof. reflexivity. Qed.

(** A transform list that is longer than its target keeps its length at
    progress 1. *)
Example blendFunc_TransformOperations_longer :
  @blendFunc_TransformOperations examplePlatform [5; 7] [3] 1 = [3; 0].
Proof. vm_compute. reflexivity. Qed.

(** C2 (as the code has it).  Blending at progress 0 gives back [from] and
    at progress 1 gives [to]: for [int] operands (at 1 when [to - from] does
    not overflow), hence for [IntSize], shadows and valid colours; for a
    visibility unless both ends are non-visible, where the result is [to] at
    every progress; for two transform lists in which, position by position,
    the operation of [to] blends with the operation of [from] to that end
    (the lists then have one length).  For [double] and [float] the blend
    at 0 compares equal to [from] when [from] and [to - from] are finite,
    and the blend at 1 is the rounded sum [from + (to - from)], for [float]
    with the difference and the sum each rounded to single precision. *)
Theorem blendFunc_endpoints {P : Platform} :
  (forall from to : Z, int_range from ->
     blendFunc_int from to 0 = from
     /\ (int_range to -> int_range (to - from) -> blendFunc_int from to 1 = to))
  /\ (forall from to : IntSize,
        int_range (width from) -> int_range (height from) ->
        blendFunc_IntSize from to 0 = from
        /\ (int_range (width to) -> int_range (height to) ->
            int_range (width to - width from) ->
            int_range (height to - height from) ->
            blendFunc_IntSize from to 1 = to))
  /\ (forall from to : Color, Color_wf from -> Color_wf to ->
        (isValid from = true -> blendFunc_Color from to 0 = from)
        /\ (isValid to = true -> blendFunc_Color from to 1 = to))
  /\ (forall from to : ShadowData,
        int_range (sh_x from) -> int_range (sh_y from) ->
        int_range (sh_blur from) -> Color_wf (sh_color from) ->
        (isValid (sh_color from) = true -> blendFunc_ShadowData from to 0 = from)
        /\ (int_range (sh_x to) -> int_range (sh_y to) ->
            int_range (sh_blur to) -> int_range (sh_x to - sh_x from) ->
            int_range (sh_y to - sh_y from) ->
            int_range (sh_blur to - sh_blur from) ->
            Color_wf (sh_color to) -> isValid (sh_color to) = true ->
            blendFunc_ShadowData from to 1 = to))
  /\ (forall from to : EVisibility,
        blendFunc_EVisibility from to 1 = to
        /\ blendFunc_EVisibility from to 0
           = (if nonVisible from && nonVisible to then to else from)
        /\ (nonVisible from = true -> nonVisible to = true ->
            forall progress, blendFunc_EVisibility from to progress = to))
  /\ (forall from to : TransformOperations,
        (Forall2 (fun f t => TransformOperation_blend t (Some f) 0 false
                             = Some f) from to ->
         blendFunc_TransformOperations from to 0 = from)
        /\ (Forall2 (fun f t => TransformOperation_blend t (Some f) 1 false
                                = Some t) from to ->
            blendFunc_TransformOperations from to 1 = to))
  /\ (forall from to : float,
        (is_finite from = true -> is_finite (to - from)%float = true ->
         deq (blendFunc_double from to 0) from = true)
        /\ blendFunc_double from to 1 = (from + (to - from))%float)
  /\ (forall from to : float,
        (narrowPrecisionToFloat from = from -> is_finite from = true ->
         is_finite (narrowPrecisionToFloat (to - from)%float) = true ->
         deq (blendFunc_float from to 0) from = true)
        /\ blendFunc_float from to 1
           = narrowPrecisionToFloat
               (from + narrowPrecisionToFloat (to - from))%float).
Proof.
  repeat split; intros.
  - apply blendFunc_int_0; assumption.
  - apply blendFunc_int_1; assumption.
  - apply blendFunc_IntSize_0; assumption.
  - apply blendFunc_IntSize_1; assumption.
  - apply blendFunc_Color_0; assumption.
  - apply blendFunc_Color_1; assumption.
  - apply blendFunc_ShadowData_0; assumption.
  - apply blendFunc_ShadowData_1; assumption.
  - apply blendFunc_EVisibility_1.
  - apply blendFunc_EVisibility_0.
  - apply blendFunc_EVisibility_hidden; assumption.
  - apply blendFunc_TransformOperations_0; assumption.
  - apply blendFunc_TransformOperations_1; assumption.
  - apply blendFunc_double_0; assumption.
  - apply blendFunc_double_1.
  - apply blendFunc_float_0; assumption.
  - apply blendFunc_float_1.
Qed.

(** C2 (as stated) fails for the visibility strategy: between [HIDDEN] and
    [COLLAPSE] the blend at progress 0 is the target, not [from]. *)
Lemma blendFunc_EVisibility_hidden_to_collapse :
  blendFunc_EVisibility HIDDEN COLLAPSE 0 = COLLAPSE
  /\ blendFunc_EVisibility HIDDEN COLLAPSE 0 <> HIDDEN.
Proof. split; [reflexivity | discriminate]. Qed.

Lemma blendFunc_endpoints_witness :
  @blendFunc_TransformOperations examplePlatform [5; 7] [3; 9] 0 = [5; 7]
  /\ @blendFunc_TransformOperations examplePlatform [5; 7] [3; 9] 1 = [3; 9].
Proof.
  destruct (@blendFunc_endpoints examplePlatform)
    as (_ & _ & _ & _ & _ & Ht & _).
  destruct (Ht [5; 7] [3; 9]) as [H0 H1]. split.
  - apply H0.
    constructor; [vm_compute; reflexivity|].
    constructor; [vm_compute; reflexivity|]. constructor.
  - apply H1.
    constructor; [vm_compute; reflexivity|].
    constructor; [vm_compute; reflexivity|]. constructor.
Defined.

(** ** Progress *)

Section Progress.
Context {P : Platform}.

Lemma land_1_odd (i : Z) : negb (Z.land i 1 =? 0) = Z.odd i.
Proof.
  change 1 with (Z.ones 1). rewrite Z.land_ones by lia.
  change (2 ^ 1) with 2. rewrite Zodd_mod.
  pose proof (Z.mod_pos_bound i 2 ltac:(lia)).
  destruct (Z.eqb_spec (i mod 2) 0) as [E|E]; rewrite ?E; cbn.
  - reflexivity.
  - symmetry. apply Z.eqb_eq. lia.
Qed.

(** The three cases of [progress], in the order of the code: 0 while the
    animation is not active yet, otherwise 1 once it is past its active
    window, otherwise what the code computes as the fractional time
    ([fractionOf]: the quotient minus its conversion to [int]), flipped on
    an odd iteration of an alternating animation, remapped by
    [(scale, offset)] and passed through the timing function, which is the
    identity when linear. *)
Lemma progress_cases (a : AnimationBase) (scale offset now : float) :
  (notYetActive a now = true -> progress a scale offset now = 0%float)
  /\ (notYetActive a now = false -> pastActiveWindow a now = true ->
      progress a scale offset now = 1%float)
  /\ (notYetActive a now = false -> pastActiveWindow a now = false ->
      progress a scale offset now
      = timed (m_animation a)
          (remapped scale offset
             (alternated (m_animation a)
                (elapsedTime a now / duration (m_animation a))%float)))
  /\ (tf_type (timingFunction (m_animation a)) = LinearTimingFunction ->
      forall f, timed (m_animation a) f = f).
Proof.
  unfold notYetActive, pastActiveWindow, totalDuration, elapsedTime, progress.
  destruct (preactive a); cbn [orb].
  { repeat split; try discriminate; try reflexivity.
    intros H f. unfold timed. rewrite H. reflexivity. }
  set (e := if running a then _ else _).
  destruct (running a && dlt e 0); cbn [orb].
  { repeat split; try discriminate; try reflexivity.
    intros H f. unfold timed. rewrite H. reflexivity. }
  set (d := if 0 <? iterationCount (m_animation a) then _ else _).
  destruct (postactive a || deq (duration (m_animation a)) 0
            || (0 <? iterationCount (m_animation a)) && dge e d).
  { repeat split; try discriminate; try reflexivity.
    intros H f. unfold timed. rewrite H. reflexivity. }
  repeat split; try discriminate.
  - intros _ _. unfold timed, remapped, alternated, fractionOf.
    rewrite land_1_odd. reflexivity.
  - intros H f. unfold timed. rewrite H. reflexivity.
Qed.

End Progress.

(** C1 (the defect of the code).  The fractional time is computed as the
    quotient elapsed/duration minus its conversion to [int], which is the
    fractional part only while the quotient is below 2^31.  An endless
    animation of 1/1024 of a second that has been looping for 5000000
    seconds is neither before nor past its active window, its quotient
    5120000000 converts to [INT_MIN], and its progress is 7267483648, where
    the fractional time is 0 and no progress is above 1.  (Where the
    conversion saturates instead, at [INT_MAX], the difference is
    2972516353.) *)
Theorem progress_past_int_range :
  let decl := exampleDeclaration 1001 0.0009765625 0 (-1) in
  let a :=
    @run examplePlatform exampleHost (ImplicitAnimation_new decl 1001)
      [ {| s_input := STATE_INPUT_START_ANIMATION; s_param := (-1)%float;
           s_now := 1%float |};
        {| s_input := STATE_INPUT_START_TIMER_FIRED; s_param := 0%float;
           s_now := 1%float |};
        {| s_input := STATE_INPUT_STYLE_AVAILABLE; s_param := (-1)%float;
           s_now := 1%float |} ] in
  let now := 5000001%float in
  m_animState a = STATE_LOOPING
  /\ m_startTime a = 1%float
  /\ notYetActive a now = false
  /\ pastActiveWindow a now = false
  /\ (elapsedTime a now / duration decl)%float = 5120000000%float
  /\ double_to_int (elapsedTime a now / duration decl) = INT_MIN
  /\ progress a 1 0 now = 7267483648%float
  /\ dgt (progress a 1 0 now) 1 = true
  /\ (elapsedTime a now / duration decl - double_of_int INT_MAX)%float
     = 2972516353%float.
Proof. vm_compute. repeat split; reflexivity. Qed.

(** The elapsed time of [progress] follows the clock in every state but
    [STATE_NEW] and [STATE_DONE], the paused states included: a ten-second
    transition that started at 1 and was paused at 2 is a tenth of the way
    at 2, further on at 5, and complete at 30, while it is paused. *)
Example progress_of_a_paused_animation_moves :
  let decl := exampleDeclaration 1001 10 0 1 in
  let a :=
    @run examplePlatform exampleHost (ImplicitAnimation_new decl 1001)
      [ {| s_input := STATE_INPUT_START_ANIMATION; s_param := (-1)%float;
           s_now := 1%float |};
        {| s_input := STATE_INPUT_START_TIMER_FIRED; s_param := 0%float;
           s_now := 1%float |};
        {| s_input := STATE_INPUT_STYLE_AVAILABLE; s_param := (-1)%float;
           s_now := 1%float |};
        {| s_input := STATE_INPUT_PLAY_STATE_PAUSED; s_param := (-1)%float;
           s_now := 2%float |} ] in
  m_animState a = STATE_PAUSED_RUN
  /\ m_pauseTime a = 2%float
  /\ progress a 1 0 2 = ((2 - 1) / 10)%float
  /\ progress a 1 0 5 = ((5 - 1) / 10)%float
  /\ progress a 1 0 30 = 1%float.
Proof. vm_compute. repeat split; reflexivity. Qed.

(** A two-second linear transition that started at time 100: a quarter of
    the way at 100.5, complete from 102 on, and not started before its
    start time is known. *)
Example progress_values :
  let a := @ImplicitAnimation_new examplePlatform
             (exampleDeclaration 1001 2 0 1) 1001 in
  let running := set_startTime (set_animState a STATE_ENDING) 100 in
  @progress examplePlatform a 1 0 100 = 0%float
  /\ @progress examplePlatform running 1 0 100.5 = 0.25%float
  /\ @progress examplePlatform running 1 0 102 = 1%float
  /\ @progress examplePlatform running 1 0 99 = 0%float.
Proof. vm_compute. repeat split; reflexivity. Qed.

(** ** The state machine *)

Section StateMachine.
Context {P : Platform}.

Lemma primeEventTimers_shape (a : AnimationBase) (now : float) :
  (m_animState (primeEventTimers a now) = STATE_LOOPING
   \/ m_animState (primeEventTimers a now) = STATE_ENDING)
  /\ m_pauseTime (primeEventTimers a now) = m_pauseTime a
  /\ m_startTime (primeEventTimers a now) = m_startTime a.
Proof.
  unfold primeEventTimers.
  destruct (dlt _ 0 || dlt _ _); cbn;
    match goal with |- context [if ?c then _ else _] => destruct c end;
    cbn; auto.
Qed.

Lemma startTimeSet_shape (a : AnimationBase) (param now : float) :
  (m_animState (fst (startTimeSet a param now)) = STATE_LOOPING
   \/ m_animState (fst (startTimeSet a param now)) = STATE_ENDING)
  /\ m_pauseTime (fst (startTimeSet a param now)) = m_pauseTime a
  /\ m_startTime (fst (startTimeSet a param now))
     = if dle (m_startTime a) 0 then param else m_startTime a.
Proof.
  unfold startTimeSet. cbn [fst].
  destruct (primeEventTimers_shape
              (if dle (m_startTime a) 0 then set_startTime a param else a) now)
    as (Hs & Hp & Ht).
  rewrite Hp, Ht. destruct (dle (m_startTime a) 0); cbn; auto.
Qed.

Lemma onAnimationStart_fields h (a : AnimationBase) t :
  m_animState (onAnimationStart h a t) = m_animState a
  /\ m_pauseTime (onAnimationStart h a t) = m_pauseTime a
  /\ m_startTime (onAnimationStart h a t) = m_startTime a.
Proof.
  unfold onAnimationStart, sendAnimationEvent.
  destruct (m_kind a); [auto|].
  destruct (hasListenerType h _), (hasElementNode h); cbn; auto.
Qed.

Lemma onAnimationIteration_fields h (a : AnimationBase) t :
  m_animState (onAnimationIteration h a t) = m_animState a
  /\ m_pauseTime (onAnimationIteration h a t) = m_pauseTime a
  /\ m_startTime (onAnimationIteration h a t) = m_startTime a.
Proof.
  unfold onAnimationIteration, sendAnimationEvent.
  destruct (m_kind a); [auto|].
  destruct (hasListenerType h _), (hasElementNode h); cbn; auto.
Qed.

Lemma onAnimationEnd_fields h (a : AnimationBase) t :
  m_animState (fst (onAnimationEnd h a t)) = m_animState a
  /\ m_pauseTime (fst (onAnimationEnd h a t)) = m_pauseTime a
  /\ m_startTime (fst (onAnimationEnd h a t)) = m_startTime a.
Proof.
  unfold onAnimationEnd, sendAnimationEvent, sendTransitionEvent.
  destruct (m_kind a);
    destruct (hasListenerType h _), (hasElementNode h); cbn; auto.
Qed.

(** The state and the pause time after one call. *)
Lemma updateStateMachine_pause h a input param now :
  let a' := fst (updateStateMachine h a input param now) in
  (m_animState a' = m_animState a /\ m_pauseTime a' = m_pauseTime a)
  \/ ((m_animState a' = STATE_NEW \/ m_animState a' = STATE_START_WAIT_TIMER)
      /\ m_pauseTime a' = (-1)%float)
  \/ ((m_animState a' = STATE_START_WAIT_TIMER
       \/ m_animState a' = STATE_START_WAIT_STYLE_AVAILABLE)
      /\ beforeStart a = true /\ m_pauseTime a' = m_pauseTime a)
  \/ (m_animState a' = STATE_START_WAIT_RESPONSE
      \/ m_animState a' = STATE_LOOPING \/ m_animState a' = STATE_ENDING
      \/ m_animState a' = STATE_DONE)
  \/ (logicallyPaused a' = true
      /\ (m_pauseTime a' = now \/ m_pauseTime a' = 0%float)).
Proof.
  unfold updateStateMachine, beforeStart, logicallyPaused.
  destruct input; destruct (m_animState a) eqn:Es;
    cbn -[startTimeSet onAnimationEnd onAnimationStart onAnimationIteration primeEventTimers];
    rewrite ?orb_true_r; rewrite ?Es;
    cbn -[startTimeSet onAnimationEnd onAnimationStart onAnimationIteration primeEventTimers].
  all: try (left; split; reflexivity).
  all: try (right; left; split; [auto | reflexivity]; fail).
  all: try (right; right; left; repeat split; auto; fail).
  all: try (right; right; right; right; split; [reflexivity | auto]; fail).
  all: try (right; right; right; left; auto; fail).
  all: try (match goal with
            | |- context [startTimeSet ?x ?p ?n] =>
                pose proof (startTimeSet_shape x p n) as (Hs & _ & _);
                destruct (startTimeSet x p n) as [a1 e1];
                cbn in Hs |- *; destruct Hs as [H|H];
                rewrite H; right; right; right; left; auto
            | |- context [primeEventTimers ?x ?n] =>
                destruct (primeEventTimers_shape x n) as ([H|H] & _ & _);
                rewrite H; right; right; right; left; auto
            | |- context [onAnimationEnd ?h ?x ?p] =>
                destruct (onAnimationEnd h x p); cbn;
                right; right; right; left; auto
            end).
Qed.

Lemma updateStateMachine_invariant h a input param now :
  pauseInvariant a -> dle 0 now = true ->
  pauseInvariant (fst (updateStateMachine h a input param now)).
Proof.
  intros [I1 I2] Hnow.
  pose proof (updateStateMachine_pause h a input param now) as H.
  cbv zeta in H.
  set (a' := fst (updateStateMachine h a input param now)) in *.
  unfold pauseInvariant, logicallyPaused, beforeStart, paused, dge in *.
  destruct H as [[Hs Hp]|[[Hs Hp]|[(Hs & Hb & Hp)|[Hs|[Hl Hp]]]]].
  - rewrite Hs, Hp. split; assumption.
  - rewrite Hp. destruct Hs as [-> | ->]; split; intros; first [discriminate | reflexivity].
  - rewrite Hp. rewrite (I2 Hb).
    destruct Hs as [-> | ->]; split; intros; first [discriminate | reflexivity].
  - destruct Hs as [-> | [-> | [-> | ->]]]; split; intros; discriminate.
  - split.
    + intros _. destruct Hp as [-> | ->]; [exact Hnow | reflexivity].
    + intros Hb. exfalso. revert Hl Hb.
      destruct (m_animState a'); cbn; intros; discriminate.
Qed.

Lemma run_invariant h (l : list Step) :
  clockNonNegative l -> forall a, pauseInvariant a -> pauseInvariant (run h a l).
Proof.
  unfold run. induction 1 as [|s l Hs Hl IH]; intros a Ha.
  - exact Ha.
  - cbn [fold_left]. apply IH. apply updateStateMachine_invariant; assumption.
Qed.

(** C5 (as the code has it).  In every state that a new animation reaches
    through calls of [updateStateMachine], with a clock that never reads a
    negative time: in one of the three paused states the pause time is not
    negative ([paused] holds), and before the style-available handshake has
    completed ([STATE_NEW], [STATE_START_WAIT_TIMER],
    [STATE_START_WAIT_STYLE_AVAILABLE]) the pause time is -1 ([paused] does
    not hold); and [STATE_INPUT_END_ANIMATION] takes the animation to
    [STATE_DONE] with the pause time it had, so that an animation that was
    paused is then both paused and done. *)
Theorem paused_in_reachable_states (h : Host) (anim : Animation)
    (k : AnimKind) (l : list Step) :
  clockNonNegative l ->
  let a := run h (AnimationBase_new anim k) l in
  (logicallyPaused a = true -> paused a = true)
  /\ (beforeStart a = true -> paused a = false /\ m_pauseTime a = (-1)%float)
  /\ (forall param now,
        let a' :=
          fst (updateStateMachine h a STATE_INPUT_END_ANIMATION param now) in
        m_animState a' = STATE_DONE
        /\ m_pauseTime a' = m_pauseTime a
        /\ (paused a = true -> paused a' = true /\ postactive a' = true)).
Proof.
  intros Hl a.
  assert (Hi : pauseInvariant a).
  { apply run_invariant; [assumption|]. split; [discriminate | reflexivity]. }
  destruct Hi as [H1 H2]. split; [exact H1|]. split.
  - intros Hb. split; [|auto]. unfold paused. rewrite (H2 Hb). reflexivity.
  - intros param now a'.
    assert (Hs : m_animState a' = STATE_DONE) by reflexivity.
    assert (Hp : m_pauseTime a' = m_pauseTime a) by reflexivity.
    split; [exact Hs|]. split; [exact Hp|].
    intros Hpa. unfold paused, postactive. rewrite Hp, Hs.
    split; [exact Hpa | reflexivity].
Qed.

Lemma pauseWhileRunning_startTime (a : AnimationBase) (now : float) :
  m_startTime (fst (pauseWhileRunning a now)) = m_startTime a.
Proof. reflexivity. Qed.

(** C7.  In [STATE_START_WAIT_RESPONSE] the input [STATE_INPUT_START_TIME_SET]
    with time [t] sets the start time to [t] only when no start time is set
    yet ([m_startTime <= 0]), and a second [STATE_INPUT_START_TIME_SET]
    leaves the start time as the first one left it. *)
Theorem startTime_set_once (h : Host) (a : AnimationBase) (t now : float) :
  m_animState a = STATE_START_WAIT_RESPONSE ->
  let a1 := fst (updateStateMachine h a STATE_INPUT_START_TIME_SET t now) in
  m_startTime a1 = (if dle (m_startTime a) 0 then t else m_startTime a)
  /\ forall t2 now2,
       m_startTime
         (fst (updateStateMachine h a1 STATE_INPUT_START_TIME_SET t2 now2))
       = m_startTime a1.
Proof.
  intros Hs a1.
  assert (E : updateStateMachine h a STATE_INPUT_START_TIME_SET t now
              = startTimeSet a t now).
  { unfold updateStateMachine. rewrite Hs. reflexivity. }
  subst a1. rewrite E.
  destruct (startTimeSet_shape a t now) as (Hst & _ & Ht).
  split; [exact Ht|].
  intros t2 now2. unfold updateStateMachine.
  destruct Hst as [-> | ->]; apply pauseWhileRunning_startTime.
Qed.

End StateMachine.

(** C5 (as stated) fails: an animation that is paused while it waits for
    its start timer and is then ended is in [STATE_DONE] with a pause time
    that is not negative. *)
Lemma paused_and_done :
  let a :=
    @run examplePlatform exampleHost
      (ImplicitAnimation_new (exampleDeclaration 1001 2 0 1) 1001)
      [ {| s_input := STATE_INPUT_START_ANIMATION; s_param := (-1)%float;
           s_now := 10%float |};
        {| s_input := STATE_INPUT_PLAY_STATE_PAUSED; s_param := (-1)%float;
           s_now := 10%float |};
        {| s_input := STATE_INPUT_END_ANIMATION; s_param := (-1)%float;
           s_now := 10%float |} ] in
  paused a = true /\ postactive a = true /\ logicallyPaused a = false.
Proof. vm_compute. repeat split; reflexivity. Qed.

(** A pause taken while the animation waits for its style leaves it in
    [STATE_START_WAIT_RESPONSE] with a pause time of 0. *)
Example paused_while_waiting_for_style :
  let a :=
    @run examplePlatform exampleHost
      (ImplicitAnimation_new (exampleDeclaration 1001 2 0 1) 1001)
      [ {| s_input := STATE_INPUT_START_ANIMATION; s_param := (-1)%float;
           s_now := 10%float |};
        {| s_input := STATE_INPUT_START_TIMER_FIRED; s_param := 0%float;
           s_now := 10%float |};
        {| s_input := STATE_INPUT_PLAY_STATE_PAUSED; s_param := (-1)%float;
           s_now := 10%float |} ] in
  m_animState a = STATE_START_WAIT_RESPONSE /\ paused a = true.
Proof. vm_compute. split; reflexivity. Qed.

Lemma paused_in_reachable_states_witness :
  let l := [ {| s_input := STATE_INPUT_START_ANIMATION; s_param := (-1)%float;
                s_now := 10%float |};
             {| s_input := STATE_INPUT_PLAY_STATE_PAUSED; s_param := (-1)%float;
                s_now := 11%float |} ] in
  let a := @run examplePlatform exampleHost
             (ImplicitAnimation_new (exampleDeclaration 1001 2 0 1) 1001) l in
  clockNonNegative l
  /\ (logicallyPaused a = true -> paused a = true)
  /\ (beforeStart a = true -> paused a = false /\ m_pauseTime a = (-1)%float)
  /\ (forall param now,
        let a' :=
          fst (@updateStateMachine examplePlatform exampleHost a
                 STATE_INPUT_END_ANIMATION param now) in
        m_animState a' = STATE_DONE
        /\ m_pauseTime a' = m_pauseTime a
        /\ (paused a = true -> paused a' = true /\ postactive a' = true)).
Proof.
  intros l a.
  assert (Hl : clockNonNegative l) by (repeat constructor).
  split; [exact Hl|].
  exact (@paused_in_reachable_states examplePlatform exampleHost
           (exampleDeclaration 1001 2 0 1) _ l Hl).
Defined.

Lemma startTime_set_once_witness :
  let a := set_animState
             (@ImplicitAnimation_new examplePlatform
                (exampleDeclaration 1001 2 0 1) 1001)
             STATE_START_WAIT_RESPONSE in
  let a1 := fst (@updateStateMachine examplePlatform exampleHost a
                   STATE_INPUT_START_TIME_SET 100 100) in
  m_animState a = STATE_START_WAIT_RESPONSE
  /\ m_startTime a1 = 100%float
  /\ forall t2 now2,
       m_startTime
         (fst (@updateStateMachine examplePlatform exampleHost a1
                 STATE_INPUT_START_TIME_SET t2 now2))
       = m_startTime a1.
Proof.
  intros a a1. split; [reflexivity|].
  exact (@startTime_set_once examplePlatform exampleHost a 100 100 eq_refl).
Defined.

(** ** The property registry *)

Section Registry.
Context {P : Platform}.

Lemma array_set_spec (a a' : list Z) (i v : Z) :
  array_set a i v = Some a' ->
  List.length a' = List.length a
  /\ forall j, array_get a' j = if j =? i then Some v else array_get a j.
Proof.
  unfold array_set.
  destruct (Z.leb_spec 0 i) as [Hi0|]; [|discriminate].
  destruct (Z.ltb_spec i (Z.of_nat (List.length a))) as [Hil|]; [|discriminate].
  cbn [andb]. intros H. injection H as <-.
  change (match a with [] => [] | _ :: l => skipn (Z.to_nat i) l end)
    with (skipn (S (Z.to_nat i)) a).
  assert (Hn : (Z.to_nat i < List.length a)%nat) by lia.
  split.
  - rewrite length_app, length_firstn, length_cons, length_skipn. lia.
  - intros j. unfold array_get.
    destruct (Z.leb_spec 0 j) as [Hj0|Hj0].
    + destruct (Z.eqb_spec j i) as [->|Hne].
      * rewrite nth_error_app2 by (rewrite length_firstn; lia).
        rewrite length_firstn.
        replace (Z.to_nat i - Nat.min (Z.to_nat i) (List.length a))%nat
          with 0%nat by lia.
        reflexivity.
      * destruct (Nat.lt_ge_cases (Z.to_nat j) (Z.to_nat i)) as [Hlt|Hge].
        -- rewrite nth_error_app1 by (rewrite length_firstn; lia).
           rewrite nth_error_firstn.
           destruct (Nat.ltb_spec (Z.to_nat j) (Z.to_nat i)); [reflexivity | lia].
        -- assert (Hgt : (Z.to_nat i < Z.to_nat j)%nat) by lia.
           rewrite nth_error_app2 by (rewrite length_firstn; lia).
           rewrite length_firstn.
           replace (Z.to_nat j - Nat.min (Z.to_nat i) (List.length a))%nat
             with (S (Z.to_nat j - S (Z.to_nat i))) by lia.
           cbn [nth_error]. rewrite nth_error_skipn. f_equal. lia.
    + destruct (Z.eqb_spec j i); [lia | reflexivity].
Qed.

Lemma fillPropertyWrapperMap_spec (ws : list PropertyWrapperBase) :
  forall (i : Z) (map map' : list Z),
    fillPropertyWrapperMap ws i map = Some map' ->
    List.length map' = List.length map
    /\ forall j,
         (forall w, In w ws -> wrap_int (m_prop w - firstCSSProperty) <> j) ->
         array_get map' j = array_get map j.
Proof.
  induction ws as [|w ws IH]; intros i map map' H; cbn in H.
  - injection H as <-. auto.
  - destruct (array_set map (wrap_int (m_prop w - firstCSSProperty)) i)
      as [map1|] eqn:E; [|discriminate].
    destruct (array_set_spec _ _ _ _ E) as [Hl1 Hg1].
    destruct (IH _ _ _ H) as [Hl2 Hg2].
    split; [congruence|].
    intros j Hj. rewrite Hg2 by (intros w' Hw'; apply Hj; right; exact Hw').
    rewrite Hg1.
    destruct (Z.eqb_spec j (wrap_int (m_prop w - firstCSSProperty))) as [->|];
      [|reflexivity].
    exfalso. apply (Hj w); [left; reflexivity | reflexivity].
Qed.

Lemma ensurePropertyMap_of_wf (ws : list PropertyWrapperBase) (pm : PropertyMap) :
  ensurePropertyMap_of ws = Some pm -> PropertyMap_wf pm /\ wrappers pm = ws.
Proof.
  unfold ensurePropertyMap_of, PropertyMap_wf.
  destruct (fillPropertyWrapperMap ws 0 _) as [map|] eqn:E; [|discriminate].
  intros H. injection H as <-. cbn.
  destruct (fillPropertyWrapperMap_spec _ _ _ _ E) as [Hl _].
  rewrite Hl, repeat_length. auto.
Qed.

Lemma wrap_int_inj (x y c : Z) :
  int_range x -> int_range y -> wrap_int (x - c) = wrap_int (y - c) -> x = y.
Proof.
  unfold int_range, INT_MIN, INT_MAX, wrap_int. intros Hx Hy H.
  assert (E : (x - c + 2 ^ 31) mod 2 ^ 32 = (y - c + 2 ^ 31) mod 2 ^ 32) by lia.
  rewrite (Z.mod_eq (x - c + 2 ^ 31)), (Z.mod_eq (y - c + 2 ^ 31)) in E by lia.
  nia.
Qed.

(** The slot of a property that has no wrapper still holds the value that
    the first loop of [ensurePropertyMap] gave it. *)
Lemma unregistered_slot (ws : list PropertyWrapperBase) (pm : PropertyMap)
    (prop : Z) :
  ensurePropertyMap_of ws = Some pm ->
  int_range prop -> (forall w, In w ws -> int_range (m_prop w)) ->
  ~ registered pm prop ->
  0 <= wrap_int (prop - firstCSSProperty) < numCSSProperties ->
  array_get (gPropertyWrapperMap pm) (wrap_int (prop - firstCSSProperty))
  = Some CSSPropertyInvalid.
Proof.
  unfold ensurePropertyMap_of, registered.
  destruct (fillPropertyWrapperMap ws 0 _) as [map|] eqn:E; [|discriminate].
  intros H Hp Hws Hnr Hin. injection H as <-. cbn in *.
  destruct (fillPropertyWrapperMap_spec _ _ _ _ E) as [_ Hg].
  rewrite Hg.
  - unfold array_get. destruct (Z.leb_spec 0 (wrap_int (prop - firstCSSProperty)));
      [|lia].
    apply nth_error_repeat. lia.
  - intros w Hw Heq. apply Hnr. apply in_map_iff. exists w. split; [|exact Hw].
    apply (wrap_int_inj _ _ firstCSSProperty); auto.
Qed.

(** With a negative [CSSPropertyInvalid], a property that has no wrapper is
    equal in any two styles and is never blended; with [CSSPropertyInvalid]
    at 0, a property without a wrapper whose index is in range is compared
    and blended by the wrapper at position 0. *)
Theorem unregistered_property (ws : list PropertyWrapperBase)
    (pm : PropertyMap) (prop : Z) (dst : RenderStyle)
    (a b : option RenderStyle) (prog : float) :
  ensurePropertyMap_of ws = Some pm ->
  prop <> cAnimateAll -> int_range prop ->
  (forall w, In w ws -> int_range (m_prop w)) ->
  ~ registered pm prop ->
  (CSSPropertyInvalid < 0 ->
   propertiesEqual pm prop a b = Some true
   /\ blendProperties pm prop dst a b prog = Some (false, dst))
  /\ (CSSPropertyInvalid = 0 ->
      0 <= wrap_int (prop - firstCSSProperty) < numCSSProperties ->
      forall w0 ws', ws = w0 :: ws' ->
        propertiesEqual pm prop a b = equals_ptr w0 a b
        /\ blendProperties pm prop dst a b prog
           = match blend_ptr w0 dst a b prog with
             | Some dst' => Some (true, dst')
             | None => None
             end).
Proof.
  intros Hpm Hne Hp Hws Hnr.
  destruct (ensurePropertyMap_of_wf _ _ Hpm) as [_ Hw].
  unfold propertiesEqual, blendProperties.
  destruct (Z.eqb_spec prop cAnimateAll) as [|_]; [contradiction|].
  split.
  - intros Hinv.
    destruct ((0 <=? wrap_int (prop - firstCSSProperty))
              && (wrap_int (prop - firstCSSProperty) <? numCSSProperties))
      eqn:Hin; [|auto].
    apply andb_true_iff in Hin. destruct Hin as [H1 H2].
    apply Z.leb_le in H1. apply Z.ltb_lt in H2.
    rewrite (unregistered_slot ws pm prop) by (auto; lia).
    destruct (Z.leb_spec 0 CSSPropertyInvalid); [lia | auto].
  - intros Hinv Hin w0 ws' ->.
    destruct (Z.leb_spec 0 (wrap_int (prop - firstCSSProperty))); [|lia].
    destruct (Z.ltb_spec (wrap_int (prop - firstCSSProperty)) numCSSProperties);
      [|lia].
    cbn [andb]. rewrite (unregistered_slot (w0 :: ws') pm prop) by auto.
    rewrite Hinv, Hw. cbn. auto.
Qed.

(** A property whose index is out of range is equal in any two styles and
    is never blended, and the array is not read. *)
Lemma out_of_range_property (pm : PropertyMap) (prop : Z) (dst : RenderStyle)
    (a b : option RenderStyle) (prog : float) :
  prop <> cAnimateAll ->
  ~ (0 <= wrap_int (prop - firstCSSProperty) < numCSSProperties) ->
  propertiesEqual pm prop a b = Some true
  /\ blendProperties pm prop dst a b prog = Some (false, dst).
Proof.
  intros Hne Hout. unfold propertiesEqual, blendProperties.
  destruct (Z.eqb_spec prop cAnimateAll) as [|_]; [contradiction|].
  destruct (Z.leb_spec 0 (wrap_int (prop - firstCSSProperty)));
    destruct (Z.ltb_spec (wrap_int (prop - firstCSSProperty)) numCSSProperties);
    cbn [andb]; auto; lia.
Qed.

End Registry.

(** C9 fails on the code.  With [CSSPropertyInvalid] at 0, the property
    [display], which has no wrapper, is compared and blended by the wrapper
    of [left]: two styles that differ in [left] are not equal for it, and
    blending it writes the blended [left] and asks for the timer. *)
Theorem unregistered_property_blends_left :
  let display := @propertyID examplePlatform CSSPropertyDisplay in
  let moved := @setLengthValue examplePlatform CSSPropertyLeft 100 exampleStyle in
  match @ensurePropertyMap examplePlatform with
  | Some pm =>
      existsb (fun w => m_prop w =? display) (wrappers pm) = false
      /\ @propertiesEqual examplePlatform pm display
           (Some exampleStyle) (Some moved) = Some false
      /\ option_map (fun r => (fst r, lengthValue (snd r) CSSPropertyLeft))
           (@blendProperties examplePlatform pm display exampleStyle
              (Some exampleStyle) (Some moved) 0.5)
         = Some (true, 50)
  | None => False
  end.
Proof. vm_compute. repeat split; reflexivity. Qed.

(** ** Hash maps *)

Section HashMapFacts.
Context {K V : Type} (eqb : K -> K -> bool).
Hypothesis eqb_eq : forall x y, eqb x y = true <-> x = y.

Lemma eqb_refl (k : K) : eqb k k = true.
Proof. apply eqb_eq. reflexivity. Qed.

Lemma eqb_neq (k k' : K) : k <> k' -> eqb k k' = false.
Proof.
  intros H. destruct (eqb k k') eqn:E; [|reflexivity].
  apply eqb_eq in E. contradiction.
Qed.

Lemma map_get_set_same (m : list (K * V)) (k : K) (v : V) :
  map_get eqb (map_set eqb m k v) k = Some v.
Proof.
  induction m as [|[k' v'] m IH]; cbn.
  - rewrite eqb_refl. reflexivity.
  - destruct (eqb k' k) eqn:E; cbn; rewrite E; auto.
Qed.

Lemma map_get_set_other (m : list (K * V)) (k k' : K) (v : V) :
  k <> k' -> map_get eqb (map_set eqb m k v) k' = map_get eqb m k'.
Proof.
  intros Hne. induction m as [|[k0 v0] m IH]; cbn.
  - rewrite eqb_neq by assumption. reflexivity.
  - destruct (eqb k0 k) eqn:E; cbn.
    + apply eqb_eq in E. subst k0. rewrite eqb_neq by assumption. reflexivity.
    + rewrite IH. reflexivity.
Qed.

Lemma map_get_remove_other (m : list (K * V)) (k k' : K) :
  k <> k' -> map_get eqb (map_remove eqb m k) k' = map_get eqb m k'.
Proof.
  intros Hne. induction m as [|[k0 v0] m IH]; cbn.
  - reflexivity.
  - destruct (eqb k0 k) eqn:E; cbn.
    + apply eqb_eq in E. subst k0. rewrite eqb_neq by assumption. exact IH.
    + rewrite IH. reflexivity.
Qed.

Lemma map_get_None (m : list (K * V)) (k : K) :
  map_get eqb m k = None <-> ~ In k (map fst m).
Proof.
  induction m as [|[k' v'] m IH]; cbn.
  - tauto.
  - destruct (eqb k' k) eqn:E.
    + apply eqb_eq in E. split; [discriminate | tauto].
    + rewrite IH. split; [|tauto].
      intros H [Hk|Hk]; [|tauto]. subst k'. rewrite eqb_refl in E. discriminate.
Qed.

Lemma map_get_In (m : list (K * V)) (k : K) (v : V) :
  NoDup (map fst m) -> In (k, v) m -> map_get eqb m k = Some v.
Proof.
  induction m as [|[k' v'] m IH]; cbn; intros Hnd Hin; [contradiction|].
  inversion Hnd as [|? ? Hnotin Hnd']; subst.
  destruct Hin as [Heq|Hin].
  - injection Heq as -> ->. rewrite eqb_refl. reflexivity.
  - destruct (eqb k' k) eqn:E.
    + apply eqb_eq in E. subst k'. exfalso. apply Hnotin.
      apply in_map_iff. exists (k, v). auto.
    + apply IH; assumption.
Qed.

Lemma map_set_In (m : list (K * V)) (k : K) (v : V) (e : K * V) :
  In e (map_set eqb m k v) -> fst e = k /\ snd e = v \/ In e m.
Proof.
  induction m as [|[k' v'] m IH]; cbn.
  - intros [<-|[]]. auto.
  - destruct (eqb k' k) eqn:E; cbn.
    + apply eqb_eq in E. subst k'. intros [<-|H]; auto.
    + intros [<-|H]; auto. destruct (IH H); auto.
Qed.

Lemma map_remove_In (m : list (K * V)) (k : K) (e : K * V) :
  In e (map_remove eqb m k) -> In e m.
Proof.
  induction m as [|[k' v'] m IH]; cbn; [auto|].
  destruct (eqb k' k); cbn; intros H; [auto|]. destruct H; auto.
Qed.

Lemma map_set_keys (m : list (K * V)) (k : K) (v : V) :
  In k (map fst m) -> map fst (map_set eqb m k v) = map fst m.
Proof.
  induction m as [|[k' v'] m IH]; cbn; [contradiction|].
  intros H. destruct (eqb k' k) eqn:E; cbn; [reflexivity|].
  f_equal. apply IH. destruct H as [H|H]; [|exact H].
  subst k'. rewrite eqb_refl in E. discriminate.
Qed.

End HashMapFacts.

Lemma fold_option_invariant {A B : Type} (f : A -> B -> option A)
    (I : A -> Prop) :
  (forall a b a', I a -> f a b = Some a' -> I a') ->
  forall l a a', I a -> fold_option f l a = Some a' -> I a'.
Proof.
  intros Hf. induction l as [|b l IH]; cbn; intros a a' Ha H.
  - injection H as <-. exact Ha.
  - destruct (f a b) as [a1|] eqn:E; [|discriminate].
    eapply IH; [|exact H]. eapply Hf; eassumption.
Qed.

(** ** What the effects of an animation leave alone *)

Section Frame.
Context {P : Platform}.

Lemma primeEventTimers_static (a : AnimationBase) (now : float) :
  m_animation (primeEventTimers a now) = m_animation a
  /\ m_kind (primeEventTimers a now) = m_kind a.
Proof.
  unfold primeEventTimers.
  destruct (dlt _ 0 || dlt _ _); cbn;
    match goal with |- context [if ?c then _ else _] => destruct c end;
    cbn; auto.
Qed.

Lemma startTimeSet_static (a : AnimationBase) (param now : float) :
  m_animation (fst (startTimeSet a param now)) = m_animation a
  /\ m_kind (fst (startTimeSet a param now)) = m_kind a.
Proof.
  unfold startTimeSet. cbn [fst].
  destruct (primeEventTimers_static
              (if dle (m_startTime a) 0 then set_startTime a param else a) now)
    as [H1 H2].
  rewrite H1, H2. destruct (dle (m_startTime a) 0); cbn; auto.
Qed.

Lemma onAnimationStart_static h (a : AnimationBase) t :
  m_animation (onAnimationStart h a t) = m_animation a
  /\ m_kind (onAnimationStart h a t) = m_kind a.
Proof.
  unfold onAnimationStart, sendAnimationEvent.
  destruct (m_kind a) eqn:E; [auto|].
  destruct (hasListenerType h _), (hasElementNode h); cbn; auto.
Qed.

Lemma onAnimationIteration_static h (a : AnimationBase) t :
  m_animation (onAnimationIteration h a t) = m_animation a
  /\ m_kind (onAnimationIteration h a t) = m_kind a.
Proof.
  unfold onAnimationIteration, sendAnimationEvent.
  destruct (m_kind a) eqn:E; [auto|].
  destruct (hasListenerType h _), (hasElementNode h); cbn; auto.
Qed.

Lemma onAnimationEnd_static h (a : AnimationBase) t :
  m_animation (fst (onAnimationEnd h a t)) = m_animation a
  /\ m_kind (fst (onAnimationEnd h a t)) = m_kind a.
Proof.
  unfold onAnimationEnd, sendAnimationEvent, sendTransitionEvent.
  destruct (m_kind a) eqn:E;
    destruct (hasListenerType h _), (hasElementNode h); cbn; auto.
Qed.

(** The declaration and the kind of an animation do not change. *)
Lemma updateStateMachine_static h a input param now :
  m_animation (fst (updateStateMachine h a input param now)) = m_animation a
  /\ m_kind (fst (updateStateMachine h a input param now)) = m_kind a.
Proof.
  unfold updateStateMachine.
  destruct input; destruct (m_animState a) eqn:Es;
    cbn -[startTimeSet onAnimationEnd onAnimationStart onAnimationIteration
          primeEventTimers];
    rewrite ?orb_true_r;
    cbn -[startTimeSet onAnimationEnd onAnimationStart onAnimationIteration
          primeEventTimers].
  all: try (split; reflexivity).
  all: try (match goal with
            | |- context [startTimeSet ?x ?p ?n] =>
                pose proof (startTimeSet_static x p n) as [H1 H2];
                destruct (startTimeSet x p n) as [a1 e1];
                cbn in H1, H2 |- *; rewrite H1, H2
            | |- context [primeEventTimers ?x ?n] =>
                destruct (primeEventTimers_static x n) as [H1 H2];
                rewrite H1, H2
            | |- context [onAnimationEnd ?h ?x ?p] =>
                pose proof (onAnimationEnd_static h x p) as [H1 H2];
                destruct (onAnimationEnd h x p); cbn in H1, H2 |- *;
                rewrite H1, H2
            end).
  all: try (split; reflexivity).
  all: try (match goal with
            | |- context [onAnimationStart ?h ?x ?p] =>
                destruct (onAnimationStart_static h x p) as [H3 H4];
                rewrite H3, H4
            | |- context [onAnimationIteration ?h ?x ?p] =>
                destruct (onAnimationIteration_static h x p) as [H3 H4];
                rewrite H3, H4
            end).
  all: try (split; reflexivity).
Qed.


Lemma setOverridden_static h a b now :
  m_animation (fst (setOverridden h a b now)) = m_animation a
  /\ animatingProperty (fst (setOverridden h a b now)) = animatingProperty a.
Proof.
  unfold setOverridden, animatingProperty.
  destruct (m_kind a) as [d|d] eqn:Ek.
  - destruct (negb (Bool.eqb b (m_overridden d))).
    + match goal with |- context [updateStateMachine ?h ?x ?i ?p ?n] =>
        destruct (updateStateMachine_static h x i p n) as [H1 H2];
        rewrite H1, H2
      end.
      cbn. auto.
    + cbn [fst]. rewrite Ek. auto.
  - cbn [fst]. rewrite Ek. auto.
Qed.

Lemma setOverriddenAll_same h ts prop b now :
  sameTransitions ts (fst (setOverriddenAll h ts prop b now)).
Proof.
  unfold sameTransitions.
  induction ts as [|[k anim] ts IH]; cbn; [constructor|].
  destruct (setOverriddenAll h ts prop b now) as [rest e2].
  destruct (animatingProperty anim =? prop).
  - pose proof (setOverridden_static h anim b now) as [H1 H2].
    destruct (setOverridden h anim b now) as [anim' e1]. cbn in *.
    constructor; [cbn; auto | exact IH].
  - cbn. constructor; [cbn; auto | exact IH].
Qed.

Lemma sameTransitions_refl ts : sameTransitions ts ts.
Proof. induction ts; constructor; auto. Qed.

Lemma sameTransitions_trans t1 t2 t3 :
  sameTransitions t1 t2 -> sameTransitions t2 t3 -> sameTransitions t1 t3.
Proof.
  unfold sameTransitions. intros H. revert t3.
  induction H as [|x y l l' [Hk Ha] _ IH]; intros t3 H3; inversion H3; subst.
  - constructor.
  - constructor; [|apply IH; assumption].
    match goal with H : _ /\ _ |- _ => destruct H end. split; congruence.
Qed.

Lemma sameTransitions_keys t1 t2 :
  sameTransitions t1 t2 -> map fst t1 = map fst t2.
Proof.
  induction 1 as [|x y l l' [Hk _] _ IH]; cbn; congruence.
Qed.

Lemma sameTransitions_In t1 t2 (e : Z * AnimationBase) :
  sameTransitions t1 t2 -> In e t2 ->
  exists e0, In e0 t1 /\ fst e0 = fst e
             /\ m_animation (snd e0) = m_animation (snd e).
Proof.
  induction 1 as [|x y l l' [Hk Ha] _ IH]; cbn; [contradiction|].
  intros [<-|H].
  - exists x. auto.
  - destruct (IH H) as (e0 & H0 & H1). exists e0. auto.
Qed.

Lemma frame_refl w : frame w w.
Proof. unfold frame. auto using sameTransitions_refl. Qed.

Lemma frame_trans w1 w2 w3 : frame w1 w2 -> frame w2 w3 -> frame w1 w3.
Proof.
  unfold frame. intros (A1 & A2 & A3 & A4 & A5) (B1 & B2 & B3 & B4 & B5).
  repeat split; try congruence. eapply sameTransitions_trans; eassumption.
Qed.

Lemma hostEffect_frame w e : frame w (hostEffect w e).
Proof.
  destruct e; cbn; unfold frame; cbn; auto using sameTransitions_refl.
Qed.

Lemma hostEffects_frame es : forall w, frame w (fold_left hostEffect es w).
Proof.
  induction es as [|e es IH]; intros w; cbn; [apply frame_refl|].
  eapply frame_trans; [apply hostEffect_frame | apply IH].
Qed.

Lemma childEffect_frame h now w e : frame w (childEffect h now w e).
Proof.
  destruct e as [ | | b | prop | prop]; try apply hostEffect_frame; cbn.
  all: pose proof (setOverriddenAll_same h (m_transitions (w_comp w)) prop
                     true now) as Ht;
       pose proof (setOverriddenAll_same h (m_transitions (w_comp w)) prop
                     false now) as Hf.
  - destruct (setOverriddenAll h _ prop true now) as [ts es].
    eapply frame_trans; [|apply hostEffects_frame].
    unfold frame; cbn; auto.
  - destruct (setOverriddenAll h _ prop false now) as [ts es].
    eapply frame_trans; [|apply hostEffects_frame].
    unfold frame; cbn; auto.
Qed.

Lemma childEffects_frame h now es : forall w, frame w (childEffects h now es w).
Proof.
  unfold childEffects.
  induction es as [|e es IH]; intros w; cbn; [apply frame_refl|].
  eapply frame_trans; [apply childEffect_frame | apply IH].
Qed.

End Frame.

(** ** Effects that reach no sibling *)

Section HostOnly.
Context {P : Platform}.

Lemma hostEffect_transitions w e :
  m_transitions (w_comp (hostEffect w e)) = m_transitions (w_comp w).
Proof. destruct e as [| | b | |]; reflexivity. Qed.

Lemma childEffects_hostOnly h now es : forall w,
  forallb hostOnly es = true ->
  m_transitions (w_comp (childEffects h now es w)) = m_transitions (w_comp w).
Proof.
  unfold childEffects.
  induction es as [|e es IH]; intros w H; cbn in *; [reflexivity|].
  apply andb_true_iff in H. destruct H as [He Hes].
  rewrite IH by exact Hes.
  destruct e as [| | b | |]; try discriminate He; reflexivity.
Qed.

Lemma hostOnly_endAnimation a b : forallb hostOnly (endAnimation a b) = true.
Proof. unfold endAnimation. destruct (m_kind a); reflexivity. Qed.

(** Only the start of an animation and its end reach the siblings. *)
Lemma updateStateMachine_hostOnly h a input param now :
  input <> STATE_INPUT_STYLE_AVAILABLE ->
  input <> STATE_INPUT_END_TIMER_FIRED ->
  forallb hostOnly (snd (updateStateMachine h a input param now)) = true.
Proof.
  intros H1 H2. unfold updateStateMachine.
  destruct input; try contradiction; destruct (m_animState a) eqn:Es;
    unfold startTimeSet, startFromNew, pauseWhileRunning, waitingEffect;
    cbn -[primeEventTimers onAnimationEnd onAnimationStart
          onAnimationIteration endAnimation];
    rewrite ?orb_true_r, ?Es;
    cbn -[primeEventTimers onAnimationEnd onAnimationStart
          onAnimationIteration endAnimation].
  all: try match goal with
           | |- context [negb (paused ?x)] => destruct (negb (paused x))
           end.
  all: cbn [fst snd]; rewrite ?forallb_app, ?hostOnly_endAnimation;
    try reflexivity.
Qed.

Lemma updatePlayState_hostOnly h a run now :
  forallb hostOnly (snd (updatePlayState h a run now)) = true.
Proof.
  unfold updatePlayState.
  destruct (Bool.eqb (paused a) run || isnew a); [|reflexivity].
  apply updateStateMachine_hostOnly; destruct run; discriminate.
Qed.

End HostOnly.

(** ** updateTransitions *)

Section Transitions.
Context {P : Platform}.

Lemma reset_null_static h a now :
  m_animation (fst (reset h a None None now)) = m_animation a.
Proof. unfold reset. destruct (m_kind a); reflexivity. Qed.

(** What one turn of the inner loop of [updateTransitions] does to the
    world: the store stays, another property keeps its entry or its lack
    of one, and only the visited property can be created. *)
Lemma updateTransitionFor_other pm h now cur tgt anim w q w' :
  updateTransitionFor pm h now cur tgt anim w q = Some w' ->
  w_store w' = w_store w
  /\ (forall p, p <> q ->
        (map_get Z.eqb (m_transitions (w_comp w)) p = None ->
         map_get Z.eqb (m_transitions (w_comp w')) p = None))
  /\ (exists new, w_calls w' = w_calls w ++ new
        /\ forall p, In (C_newImplicitAnimation p) new -> p = q)
  /\ (forall e, In e (m_transitions (w_comp w')) ->
        (exists e0, In e0 (m_transitions (w_comp w)) /\ fst e0 = fst e
                    /\ m_animation (snd e0) = m_animation (snd e))
        \/ m_animation (snd e) = anim).
Proof.
  unfold updateTransitionFor.
  assert (Hcreate : forall w1 : World, frame w w1 ->
    let w2 :=
      add_call
        (with_transitions w1
           (map_set Z.eqb (m_transitions (w_comp w1)) q
              (ImplicitAnimation_new anim q))) (C_newImplicitAnimation q) in
    w_store w2 = w_store w
    /\ (forall p, p <> q ->
         map_get Z.eqb (m_transitions (w_comp w)) p = None ->
         map_get Z.eqb (m_transitions (w_comp w2)) p = None)
    /\ (exists new, w_calls w2 = w_calls w ++ new
          /\ forall p, In (C_newImplicitAnimation p) new -> p = q)
    /\ (forall e, In e (m_transitions (w_comp w2)) ->
          (exists e0, In e0 (m_transitions (w_comp w)) /\ fst e0 = fst e
                      /\ m_animation (snd e0) = m_animation (snd e))
          \/ m_animation (snd e) = anim)).
  { intros w1 (F1 & F2 & F3 & F4 & F5) w2. subst w2. cbn.
    split; [exact F1|]. split; [|split].
    - intros p Hp Hnone. rewrite map_get_set_other by (try apply Z.eqb_eq; auto).
      apply (map_get_None Z.eqb Z.eqb_eq).
      rewrite <- (sameTransitions_keys _ _ F5).
      apply (map_get_None Z.eqb Z.eqb_eq). exact Hnone.
    - exists [C_newImplicitAnimation q]. rewrite F2. split; [reflexivity|].
      intros p [H|[]]. congruence.
    - intros e He. apply (map_set_In Z.eqb Z.eqb_eq) in He.
      destruct He as [[_ Hv]|He].
      + right. rewrite Hv. reflexivity.
      + left. apply (sameTransitions_In _ _ e F5 He). }
  destruct (map_get Z.eqb (m_transitions (w_comp w)) q) as [implAnim|] eqn:Eg.
  - destruct (isTargetPropertyEqual pm (w_store w) implAnim q tgt)
      as [[|]|]; [| |discriminate].
    + intros H. injection H as <-. split; [reflexivity|]. split; [auto|].
      split; [exists []; rewrite app_nil_r; split; [reflexivity|contradiction]|].
      intros e He. left. exists e. auto.
    + destruct (reset h implAnim None None now) as [implAnim' e1].
      set (w1 := childEffects h now (e1 ++ destroyAnimation h implAnim' now) w).
      pose proof (childEffects_frame h now
                    (e1 ++ destroyAnimation h implAnim' now) w) as Hf.
      fold w1 in Hf. destruct Hf as (F1 & F2 & F3 & F4 & F5).
      intros H. injection H as <-. cbn.
      split; [exact F1|]. split; [|split].
      * intros p Hp Hnone.
        rewrite map_get_set_other by (try apply Z.eqb_eq; auto).
        rewrite map_get_remove_other by (try apply Z.eqb_eq; auto).
        apply (map_get_None Z.eqb Z.eqb_eq).
        rewrite <- (sameTransitions_keys _ _ F5).
        apply (map_get_None Z.eqb Z.eqb_eq). exact Hnone.
      * exists [C_deleteImplicitAnimation q; C_newImplicitAnimation q].
        rewrite F2, <- app_assoc. split; [reflexivity|].
        intros p [H|[H|[]]]; congruence.
      * intros e He. apply (map_set_In Z.eqb Z.eqb_eq) in He.
        destruct He as [[_ Hv]|He].
        -- right. rewrite Hv. reflexivity.
        -- left. apply (map_remove_In Z.eqb) in He.
           apply (sameTransitions_In _ _ e F5 He).
  - destruct (propertiesEqual pm q _ _) as [[|]|]; [| |discriminate].
    + intros H. injection H as <-. split; [reflexivity|]. split; [auto|].
      split; [exists []; rewrite app_nil_r; split; [reflexivity|contradiction]|].
      intros e He. left. exists e. auto.
    + intros H. injection H as <-. apply Hcreate. apply frame_refl.
Qed.


End Transitions.

Section DeclaredTransitions.
Context {P : Platform}.

(** Entries of the map [ts'] trace back to entries of [ts] unless their
    declaration is not an empty one. *)
Lemma updateTransitionsFor_entries pm h now cur tgt w anim w' :
  updateTransitionsFor pm h now cur tgt w anim = Some w' ->
  forall e, In e (m_transitions (w_comp w')) ->
    (exists e0, In e0 (m_transitions (w_comp w)) /\ fst e0 = fst e
                /\ m_animation (snd e0) = m_animation (snd e))
    \/ emptyTransition (m_animation (snd e)) = false.
Proof.
  unfold updateTransitionsFor. fold (emptyTransition anim).
  destruct (emptyTransition anim) eqn:Ee.
  - intros H. injection H as <-. intros e He. left. exists e. auto.
  - apply (fold_option_invariant
             (updateTransitionFor pm h now cur tgt anim)
             (fun w1 => forall e, In e (m_transitions (w_comp w1)) ->
                (exists e0, In e0 (m_transitions (w_comp w)) /\ fst e0 = fst e
                   /\ m_animation (snd e0) = m_animation (snd e))
                \/ emptyTransition (m_animation (snd e)) = false)).
    + intros w1 q w2 IH Hstep e He.
      destruct (updateTransitionFor_other _ _ _ _ _ _ _ _ _ Hstep)
        as (_ & _ & _ & Hent).
      destruct (Hent e He) as [(e1 & He1 & Hk & Hd)|Hd].
      * destruct (IH e1 He1) as [(e0 & He0 & Hk0 & Hd0)|Hne].
        -- left. exists e0. repeat split; congruence.
        -- right. congruence.
      * right. congruence.
    + intros e He. left. exists e. auto.
Qed.


(** C4: a declaration with duration 0 and delay at most 0 is passed over
    by [updateTransitions].  Its turn of the loop leaves the world as it
    was, so the pass is the pass over the other declarations, and the
    composite answers every question, [isAnimatingProperty] among them, as
    without it; and an entry of the map that carries such a declaration
    after the pass was in the map before the pass. *)
Theorem empty_transition_skipped pm h now currentStyle targetStyle w anim
    l1 l2 :
  emptyTransition anim = true ->
  updateTransitionsFor pm h now currentStyle targetStyle w anim = Some w
  /\ (forall target,
        style_deref (w_store w) targetStyle = Some target ->
        transitions target = Some (l1 ++ anim :: l2) ->
        updateTransitions pm h now (Some currentStyle) targetStyle w
        = fold_option (updateTransitionsFor pm h now currentStyle targetStyle)
            (l1 ++ l2) w
        /\ forall prop isRunningNow,
             option_map
               (fun w' => CompositeAnimation_isAnimatingProperty (w_comp w')
                            prop isRunningNow)
               (updateTransitions pm h now (Some currentStyle) targetStyle w)
             = option_map
                 (fun w' => CompositeAnimation_isAnimatingProperty (w_comp w')
                              prop isRunningNow)
                 (fold_option
                    (updateTransitionsFor pm h now currentStyle targetStyle)
                    (l1 ++ l2) w))
  /\ (forall w',
        updateTransitions pm h now (Some currentStyle) targetStyle w = Some w' ->
        forall e, In e (m_transitions (w_comp w')) ->
          emptyTransition (m_animation (snd e)) = true ->
          exists e0, In e0 (m_transitions (w_comp w)) /\ fst e0 = fst e
                     /\ m_animation (snd e0) = m_animation (snd e)).
Proof.
  intros Hempty.
  assert (Hskip : forall w1,
            updateTransitionsFor pm h now currentStyle targetStyle w1 anim
            = Some w1).
  { intros w1. unfold updateTransitionsFor. fold (emptyTransition anim).
    rewrite Hempty. reflexivity. }
  assert (Hdrop : forall l w1,
            fold_option (updateTransitionsFor pm h now currentStyle targetStyle)
              (l ++ anim :: l2) w1
            = fold_option (updateTransitionsFor pm h now currentStyle targetStyle)
                (l ++ l2) w1).
  { induction l as [|b l IH]; intros w1; cbn.
    - rewrite Hskip. reflexivity.
    - destruct (updateTransitionsFor pm h now currentStyle targetStyle w1 b);
        [apply IH|reflexivity]. }
  split; [apply Hskip|]. split.
  - intros target Ht Hl.
    assert (E : updateTransitions pm h now (Some currentStyle) targetStyle w
                = fold_option
                    (updateTransitionsFor pm h now currentStyle targetStyle)
                    (l1 ++ l2) w).
    { unfold updateTransitions. rewrite Ht, Hl. apply Hdrop. }
    split; [exact E|]. intros prop isRunningNow. rewrite E. reflexivity.
  - intros w' Hrun e He Hee.
    assert (K : forall e, In e (m_transitions (w_comp w')) ->
              (exists e0, In e0 (m_transitions (w_comp w)) /\ fst e0 = fst e
                 /\ m_animation (snd e0) = m_animation (snd e))
              \/ emptyTransition (m_animation (snd e)) = false).
    { unfold updateTransitions in Hrun.
      destruct (style_deref (w_store w) targetStyle) as [target|];
        [|discriminate].
      destruct (transitions target) as [l|].
      - revert Hrun.
        apply (fold_option_invariant
                 (updateTransitionsFor pm h now currentStyle targetStyle)
                 (fun w1 => forall e, In e (m_transitions (w_comp w1)) ->
                    (exists e0, In e0 (m_transitions (w_comp w))
                       /\ fst e0 = fst e
                       /\ m_animation (snd e0) = m_animation (snd e))
                    \/ emptyTransition (m_animation (snd e)) = false)).
        + intros w1 b w2 IH Hstep e2 He2.
          destruct (updateTransitionsFor_entries _ _ _ _ _ _ _ _ Hstep e2 He2)
            as [(e1 & He1 & Hk & Hd)|Hne].
          * destruct (IH e1 He1) as [(e0 & He0 & Hk0 & Hd0)|Hne].
            -- left. exists e0. repeat split; congruence.
            -- right. congruence.
          * right. exact Hne.
        + intros e2 He2. left. exists e2. auto.
      - injection Hrun as <-. intros e2 He2. left. exists e2. auto. }
    destruct (K e He) as [Hold|Hne]; [exact Hold|congruence].
Qed.

End DeclaredTransitions.

(** ** Transitions in flight *)

Section InFlight.
Context {P : Platform}.










Section OneProperty.
Variables (pm : PropertyMap) (h : Host) (now : float).
Variables (cur tgt : StylePtr) (w : World) (p : Z) (implAnim : AnimationBase).
Variable l : list Animation.






End OneProperty.



End InFlight.



Lemma empty_transition_skipped_witness :
  let empty := exampleDeclaration 1001 0 0 1 in
  let w := exampleWorld [exampleStyleAt 0 None;
                         exampleStyleAt 100 (Some [empty])] in
  emptyTransition empty = true
  /\ @updateTransitionsFor examplePlatform examplePropertyMap exampleHost 0
       0%nat 1%nat w empty = Some w.
Proof.
  intros empty w.
  assert (He : emptyTransition empty = true) by (vm_compute; reflexivity).
  split; [exact He|].
  exact (proj1 (@empty_transition_skipped examplePlatform examplePropertyMap
                  exampleHost 0 0%nat 1%nat w empty [] [] He)).
Defined.

(** ** KeyframeAnimation::animate *)

Section Keyframes.
Context {P : Platform}.

Lemma updateStateMachine_end h a param now :
  updateStateMachine h a STATE_INPUT_END_ANIMATION param now
  = (set_animState (cancelTimers a) STATE_DONE,
     waitingEffect a ++ endAnimation a true).
Proof. reflexivity. Qed.

(** A list of keyframes that is empty, or whose first key is after [t], or
    whose keys are all at or before [t], has no pair around [t]. *)
Lemma findKeyframes_no_later_key kfs t fromStyle scale offset :
  forallb (fun it => negb (dlt t (kf_key it))) kfs = true ->
  snd (fst (fst (findKeyframes kfs t fromStyle scale offset))) = None.
Proof.
  revert fromStyle offset.
  induction kfs as [|it rest IH]; intros fromStyle offset H; cbn in *.
  - reflexivity.
  - apply andb_true_iff in H. destruct H as [H1 H2].
    apply negb_true_iff in H1. rewrite H1. apply IH. exact H2.
Qed.

Lemma noBracketingPair_degenerate d t :
  match m_keyframes d with
  | Some k => forallb (fun it => negb (dlt t (kf_key it))) (keyframes k) = true
  | None => True
  end ->
  noBracketingPair d t = true.
Proof.
  unfold noBracketingPair, bracketingKeyframes.
  destruct (m_keyframes d) as [k|]; [|reflexivity].
  intros H.
  pose proof (findKeyframes_no_later_key (keyframes k) t None 1 0 H) as Hto.
  destruct (findKeyframes (keyframes k) t None 1 0)
    as [[[fromStyle toStyle] scale] offset].
  cbn in Hto |- *. rewrite Hto. destruct fromStyle; reflexivity.
Qed.

(** C6: a keyframe animation that is neither finished nor held back by a
    start delay, and whose keyframes have no pair around the fractional
    time of this pass, gets [STATE_INPUT_END_ANIMATION] and ends in
    [STATE_DONE]; the call returns with the store of styles and the pointer
    [animatedStyle] as they were, so no blended value is written. *)
Theorem animate_without_bracketing_pair_ends pm h a d store currentStyle
    targetStyle animatedStyle now :
  m_kind a = IsKeyframeAnimation d ->
  postactive (fst (keyframeStart h a now)) = false ->
  waitingToStart (fst (keyframeStart h a now))
  && dgt (delay (m_animation (fst (keyframeStart h a now)))) 0 = false ->
  noBracketingPair d (keyframeTime (fst (keyframeStart h a now)) now) = true ->
  let started := keyframeStart h a now in
  let ended :=
    updateStateMachine h (fst started) STATE_INPUT_END_ANIMATION (-1)%float now in
  KeyframeAnimation_animate pm h a store currentStyle targetStyle
    animatedStyle now
  = Some (fst ended, store, animatedStyle, snd started ++ snd ended)
  /\ m_animState (fst ended) = STATE_DONE.
Proof.
  intros Hk Hpost Hwait Hno started ended. split; [|reflexivity].
  unfold KeyframeAnimation_animate. rewrite Hk.
  fold (keyframeStart h a now). fold started.
  subst ended. revert Hpost Hwait Hno. fold started.
  destruct started as [a1 e1]. cbn [fst snd]. intros Hpost Hwait Hno.
  rewrite Hpost, Hwait.
  unfold noBracketingPair, bracketingKeyframes in Hno.
  destruct (m_keyframes d) as [k|].
  - destruct (findKeyframes (keyframes k) (keyframeTime a1 now) None 1 0)
      as [[[fromStyle toStyle] scale] offset]. cbn [fst] in Hno.
    destruct fromStyle, toStyle; try discriminate; reflexivity.
  - reflexivity.
Qed.

End Keyframes.

Lemma animate_without_bracketing_pair_ends_witness :
  let decl := exampleKeyframeDeclaration "fade"
                [{| kf_key := 0%float; kf_style := exampleStyleAt 0 None |}] in
  let a := @KeyframeAnimation_new examplePlatform decl 0 in
  let store := [exampleStyleAt 5 None] in
  match @KeyframeAnimation_animate examplePlatform examplePropertyMap
          exampleHost a store (Some 0%nat) 0%nat None 10 with
  | Some (a', store', animatedStyle', _) =>
      m_animState a' = STATE_DONE /\ store' = store /\ animatedStyle' = None
  | None => False
  end.
Proof.
  intros decl a store.
  destruct (@animate_without_bracketing_pair_ends examplePlatform
              examplePropertyMap exampleHost a
              {| m_keyframes := keyframeList decl; m_name := name decl;
                 m_index := 0 |}
              store (Some 0%nat) 0%nat None 10 eq_refl)
    as [Hrun Hdone].
  - vm_compute; reflexivity.
  - vm_compute; reflexivity.
  - vm_compute; reflexivity.
  - rewrite Hrun. split; [exact Hdone|]. split; reflexivity.
Defined.

(** ** The order of the calls of a pass *)

Section PassOrder.
Context {P : Platform}.

Lemma callsExtend_refl Q w : callsExtend Q w w.
Proof. exists []. rewrite app_nil_r. auto. Qed.

Lemma callsExtend_trans Q w1 w2 w3 :
  callsExtend Q w1 w2 -> callsExtend Q w2 w3 -> callsExtend Q w1 w3.
Proof.
  intros (n1 & H1 & F1) (n2 & H2 & F2). exists (n1 ++ n2).
  rewrite H2, H1, app_assoc. split; [reflexivity|].
  apply Forall_app. auto.
Qed.

Lemma callsExtend_weaken (Q Q' : Call -> Prop) w w' :
  (forall c, Q c -> Q' c) -> callsExtend Q w w' -> callsExtend Q' w w'.
Proof.
  intros HQ (n & H & F). exists n. split; [exact H|].
  eapply Forall_impl; eauto.
Qed.

Lemma callsExtend_same Q w w' : w_calls w' = w_calls w -> callsExtend Q w w'.
Proof. intros H. exists []. rewrite app_nil_r. auto. Qed.

Lemma frame_calls w w' : frame w w' -> w_calls w' = w_calls w.
Proof. intros (_ & H & _). exact H. Qed.

Lemma childEffects_calls h now es w :
  w_calls (childEffects h now es w) = w_calls w.
Proof. apply frame_calls, childEffects_frame. Qed.

Lemma childEffects_keyframeAnimations h now es w :
  m_keyframeAnimations (w_comp (childEffects h now es w))
  = m_keyframeAnimations (w_comp w).
Proof. destruct (childEffects_frame h now es w) as (_ & _ & H & _). exact H. Qed.

Lemma childEffects_transition_keys h now es w :
  map fst (m_transitions (w_comp (childEffects h now es w)))
  = map fst (m_transitions (w_comp w)).
Proof.
  destruct (childEffects_frame h now es w) as (_ & _ & _ & _ & H).
  symmetry. apply sameTransitions_keys. exact H.
Qed.

(** *** updateTransitions constructs and deletes, and advances nothing *)

Lemma updateTransitionFor_calls pm h now cur tgt anim w q w' :
  updateTransitionFor pm h now cur tgt anim w q = Some w' ->
  callsExtend notAnimate w w'.
Proof.
  unfold updateTransitionFor.
  destruct (map_get Z.eqb (m_transitions (w_comp w)) q) as [implAnim|].
  - destruct (isTargetPropertyEqual pm (w_store w) implAnim q tgt)
      as [[|]|]; [| |discriminate].
    + intros H. injection H as <-. apply callsExtend_refl.
    + destruct (reset h implAnim None None now) as [implAnim' e1].
      intros H. injection H as <-.
      exists [C_deleteImplicitAnimation q; C_newImplicitAnimation q]. cbn.
      rewrite childEffects_calls, <- app_assoc. split; [reflexivity|].
      repeat constructor.
  - destruct (propertiesEqual pm q _ _) as [[|]|]; [| |discriminate].
    + intros H. injection H as <-. apply callsExtend_refl.
    + intros H. injection H as <-.
      exists [C_newImplicitAnimation q]. cbn. split; [reflexivity|].
      repeat constructor.
Qed.

Lemma fold_option_callsExtend {B : Type} (Q : Call -> Prop)
    (f : World -> B -> option World) :
  (forall w b w', f w b = Some w' -> callsExtend Q w w') ->
  forall l w w', fold_option f l w = Some w' -> callsExtend Q w w'.
Proof.
  intros Hf l w w' H.
  apply (fold_option_invariant f (fun w1 => callsExtend Q w w1)
           (fun a b a' Ia Hs => callsExtend_trans Q w a a' Ia (Hf a b a' Hs))
           l w w' (callsExtend_refl Q w) H).
Qed.

Lemma updateTransitions_calls pm h now cur tgt w w' :
  updateTransitions pm h now cur tgt w = Some w' ->
  callsExtend notAnimate w w'.
Proof.
  unfold updateTransitions. destruct cur as [c|].
  - destruct (style_deref (w_store w) tgt) as [target|]; [|discriminate].
    destruct (transitions target) as [l|].
    + apply fold_option_callsExtend. intros w1 anim w2.
      unfold updateTransitionsFor.
      destruct (deq (duration anim) 0 && dle (delay anim) 0).
      * intros H. injection H as <-. apply callsExtend_refl.
      * apply fold_option_callsExtend. intros w3 q w4.
        apply updateTransitionFor_calls.
    + intros H. injection H as <-. apply callsExtend_refl.
  - intros H. injection H as <-. apply callsExtend_refl.
Qed.

(** *** The loop over the transitions advances each of them once *)

Lemma animateTransition_loop pm h now c tgt :
  forall keys w r w' r',
    (forall k, In k keys -> In k (map fst (m_transitions (w_comp w)))) ->
    fold_option (animateTransition pm h now c tgt) keys (w, r) = Some (w', r') ->
    w_calls w' = w_calls w ++ map C_animateTransition keys
    /\ map fst (m_transitions (w_comp w')) = map fst (m_transitions (w_comp w)).
Proof.
  induction keys as [|k keys IH]; intros w r w' r' Hin H; cbn in H.
  - injection H as <- <-. cbn. rewrite app_nil_r. auto.
  - destruct (map_get Z.eqb (m_transitions (w_comp w)) k) as [anim|] eqn:Eg.
    + destruct (ImplicitAnimation_animate pm h anim (w_store w) c tgt r now)
        as [[[[anim' store'] r1] es]|]; [|discriminate].
      match type of H with
      | fold_option _ _ (?w1, _) = _ => set (w1' := w1) in H
      end.
      assert (Hc : w_calls w1' = w_calls w ++ [C_animateTransition k]).
      { subst w1'. rewrite childEffects_calls. reflexivity. }
      assert (Hk : map fst (m_transitions (w_comp w1'))
                   = map fst (m_transitions (w_comp w))).
      { subst w1'. rewrite childEffects_transition_keys. cbn.
        apply (map_set_keys Z.eqb Z.eqb_eq). apply Hin. left. reflexivity. }
      apply IH in H.
      * destruct H as [H1 H2]. rewrite H1, H2, Hc, Hk, <- app_assoc. auto.
      * intros k' Hk'. rewrite Hk. apply Hin. right. exact Hk'.
    + exfalso. apply (map_get_None Z.eqb Z.eqb_eq) in Eg. apply Eg, Hin.
      left. reflexivity.
Qed.

(** *** updateKeyframeAnimations makes no call on an animation *)

Lemma matchKeyframeAnimation_calls h now l : forall st,
  w_calls (fst (fold_left (matchKeyframeAnimation h now) l st))
  = w_calls (fst st).
Proof.
  induction l as [|anim l IH]; intros [w b]; cbn [fold_left]; [reflexivity|].
  rewrite IH. unfold matchKeyframeAnimation.
  destruct (negb (isValidAnimation anim)); [reflexivity|].
  destruct (map_get String.eqb (m_keyframeAnimations (w_comp w)) (name anim))
    as [kfAnim|]; [|reflexivity].
  destruct (negb (animationsMatch (m_animation kfAnim) anim)); [reflexivity|].
  destruct (updatePlayState h kfAnim _ now) as [kfAnim' es]. cbn [fst].
  rewrite childEffects_calls. reflexivity.
Qed.

Lemma addKeyframeAnimation_calls l : forall st,
  w_calls (fst (fold_left addKeyframeAnimation l st)) = w_calls (fst st).
Proof.
  induction l as [|anim l IH]; intros [w i]; cbn [fold_left]; [reflexivity|].
  rewrite IH. unfold addKeyframeAnimation.
  destruct (negb (isValidAnimation anim)); [reflexivity|].
  match goal with |- context [if ?b then _ else _] => destruct b end;
    reflexivity.
Qed.

Lemma updateKeyframeAnimations_calls h now cur tgt w w' :
  updateKeyframeAnimations h now cur tgt w = Some w' ->
  w_calls w' = w_calls w.
Proof.
  unfold updateKeyframeAnimations.
  destruct (style_deref (w_store w) tgt) as [target|]; [|discriminate].
  match goal with |- context [if ?b then _ else _] => destruct b end.
  { intros H. injection H as <-. reflexivity. }
  match goal with
  | |- match ?s with _ => _ end = _ -> _ => destruct s as [[|]|]
  end; [| |discriminate].
  { intros H. injection H as <-. reflexivity. }
  pose proof (matchKeyframeAnimation_calls h now
                (match animations target with Some l => l | None => [] end)
                (w, false)) as Hm.
  destruct (fold_left (matchKeyframeAnimation h now) _ (w, false))
    as [w1 changed]. cbn [fst] in Hm.
  match goal with |- context [if ?b then _ else _] => destruct b end.
  { intros H. injection H as <-. exact Hm. }
  assert (Hr : w_calls (resetAnimations h now w1) = w_calls w).
  { unfold resetAnimations. cbn. rewrite childEffects_calls. exact Hm. }
  destruct (animations target) as [l|].
  - intros H. injection H as <-.
    rewrite addKeyframeAnimation_calls. exact Hr.
  - intros H. injection H as <-. exact Hr.
Qed.

(** *** The loop over the declared animations and the cleanup *)

Lemma animateKeyframe_calls pm h now cur tgt st anim st' :
  animateKeyframe pm h now cur tgt st anim = Some st' ->
  callsExtend (fun c => isAnimateTransition c = false) (fst st) (fst st').
Proof.
  destruct st as [w r]. unfold animateKeyframe.
  destruct (isValidAnimation anim).
  - destruct (map_get String.eqb (m_keyframeAnimations (w_comp w)) (name anim))
      as [keyframeAnim|].
    + destruct (KeyframeAnimation_animate pm h keyframeAnim (w_store w) cur tgt
                  r now) as [[[[a' store'] r1] es]|]; [|discriminate].
      intros H. injection H as <-. cbn [fst].
      exists [C_animateKeyframe (name anim)].
      rewrite childEffects_calls. split; [reflexivity|]. repeat constructor.
    + intros H. injection H as <-. apply callsExtend_refl.
  - intros H. injection H as <-. apply callsExtend_refl.
Qed.

Lemma animateKeyframe_loop pm h now cur tgt : forall l st st',
  fold_option (animateKeyframe pm h now cur tgt) l st = Some st' ->
  callsExtend (fun c => isAnimateTransition c = false) (fst st) (fst st').
Proof.
  intros l st st' H.
  apply (fold_option_invariant (animateKeyframe pm h now cur tgt)
           (fun s => callsExtend (fun c => isAnimateTransition c = false)
                       (fst st) (fst s))
           (fun a b a' Ia Hs =>
              callsExtend_trans _ _ _ _ Ia
                (animateKeyframe_calls pm h now cur tgt a b a' Hs))
           l st st' (callsExtend_refl _ _) H).
Qed.

Lemma fold_left_callsExtend {B : Type} (Q : Call -> Prop)
    (f : World -> B -> World) :
  (forall w b, callsExtend Q w (f w b)) ->
  forall l w, callsExtend Q w (fold_left f l w).
Proof.
  intros Hf. induction l as [|b l IH]; intros w; cbn.
  - apply callsExtend_refl.
  - eapply callsExtend_trans; [apply Hf | apply IH].
Qed.

Lemma cleanupFinishedAnimations_calls h now w :
  callsExtend notAnimate w (cleanupFinishedAnimations h now w).
Proof.
  unfold cleanupFinishedAnimations.
  destruct (m_suspended (w_comp w)); [apply callsExtend_refl|].
  cbv zeta.
  match goal with
  | |- callsExtend _ _ (fold_left ?f2 ?l2 (fold_left ?f1 ?l1 w)) =>
      apply (callsExtend_trans _ _ (fold_left f1 l1 w));
        [apply (fold_left_callsExtend _ f1)
        |apply (fold_left_callsExtend _ f2)]
  end.
  - intros w1 p. cbv beta.
    destruct (map_get Z.eqb (m_transitions (w_comp w1)) p) as [anim|].
    + destruct (reset h anim None None now) as [anim' e1].
      exists [C_deleteImplicitAnimation p]. cbn.
      rewrite childEffects_calls. split; [reflexivity|]. repeat constructor.
    + apply callsExtend_same. reflexivity.
  - intros w1 n. cbv beta.
    destruct (map_get String.eqb (m_keyframeAnimations (w_comp w1)) n)
      as [kfanim|].
    + destruct (reset h kfanim None None now) as [kfanim' e1].
      apply callsExtend_same. cbn. apply childEffects_calls.
    + apply callsExtend_same. reflexivity.
Qed.

(** The calls of one pass of [CompositeAnimation::animate]: what
    [updateTransitions] constructs and deletes, then one call of [animate]
    on each transition of the map, in the order of the map, then calls
    among which no transition is advanced. *)
Lemma CompositeAnimation_animate_calls pm h now cur tgt w w' r :
  CompositeAnimation_animate pm h now cur tgt w = Some (w', r) ->
  exists w1 post,
    updateTransitions pm h now cur tgt w = Some w1
    /\ callsExtend notAnimate w w1
    /\ w_calls w'
       = w_calls w1
         ++ match cur with
            | Some _ =>
                map C_animateTransition (map fst (m_transitions (w_comp w1)))
            | None => []
            end
         ++ post
    /\ Forall (fun c => isAnimateTransition c = false) post.
Proof.
  unfold CompositeAnimation_animate.
  destruct (updateTransitions pm h now cur tgt w) as [w1|] eqn:Eu;
    [|discriminate].
  intros H. exists w1.
  assert (Hloop : forall w2 r2,
            match cur with
            | Some c =>
                fold_option (animateTransition pm h now c tgt)
                  (map fst (m_transitions (w_comp w1))) (w1, None)
            | None => Some (w1, None)
            end = Some (w2, r2) ->
            w_calls w2
            = w_calls w1
              ++ match cur with
                 | Some _ =>
                     map C_animateTransition
                       (map fst (m_transitions (w_comp w1)))
                 | None => []
                 end).
  { intros w2 r2. destruct cur as [c|].
    - intros Hl. apply animateTransition_loop in Hl; [tauto|auto].
    - intros Hl. injection Hl as <- <-. rewrite app_nil_r. reflexivity. }
  destruct (match cur with
            | Some c => _
            | None => Some (w1, None)
            end) as [[w2 r2]|]; [|discriminate].
  specialize (Hloop w2 r2 eq_refl).
  destruct (updateKeyframeAnimations h now cur tgt w2) as [w3|] eqn:Ek;
    [|discriminate].
  apply updateKeyframeAnimations_calls in Ek.
  destruct (style_deref (w_store w3) tgt) as [target|]; [|discriminate].
  assert (Hpost : forall w4 r4,
            (if hasAnimations target
             then fold_option (animateKeyframe pm h now cur tgt)
                    match animations target with
                    | Some l => l
                    | None => []
                    end (w3, r2)
             else Some (w3, r2)) = Some (w4, r4) ->
            callsExtend (fun c => isAnimateTransition c = false) w3 w4).
  { intros w4 r4. destruct (hasAnimations target).
    - intros Hl. apply animateKeyframe_loop in Hl. exact Hl.
    - intros Hl. injection Hl as <- <-. apply callsExtend_refl. }
  destruct (if hasAnimations target then _ else _) as [[w4 r4]|];
    [|discriminate].
  specialize (Hpost w4 r4 eq_refl).
  injection H as <- <-.
  assert (Hall : callsExtend (fun c => isAnimateTransition c = false) w3
                   (cleanupFinishedAnimations h now w4)).
  { eapply callsExtend_trans; [exact Hpost|].
    eapply callsExtend_weaken; [|apply cleanupFinishedAnimations_calls].
    intros c [Hc _]. exact Hc. }
  destruct Hall as (post & Hc & Hf). exists post.
  split; [reflexivity|]. split; [apply (updateTransitions_calls _ _ _ _ _ _ _ Eu)|].
  split; [|exact Hf].
  rewrite Hc, Ek, Hloop, <- app_assoc. reflexivity.
Qed.

End PassOrder.

Section ReleaseOrder.
Context {P : Platform}.

(** *** The sort *)

Lemma insertByIndex_perm a l : Permutation (insertByIndex a l) (a :: l).
Proof.
  induction l as [|b l IH]; cbn; [reflexivity|].
  destruct (index (snd a) <=? index (snd b)); [reflexivity|].
  rewrite IH. apply perm_swap.
Qed.

Lemma stable_sort_by_index_perm l : Permutation (stable_sort_by_index l) l.
Proof.
  induction l as [|a l IH]; cbn; [reflexivity|].
  rewrite insertByIndex_perm. constructor. exact IH.
Qed.

Lemma insertByIndex_sorted a l :
  StronglySorted indexLe l -> StronglySorted indexLe (insertByIndex a l).
Proof.
  induction 1 as [|b l Hs IH Hb]; cbn.
  - repeat constructor.
  - destruct (Z.leb_spec (index (snd a)) (index (snd b))) as [Hle|Hgt].
    + constructor; [constructor; assumption|].
      constructor; [exact Hle|].
      eapply Forall_impl; [|exact Hb]. unfold indexLe. intros c Hc. lia.
    + constructor; [exact IH|].
      apply (Permutation_Forall (Permutation_sym (insertByIndex_perm a l))).
      constructor; [unfold indexLe; lia | exact Hb].
Qed.

Lemma stable_sort_by_index_sorted l :
  StronglySorted indexLe (stable_sort_by_index l).
Proof.
  induction l as [|a l IH]; cbn; [constructor|].
  apply insertByIndex_sorted, IH.
Qed.

(** Entries with the same index keep the order they had. *)
Lemma insertByIndex_stable i a l :
  filter (fun e => index (snd e) =? i) (insertByIndex a l)
  = filter (fun e => index (snd e) =? i) (a :: l).
Proof.
  induction l as [|b l IH]; [reflexivity|].
  cbn [insertByIndex].
  destruct (Z.leb_spec (index (snd a)) (index (snd b))) as [Hle|Hgt];
    [reflexivity|].
  cbn [filter] in *. rewrite IH.
  destruct (Z.eqb_spec (index (snd a)) i) as [Ha|Ha];
    destruct (Z.eqb_spec (index (snd b)) i) as [Hb|Hb]; try reflexivity.
  lia.
Qed.

Lemma stable_sort_by_index_stable i l :
  filter (fun e => index (snd e) =? i) (stable_sort_by_index l)
  = filter (fun e => index (snd e) =? i) l.
Proof.
  induction l as [|a l IH]; [reflexivity|].
  cbn [stable_sort_by_index fold_right].
  fold (stable_sort_by_index l). rewrite insertByIndex_stable.
  cbn [filter]. rewrite IH. reflexivity.
Qed.

Lemma stable_sort_by_index_short l :
  Nat.ltb 1 (List.length l) = false -> stable_sort_by_index l = l.
Proof.
  destruct l as [|a [|b l]]; cbn; try reflexivity. discriminate.
Qed.

Lemma waitingKeyframes_sorted l :
  StronglySorted indexLe l -> StronglySorted releaseLe (waitingKeyframes l).
Proof.
  unfold waitingKeyframes.
  induction 1 as [|a l Hs IH Ha]; cbn; [constructor|].
  destruct (waitingForStyleAvailable (snd a)); [|exact IH].
  cbn. constructor; [exact IH|].
  apply Forall_map. apply Forall_forall. intros e He.
  apply filter_In in He. destruct He as [He _].
  rewrite Forall_forall in Ha. apply (Ha e He).
Qed.

(** *** The releases *)

Lemma keyframeReleases_app l1 l2 :
  keyframeReleases (l1 ++ l2) = keyframeReleases l1 ++ keyframeReleases l2.
Proof.
  induction l1 as [|c l1 IH]; cbn; [reflexivity|].
  destruct c; cbn; rewrite IH; reflexivity.
Qed.

Lemma keyframeReleases_keyframes (es : list (string * AnimationBase)) :
  keyframeReleases
    (map (fun e => C_styleAvailableKeyframe (fst e) (index (snd e))) es)
  = map (fun e => (fst e, index (snd e))) es.
Proof. induction es as [|e es IH]; cbn; [|rewrite IH]; reflexivity. Qed.

Lemma keyframeReleases_none l :
  Forall (fun c => keyframeReleases [c] = []) l -> keyframeReleases l = [].
Proof.
  induction 1 as [|c l Hc _ IH]; [reflexivity|].
  change (c :: l) with ([c] ++ l). rewrite keyframeReleases_app, Hc, IH.
  reflexivity.
Qed.

(** The loop over the sorted keyframe animations releases those that wait,
    in the order of the list. *)
Lemma styleAvailableKeyframe_loop h now : forall es w,
  NoDup (map fst es) ->
  (forall e, In e es ->
     map_get String.eqb (m_keyframeAnimations (w_comp w)) (fst e)
     = Some (snd e)) ->
  w_calls (fold_left (styleAvailableKeyframe h now) (map fst es) w)
  = w_calls w
    ++ map (fun e => C_styleAvailableKeyframe (fst e) (index (snd e)))
         (filter (fun e => waitingForStyleAvailable (snd e)) es).
Proof.
  induction es as [|[k a] es IH]; intros w Hnd Hget; cbn [map fold_left filter fst snd].
  - rewrite app_nil_r. reflexivity.
  - inversion Hnd as [|? ? Hnotin Hnd']; subst.
    pose proof (Hget (k, a) (or_introl eq_refl)) as Hk. cbn [fst snd] in Hk.
    unfold styleAvailableKeyframe at 2. rewrite Hk. cbn [snd].
    destruct (waitingForStyleAvailable a).
    + destruct (updateStateMachine h a STATE_INPUT_STYLE_AVAILABLE (-1) now)
        as [a' es'].
      rewrite IH; [| exact Hnd' |].
      * rewrite childEffects_calls. cbn. rewrite <- app_assoc. reflexivity.
      * intros e He. rewrite childEffects_keyframeAnimations. cbn.
        rewrite (map_get_set_other String.eqb String.eqb_eq).
        -- apply Hget. right. exact He.
        -- intros ->. apply Hnotin. apply in_map. exact He.
    + apply IH; [exact Hnd'|]. intros e He. apply Hget. right. exact He.
Qed.

Lemma styleAvailableTransition_loop h now : forall keys w,
  callsExtend (fun c => keyframeReleases [c] = []) w
    (fold_left (styleAvailableTransition h now) keys w).
Proof.
  apply fold_left_callsExtend. intros w k. unfold styleAvailableTransition.
  destruct (map_get Z.eqb (m_transitions (w_comp w)) k) as [anim|];
    [|apply callsExtend_refl].
  destruct (waitingForStyleAvailable anim); [|apply callsExtend_refl].
  destruct (updateStateMachine h anim STATE_INPUT_STYLE_AVAILABLE (-1) now)
    as [a' es'].
  exists [C_styleAvailableTransition k]. rewrite childEffects_calls. cbn.
  split; [reflexivity|]. repeat constructor.
Qed.

(** The keyframe animations that one call of [styleAvailable] releases. *)
Lemma CompositeAnimation_styleAvailable_releases h now w :
  NoDup (map fst (m_keyframeAnimations (w_comp w))) ->
  exists new,
    w_calls (CompositeAnimation_styleAvailable h now w) = w_calls w ++ new
    /\ keyframeReleases new
       = if m_numStyleAvailableWaiters (w_comp w) =? 0 then []
         else waitingKeyframes
                (stable_sort_by_index (m_keyframeAnimations (w_comp w))).
Proof.
  intros Hnd. unfold CompositeAnimation_styleAvailable.
  destruct (m_numStyleAvailableWaiters (w_comp w) =? 0).
  { exists []. rewrite app_nil_r. auto. }
  cbv zeta.
  set (ks := m_keyframeAnimations (w_comp w)) in *.
  assert (Es : (if Nat.ltb 1 (List.length ks) then stable_sort_by_index ks
                else ks) = stable_sort_by_index ks).
  { destruct (Nat.ltb 1 (List.length ks)) eqn:E; [reflexivity|].
    symmetry. apply stable_sort_by_index_short. exact E. }
  rewrite Es.
  set (w1 := fold_left (styleAvailableKeyframe h now)
               (map fst (stable_sort_by_index ks)) w).
  destruct (styleAvailableTransition_loop h now
              (map fst (m_transitions (w_comp w1))) w1) as (new2 & H2 & F2).
  assert (H1 : w_calls w1
               = w_calls w
                 ++ map (fun e => C_styleAvailableKeyframe (fst e)
                                    (index (snd e)))
                      (filter (fun e => waitingForStyleAvailable (snd e))
                         (stable_sort_by_index ks))).
  { apply styleAvailableKeyframe_loop.
    - apply (Permutation_NoDup
               (Permutation_sym
                  (Permutation_map fst (stable_sort_by_index_perm ks)))).
      exact Hnd.
    - intros [k a] He. cbn [fst snd].
      apply (map_get_In String.eqb String.eqb_eq); [exact Hnd|].
      apply (Permutation_in _ (stable_sort_by_index_perm ks)). exact He. }
  eexists. split.
  - rewrite H2, H1, <- app_assoc. reflexivity.
  - rewrite keyframeReleases_app, keyframeReleases_keyframes,
      (keyframeReleases_none _ F2), app_nil_r. reflexivity.
Qed.

End ReleaseOrder.

(** The order of the calls.  The calls of one pass of
    [CompositeAnimation::animate] are what [updateTransitions] constructs
    and deletes, then [animate] on every transition of the map, then calls
    among which no transition is advanced; and one call of [styleAvailable]
    releases the waiting keyframe animations in the order of a stable sort
    of the map by index: by ascending index, entries of equal index in the
    order they had. *)
Theorem transitions_first_then_keyframes_by_index {P : Platform}
    (pm : PropertyMap) (h : Host) (now : float) :
  (forall currentStyle targetStyle w w' r,
     CompositeAnimation_animate pm h now currentStyle targetStyle w
     = Some (w', r) ->
     exists w1 created post,
       updateTransitions pm h now currentStyle targetStyle w = Some w1
       /\ w_calls w'
          = w_calls w ++ created
            ++ match currentStyle with
               | Some _ =>
                   map C_animateTransition
                     (map fst (m_transitions (w_comp w1)))
               | None => []
               end
            ++ post
       /\ Forall notAnimate created
       /\ Forall (fun c => isAnimateTransition c = false) post)
  /\ (forall w,
        NoDup (map fst (m_keyframeAnimations (w_comp w))) ->
        let sorted := stable_sort_by_index (m_keyframeAnimations (w_comp w)) in
        exists new,
          w_calls (CompositeAnimation_styleAvailable h now w) = w_calls w ++ new
          /\ keyframeReleases new
             = (if m_numStyleAvailableWaiters (w_comp w) =? 0 then []
                else waitingKeyframes sorted)
          /\ StronglySorted releaseLe (keyframeReleases new)
          /\ Permutation sorted (m_keyframeAnimations (w_comp w))
          /\ forall i,
               filter (fun e => index (snd e) =? i) sorted
               = filter (fun e => index (snd e) =? i)
                   (m_keyframeAnimations (w_comp w))).
Proof.
  split.
  - intros currentStyle targetStyle w w' r H.
    destruct (CompositeAnimation_animate_calls _ _ _ _ _ _ _ _ H)
      as (w1 & post & Hu & (created & Hc & Hcreated) & Hcalls & Hpost).
    exists w1, created, post. split; [exact Hu|]. split; [|auto].
    rewrite Hcalls, Hc, <- app_assoc. reflexivity.
  - intros w Hnd sorted.
    destruct (CompositeAnimation_styleAvailable_releases h now w Hnd)
      as (new & Hc & Hr).
    exists new. split; [exact Hc|]. split; [exact Hr|]. split; [|split].
    + rewrite Hr. destruct (m_numStyleAvailableWaiters (w_comp w) =? 0);
        [constructor|].
      apply waitingKeyframes_sorted, stable_sort_by_index_sorted.
    + apply stable_sort_by_index_perm.
    + intros i. apply stable_sort_by_index_stable.
Qed.

Lemma transitions_first_then_keyframes_by_index_witness :
  let waiting (nm : string) (idx : Z) :=
    (nm, set_animState
           (@KeyframeAnimation_new examplePlatform
              (exampleKeyframeDeclaration nm []) idx)
           STATE_START_WAIT_STYLE_AVAILABLE) in
  let w : @World examplePlatform :=
    {| w_comp := {| m_transitions := [];
                    m_keyframeAnimations := [waiting "second"%string 1;
                                             waiting "first"%string 0];
                    m_suspended := false;
                    m_numStyleAvailableWaiters := 2 |};
       w_store := []; w_effects := []; w_calls := [] |} in
  NoDup (map fst (m_keyframeAnimations (w_comp w)))
  /\ exists new,
       w_calls (CompositeAnimation_styleAvailable exampleHost 0 w)
       = w_calls w ++ new
       /\ keyframeReleases new = [("first"%string, 0); ("second"%string, 1)].
Proof.
  intros waiting w.
  assert (Hnd : NoDup (map fst (m_keyframeAnimations (w_comp w)))).
  { cbn. constructor.
    - intros [H|[]]. discriminate.
    - constructor; [intros []|constructor]. }
  split; [exact Hnd|].
  destruct (proj2 (@transitions_first_then_keyframes_by_index examplePlatform
                     examplePropertyMap exampleHost 0) w Hnd)
    as (new & Hc & Hr & _).
  exists new. split; [exact Hc|]. rewrite Hr. vm_compute. reflexivity.
Defined.

(** C8 (the defect of the code).  [styleAvailable] releases the waiting
    keyframe animations by index, and the index is the place of the
    declaration in the style for which the animations were built.  When a
    later style declares the same animations in another order, every
    declaration still matches its animation, [updateKeyframeAnimations]
    returns without building them again, and the indices are those of the
    old order.  A renderer gets a first style that declares ["a"] before
    ["b"]; the start timers of both fire; it gets a second style that
    declares ["b"] before ["a"], and the pass for it advances ["b"] before
    ["a"]; then one call of [styleAvailable] releases ["a"] before ["b"],
    against the order of the style. *)
Theorem styleAvailable_order_after_reordering :
  let a := exampleKeyframeDeclaration "a"%string exampleKeyframes in
  let b := exampleKeyframeDeclaration "b"%string exampleKeyframes in
  let store := [exampleStyleAnimating (Some [a; b]);
                exampleStyleAnimating (Some [b; a])] in
  let state (w : @World examplePlatform) :=
    map (fun e => (fst e, index (snd e), m_animState (snd e)))
      (m_keyframeAnimations (w_comp w)) in
  match @CompositeAnimation_animate examplePlatform examplePropertyMap
          exampleHost 0 None 0%nat (exampleWorld store) with
  | Some (w1, r1) =>
      let w2 :=
        fold_left (timerFiredKeyframe exampleHost 0)
          (map fst (m_keyframeAnimations (w_comp w1))) w1 in
      match CompositeAnimation_animate examplePropertyMap exampleHost 1
              (Some r1) 1%nat w2 with
      | Some (w3, r3) =>
          let w4 := CompositeAnimation_styleAvailable exampleHost 1 w3 in
          state w1 = [("a"%string, 0, STATE_START_WAIT_TIMER);
                      ("b"%string, 1, STATE_START_WAIT_TIMER)]
          /\ state w2 = [("a"%string, 0, STATE_START_WAIT_STYLE_AVAILABLE);
                         ("b"%string, 1, STATE_START_WAIT_STYLE_AVAILABLE)]
          /\ option_map
               (fun s => match animations s with
                         | Some l => map name l
                         | None => []
                         end) (style_deref (w_store w2) 1%nat)
             = Some ["b"%string; "a"%string]
          /\ skipn (List.length (w_calls w2)) (w_calls w3)
             = [C_animateKeyframe "b"%string; C_animateKeyframe "a"%string]
          /\ state w3 = [("a"%string, 0, STATE_START_WAIT_STYLE_AVAILABLE);
                         ("b"%string, 1, STATE_START_WAIT_STYLE_AVAILABLE)]
          /\ map fst (stable_sort_by_index (m_keyframeAnimations (w_comp w3)))
             = ["a"%string; "b"%string]
          /\ skipn (List.length (w_calls w3)) (w_calls w4)
             = [C_styleAvailableKeyframe "a"%string 0;
                C_styleAvailableKeyframe "b"%string 1]
          /\ state w4 = [("a"%string, 0, STATE_ENDING);
                         ("b"%string, 1, STATE_ENDING)]
      | None => False
      end
  | None => False
  end.
Proof. vm_compute. repeat split; reflexivity. Qed.

(** ** AnimationController::updateAnimations *)

Section Controller.
Context {P : Platform}.

Lemma style_write_same (store : StyleStore) p s s0 :
  style_deref store p = Some s0 ->
  style_deref (style_write store p s) p = Some s.
Proof.
  unfold style_deref, style_write. intros H.
  assert (Hlt : (p < List.length store)%nat)
    by (apply nth_error_Some; congruence).
  destruct (Nat.ltb_spec p (List.length store)) as [_|]; [|lia].
  rewrite nth_error_app2 by (rewrite length_firstn; lia).
  rewrite length_firstn, Nat.min_l by lia. rewrite Nat.sub_diag. reflexivity.
Qed.

Lemma style_write_other (store : StyleStore) p q s :
  q <> p -> style_deref (style_write store p s) q = style_deref store q.
Proof.
  unfold style_deref, style_write. intros Hne.
  destruct (Nat.ltb_spec p (List.length store)) as [Hlt|]; [|reflexivity].
  rewrite <- (firstn_skipn p store) at 3.
  destruct (Nat.lt_ge_cases q p) as [Hq|Hq].
  - rewrite !nth_error_app1 by (rewrite length_firstn; lia). reflexivity.
  - rewrite !nth_error_app2 by (rewrite length_firstn; lia).
    rewrite length_firstn, Nat.min_l by lia.
    destruct (q - p)%nat as [|n] eqn:E; [lia|]. cbn [nth_error].
    destruct (skipn p store) as [|x rest] eqn:Es.
    + exfalso. apply (f_equal (@List.length _)) in Es.
      rewrite length_skipn in Es. cbn in Es. lia.
    + replace (skipn (S p) store) with rest; [reflexivity|].
      change (S p) with (1 + p)%nat. rewrite <- skipn_skipn, Es. reflexivity.
Qed.

Lemma imposeStackingRules_spec (s : RenderStyle) :
  imposeStackingRules s
  = (if needsStackingContext s then setZIndex 0 s else s)
  /\ needsStackingContext (imposeStackingRules s) = false
  /\ (needsStackingContext s = true ->
      zIndex (imposeStackingRules s) = 0
      /\ hasAutoZIndex (imposeStackingRules s) = false).
Proof.
  unfold imposeStackingRules, needsStackingContext.
  destruct (hasAutoZIndex s && (dlt (opacity s) 1 || hasTransform s)) eqn:E.
  - repeat split.
  - repeat split; try exact E; discriminate.
Qed.

(** C10: [updateAnimations] returns [newStyle], with the store and the
    controller as they were, when the renderer has no document or its
    document is in the page cache, and when neither the old style of the
    renderer nor [newStyle] declares animations or transitions; and when it
    returns a style other than [newStyle], that style is the one that
    [CompositeAnimation::animate] blended, with the z-index set to 0 (and no
    longer automatic) if it had an automatic z-index together with an
    opacity below 1 or a transform, and no other style of the store is
    touched. *)
Theorem updateAnimations_returns pm ctl store renderer newStyle now :
  (ro_document renderer = None
   \/ (exists doc, ro_document renderer = Some doc /\ inPageCache doc = true) ->
   updateAnimations pm ctl store renderer newStyle now
   = Some (unchangedResult ctl store newStyle))
  /\ (forall new,
        oldDeclaresNothing store renderer ->
        style_deref store newStyle = Some new ->
        declaresNothing new = true ->
        updateAnimations pm ctl store renderer newStyle now
        = Some (unchangedResult ctl store newStyle))
  /\ (forall res,
        updateAnimations pm ctl store renderer newStyle now = Some res ->
        r_style res <> newStyle ->
        exists w blended,
          CompositeAnimation_animate pm (hostOf renderer) now
            (ro_style renderer) newStyle (passWorld ctl store renderer)
          = Some (w, r_style res)
          /\ style_deref (w_store w) (r_style res) = Some blended
          /\ style_deref (r_store res) (r_style res)
             = Some (imposeStackingRules blended)
          /\ (needsStackingContext blended = true ->
              zIndex (imposeStackingRules blended) = 0
              /\ hasAutoZIndex (imposeStackingRules blended) = false)
          /\ (forall q, q <> r_style res ->
                style_deref (r_store res) q = style_deref (w_store w) q)).
Proof.
  split; [|split].
  - intros [Hd|(doc & Hd & Hc)]; unfold updateAnimations; rewrite Hd;
      [reflexivity|]. rewrite Hc. reflexivity.
  - intros new Hold Hnew Hnone. unfold updateAnimations.
    destruct (ro_document renderer) as [doc|]; [|reflexivity].
    destruct (inPageCache doc); [reflexivity|].
    unfold oldDeclaresNothing in Hold. rewrite Hnew.
    destruct (ro_style renderer) as [p|].
    + destruct Hold as (old & Ho & Hn). rewrite Ho, Hn, Hnone. reflexivity.
    + rewrite Hnone. reflexivity.
  - intros res Hrun Hne. unfold updateAnimations in Hrun.
    destruct (ro_document renderer) as [doc|];
      [|injection Hrun as <-; contradiction Hne; reflexivity].
    destruct (inPageCache doc);
      [injection Hrun as <-; contradiction Hne; reflexivity|].
    destruct (match ro_style renderer with
              | Some p => _
              | None => Some true
              end) as [oldNothing|]; [|discriminate].
    destruct (style_deref store newStyle) as [new|]; [|discriminate].
    destruct (oldNothing && declaresNothing new);
      [injection Hrun as <-; contradiction Hne; reflexivity|].
    unfold passWorld.
    destruct (accessCompositeAnimation ctl renderer) as [rendererAnimations ctl'].
    cbn [fst].
    destruct (CompositeAnimation_animate pm (hostOf renderer) now
                (ro_style renderer) newStyle _) as [[w blendedStyle]|];
      [|discriminate].
    destruct (style_deref (w_store w) blendedStyle) as [blended|] eqn:Eb;
      [|discriminate].
    injection Hrun as <-. cbn [r_style r_store] in *.
    exists w, blended. split; [reflexivity|]. split; [exact Eb|].
    destruct (imposeStackingRules_spec blended) as (Hdef & _ & Hz).
    destruct (Nat.eqb_spec blendedStyle newStyle) as [|_]; [contradiction|].
    cbn [negb andb].
    change (hasAutoZIndex blended
            && (dlt (opacity blended) 1 || hasTransform blended))
      with (needsStackingContext blended).
    split; [|split; [exact Hz|]]; rewrite ?Hdef;
      destruct (needsStackingContext blended).
    + apply (style_write_same _ _ _ _ Eb).
    + exact Eb.
    + intros q Hq. apply style_write_other. exact Hq.
    + reflexivity.
Qed.

End Controller.

Lemma updateAnimations_returns_witness :
  let decl := exampleDeclaration 1001 2 0 1 in
  let store := [exampleStyleAt 0 None;
                @setIntValue examplePlatform CSSPropertyZIndex 5
                  (exampleStyleAt 100 (Some [decl]))] in
  match @updateAnimations examplePlatform examplePropertyMap
          AnimationControllerPrivate_new store (exampleRenderer (Some 0%nat))
          1%nat 0 with
  | Some res =>
      r_style res = 2%nat
      /\ exists returned,
           style_deref (r_store res) (r_style res) = Some returned
           /\ needsStackingContext returned = false
  | None => False
  end.
Proof.
  intros decl store.
  assert (Hs : option_map r_style
                 (@updateAnimations examplePlatform examplePropertyMap
                    AnimationControllerPrivate_new store
                    (exampleRenderer (Some 0%nat)) 1%nat 0) = Some 2%nat)
    by (vm_compute; reflexivity).
  destruct (@updateAnimations examplePlatform examplePropertyMap
              AnimationControllerPrivate_new store
              (exampleRenderer (Some 0%nat)) 1%nat 0) as [res|] eqn:E;
    [|discriminate].
  cbn in Hs. injection Hs as Hs. split; [exact Hs|].
  destruct (proj2 (proj2 (@updateAnimations_returns examplePlatform
                            examplePropertyMap AnimationControllerPrivate_new
                            store (exampleRenderer (Some 0%nat)) 1%nat 0))
              res E) as (w & blended & _ & _ & Hret & _).
  - rewrite Hs. discriminate.
  - exists (imposeStackingRules blended). split; [exact Hret|].
    apply imposeStackingRules_spec.
Defined.

(** The style that a pass returns for a starting transition of [left]: a
    new style, in which the automatic z-index has become 0 because the
    opacity is below 1, and [left] is at its start. *)
Example updateAnimations_imposes_stacking :
  let decl := exampleDeclaration 1001 2 0 1 in
  let store := [exampleStyleAt 0 None;
                @setIntValue examplePlatform CSSPropertyZIndex 5
                  (exampleStyleAt 100 (Some [decl]))] in
  match @updateAnimations examplePlatform examplePropertyMap
          AnimationControllerPrivate_new store (exampleRenderer (Some 0%nat))
          1%nat 0 with
  | Some res =>
      option_map (fun s => (zIndex s, hasAutoZIndex s, lengthValue s CSSPropertyLeft))
        (style_deref (r_store res) (r_style res))
      = Some (0, false, 0)
      /\ option_map (fun s => (zIndex s, hasAutoZIndex s))
           (style_deref (r_store res) 1%nat)
         = Some (5, true)
      /\ r_calls res = [C_newImplicitAnimation 1001; C_animateTransition 1001]
  | None => False
  end.
Proof. vm_compute. repeat split; reflexivity. Qed.

(** ** The state machine, further *)

Section StateMachineMore.
Context {P : Platform}.

(** *** A finished animation *)

Lemma updateStateMachine_done h a input param now :
  m_animState a = STATE_DONE -> revives input = false ->
  let a' := fst (updateStateMachine h a input param now) in
  m_animState a' = STATE_DONE
  /\ m_startTime a' = m_startTime a /\ m_pauseTime a' = m_pauseTime a
  /\ m_animation a' = m_animation a /\ m_kind a' = m_kind a.
Proof.
  intros Hs Hr. destruct input; try discriminate Hr;
    unfold updateStateMachine; rewrite ?Hs; cbn; rewrite ?Hs; cbn; auto.
Qed.

(** X1.  A finished animation stays finished.  From [STATE_DONE], inputs
    other than [STATE_INPUT_MAKE_NEW] and [STATE_INPUT_RESTART_ANIMATION]
    leave the animation in [STATE_DONE] with its start time and its pause
    time. *)
Theorem done_stays_done h (l : list Step) : forall a,
  m_animState a = STATE_DONE ->
  Forall (fun s => revives (s_input s) = false) l ->
  m_animState (run h a l) = STATE_DONE
  /\ m_startTime (run h a l) = m_startTime a
  /\ m_pauseTime (run h a l) = m_pauseTime a.
Proof.
  unfold run. induction l as [|s l IH]; intros a Hs Hl; cbn [fold_left].
  - auto.
  - inversion Hl as [|? ? H1 H2]; subst.
    destruct (updateStateMachine_done h a (s_input s) (s_param s) (s_now s)
                Hs H1) as (E1 & E2 & E3 & _).
    destruct (IH _ E1 H2) as (F1 & F2 & F3).
    repeat split; congruence.
Qed.

(** *** The waiters for the style *)

Lemma waiterDelta_app es1 es2 :
  waiterDelta (es1 ++ es2) = waiterDelta es1 + waiterDelta es2.
Proof.
  induction es1 as [|e es1 IH]; cbn; [reflexivity|].
  fold (waiterDelta (es1 ++ es2)). fold (waiterDelta es1).
  destruct e as [| | [|] | |]; lia.
Qed.

Lemma waiterDelta_waitingEffect a :
  waiterDelta (waitingEffect a) = - waitingCount a.
Proof.
  unfold waitingEffect, waitingCount, waitingForStyleAvailable.
  destruct (AnimState_eq _ _); reflexivity.
Qed.

Lemma waiterDelta_endAnimation a b : waiterDelta (endAnimation a b) = 0.
Proof. unfold endAnimation. destruct (m_kind a); reflexivity. Qed.

Lemma waiterDelta_map_override l :
  waiterDelta (map E_overrideImplicitAnimations l) = 0.
Proof. induction l; cbn; auto. Qed.

Lemma waiterDelta_map_resume l :
  waiterDelta (map E_resumeOverriddenImplicitAnimations l) = 0.
Proof. induction l; cbn; auto. Qed.

Lemma waiterDelta_overrideAnimations a : waiterDelta (overrideAnimations a) = 0.
Proof.
  unfold overrideAnimations. destruct (m_kind a);
    [reflexivity | apply waiterDelta_map_override].
Qed.

Lemma waiterDelta_resumeOverriddenAnimations a :
  waiterDelta (resumeOverriddenAnimations a) = 0.
Proof.
  unfold resumeOverriddenAnimations. destruct (m_kind a);
    [reflexivity | apply waiterDelta_map_resume].
Qed.

Lemma waiterDelta_onAnimationEnd h a t :
  waiterDelta (snd (onAnimationEnd h a t)) = 0.
Proof.
  unfold onAnimationEnd, sendTransitionEvent, sendAnimationEvent.
  destruct (m_kind a) eqn:Ek;
    destruct (hasListenerType h _), (hasElementNode h);
    cbn; unfold endAnimation; rewrite ?Ek; reflexivity.
Qed.

Lemma waitingCount_state a s :
  m_animState a = s ->
  waitingCount a = match s with STATE_START_WAIT_STYLE_AVAILABLE => 1 | _ => 0 end.
Proof.
  intros <-. unfold waitingCount, waitingForStyleAvailable.
  destruct (m_animState a); reflexivity.
Qed.

Lemma startTimeSet_waiters a param now :
  waiterDelta (snd (startTimeSet a param now)) = 0
  /\ waitingCount (fst (startTimeSet a param now)) = 0.
Proof.
  split; [reflexivity|].
  destruct (startTimeSet_shape a param now) as ([H|H] & _);
    rewrite (waitingCount_state _ _ H); reflexivity.
Qed.

Lemma primeEventTimers_waiters a now : waitingCount (primeEventTimers a now) = 0.
Proof.
  destruct (primeEventTimers_shape a now) as ([H|H] & _);
    rewrite (waitingCount_state _ _ H); reflexivity.
Qed.

Lemma startFromNew_waiters a :
  waiterDelta (snd (startFromNew a)) = 0 /\ waitingCount (fst (startFromNew a)) = 0.
Proof. split; reflexivity. Qed.

Lemma waitingCount_set_animState a s :
  waitingCount (set_animState a s)
  = match s with STATE_START_WAIT_STYLE_AVAILABLE => 1 | _ => 0 end.
Proof. apply waitingCount_state. reflexivity. Qed.

(** X2.  The style-available waiters follow the state.  Whatever the input,
    [updateStateMachine] announces one more waiter exactly when the
    animation enters [STATE_START_WAIT_STYLE_AVAILABLE] and one less exactly
    when it leaves it; and the destructor of an animation that waits
    announces one less. *)
Theorem waiters_follow_state h a input param now :
  waiterDelta (snd (updateStateMachine h a input param now))
  = waitingCount (fst (updateStateMachine h a input param now)) - waitingCount a
  /\ waiterDelta (destroyAnimation h a now) = - waitingCount a.
Proof.
  assert (Hend : waiterDelta
                   (snd (updateStateMachine h a STATE_INPUT_END_ANIMATION
                           (-1) now)) = - waitingCount a).
  { cbn. rewrite waiterDelta_app, waiterDelta_endAnimation.
    change (waitingEffect (cancelTimers a)) with (waitingEffect a).
    rewrite waiterDelta_waitingEffect. lia. }
  split.
  2:{ unfold destroyAnimation. destruct (postactive a) eqn:Ep; cbn [negb].
      - unfold postactive in Ep. unfold waitingCount, waitingForStyleAvailable.
        destruct (m_animState a); try discriminate. reflexivity.
      - exact Hend. }
  unfold updateStateMachine.
  destruct input; destruct (m_animState a) eqn:Es;
    unfold startTimeSet, startFromNew, pauseWhileRunning, waitingEffect;
    cbn -[primeEventTimers onAnimationEnd onAnimationStart
          onAnimationIteration waiterDelta endAnimation overrideAnimations
          resumeOverriddenAnimations];
    rewrite ?orb_true_r, ?Es;
    cbn -[primeEventTimers onAnimationEnd onAnimationStart
          onAnimationIteration waiterDelta endAnimation overrideAnimations
          resumeOverriddenAnimations].
  all: try match goal with
           | |- context [onAnimationEnd ?h ?x ?p] =>
               pose proof (waiterDelta_onAnimationEnd h x p) as Ho;
               destruct (onAnimationEnd h x p) as [a1 e1]; cbn [fst snd] in Ho |- *
           end.
  all: try match goal with
           | |- context [negb (paused ?x)] => destruct (negb (paused x))
           end.
  all: cbn [fst snd].
  all: unfold waitingCount, waitingForStyleAvailable.
  all: try match goal with
           | |- context [m_animState (primeEventTimers ?x ?n)] =>
               destruct (primeEventTimers_shape x n) as ([Hp|Hp] & _ & _);
               rewrite Hp
           end.
  all: rewrite ?Es.
  all: repeat rewrite waiterDelta_app.
  all: rewrite ?waiterDelta_endAnimation, ?waiterDelta_overrideAnimations,
         ?waiterDelta_resumeOverriddenAnimations.
  all: try rewrite Ho.
  all: cbn; try reflexivity.
  all: match goal with
       | |- context [fold_right ?f 0 ?l] =>
           change (fold_right f 0 l) with (waiterDelta l)
       end.
  all: rewrite ?waiterDelta_app, ?waiterDelta_endAnimation,
         ?waiterDelta_overrideAnimations; reflexivity.
Qed.

(** *** The timer and the state *)

Lemma primeEventTimers_timer a now : timerMatchesState (primeEventTimers a now).
Proof.
  unfold primeEventTimers, timerMatchesState.
  destruct (dlt _ 0 || dlt _ _); cbn;
    match goal with |- context [if ?c then _ else _] => destruct c end;
    cbn; split; (reflexivity || discriminate).
Qed.

Lemma updateStateMachine_timer h a input param now :
  timerMatchesState a ->
  timerMatchesState (fst (updateStateMachine h a input param now)).
Proof.
  intros H. unfold updateStateMachine.
  destruct input; destruct (m_animState a) eqn:Es;
    unfold startTimeSet, startFromNew, pauseWhileRunning;
    cbn -[primeEventTimers onAnimationEnd onAnimationStart
          onAnimationIteration timerMatchesState];
    rewrite ?orb_true_r, ?Es;
    cbn -[primeEventTimers onAnimationEnd onAnimationStart
          onAnimationIteration timerMatchesState].
  all: try apply primeEventTimers_timer.
  all: try exact H.
  all: try match goal with
           | |- context [onAnimationEnd ?h ?x ?p] =>
               destruct (onAnimationEnd h x p) as [a1 e1]
           end.
  all: try match goal with
           | |- context [negb (paused ?x)] => destruct (negb (paused x))
           end.
  all: unfold timerMatchesState in *; rewrite ?Es in H; cbn in H |- *.
  all: try exact I.
  all: try (split; [reflexivity | discriminate]).
  all: try reflexivity.
  all: try exact H.
Qed.

(** X3.  The timer agrees with the state.  In every state that a new
    animation reaches, a state that waits for a timer has the timer armed
    for the event of that state, so the firing timer hands
    [updateStateMachine] the input that this state waits for; and in
    [STATE_PAUSED_WAIT_TIMER] and [STATE_PAUSED_RUN] the timer is
    cancelled. *)
Theorem timer_agrees_with_state h (anim : Animation) (k : AnimKind)
    (l : list Step) :
  let a := run h (AnimationBase_new anim k) l in
  let tc := m_animationTimerCallback a in
  timerMatchesState a
  /\ forall i now,
       expectedTimerInput (m_animState a) = Some i ->
       tc_timer tc <> None
       /\ animationTimerCallbackFired h a (tc_eventType tc) (tc_elapsedTime tc)
            now
          = updateStateMachine h a i (tc_elapsedTime tc) now.
Proof.
  intros a tc.
  assert (Ha : timerMatchesState a).
  { subst a. unfold run.
    assert (H0 : timerMatchesState (AnimationBase_new anim k)) by exact I.
    revert H0. generalize (AnimationBase_new anim k).
    induction l as [|s l IH]; intros a0 H0; cbn [fold_left]; [exact H0|].
    apply IH. apply updateStateMachine_timer. exact H0. }
  split; [exact Ha|].
  intros i now Hi. unfold timerMatchesState in Ha. fold tc in Ha.
  unfold animationTimerCallbackFired.
  destruct (m_animState a); try discriminate Hi;
    injection Hi as <-; destruct Ha as [He Ht]; rewrite He; auto.
Qed.

(** *** Animations without an end *)

Lemma primeEventTimers_endless x now :
  iterationCount (m_animation x) <= 0 ->
  m_animState (primeEventTimers x now) = STATE_LOOPING.
Proof.
  intros Hc. unfold primeEventTimers.
  destruct (Z.ltb_spec 0 (iterationCount (m_animation x))) as [|_]; [lia|].
  change (dlt (-1) 0) with true. cbn. reflexivity.
Qed.

Lemma updateStateMachine_endless h a input param now :
  iterationCount (m_animation a) <= 0 ->
  m_animState a <> STATE_ENDING -> m_animState a <> STATE_DONE ->
  forcesEnd input = false ->
  let a' := fst (updateStateMachine h a input param now) in
  m_animState a' <> STATE_ENDING /\ m_animState a' <> STATE_DONE.
Proof.
  intros Hc H1 H2 Hi.
  assert (Hprime : forall x, m_animation x = m_animation a ->
            m_animState (primeEventTimers x now) <> STATE_ENDING
            /\ m_animState (primeEventTimers x now) <> STATE_DONE).
  { intros x Hx. rewrite primeEventTimers_endless by (rewrite Hx; exact Hc).
    split; discriminate. }
  unfold updateStateMachine.
  destruct input; try discriminate Hi;
    destruct (m_animState a) eqn:Es; try contradiction;
    unfold startTimeSet, startFromNew, pauseWhileRunning;
    cbn -[primeEventTimers onAnimationEnd onAnimationStart
          onAnimationIteration];
    rewrite ?orb_true_r, ?Es;
    cbn -[primeEventTimers onAnimationEnd onAnimationStart
          onAnimationIteration].
  all: try (split; discriminate).
  all: try match goal with
           | |- context [negb (paused ?x)] =>
               destruct (negb (paused x)); cbn; split; discriminate
           end.
  all: try (rewrite Es; split; discriminate).
  all: apply Hprime.
  all: try match goal with
           | |- context [if ?c then _ else _] => destruct c
           end; cbn.
  all: try reflexivity.
  all: try apply onAnimationIteration_static.
  all: rewrite (proj1 (onAnimationStart_static h _ _)); reflexivity.
Qed.

(** X4.  An animation with no positive iteration count has no end of its
    own.  A new animation whose declared iteration count is zero or
    negative never reaches [STATE_ENDING] or [STATE_DONE], whatever inputs
    it gets, unless one of them is [STATE_INPUT_END_ANIMATION]. *)
Theorem endless_animation_never_ends h (anim : Animation) (k : AnimKind)
    (l : list Step) :
  iterationCount anim <= 0 ->
  Forall (fun s => forcesEnd (s_input s) = false) l ->
  let a := run h (AnimationBase_new anim k) l in
  m_animState a <> STATE_ENDING /\ postactive a = false.
Proof.
  intros Hc Hl a.
  assert (H : iterationCount (m_animation a) <= 0
              /\ m_animState a <> STATE_ENDING /\ m_animState a <> STATE_DONE).
  { subst a. unfold run.
    assert (H0 : iterationCount (m_animation (AnimationBase_new anim k)) <= 0
                 /\ m_animState (AnimationBase_new anim k) <> STATE_ENDING
                 /\ m_animState (AnimationBase_new anim k) <> STATE_DONE)
      by (cbn; repeat split; (exact Hc || discriminate)).
    revert H0. generalize (AnimationBase_new anim k).
    induction Hl as [|s l Hs Hl IH]; intros a0 H0; cbn [fold_left];
      [exact H0|].
    apply IH. destruct H0 as (A & B & C).
    split.
    - rewrite (proj1 (updateStateMachine_static h a0 (s_input s) (s_param s)
                        (s_now s))). exact A.
    - apply updateStateMachine_endless; assumption. }
  destruct H as (_ & H1 & H2). split; [exact H1|].
  unfold postactive. destruct (m_animState a); try reflexivity.
  contradiction H2. reflexivity.
Qed.

(** *** Pause and resume *)

(** X5.  A pause followed by a resume moves the start time by the length of
    the pause.  A running animation (looping or ending) that is paused at
    [t1] has its timers cancelled and keeps its start time; resumed at
    [t2] it is running again and not paused, and its start time has grown
    by [t2 - t1] (if that leaves it at or below 0, the time of the resume
    is taken). *)
Theorem pause_resume_shifts_start h a p1 t1 p2 t2 :
  m_animState a = STATE_LOOPING \/ m_animState a = STATE_ENDING ->
  let a1 := fst (updateStateMachine h a STATE_INPUT_PLAY_STATE_PAUSED p1 t1) in
  let a2 := fst (updateStateMachine h a1 STATE_INPUT_PLAY_STATE_RUNNING p2 t2) in
  (m_animState a1 = STATE_PAUSED_RUN /\ m_pauseTime a1 = t1
   /\ m_startTime a1 = m_startTime a
   /\ tc_timer (m_animationTimerCallback a1) = None)
  /\ ((m_animState a2 = STATE_LOOPING \/ m_animState a2 = STATE_ENDING)
      /\ m_pauseTime a2 = (-1)%float
      /\ m_startTime a2
         = (let s := (m_startTime a + (t2 - t1))%float in
            if dle s 0 then t2 else s)).
Proof.
  intros Hs a1 a2.
  assert (E1 : updateStateMachine h a STATE_INPUT_PLAY_STATE_PAUSED p1 t1
               = pauseWhileRunning a t1).
  { unfold updateStateMachine. destruct Hs as [-> | ->]; reflexivity. }
  assert (A1 : a1 = fst (pauseWhileRunning a t1)) by (subst a1; rewrite E1; reflexivity).
  split; [rewrite A1; repeat split|].
  subst a2. rewrite A1. unfold updateStateMachine, pauseWhileRunning.
  cbn -[startTimeSet]. rewrite orb_true_r.
  match goal with
  | |- context [startTimeSet ?x ?p ?n] =>
      destruct (startTimeSet_shape x p n) as (S1 & S2 & S3)
  end.
  split; [exact S1|]. split; [exact S2|]. exact S3.
Qed.


(** *** The end of an animation and its event *)

(** X6.  An animation is kept until its end event has been dispatched.  When
    the end timer fires in [STATE_ENDING] the animation is done; if the
    document listens for the end event and the node is an element, the
    event dispatcher is armed and the animation counts as waiting for its
    end event, so that [cleanupFinishedAnimations] does not yet treat it as
    finished; once the dispatcher has fired it is finished. *)
Theorem end_event_keeps_animation h a t now :
  m_animState a = STATE_ENDING ->
  let a1 := fst (updateStateMachine h a STATE_INPUT_END_TIMER_FIRED t now) in
  postactive a1 = true
  /\ waitingForEndEvent a1 = sendsEndEvent h a || waitingForEndEvent a
  /\ finished a1 = negb (sendsEndEvent h a || waitingForEndEvent a)
  /\ (sendsEndEvent h a = true ->
      ed_timer (m_animationEventDispatcher a1) = Some 0%float
      /\ ed_elapsedTime (m_animationEventDispatcher a1) = t)
  /\ forall element eventType,
       finished (fst (animationEventDispatcherFired a1 element eventType))
       = true.
Proof.
  intros Hs a1.
  assert (E : a1 = set_animState (fst (onAnimationEnd h a t)) STATE_DONE).
  { subst a1. unfold updateStateMachine. rewrite Hs.
    destruct (onAnimationEnd h a t) as [x e]. reflexivity. }
  assert (W : waitingForEndEvent (fst (onAnimationEnd h a t))
              = sendsEndEvent h a || waitingForEndEvent a
              /\ (sendsEndEvent h a = true ->
                  ed_timer (m_animationEventDispatcher
                              (fst (onAnimationEnd h a t))) = Some 0%float
                  /\ ed_elapsedTime (m_animationEventDispatcher
                                       (fst (onAnimationEnd h a t))) = t)).
  { unfold onAnimationEnd, sendsEndEvent, sendTransitionEvent,
      sendAnimationEvent.
    destruct (m_kind a);
      destruct (hasListenerType h _), (hasElementNode h); cbn;
      split; try reflexivity; try discriminate; auto. }
  destruct W as [W1 W2].
  rewrite E. unfold finished. cbn -[onAnimationEnd].
  change (m_waitingForEndEvent (fst (onAnimationEnd h a t)))
    with (waitingForEndEvent (fst (onAnimationEnd h a t))).
  rewrite W1. repeat split; try apply W2; auto.
  intros element eventType. unfold animationEventDispatcherFired.
  destruct (negb element); [reflexivity|].
  destruct eventType as [[| | |]|]; reflexivity.
Qed.

End StateMachineMore.

Lemma pause_resume_shifts_start_witness :
  let a := set_startTime
             (set_animState
                (@ImplicitAnimation_new examplePlatform
                   (exampleDeclaration 1001 2 0 1) 1001) STATE_LOOPING)
             10 in
  let a1 := fst (updateStateMachine exampleHost a
                   STATE_INPUT_PLAY_STATE_PAUSED (-1) 11) in
  let a2 := fst (updateStateMachine exampleHost a1
                   STATE_INPUT_PLAY_STATE_RUNNING (-1) 14) in
  m_pauseTime a1 = 11%float /\ m_startTime a2 = 13%float.
Proof.
  intros a a1 a2.
  destruct (@pause_resume_shifts_start examplePlatform exampleHost a
              (-1) 11 (-1) 14 (or_introl eq_refl))
    as ((_ & Hp & _) & (_ & _ & Hs)).
  split; [exact Hp|]. exact Hs.
Defined.

Lemma end_event_keeps_animation_witness :
  let host := {| hasElementNode := true; hasListenerType := fun _ => true |} in
  let a := set_animState
             (@ImplicitAnimation_new examplePlatform
                (exampleDeclaration 1001 2 0 1) 1001) STATE_ENDING in
  let a1 := fst (updateStateMachine host a STATE_INPUT_END_TIMER_FIRED 2 12) in
  postactive a1 = true /\ finished a1 = false.
Proof.
  intros host a a1.
  destruct (@end_event_keeps_animation examplePlatform host a 2 12 eq_refl)
    as (H1 & _ & H3 & _).
  split; [exact H1|]. exact H3.
Defined.

Lemma done_stays_done_witness :
  let a := set_animState
             (@ImplicitAnimation_new examplePlatform
                (exampleDeclaration 1001 2 0 1) 1001) STATE_DONE in
  let l := [ {| s_input := STATE_INPUT_PLAY_STATE_RUNNING;
                s_param := (-1)%float; s_now := 20%float |};
             {| s_input := STATE_INPUT_END_TIMER_FIRED;
                s_param := 2%float; s_now := 21%float |};
             {| s_input := STATE_INPUT_END_ANIMATION;
                s_param := (-1)%float; s_now := 22%float |} ] in
  m_animState (run exampleHost a l) = STATE_DONE.
Proof.
  intros a l.
  apply (@done_stays_done examplePlatform exampleHost l a eq_refl).
  repeat constructor.
Defined.

Lemma endless_animation_never_ends_witness :
  let anim := exampleDeclaration 1001 2 0 0 in
  let l := [ {| s_input := STATE_INPUT_START_ANIMATION;
                s_param := (-1)%float; s_now := 0%float |};
             {| s_input := STATE_INPUT_START_TIMER_FIRED;
                s_param := 0%float; s_now := 0%float |};
             {| s_input := STATE_INPUT_STYLE_AVAILABLE;
                s_param := (-1)%float; s_now := 0%float |};
             {| s_input := STATE_INPUT_LOOP_TIMER_FIRED;
                s_param := 2%float; s_now := 2%float |};
             {| s_input := STATE_INPUT_END_TIMER_FIRED;
                s_param := 4%float; s_now := 4%float |} ] in
  postactive
    (run exampleHost
       (AnimationBase_new anim
          (IsImplicitAnimation
             {| m_transitionProperty := 1001; m_animatingProperty := 1001;
                m_overridden := false; m_fromStyle := None;
                m_toStyle := None |})) l) = false.
Proof.
  intros anim l.
  apply (@endless_animation_never_ends examplePlatform exampleHost anim _ l).
  - cbn. lia.
  - repeat constructor.
Defined.

Lemma timer_agrees_with_state_witness :
  let anim := exampleDeclaration 1001 2 0 1 in
  let k := IsImplicitAnimation
             {| m_transitionProperty := 1001; m_animatingProperty := 1001;
                m_overridden := false; m_fromStyle := None;
                m_toStyle := None |} in
  let l := [ {| s_input := STATE_INPUT_START_ANIMATION;
                s_param := (-1)%float; s_now := 0%float |} ] in
  let a := run exampleHost (@AnimationBase_new examplePlatform anim k) l in
  tc_timer (m_animationTimerCallback a) <> None.
Proof.
  intros anim k l a.
  apply (proj2 (@timer_agrees_with_state examplePlatform exampleHost anim k l)
           STATE_INPUT_START_TIMER_FIRED 0%float eq_refl).
Defined.

(** ** The registry of property wrappers *)

Section RegistryMore.
Context {P : Platform}.

Lemma array_set_in_range (a a' : list Z) (i v : Z) :
  array_set a i v = Some a' -> 0 <= i < Z.of_nat (List.length a).
Proof.
  unfold array_set.
  destruct (Z.leb_spec 0 i) as [H0|H0];
    destruct (Z.ltb_spec i (Z.of_nat (List.length a))) as [H1|H1];
    cbn [andb]; intros E; try discriminate E; lia.
Qed.

(** After the second loop of [ensurePropertyMap], the slot of the wrapper
    at position [n] holds [n], when no two wrappers share a slot. *)
Lemma fillPropertyWrapperMap_slots (ws : list PropertyWrapperBase) :
  forall (i : Z) (map map' : list Z),
    fillPropertyWrapperMap ws i map = Some map' ->
    NoDup (List.map slotOf ws) ->
    forall n w, nth_error ws n = Some w ->
      array_get map' (slotOf w) = Some (i + Z.of_nat n)
      /\ 0 <= slotOf w < Z.of_nat (List.length map).
Proof.
  induction ws as [|w0 ws IH]; intros i map map' H Hnd n w Hn.
  - destruct n; discriminate.
  - cbn in H.
    destruct (array_set map (wrap_int (m_prop w0 - firstCSSProperty)) i)
      as [map1|] eqn:E; [|discriminate].
    destruct (array_set_spec _ _ _ _ E) as [Hl1 Hg1].
    inversion Hnd as [|? ? Hnotin Hnd']; subst.
    destruct n as [|n]; cbn in Hn.
    + injection Hn as <-. split; [|exact (array_set_in_range _ _ _ _ E)].
      destruct (fillPropertyWrapperMap_spec ws _ _ _ H) as [_ Hkeep].
      rewrite Hkeep.
      * unfold slotOf. rewrite Hg1, Z.eqb_refl. f_equal. lia.
      * intros w' Hw' Heq. apply Hnotin. apply in_map_iff.
        exists w'. split; [exact Heq | exact Hw'].
    + destruct (IH _ _ _ H Hnd' n w Hn) as [Hg Hr]. split.
      * rewrite Hg. f_equal. lia.
      * rewrite <- Hl1. exact Hr.
Qed.

(** X7.  A registered property is handled by its own wrapper.  When no two
    wrappers share a slot, the property of the wrapper at position [n] is
    compared and blended by that wrapper, blending asks for the timer, and
    [getPropertyAtIndex n] gives the property back. *)
Theorem registered_property_uses_its_wrapper (ws : list PropertyWrapperBase)
    (pm : PropertyMap) (n : nat) (w : PropertyWrapperBase)
    (dst : RenderStyle) (a b : option RenderStyle) (prog : float) :
  ensurePropertyMap_of ws = Some pm ->
  NoDup (List.map slotOf ws) ->
  nth_error ws n = Some w ->
  m_prop w <> cAnimateAll ->
  propertiesEqual pm (m_prop w) a b = equals_ptr w a b
  /\ blendProperties pm (m_prop w) dst a b prog
     = match blend_ptr w dst a b prog with
       | Some dst' => Some (true, dst')
       | None => None
       end
  /\ getPropertyAtIndex pm (Z.of_nat n) = m_prop w.
Proof.
  intros Hpm Hnd Hn Hne.
  destruct (ensurePropertyMap_of_wf _ _ Hpm) as [_ Hw].
  unfold ensurePropertyMap_of in Hpm.
  destruct (fillPropertyWrapperMap ws 0 _) as [map|] eqn:Ef; [|discriminate].
  injection Hpm as <-. cbn [wrappers gPropertyWrapperMap] in *.
  destruct (fillPropertyWrapperMap_slots ws _ _ _ Ef Hnd n w Hn) as [Hg Hr].
  rewrite repeat_length in Hr. unfold slotOf in Hg, Hr.
  assert (Hnum : wrap_int (m_prop w - firstCSSProperty) < numCSSProperties)
    by lia.
  assert (Hget : array_get ws (Z.of_nat n) = Some w).
  { unfold array_get. destruct (Z.leb_spec 0 (Z.of_nat n)); [|lia].
    rewrite Nat2Z.id. exact Hn. }
  unfold propertiesEqual, blendProperties, getPropertyAtIndex, getNumProperties.
  cbn [wrappers gPropertyWrapperMap].
  destruct (Z.eqb_spec (m_prop w) cAnimateAll) as [|_]; [contradiction|].
  destruct (Z.leb_spec 0 (wrap_int (m_prop w - firstCSSProperty))); [|lia].
  destruct (Z.ltb_spec (wrap_int (m_prop w - firstCSSProperty)) numCSSProperties);
    [|lia].
  cbn [andb]. rewrite Hg. cbn [Z.add].
  destruct (Z.leb_spec 0 (Z.of_nat n)); [|lia].
  rewrite Hget. repeat split.
  assert (Hlen : (n < List.length ws)%nat) by (apply nth_error_Some; congruence).
  destruct (Z.ltb_spec (Z.of_nat n) 0); [lia|].
  destruct (Z.leb_spec (Z.of_nat (List.length ws)) (Z.of_nat n)); [lia|].
  reflexivity.
Qed.

End RegistryMore.

Lemma examplePropertyMap_ensured :
  @ensurePropertyMap examplePlatform = Some examplePropertyMap.
Proof.
  assert (H : match @ensurePropertyMap examplePlatform with
              | Some _ => true
              | None => false
              end = true) by (vm_compute; reflexivity).
  unfold examplePropertyMap.
  destruct (@ensurePropertyMap examplePlatform); [reflexivity|discriminate].
Qed.

Lemma gPropertyWrappers_slots_distinct :
  NoDup (List.map (@slotOf examplePlatform) (@gPropertyWrappers examplePlatform)).
Proof.
  assert (E : nodup Z.eq_dec
                (List.map (@slotOf examplePlatform)
                   (@gPropertyWrappers examplePlatform))
              = List.map (@slotOf examplePlatform)
                  (@gPropertyWrappers examplePlatform))
    by (vm_compute; reflexivity).
  rewrite <- E. apply NoDup_nodup.
Qed.

Lemma registered_property_uses_its_wrapper_witness :
  let moved := @setLengthValue examplePlatform CSSPropertyTop 40 exampleStyle in
  @propertiesEqual examplePlatform examplePropertyMap
    (@propertyID examplePlatform CSSPropertyTop) (Some exampleStyle)
    (Some moved)
  = Some false
  /\ @getPropertyAtIndex examplePlatform examplePropertyMap 2
     = @propertyID examplePlatform CSSPropertyTop.
Proof.
  intros moved.
  destruct (@registered_property_uses_its_wrapper examplePlatform
              (@gPropertyWrappers examplePlatform) examplePropertyMap 2%nat
              (@PropertyWrapper_Length examplePlatform CSSPropertyTop)
              exampleStyle (Some exampleStyle) (Some moved) 0.5
              examplePropertyMap_ensured gPropertyWrappers_slots_distinct
              eq_refl)
    as (He & _ & Hi).
  - vm_compute. discriminate.
  - split; [exact (eq_trans He eq_refl) | exact Hi].
Defined.

(** ** Keyframes *)

Section KeyframesMore.
Context {P : Platform}.

(** *** The search for the keyframes around a time *)

Lemma findKeyframes_found kfs t : forall k0 scale0,
  forall f s scale offset,
    findKeyframes kfs t (Some (kf_style k0)) scale0 (kf_key k0)
    = (Some f, Some s, scale, offset) ->
    exists k1 k2 pre post,
      k0 :: kfs = pre ++ k1 :: k2 :: post
      /\ Forall (fun k => dlt t (kf_key k) = false) (tl (pre ++ [k1]))
      /\ dlt t (kf_key k2) = true
      /\ f = kf_style k1 /\ s = kf_style k2
      /\ offset = kf_key k1
      /\ scale = (1 / (kf_key k2 - kf_key k1))%float.
Proof.
  induction kfs as [|it rest IH]; intros k0 scale0 f s scale offset H;
    cbn [findKeyframes] in H.
  - discriminate.
  - destruct (dlt t (kf_key it)) eqn:Et.
    + injection H as <- <- <- <-.
      exists k0, it, [], rest. cbn. repeat split; auto.
    + destruct (IH it scale0 f s scale offset H)
        as (k1 & k2 & pre & post & E & F & T & R).
      exists k1, k2, (k0 :: pre), post. cbn [app]. rewrite E.
      split; [reflexivity|]. split; [|split; [exact T | exact R]].
      cbn [tl]. clear - F Et E.
      destruct pre as [|p pre]; cbn in *.
      * injection E as -> _. constructor; [exact Et | constructor].
      * injection E as -> _. constructor; [exact Et | exact F].
Qed.

Lemma findKeyframes_finds pre : forall k1 k2 post t f0 scale0 offset0,
  Forall (fun k => dlt t (kf_key k) = false) (pre ++ [k1]) ->
  dlt t (kf_key k2) = true ->
  findKeyframes (pre ++ k1 :: k2 :: post) t f0 scale0 offset0
  = (Some (kf_style k1), Some (kf_style k2),
     (1 / (kf_key k2 - kf_key k1))%float, kf_key k1).
Proof.
  induction pre as [|p pre IH]; intros k1 k2 post t f0 scale0 offset0 F T;
    cbn [findKeyframes app] in *.
  - inversion F as [|? ? F1 _]; subst. rewrite F1, T. reflexivity.
  - inversion F as [|? ? F1 F2]; subst. rewrite F1. apply IH; assumption.
Qed.

(** X8.  The search of [KeyframeAnimation::animate] finds the keyframes around
    the time.  It leaves both styles set exactly when two neighbouring
    keyframes [k1], [k2] exist with no key up to [k1] after [t] and the key
    of [k2] after [t]; then the styles are theirs, [offset] is the key of
    [k1] and [scale] is the inverse of the distance of the two keys. *)
Theorem findKeyframes_brackets kfs t f s scale offset :
  findKeyframes kfs t None 1%float 0%float = (Some f, Some s, scale, offset)
  <-> exists k1 k2,
        bracket kfs t k1 k2
        /\ f = kf_style k1 /\ s = kf_style k2 /\ offset = kf_key k1
        /\ scale = (1 / (kf_key k2 - kf_key k1))%float.
Proof.
  split.
  - destruct kfs as [|k0 rest]; cbn [findKeyframes]; [discriminate|].
    destruct (dlt t (kf_key k0)) eqn:E0; [discriminate|].
    intros H.
    destruct (findKeyframes_found rest t k0 1%float f s scale offset H)
      as (k1 & k2 & pre & post & E & F & T & R).
    exists k1, k2. split; [|exact R].
    exists pre, post. split; [exact E|]. split; [|exact T].
    destruct pre as [|p pre]; cbn in *.
    + injection E as <- _. constructor; [exact E0 | constructor].
    + injection E as <- _. constructor; [exact E0 | exact F].
  - intros (k1 & k2 & (pre & post & -> & F & T) & -> & -> & -> & ->).
    apply findKeyframes_finds; assumption.
Qed.

(** *** The keyframe animations of a first style *)

Lemma map_set_absent {K V : Type} (eqb : K -> K -> bool)
    (eqb_eq : forall x y, eqb x y = true <-> x = y)
    (m : list (K * V)) (k : K) (v : V) :
  ~ In k (List.map fst m) -> map_set eqb m k v = m ++ [(k, v)].
Proof.
  induction m as [|[k' v'] m IH]; cbn; intros H; [reflexivity|].
  destruct (eqb k' k) eqn:E.
  - apply eqb_eq in E. tauto.
  - rewrite IH by tauto. reflexivity.
Qed.

Lemma numbered_keys idx l : List.map fst (numbered idx l) = List.map name l.
Proof.
  revert idx. induction l as [|a l IH]; intros idx; cbn; [reflexivity|].
  rewrite IH. reflexivity.
Qed.

Lemma addKeyframeAnimation_step (w : World) (idx : Z) (anim : Animation) :
  addKeyframeAnimation (w, idx) anim
  = if animatable anim
    then (with_keyframeAnimations w
            (map_set String.eqb (m_keyframeAnimations (w_comp w)) (name anim)
               (KeyframeAnimation_new anim idx)),
          wrap_int (idx + 1))
    else (w, idx).
Proof.
  unfold addKeyframeAnimation, animatable.
  destruct (isValidAnimation anim); cbn [negb andb]; [|reflexivity].
  match goal with |- context [if ?c then _ else _] => destruct c end;
    reflexivity.
Qed.

Lemma addKeyframeAnimation_loop (l : list Animation) :
  forall (w : World) (idx : Z),
    0 <= idx -> idx + Z.of_nat (List.length l) <= INT_MAX ->
    NoDup (List.map fst (m_keyframeAnimations (w_comp w))
           ++ List.map name (filter animatable l)) ->
    fold_left addKeyframeAnimation l (w, idx)
    = (with_keyframeAnimations w
         (m_keyframeAnimations (w_comp w)
          ++ numbered idx (filter animatable l)),
       idx + Z.of_nat (List.length (filter animatable l))).
Proof.
  induction l as [|anim l IH]; intros w idx H0 Hmax Hnd.
  - cbn. rewrite app_nil_r, Z.add_0_r.
    destruct w as [[ts ks sus n] st es cs]. reflexivity.
  - cbn [fold_left filter]. rewrite addKeyframeAnimation_step.
    cbn [List.length] in Hmax. cbn [filter] in Hnd.
    destruct (animatable anim) eqn:Ea.
    + assert (Hw : wrap_int (idx + 1) = idx + 1)
        by (apply wrap_int_small; unfold int_range, INT_MIN, INT_MAX in *; lia).
      assert (Habs : ~ In (name anim)
                       (List.map fst (m_keyframeAnimations (w_comp w)))).
      { cbn [map] in Hnd. apply NoDup_remove_2 in Hnd. intros Hin.
        apply Hnd. apply in_or_app. left. exact Hin. }
      rewrite Hw, IH.
      * cbn [with_keyframeAnimations w_comp m_keyframeAnimations
             List.length numbered].
        rewrite (map_set_absent String.eqb String.eqb_eq) by exact Habs.
        rewrite <- app_assoc. cbn [app]. f_equal. lia.
      * lia.
      * lia.
      * cbn [with_keyframeAnimations w_comp m_keyframeAnimations].
        rewrite (map_set_absent String.eqb String.eqb_eq) by exact Habs.
        rewrite map_app. cbn [map fst]. rewrite <- app_assoc.
        cbn [app map] in Hnd |- *.
        apply NoDup_remove_1 in Hnd as Hnd1.
        apply NoDup_remove_2 in Hnd as Hnd2.
        clear - Hnd Hnd1 Hnd2.
        apply (Permutation_NoDup (l := name anim
                                        :: List.map fst
                                             (m_keyframeAnimations (w_comp w))
                                        ++ List.map name (filter animatable l))).
        -- apply Permutation_middle.
        -- constructor; assumption.
    + rewrite IH; [reflexivity | lia | lia | exact Hnd].
Qed.

(** X9.  On the first style of a renderer the keyframe animations are built
    in the order of their declarations.  With no current style and no
    keyframe animation yet, [updateKeyframeAnimations] gives the composite
    one [KeyframeAnimation] for each declaration that is valid and can
    animate, under its name, in the order of the declarations, with the
    indices 0, 1, 2, ...; the rest of the world is as it was. *)
Theorem first_keyframe_animations_numbered (h : Host) (now : float)
    (targetStyle : StylePtr) (w : World) (target : RenderStyle)
    (l : list Animation) :
  m_keyframeAnimations (w_comp w) = [] ->
  style_deref (w_store w) targetStyle = Some target ->
  animations target = Some l -> l <> [] ->
  NoDup (List.map name (filter animatable l)) ->
  Z.of_nat (List.length l) <= INT_MAX ->
  updateKeyframeAnimations h now None targetStyle w
  = Some (with_keyframeAnimations w (numbered 0 (filter animatable l))).
Proof.
  intros Hk Ht Hl Hne Hnd Hmax.
  unfold updateKeyframeAnimations. rewrite Ht, Hk.
  unfold hasAnimations. rewrite Hl.
  destruct l as [|a0 l0] eqn:El; [contradiction|]. rewrite <- El in *.
  cbn [andb negb].
  assert (Hm : fold_left (matchKeyframeAnimation h now) l (w, false)
               = (w, true)).
  { assert (G : forall l' b, l' <> [] \/ b = true ->
                  fold_left (matchKeyframeAnimation h now) l' (w, b)
                  = (w, true)).
    { induction l' as [|x l' IH]; intros b Hb.
      - destruct Hb as [Hb|Hb]; [contradiction | subst; reflexivity].
      - cbn [fold_left]. unfold matchKeyframeAnimation at 2.
        rewrite Hk. cbn [map_get].
        destruct (negb (isValidAnimation x)); apply IH; right; reflexivity. }
    apply G. left. rewrite El. discriminate. }
  rewrite Hm. cbn [orb negb].
  pose proof (addKeyframeAnimation_loop l (resetAnimations h now w) 0) as Hloop.
  assert (Hr : resetAnimations h now w = with_keyframeAnimations w []).
  { unfold resetAnimations. rewrite Hk. reflexivity. }
  rewrite Hr in Hloop. cbn [with_keyframeAnimations w_comp m_keyframeAnimations
                            app] in Hloop.
  rewrite Hr, Hloop; [reflexivity | lia | lia | exact Hnd].
Qed.

End KeyframesMore.

(** ** Transitions and the animating flags *)

Section CompositeMore.
Context {P : Platform}.

(** *** A property that differs *)

Lemma map_set_new {K V : Type} (eqb : K -> K -> bool) (m : list (K * V))
    (k : K) (v : V) :
  map_get eqb m k = None -> map_set eqb m k v = m ++ [(k, v)].
Proof.
  induction m as [|[k' v'] m IH]; cbn; [reflexivity|].
  destruct (eqb k' k); [discriminate|]. intros H. rewrite IH by exact H.
  reflexivity.
Qed.

(** X10.  A declared transition starts for a property whose value differs.
    For a declaration on one property, with duration or delay, when the
    property has no transition yet and its values in the current and in
    the target style differ, [updateTransitions] constructs one
    [ImplicitAnimation] for it, new and not yet started, and puts it in the
    map under the property, after the entries that were there. *)
Theorem differing_property_starts_transition pm h now currentStyle
    targetStyle w target anim :
  style_deref (w_store w) targetStyle = Some target ->
  transitions target = Some [anim] ->
  emptyTransition anim = false ->
  property anim <> cAnimateAll ->
  map_get Z.eqb (m_transitions (w_comp w)) (property anim) = None ->
  propertiesEqual pm (property anim) (style_deref (w_store w) currentStyle)
    (style_deref (w_store w) targetStyle) = Some false ->
  updateTransitions pm h now (Some currentStyle) targetStyle w
  = Some (add_call
            (with_transitions w
               (m_transitions (w_comp w)
                ++ [(property anim,
                     ImplicitAnimation_new anim (property anim))]))
            (C_newImplicitAnimation (property anim))).
Proof.
  intros Ht Hl He Hp Hg Hd.
  unfold updateTransitions. rewrite Ht, Hl. cbn [fold_option].
  unfold updateTransitionsFor. fold (emptyTransition anim). rewrite He.
  unfold transitionProperties.
  destruct (Z.eqb_spec (property anim) cAnimateAll) as [|_]; [contradiction|].
  cbn [fold_option]. unfold updateTransitionFor. rewrite Hg, Hd.
  rewrite (map_set_new Z.eqb _ _ _ Hg). reflexivity.
Qed.

(** *** Queries *)

Lemma existsb_map {A B : Type} (f : B -> bool) (g : A -> B) (l : list A) :
  existsb f (List.map g l) = existsb (fun x => f (g x)) l.
Proof. induction l as [|x l IH]; cbn; [reflexivity|]. rewrite IH. reflexivity. Qed.

Lemma existsb_false {A : Type} (f : A -> bool) (l : list A) :
  (forall x, f x = false) -> existsb f l = false.
Proof.
  intros H. induction l as [|x l IH]; cbn; [reflexivity|].
  rewrite H, IH. reflexivity.
Qed.

Lemma existsb_impl {A : Type} (f g : A -> bool) (l : list A) :
  (forall x, f x = true -> g x = true) ->
  existsb f l = true -> existsb g l = true.
Proof.
  intros H. induction l as [|x l IH]; cbn; [auto|].
  intros E. apply orb_true_iff in E. apply orb_true_iff.
  destruct E as [E|E]; [left; apply H; exact E | right; apply IH; exact E].
Qed.

(** X11.  After [setAnimating(false)] the composite is not animating, and it
    answers [isAnimatingProperty] as before.  This is what
    [animationTimerFired] relies on when it clears the flags before the
    next pass sets them again. *)
Theorem setAnimating_false_stops_animating (c : CompositeAnimation) :
  CompositeAnimation_animating (CompositeAnimation_setAnimating c false) = false
  /\ forall inAnimating prop isRunningNow,
       CompositeAnimation_isAnimatingProperty
         (CompositeAnimation_setAnimating c inAnimating) prop isRunningNow
       = CompositeAnimation_isAnimatingProperty c prop isRunningNow.
Proof.
  split.
  - unfold CompositeAnimation_animating, CompositeAnimation_setAnimating.
    cbn [m_transitions m_keyframeAnimations]. rewrite !existsb_map.
    rewrite !existsb_false; [reflexivity| |]; intros [k a]; cbn;
      [rewrite andb_false_r|]; reflexivity.
  - intros inAnimating prop isRunningNow.
    unfold CompositeAnimation_isAnimatingProperty, CompositeAnimation_setAnimating.
    cbn [m_transitions m_keyframeAnimations]. rewrite !existsb_map.
    reflexivity.
Qed.

Lemma isAnimatingProperty_anim_weaker a prop :
  isAnimatingProperty_anim a prop true = true ->
  isAnimatingProperty_anim a prop false = true.
Proof.
  unfold isAnimatingProperty_anim.
  destruct (waitingToStart a), (postactive a), (affectsProperty a prop);
    cbn; auto.
Qed.

(** X12.  An animation that is running now is an animation.  Whenever
    [isAnimatingProperty] answers true with [isRunningNow] set, it answers
    true without it, for an animation, for a composite and for a renderer;
    and only an animation that is not done and affects the property makes
    the answer true. *)
Theorem isAnimatingProperty_running_is_stricter
    (ctl : AnimationControllerPrivate) (obj : RenderObject)
    (c : CompositeAnimation) (prop : Z) :
  (CompositeAnimation_isAnimatingProperty c prop true = true ->
   CompositeAnimation_isAnimatingProperty c prop false = true)
  /\ (isAnimatingPropertyOnRenderer ctl obj prop true = true ->
      isAnimatingPropertyOnRenderer ctl obj prop false = true)
  /\ (CompositeAnimation_isAnimatingProperty c prop false = true ->
      exists a, (In a (List.map snd (m_keyframeAnimations c))
                 \/ In a (List.map snd (m_transitions c)))
                /\ postactive a = false /\ affectsProperty a prop = true).
Proof.
  assert (Hc : forall c0,
            CompositeAnimation_isAnimatingProperty c0 prop true = true ->
            CompositeAnimation_isAnimatingProperty c0 prop false = true).
  { intros c0. unfold CompositeAnimation_isAnimatingProperty. intros H.
    apply orb_true_iff in H. apply orb_true_iff.
    destruct H as [H|H]; [left|right];
      (eapply existsb_impl; [|exact H]); intros [k a];
      apply isAnimatingProperty_anim_weaker. }
  split; [apply Hc|]. split.
  - unfold isAnimatingPropertyOnRenderer.
    destruct (map_get Nat.eqb (m_compositeAnimations ctl) (ro_id obj));
      [apply Hc | auto].
  - unfold CompositeAnimation_isAnimatingProperty. intros H.
    apply orb_true_iff in H.
    destruct H as [H|H]; apply existsb_exists in H;
      destruct H as ([k a] & Hin & Ha); exists a;
      (split; [(left + right); apply in_map_iff; exists (k, a); auto|]);
      unfold isAnimatingProperty_anim in Ha; cbn in Ha;
      apply andb_true_iff in Ha; destruct Ha as [Hp Haff];
      (split; [apply negb_true_iff; exact Hp | exact Haff]).
Qed.

End CompositeMore.

(** ** The composites of the controller *)

Section ControllerMore.
Context {P : Platform}.

Lemma Nat_eqb_eq (x y : nat) : Nat.eqb x y = true <-> x = y.
Proof. apply Nat.eqb_eq. Qed.

Lemma map_get_remove_same {K V : Type} (eqb : K -> K -> bool)
    (m : list (K * V)) (k : K) :
  map_get eqb (map_remove eqb m k) k = None.
Proof.
  induction m as [|[k' v'] m IH]; cbn; [reflexivity|].
  destruct (eqb k' k) eqn:E; [exact IH|]. cbn. rewrite E. exact IH.
Qed.

Lemma controllerEffects_composites es : forall ctl,
  m_compositeAnimations (fold_left controllerEffect es ctl)
  = m_compositeAnimations ctl.
Proof.
  induction es as [|e es IH]; intros ctl; cbn [fold_left]; [reflexivity|].
  rewrite IH. destruct e as [| | b | |]; reflexivity.
Qed.

(** X13.  [accessCompositeAnimation] gets or creates.  After the call the
    renderer has the composite that the call returned, a second call
    returns the same composite and changes nothing, a renderer that had
    none gets a new empty composite, and the composites of other renderers
    are as they were. *)
Theorem accessCompositeAnimation_gets_or_creates
    (ctl : AnimationControllerPrivate) (renderer : RenderObject) :
  let c := fst (accessCompositeAnimation ctl renderer) in
  let ctl' := snd (accessCompositeAnimation ctl renderer) in
  map_get Nat.eqb (m_compositeAnimations ctl') (ro_id renderer) = Some c
  /\ accessCompositeAnimation ctl' renderer = (c, ctl')
  /\ (map_get Nat.eqb (m_compositeAnimations ctl) (ro_id renderer) = None ->
      c = CompositeAnimation_new)
  /\ (forall other,
        ro_id other <> ro_id renderer ->
        map_get Nat.eqb (m_compositeAnimations ctl') (ro_id other)
        = map_get Nat.eqb (m_compositeAnimations ctl) (ro_id other)).
Proof.
  intros c ctl'. subst c ctl'. unfold accessCompositeAnimation.
  destruct (map_get Nat.eqb (m_compositeAnimations ctl) (ro_id renderer))
    as [animation|] eqn:E; cbn [fst snd m_compositeAnimations].
  - rewrite E. repeat split; auto. discriminate.
  - rewrite (map_get_set_same Nat.eqb Nat_eqb_eq). repeat split; auto.
    intros other Hne.
    apply (map_get_set_other Nat.eqb Nat_eqb_eq). auto.
Qed.

Lemma resetTransitions_suspended h now w :
  m_suspended (w_comp (resetTransitions h now w)) = m_suspended (w_comp w).
Proof.
  unfold resetTransitions. cbn.
  match goal with
  | |- context [childEffects h now ?es w] =>
      destruct (childEffects_frame h now es w) as (_ & _ & _ & H & _)
  end.
  exact H.
Qed.

(** X14.  [clear] forgets the renderer.  It answers true exactly when the
    renderer had a composite that was not suspended; afterwards the
    renderer has no composite, so [isAnimatingPropertyOnRenderer] answers
    false for it and a second [clear] answers false and changes nothing;
    the composites of other renderers are as they were. *)
Theorem clear_forgets_renderer (ctl : AnimationControllerPrivate)
    (store : StyleStore) (renderer : RenderObject) (now : float) :
  let r := AnimationControllerPrivate_clear ctl store renderer now in
  let ctl' := snd (fst r) in
  fst (fst r)
  = match map_get Nat.eqb (m_compositeAnimations ctl) (ro_id renderer) with
    | Some c => negb (m_suspended c)
    | None => false
    end
  /\ map_get Nat.eqb (m_compositeAnimations ctl') (ro_id renderer) = None
  /\ (forall prop isRunningNow,
        isAnimatingPropertyOnRenderer ctl' renderer prop isRunningNow = false)
  /\ (forall store2 now2,
        AnimationControllerPrivate_clear ctl' store2 renderer now2
        = (false, ctl', []))
  /\ (forall other,
        ro_id other <> ro_id renderer ->
        map_get Nat.eqb (m_compositeAnimations ctl') (ro_id other)
        = map_get Nat.eqb (m_compositeAnimations ctl) (ro_id other)).
Proof.
  intros r ctl'.
  assert (Hnone : map_get Nat.eqb (m_compositeAnimations ctl') (ro_id renderer)
                  = None).
  { subst ctl' r. unfold AnimationControllerPrivate_clear.
    destruct (map_get Nat.eqb (m_compositeAnimations ctl) (ro_id renderer))
      as [animation|] eqn:E; cbn [fst snd]; [|exact E].
    rewrite controllerEffects_composites. cbn [m_compositeAnimations].
    apply map_get_remove_same. }
  split; [|split; [exact Hnone|split; [|split]]].
  - subst r. unfold AnimationControllerPrivate_clear.
    destruct (map_get Nat.eqb (m_compositeAnimations ctl) (ro_id renderer))
      as [animation|]; cbn [fst snd]; [|reflexivity].
    rewrite resetTransitions_suspended. reflexivity.
  - intros prop isRunningNow. unfold isAnimatingPropertyOnRenderer.
    rewrite Hnone. reflexivity.
  - intros store2 now2. unfold AnimationControllerPrivate_clear at 1.
    rewrite Hnone. reflexivity.
  - intros other Hne. subst ctl' r. unfold AnimationControllerPrivate_clear.
    destruct (map_get Nat.eqb (m_compositeAnimations ctl) (ro_id renderer))
      as [animation|] eqn:E; cbn [fst snd]; [|reflexivity].
    rewrite controllerEffects_composites. cbn [m_compositeAnimations].
    apply (map_get_remove_other Nat.eqb Nat_eqb_eq). auto.
Qed.

End ControllerMore.

(** ** The styles of a pass *)

Section OldStyles.
Context {P : Platform}.

Lemma childEffects_store h now es w :
  w_store (childEffects h now es w) = w_store w.
Proof. destruct (childEffects_frame h now es w) as (H & _). exact H. Qed.

Lemma style_write_length (store : StyleStore) p s :
  List.length (style_write store p s) = List.length store.
Proof.
  unfold style_write. destruct (Nat.ltb_spec p (List.length store)); [|reflexivity].
  rewrite length_app, length_firstn. cbn [List.length].
  rewrite length_skipn. lia.
Qed.

(** [ImplicitAnimation::animate] writes into the style behind
    [animatedStyle], which it allocates when the pointer is null. *)
Lemma ImplicitAnimation_animate_store pm h a store cur tgt r now a' store' r'
    es (n0 : nat) :
  ImplicitAnimation_animate pm h a store cur tgt r now
  = Some (a', store', r', es) ->
  (n0 <= List.length store)%nat ->
  (forall p, r = Some p -> (n0 <= p)%nat) ->
  (n0 <= List.length store')%nat
  /\ (forall q, (q < n0)%nat -> style_deref store' q = style_deref store q)
  /\ (forall p, r' = Some p -> (n0 <= p)%nat).
Proof.
  unfold ImplicitAnimation_animate. intros H Hn Hr.
  destruct (paused a); [injection H as <- <- <- <-; auto|].
  destruct (postactive a); [injection H as <- <- <- <-; auto|].
  destruct (if isnew a then _ else _) as [a1 e1].
  assert (Hens : forall p store1,
            ensureAnimatedStyle store tgt r = Some (p, store1) ->
            (n0 <= p)%nat /\ (n0 <= List.length store1)%nat
            /\ forall q, (q < n0)%nat ->
                 style_deref store1 q = style_deref store q).
  { unfold ensureAnimatedStyle. intros p store1.
    destruct r as [p0|].
    - intros E. injection E as <- <-. auto.
    - destruct (style_deref store tgt) as [t|]; [|discriminate].
      unfold style_alloc. intros E. injection E as <- <-.
      split; [exact Hn|]. split; [rewrite length_app; lia|].
      intros q Hq. unfold style_deref. apply nth_error_app1. lia. }
  destruct (ensureAnimatedStyle store tgt r) as [[p store1]|]; [|discriminate].
  destruct (Hens p store1 eq_refl) as (Hp & Hl & Hk).
  destruct (m_kind a1) as [d|d]; [|discriminate].
  destruct (style_deref store1 p) as [dst|]; [|discriminate].
  destruct (blendProperties pm _ dst _ _ _) as [[needsAnim dst']|];
    [|discriminate].
  injection H as <- <- <- <-.
  split; [rewrite style_write_length; exact Hl|]. split.
  - intros q Hq. rewrite style_write_other by lia. apply Hk. exact Hq.
  - intros p' E. injection E as <-. exact Hp.
Qed.

Lemma animateTransition_store pm h now cur tgt (n0 : nat) (s0 : StyleStore) :
  forall keys w r w' r',
    fold_option (animateTransition pm h now cur tgt) keys (w, r) = Some (w', r') ->
    (n0 <= List.length (w_store w))%nat ->
    (forall q, (q < n0)%nat -> style_deref (w_store w) q = style_deref s0 q) ->
    (forall p, r = Some p -> (n0 <= p)%nat) ->
    (n0 <= List.length (w_store w'))%nat
    /\ (forall q, (q < n0)%nat -> style_deref (w_store w') q = style_deref s0 q)
    /\ (forall p, r' = Some p -> (n0 <= p)%nat).
Proof.
  induction keys as [|k keys IH]; intros w r w' r' H Hn Hk Hr; cbn in H.
  - injection H as <- <-. auto.
  - destruct (map_get Z.eqb (m_transitions (w_comp w)) k) as [anim|].
    + destruct (ImplicitAnimation_animate pm h anim (w_store w) cur tgt r now)
        as [[[[anim' store'] r1] es]|] eqn:Ea; [|discriminate].
      destruct (ImplicitAnimation_animate_store _ _ _ _ _ _ _ _ _ _ _ _ n0 Ea
                  Hn Hr) as (A & B & C).
      apply IH in H; [exact H | | |exact C];
        rewrite childEffects_store; cbn [with_store w_store]; [exact A|].
      intros q Hq. rewrite B by exact Hq. apply Hk. exact Hq.
    + apply IH in H; auto.
Qed.

Lemma updateTransitions_store pm h now cur tgt w w' :
  updateTransitions pm h now cur tgt w = Some w' -> w_store w' = w_store w.
Proof.
  unfold updateTransitions. destruct cur as [c|].
  - destruct (style_deref (w_store w) tgt) as [target|]; [|discriminate].
    destruct (transitions target) as [l|].
    + apply (fold_option_invariant _ (fun w1 => w_store w1 = w_store w));
        [|reflexivity].
      intros w1 anim w2 I1. unfold updateTransitionsFor.
      destruct (deq (duration anim) 0 && dle (delay anim) 0).
      * intros H. injection H as <-. exact I1.
      * apply (fold_option_invariant _ (fun w3 => w_store w3 = w_store w));
          [|exact I1].
        intros w3 q w4 I3 Hs.
        destruct (updateTransitionFor_other _ _ _ _ _ _ _ _ _ Hs) as (E & _).
        congruence.
    + intros H. injection H as <-. reflexivity.
  - intros H. injection H as <-. reflexivity.
Qed.

Lemma matchKeyframeAnimation_store h now l : forall st,
  w_store (fst (fold_left (matchKeyframeAnimation h now) l st))
  = w_store (fst st).
Proof.
  induction l as [|anim l IH]; intros [w b]; cbn [fold_left]; [reflexivity|].
  rewrite IH. unfold matchKeyframeAnimation.
  destruct (negb (isValidAnimation anim)); [reflexivity|].
  destruct (map_get String.eqb (m_keyframeAnimations (w_comp w)) (name anim))
    as [kfAnim|]; [|reflexivity].
  destruct (negb (animationsMatch (m_animation kfAnim) anim)); [reflexivity|].
  destruct (updatePlayState h kfAnim _ now) as [kfAnim' es]. cbn [fst].
  rewrite childEffects_store. reflexivity.
Qed.

Lemma addKeyframeAnimation_store l : forall st,
  w_store (fst (fold_left addKeyframeAnimation l st)) = w_store (fst st).
Proof.
  induction l as [|anim l IH]; intros [w i]; cbn [fold_left]; [reflexivity|].
  rewrite IH. unfold addKeyframeAnimation.
  destruct (negb (isValidAnimation anim)); [reflexivity|].
  match goal with |- context [if ?b then _ else _] => destruct b end;
    reflexivity.
Qed.

Lemma updateKeyframeAnimations_store h now cur tgt w w' :
  updateKeyframeAnimations h now cur tgt w = Some w' ->
  w_store w' = w_store w.
Proof.
  unfold updateKeyframeAnimations.
  destruct (style_deref (w_store w) tgt) as [target|]; [|discriminate].
  match goal with |- context [if ?b then _ else _] => destruct b end.
  { intros H. injection H as <-. reflexivity. }
  match goal with
  | |- match ?s with _ => _ end = _ -> _ => destruct s as [[|]|]
  end; [| |discriminate].
  { intros H. injection H as <-. reflexivity. }
  pose proof (matchKeyframeAnimation_store h now
                (match animations target with Some l => l | None => [] end)
                (w, false)) as Hm.
  destruct (fold_left (matchKeyframeAnimation h now) _ (w, false))
    as [w1 changed]. cbn [fst] in Hm.
  match goal with |- context [if ?b then _ else _] => destruct b end.
  { intros H. injection H as <-. exact Hm. }
  assert (Hr : w_store (resetAnimations h now w1) = w_store w).
  { unfold resetAnimations. cbn. rewrite childEffects_store. exact Hm. }
  destruct (animations target) as [l|].
  - intros H. injection H as <-.
    rewrite addKeyframeAnimation_store. exact Hr.
  - intros H. injection H as <-. exact Hr.
Qed.

Lemma fold_left_store {B : Type} (f : World -> B -> World) :
  (forall w b, w_store (f w b) = w_store w) ->
  forall l w, w_store (fold_left f l w) = w_store w.
Proof.
  intros Hf. induction l as [|b l IH]; intros w; cbn; [reflexivity|].
  rewrite IH. apply Hf.
Qed.

Lemma cleanupFinishedAnimations_store h now w :
  w_store (cleanupFinishedAnimations h now w) = w_store w.
Proof.
  unfold cleanupFinishedAnimations.
  destruct (m_suspended (w_comp w)); [reflexivity|].
  cbv zeta. rewrite !fold_left_store; [reflexivity| |].
  - intros w1 p.
    destruct (map_get Z.eqb (m_transitions (w_comp w1)) p) as [anim|];
      [|reflexivity].
    destruct (reset h anim None None now) as [anim' e1]. cbn.
    apply childEffects_store.
  - intros w1 n.
    destruct (map_get String.eqb (m_keyframeAnimations (w_comp w1)) n)
      as [kfanim|]; [|reflexivity].
    destruct (reset h kfanim None None now) as [kfanim' e1]. cbn.
    apply childEffects_store.
Qed.

(** X15.  Transitions blend into a new style.  When the target style has no
    keyframe animations, a pass of [CompositeAnimation::animate] leaves
    every style that existed before the pass as it was (the current style
    and the target style among them), and the pointer it returns is the
    target style or a style allocated during the pass. *)
Theorem transitions_blend_into_a_new_style pm h now currentStyle targetStyle
    w w' r target :
  CompositeAnimation_animate pm h now currentStyle targetStyle w
  = Some (w', r) ->
  style_deref (w_store w) targetStyle = Some target ->
  hasAnimations target = false ->
  oldStylesKept (w_store w) (w_store w')
  /\ (r = targetStyle \/ (List.length (w_store w) <= r)%nat).
Proof.
  unfold CompositeAnimation_animate, oldStylesKept. intros H Ht Hno.
  destruct (updateTransitions pm h now currentStyle targetStyle w) as [w1|]
    eqn:Eu; [|discriminate].
  apply updateTransitions_store in Eu.
  assert (Hloop : forall w2 r2,
            match currentStyle with
            | Some c =>
                fold_option (animateTransition pm h now c targetStyle)
                  (List.map fst (m_transitions (w_comp w1))) (w1, None)
            | None => Some (w1, None)
            end = Some (w2, r2) ->
            (List.length (w_store w) <= List.length (w_store w2))%nat
            /\ (forall q, (q < List.length (w_store w))%nat ->
                  style_deref (w_store w2) q = style_deref (w_store w) q)
            /\ (forall p, r2 = Some p -> (List.length (w_store w) <= p)%nat)).
  { intros w2 r2. destruct currentStyle as [c|].
    - intros Hl.
      apply (animateTransition_store pm h now c targetStyle
               (List.length (w_store w)) (w_store w)) in Hl.
      + exact Hl.
      + rewrite Eu. lia.
      + intros q _. rewrite Eu. reflexivity.
      + discriminate.
    - intros Hl. injection Hl as <- <-. rewrite Eu.
      repeat split; auto. discriminate. }
  destruct (match currentStyle with
            | Some c => _
            | None => Some (w1, None)
            end) as [[w2 r2]|]; [|discriminate].
  destruct (Hloop w2 r2 eq_refl) as (A & B & C).
  destruct (updateKeyframeAnimations h now currentStyle targetStyle w2)
    as [w3|] eqn:Ek; [|discriminate].
  apply updateKeyframeAnimations_store in Ek.
  assert (Htl : (targetStyle < List.length (w_store w))%nat)
    by (apply nth_error_Some; unfold style_deref in Ht; congruence).
  rewrite Ek, (B _ Htl), Ht, Hno in H.
  injection H as <- <-.
  rewrite cleanupFinishedAnimations_store, Ek. split; [exact B|].
  destruct r2 as [p|]; [right; apply C; reflexivity | left; reflexivity].
Qed.

End OldStyles.

(** ** The cleanup after a pass *)

Section MapFilter.
Context {K V : Type} (eqb : K -> K -> bool).
Hypothesis eqb_eq : forall x y, eqb x y = true <-> x = y.

Lemma map_remove_filter (m : list (K * V)) (k : K) :
  map_remove eqb m k = filter (fun e => negb (eqb (fst e) k)) m.
Proof.
  induction m as [|[k' v'] m IH]; cbn; [reflexivity|].
  destruct (eqb k' k); cbn; rewrite IH; reflexivity.
Qed.

Lemma map_remove_all_filter (L : list K) : forall (m : list (K * V)),
  fold_left (map_remove eqb) L m
  = filter (fun e => negb (existsb (eqb (fst e)) L)) m.
Proof.
  induction L as [|k L IH]; intros m; cbn [fold_left existsb].
  - cbn. induction m as [|e m IHm]; cbn; [reflexivity|]. f_equal. exact IHm.
  - rewrite IH, map_remove_filter.
    induction m as [|e m IHm]; cbn; [reflexivity|].
    destruct (eqb (fst e) k); cbn; [exact IHm|].
    destruct (existsb (eqb (fst e)) L); cbn; [exact IHm|].
    f_equal. exact IHm.
Qed.

Lemma NoDup_map_filter {A B : Type} (f : A -> B) (p : A -> bool) (l : list A) :
  NoDup (List.map f l) -> NoDup (List.map f (filter p l)).
Proof.
  induction l as [|x l IH]; cbn; intros H; [constructor|].
  inversion H as [|? ? Hn Hd]; subst.
  destruct (p x); cbn; [|apply IH; exact Hd].
  constructor; [|apply IH; exact Hd].
  intros Hin. apply Hn. apply in_map_iff in Hin.
  destruct Hin as (y & Ey & Hy). apply filter_In in Hy.
  apply in_map_iff. exists y. tauto.
Qed.

(** With one entry for a key, removing the keys of the entries that pass a
    test leaves the entries that fail it. *)
Lemma remove_selected (p : V -> bool) (m : list (K * V)) :
  NoDup (List.map fst m) ->
  fold_left (map_remove eqb) (List.map fst (filter (fun e => p (snd e)) m)) m
  = filter (fun e => negb (p (snd e))) m.
Proof.
  intros Hnd. rewrite map_remove_all_filter.
  apply filter_ext_in. intros [k v] Hin. cbn [fst snd]. f_equal.
  destruct (p v) eqn:Ep.
  - apply existsb_exists. exists k. split; [|apply eqb_eq; reflexivity].
    apply in_map_iff. exists (k, v). split; [reflexivity|].
    apply filter_In. auto.
  - destruct (existsb (eqb k) _) eqn:Ex; [|reflexivity].
    apply existsb_exists in Ex. destruct Ex as (k' & Hk' & Ek).
    apply eqb_eq in Ek. subst k'. apply in_map_iff in Hk'.
    destruct Hk' as ([k2 v2] & E2 & H2). cbn in E2. subst k2.
    apply filter_In in H2. destruct H2 as [H2 Hp2]. cbn in Hp2.
    assert (Some v2 = Some v) as Ev.
    { rewrite <- (map_get_In eqb eqb_eq m k v2 Hnd H2).
      apply (map_get_In eqb eqb_eq m k v Hnd Hin). }
    injection Ev as ->. congruence.
Qed.

End MapFilter.

Section Cleanup.
Context {P : Platform}.

Lemma reset_null h a now :
  snd (reset h a None None now) = []
  /\ postactive (fst (reset h a None None now)) = postactive a.
Proof. unfold reset. destruct (m_kind a); split; reflexivity. Qed.

Lemma destroyAnimation_done h a now :
  postactive a = true -> destroyAnimation h a now = [].
Proof. unfold destroyAnimation. intros ->. reflexivity. Qed.

(** The loop that deletes the finished transitions. *)
Lemma cleanup_transitions_loop h now (L : list Z) : forall w,
  NoDup L ->
  (forall k, In k L ->
     exists a, map_get Z.eqb (m_transitions (w_comp w)) k = Some a
               /\ postactive a = true) ->
  let w' := fold_left (deleteTransition h now) L w in
  m_transitions (w_comp w') = fold_left (map_remove Z.eqb) L (m_transitions (w_comp w))
  /\ m_keyframeAnimations (w_comp w') = m_keyframeAnimations (w_comp w)
  /\ m_suspended (w_comp w') = m_suspended (w_comp w)
  /\ m_numStyleAvailableWaiters (w_comp w')
     = m_numStyleAvailableWaiters (w_comp w)
  /\ w_store w' = w_store w /\ w_effects w' = w_effects w
  /\ w_calls w' = w_calls w ++ List.map C_deleteImplicitAnimation L.
Proof.
  induction L as [|k L IH]; intros w Hnd Hfin w'; subst w'.
  - cbn. rewrite app_nil_r. repeat split; reflexivity.
  - cbn [fold_left]. inversion Hnd as [|? ? Hn Hd]; subst.
    destruct (Hfin k (or_introl eq_refl)) as (a & Ha & Hp).
    assert (E : deleteTransition h now w k
                = with_transitions (add_call w (C_deleteImplicitAnimation k))
                    (map_remove Z.eqb (m_transitions (w_comp w)) k)).
    { unfold deleteTransition. rewrite Ha.
      destruct (reset_null h a now) as [R1 R2].
      destruct (reset h a None None now) as [a' e1]. cbn [fst snd] in R1, R2.
      subst e1. rewrite destroyAnimation_done by congruence. reflexivity. }
    rewrite E.
    destruct (IH (with_transitions (add_call w (C_deleteImplicitAnimation k))
                    (map_remove Z.eqb (m_transitions (w_comp w)) k)) Hd)
      as (A & B & C & D & F & G & I).
    + intros k' Hk'. cbn [with_transitions w_comp m_transitions].
      destruct (Hfin k' (or_intror Hk')) as (a' & Ha' & Hp').
      exists a'. split; [|exact Hp'].
      rewrite (map_get_remove_other Z.eqb Z.eqb_eq); [exact Ha'|].
      intros ->. contradiction.
    + rewrite A, B, C, D, F, G, I. cbn. rewrite <- app_assoc.
      repeat split; reflexivity.
Qed.

(** The loop that deletes the finished keyframe animations. *)
Lemma cleanup_keyframes_loop h now (L : list string) : forall w,
  NoDup L ->
  (forall k, In k L ->
     exists a, map_get String.eqb (m_keyframeAnimations (w_comp w)) k = Some a
               /\ postactive a = true) ->
  let w' := fold_left (deleteKeyframeAnimation h now) L w in
  m_keyframeAnimations (w_comp w')
  = fold_left (map_remove String.eqb) L (m_keyframeAnimations (w_comp w))
  /\ m_transitions (w_comp w') = m_transitions (w_comp w)
  /\ m_suspended (w_comp w') = m_suspended (w_comp w)
  /\ m_numStyleAvailableWaiters (w_comp w')
     = m_numStyleAvailableWaiters (w_comp w)
  /\ w_store w' = w_store w /\ w_effects w' = w_effects w
  /\ w_calls w' = w_calls w.
Proof.
  induction L as [|k L IH]; intros w Hnd Hfin w'; subst w'.
  - cbn. repeat split; reflexivity.
  - cbn [fold_left]. inversion Hnd as [|? ? Hn Hd]; subst.
    destruct (Hfin k (or_introl eq_refl)) as (a & Ha & Hp).
    assert (E : deleteKeyframeAnimation h now w k
                = with_keyframeAnimations w
                    (map_remove String.eqb (m_keyframeAnimations (w_comp w)) k)).
    { unfold deleteKeyframeAnimation. rewrite Ha.
      destruct (reset_null h a now) as [R1 R2].
      destruct (reset h a None None now) as [a' e1]. cbn [fst snd] in R1, R2.
      subst e1. rewrite destroyAnimation_done by congruence. reflexivity. }
    rewrite E.
    destruct (IH (with_keyframeAnimations w
                    (map_remove String.eqb (m_keyframeAnimations (w_comp w)) k))
                Hd)
      as (A & B & C & D & F & G & I).
    + intros k' Hk'. cbn [with_keyframeAnimations w_comp m_keyframeAnimations].
      destruct (Hfin k' (or_intror Hk')) as (a' & Ha' & Hp').
      exists a'. split; [|exact Hp'].
      rewrite (map_get_remove_other String.eqb String.eqb_eq); [exact Ha'|].
      intros ->. contradiction.
    + rewrite A, B, C, D, F, G, I. cbn. repeat split; reflexivity.
Qed.

Lemma cleanupFinishedAnimations_loops h now w :
  m_suspended (w_comp w) = false ->
  cleanupFinishedAnimations h now w
  = let w1 :=
      fold_left (deleteTransition h now)
        (List.map (fun e => animatingProperty (snd e))
           (filter (fun e => finished (snd e)) (m_transitions (w_comp w)))) w in
    fold_left (deleteKeyframeAnimation h now)
      (List.map (fun e => kf_name (snd e))
         (filter (fun e => finished (snd e))
            (m_keyframeAnimations (w_comp w1)))) w1.
Proof.
  intros Hs. unfold cleanupFinishedAnimations. rewrite Hs. reflexivity.
Qed.

Lemma finished_keys {K : Type} (key : AnimationBase -> K)
    (m : list (K * AnimationBase)) :
  Forall (fun e => fst e = key (snd e)) m ->
  List.map (fun e => key (snd e)) (filter (fun e => finished (snd e)) m)
  = List.map fst (filter (fun e => finished (snd e)) m).
Proof.
  intros H. apply map_ext_in. intros e He. apply filter_In in He.
  rewrite Forall_forall in H. symmetry. apply H. tauto.
Qed.

(** X16.  [cleanupFinishedAnimations] deletes the finished animations and
    nothing else.  In a suspended composite it does nothing.  Otherwise,
    with one entry for a key in each map, each under the property or the
    name of its animation, it removes the transitions and the keyframe
    animations that are done and wait for no end event, and leaves the
    others as they were and in their order; nothing is asked of the host
    and no style is touched. *)
Theorem cleanup_removes_the_finished h now w :
  (m_suspended (w_comp w) = true -> cleanupFinishedAnimations h now w = w)
  /\ (m_suspended (w_comp w) = false ->
      NoDup (List.map fst (m_transitions (w_comp w))) ->
      keyedByProperty (m_transitions (w_comp w)) ->
      NoDup (List.map fst (m_keyframeAnimations (w_comp w))) ->
      keyedByName (m_keyframeAnimations (w_comp w)) ->
      let w' := cleanupFinishedAnimations h now w in
      m_transitions (w_comp w')
      = filter (fun e => negb (finished (snd e))) (m_transitions (w_comp w))
      /\ m_keyframeAnimations (w_comp w')
         = filter (fun e => negb (finished (snd e)))
             (m_keyframeAnimations (w_comp w))
      /\ w_calls w'
         = w_calls w
           ++ List.map C_deleteImplicitAnimation
                (List.map fst
                   (filter (fun e => finished (snd e))
                      (m_transitions (w_comp w))))
      /\ w_store w' = w_store w /\ w_effects w' = w_effects w
      /\ m_suspended (w_comp w') = false
      /\ m_numStyleAvailableWaiters (w_comp w')
         = m_numStyleAvailableWaiters (w_comp w)).
Proof.
  split.
  - intros Hs. unfold cleanupFinishedAnimations. rewrite Hs. reflexivity.
  - intros Hs Hnt Hkt Hnk Hkk w'. subst w'.
    rewrite (cleanupFinishedAnimations_loops h now w Hs). cbv zeta.
    rewrite (finished_keys animatingProperty _ Hkt).
    set (LT := List.map fst (filter (fun e => finished (snd e))
                               (m_transitions (w_comp w)))).
    destruct (cleanup_transitions_loop h now LT w)
      as (A & B & C & D & F & G & I).
    { subst LT. apply NoDup_map_filter. exact Hnt. }
    { intros k Hk. subst LT. apply in_map_iff in Hk.
      destruct Hk as ([k' a] & E & Hin). cbn in E. subst k'.
      apply filter_In in Hin. destruct Hin as [Hin Hf]. exists a.
      split; [apply (map_get_In Z.eqb Z.eqb_eq); assumption|].
      unfold finished in Hf. apply andb_true_iff in Hf. tauto. }
    set (w1 := fold_left (deleteTransition h now) LT w) in *.
    rewrite B. rewrite (finished_keys kf_name _ Hkk).
    set (LK := List.map fst (filter (fun e => finished (snd e))
                               (m_keyframeAnimations (w_comp w)))).
    destruct (cleanup_keyframes_loop h now LK w1)
      as (A' & B' & C' & D' & F' & G' & I').
    { subst LK. apply NoDup_map_filter. exact Hnk. }
    { intros k Hk. subst LK. apply in_map_iff in Hk.
      destruct Hk as ([k' a] & E & Hin). cbn in E. subst k'.
      apply filter_In in Hin. destruct Hin as [Hin Hf]. exists a. rewrite B.
      split; [apply (map_get_In String.eqb String.eqb_eq); assumption|].
      unfold finished in Hf. apply andb_true_iff in Hf. tauto. }
    rewrite A', B', C', D', F', G', I', A, B, C, D, F, G, I.
    subst LT LK.
    rewrite (remove_selected Z.eqb Z.eqb_eq finished _ Hnt).
    rewrite (remove_selected String.eqb String.eqb_eq finished _ Hnk).
    repeat split; auto.
Qed.

End Cleanup.

(** ** Start times and suspension *)

Section InPlace.
Context {P : Platform}.
Context {K : Type} (eqb : K -> K -> bool).
Hypothesis eqb_eq : forall x y, eqb x y = true <-> x = y.

Lemma map_set_same_value (m : list (K * AnimationBase)) (k : K) a :
  map_get eqb m k = Some a -> map_set eqb m k a = m.
Proof.
  induction m as [|[k' v'] m IH]; cbn; [discriminate|].
  destruct (eqb k' k).
  - intros E. injection E as ->. reflexivity.
  - intros E. rewrite IH by exact E. reflexivity.
Qed.

(** Updating the entries of a map under each of its keys, in the order of
    the map, updates every entry once. *)
Lemma updateEntry_all upd (todo : list (K * AnimationBase)) :
  forall done,
    NoDup (List.map fst (done ++ todo)) ->
    fold_left (updateEntry eqb upd) (List.map fst todo) (done ++ todo)
    = done ++ List.map (fun e => (fst e, upd (snd e))) todo.
Proof.
  induction todo as [|[k a] todo IH]; intros done Hnd; cbn [map fold_left].
  - reflexivity.
  - assert (Hk : ~ In k (List.map fst done)).
    { rewrite map_app in Hnd. cbn [map fst] in Hnd.
      apply NoDup_remove_2 in Hnd. intros Hin. apply Hnd.
      apply in_or_app. left. exact Hin. }
    assert (Hget : map_get eqb (done ++ (k, a) :: todo) k = Some a).
    { clear - Hk eqb_eq. induction done as [|[k' v'] done IHd]; cbn.
      - rewrite (proj2 (eqb_eq k k) eq_refl). reflexivity.
      - destruct (eqb k' k) eqn:E.
        + apply eqb_eq in E. subst. cbn in Hk. tauto.
        + apply IHd. cbn in Hk. tauto. }
    assert (Hset : map_set eqb (done ++ (k, a) :: todo) k (upd a)
                   = (done ++ [(k, upd a)]) ++ todo).
    { clear - Hk eqb_eq. induction done as [|[k' v'] done IHd]; cbn.
      - rewrite (proj2 (eqb_eq k k) eq_refl). reflexivity.
      - destruct (eqb k' k) eqn:E.
        + apply eqb_eq in E. subst. cbn in Hk. tauto.
        + rewrite IHd by (cbn in Hk; tauto). reflexivity. }
    cbn [fst]. unfold updateEntry at 2. rewrite Hget, Hset.
    rewrite IH.
    + rewrite <- app_assoc. reflexivity.
    + rewrite <- app_assoc. cbn [app].
      rewrite !map_app in *. cbn [map fst] in *. exact Hnd.
Qed.

Lemma updateEntry_map upd (m : list (K * AnimationBase)) :
  NoDup (List.map fst m) ->
  fold_left (updateEntry eqb upd) (List.map fst m) m
  = List.map (fun e => (fst e, upd (snd e))) m.
Proof. intros H. apply (updateEntry_all upd m []). exact H. Qed.

Lemma fold_left_proj {W M B : Type} (proj : W -> M) (step : W -> B -> W)
    (pstep : M -> B -> M) :
  (forall w b, proj (step w b) = pstep (proj w) b) ->
  forall l w, proj (fold_left step l w) = fold_left pstep l (proj w).
Proof.
  intros H. induction l as [|b l IH]; intros w; cbn; [reflexivity|].
  rewrite IH, H. reflexivity.
Qed.

End InPlace.

Section StartTimes.
Context {P : Platform}.

Lemma map_get_Some_In {K : Type} (eqb : K -> K -> bool)
    (eqb_eq : forall x y, eqb x y = true <-> x = y)
    (m : list (K * AnimationBase)) k a :
  map_get eqb m k = Some a -> In (k, a) m.
Proof.
  induction m as [|[k' v'] m IH]; cbn; [discriminate|].
  destruct (eqb k' k) eqn:E.
  - intros H. injection H as ->. apply eqb_eq in E. subst. left. reflexivity.
  - intros H. right. apply IH. exact H.
Qed.

Lemma waitingForStartTime_state (a : AnimationBase) :
  waitingForStartTime a = true -> m_animState a = STATE_START_WAIT_RESPONSE.
Proof. unfold waitingForStartTime. destruct (m_animState a); cbn; congruence. Qed.

Lemma startTimeSet_input h (a : AnimationBase) t now :
  waitingForStartTime a = true ->
  updateStateMachine h a STATE_INPUT_START_TIME_SET t now = startTimeSet a t now.
Proof.
  intros H. apply waitingForStartTime_state in H.
  unfold updateStateMachine. rewrite H. reflexivity.
Qed.

Lemma giveStartTime_not_waiting (a : AnimationBase) t now :
  waitingForStartTime (giveStartTime a t now) = false.
Proof.
  unfold giveStartTime. destruct (waitingForStartTime a) eqn:E; [|exact E].
  unfold waitingForStartTime.
  destruct (startTimeSet_shape a t now) as ([H|H] & _); rewrite H; reflexivity.
Qed.

(** What a turn of a loop over the animations leaves alone. *)
Lemma setStartTimeKeyframe_rest h now t w key :
  let w' := setStartTimeKeyframe h now t w key in
  m_transitions (w_comp w') = m_transitions (w_comp w)
  /\ w_store w' = w_store w /\ w_calls w' = w_calls w
  /\ m_suspended (w_comp w') = m_suspended (w_comp w).
Proof.
  unfold setStartTimeKeyframe.
  destruct (map_get _ _ key) as [anim|]; [|cbn; auto].
  destruct (waitingForStartTime anim) eqn:Ew; [|cbn; auto].
  rewrite (startTimeSet_input h anim t now Ew).
  unfold startTimeSet.
  match goal with
  | |- context [childEffects h now ?es ?w0] =>
      destruct (childEffects_frame h now es w0) as (H1 & H2 & _ & H4 & _);
      pose proof (childEffects_hostOnly h now es w0 eq_refl) as H5
  end.
  cbv zeta. rewrite H1, H2, H4, H5. cbn. auto.
Qed.

Lemma setStartTimeKeyframe_map h now t w key :
  m_keyframeAnimations (w_comp (setStartTimeKeyframe h now t w key))
  = updateEntry String.eqb (fun a => giveStartTime a t now)
      (m_keyframeAnimations (w_comp w)) key.
Proof.
  unfold setStartTimeKeyframe, updateEntry, giveStartTime.
  destruct (map_get _ _ key) as [anim|] eqn:E; [|reflexivity].
  destruct (waitingForStartTime anim) eqn:Ew.
  - rewrite (startTimeSet_input h anim t now Ew).
    destruct (startTimeSet anim t now) as [a' es]. cbn [fst].
    rewrite childEffects_keyframeAnimations. reflexivity.
  - rewrite map_set_same_value by exact E. reflexivity.
Qed.

Lemma setStartTimeKeyframe_idle h now t w :
  Forall (fun e => waitingForStartTime (snd e) = false)
    (m_keyframeAnimations (w_comp w)) ->
  forall keys, fold_left (setStartTimeKeyframe h now t) keys w = w.
Proof.
  intros Hall. induction keys as [|key keys IH]; [reflexivity|].
  cbn [fold_left].
  assert (E : setStartTimeKeyframe h now t w key = w).
  { unfold setStartTimeKeyframe.
    destruct (map_get _ _ key) as [anim|] eqn:Eg; [|reflexivity].
    apply (map_get_Some_In String.eqb String.eqb_eq) in Eg.
    rewrite Forall_forall in Hall. pose proof (Hall _ Eg) as Hn.
    cbn [snd] in Hn. rewrite Hn. reflexivity. }
  rewrite E. exact IH.
Qed.

Lemma fold_left_rest {B : Type} (step : World -> B -> World) :
  (forall w b,
     m_transitions (w_comp (step w b)) = m_transitions (w_comp w)
     /\ w_store (step w b) = w_store w /\ w_calls (step w b) = w_calls w
     /\ m_suspended (w_comp (step w b)) = m_suspended (w_comp w)) ->
  forall l w,
    m_transitions (w_comp (fold_left step l w)) = m_transitions (w_comp w)
    /\ w_store (fold_left step l w) = w_store w
    /\ w_calls (fold_left step l w) = w_calls w
    /\ m_suspended (w_comp (fold_left step l w)) = m_suspended (w_comp w).
Proof.
  intros H. induction l as [|b l IH]; intros w; cbn [fold_left]; [auto|].
  destruct (IH (step w b)) as (H1 & H2 & H3 & H4).
  destruct (H w b) as (G1 & G2 & G3 & G4).
  rewrite H1, H2, H3, H4. auto.
Qed.

(** X17.  [CompositeAnimation::setAnimationStartTime].  In a map without a
    repeated name, every keyframe animation that waits for its start time
    is given it (it then loops or ends, started at [t] if it had no start
    time) and every other one is left as it was, in place; the transitions,
    the styles and the calls are untouched; afterwards no keyframe animation
    waits for a start time, so that a second call changes nothing at all. *)
Theorem setAnimationStartTime_serves_the_waiting (h : Host) (now t : float)
    (w : World) :
  NoDup (map fst (m_keyframeAnimations (w_comp w))) ->
  let w' := CompositeAnimation_setAnimationStartTime h now t w in
  m_keyframeAnimations (w_comp w')
  = map (fun e => (fst e, giveStartTime (snd e) t now))
      (m_keyframeAnimations (w_comp w))
  /\ (forall e, In e (m_keyframeAnimations (w_comp w)) ->
      waitingForStartTime (snd e) = true ->
      let a' := giveStartTime (snd e) t now in
      (m_animState a' = STATE_LOOPING \/ m_animState a' = STATE_ENDING)
      /\ m_startTime a'
         = if dle (m_startTime (snd e)) 0 then t else m_startTime (snd e))
  /\ m_transitions (w_comp w') = m_transitions (w_comp w)
  /\ w_store w' = w_store w /\ w_calls w' = w_calls w
  /\ Forall (fun e => waitingForStartTime (snd e) = false)
       (m_keyframeAnimations (w_comp w'))
  /\ forall now2 t2,
       CompositeAnimation_setAnimationStartTime h now2 t2 w' = w'.
Proof.
  intros Hnd w'.
  assert (Hm : m_keyframeAnimations (w_comp w')
               = map (fun e => (fst e, giveStartTime (snd e) t now))
                   (m_keyframeAnimations (w_comp w))).
  { unfold w', CompositeAnimation_setAnimationStartTime.
    rewrite (fold_left_proj (fun w => m_keyframeAnimations (w_comp w))
               (setStartTimeKeyframe h now t)
               (updateEntry String.eqb (fun a => giveStartTime a t now))
               (setStartTimeKeyframe_map h now t)).
    apply (updateEntry_map String.eqb String.eqb_eq
             (fun a => giveStartTime a t now)). exact Hnd. }
  assert (Hw : Forall (fun e => waitingForStartTime (snd e) = false)
                 (m_keyframeAnimations (w_comp w'))).
  { rewrite Hm. apply Forall_forall. intros e He.
    apply in_map_iff in He. destruct He as (e0 & <- & _). cbn [snd].
    apply giveStartTime_not_waiting. }
  destruct (fold_left_rest (setStartTimeKeyframe h now t)
              (setStartTimeKeyframe_rest h now t)
              (map fst (m_keyframeAnimations (w_comp w))) w)
    as (H1 & H2 & H3 & _).
  split; [exact Hm|]. split; [|split; [exact H1|split; [exact H2|split;
    [exact H3|split; [exact Hw|]]]]].
  - intros e _ He a'. unfold a', giveStartTime. rewrite He.
    destruct (startTimeSet_shape (snd e) t now) as (Hs & _ & Ht). auto.
  - intros now2 t2. unfold CompositeAnimation_setAnimationStartTime.
    apply setStartTimeKeyframe_idle. exact Hw.
Qed.

End StartTimes.

Section Suspension.
Context {P : Platform}.

Lemma updatePlayStateKeyframe_map h now run test w key :
  m_keyframeAnimations (w_comp (updatePlayStateKeyframe h now run test w key))
  = updateEntry String.eqb
      (fun a => if test a then fst (updatePlayState h a run now) else a)
      (m_keyframeAnimations (w_comp w)) key.
Proof.
  unfold updatePlayStateKeyframe, updateEntry.
  destruct (map_get _ _ key) as [anim|] eqn:E; [|reflexivity].
  destruct (test anim).
  - destruct (updatePlayState h anim run now) as [a' es]. cbn [fst].
    rewrite childEffects_keyframeAnimations. reflexivity.
  - rewrite map_set_same_value by exact E. reflexivity.
Qed.

Lemma updatePlayStateKeyframe_rest h now run test w key :
  let w' := updatePlayStateKeyframe h now run test w key in
  m_transitions (w_comp w') = m_transitions (w_comp w)
  /\ w_store w' = w_store w /\ w_calls w' = w_calls w
  /\ m_suspended (w_comp w') = m_suspended (w_comp w).
Proof.
  unfold updatePlayStateKeyframe.
  destruct (map_get _ _ key) as [anim|]; [|cbn; auto].
  destruct (test anim); [|cbn; auto].
  pose proof (updatePlayState_hostOnly h anim run now) as Hh.
  destruct (updatePlayState h anim run now) as [a' es]. cbn [snd] in Hh.
  match goal with
  | |- context [childEffects h now es ?w0] =>
      destruct (childEffects_frame h now es w0) as (H1 & H2 & _ & H4 & _);
      pose proof (childEffects_hostOnly h now es w0 Hh) as H5
  end.
  cbv zeta. rewrite H1, H2, H4, H5. cbn. auto.
Qed.

Lemma updatePlayStateTransition_map h now run test w key :
  m_transitions (w_comp (updatePlayStateTransition h now run test w key))
  = updateEntry Z.eqb
      (fun a => if test a then fst (updatePlayState h a run now) else a)
      (m_transitions (w_comp w)) key.
Proof.
  unfold updatePlayStateTransition, updateEntry.
  destruct (map_get _ _ key) as [anim|] eqn:E; [|reflexivity].
  destruct (test anim).
  - pose proof (updatePlayState_hostOnly h anim run now) as Hh.
    destruct (updatePlayState h anim run now) as [a' es].
    cbn [fst snd] in *.
    rewrite (childEffects_hostOnly h now es _ Hh). reflexivity.
  - rewrite map_set_same_value by exact E. reflexivity.
Qed.

Lemma updatePlayStateTransition_rest h now run test w key :
  let w' := updatePlayStateTransition h now run test w key in
  m_keyframeAnimations (w_comp w') = m_keyframeAnimations (w_comp w)
  /\ w_store w' = w_store w /\ w_calls w' = w_calls w
  /\ m_suspended (w_comp w') = m_suspended (w_comp w).
Proof.
  unfold updatePlayStateTransition.
  destruct (map_get _ _ key) as [anim|]; [|cbn; auto].
  destruct (test anim); [|cbn; auto].
  destruct (updatePlayState h anim run now) as [a' es].
  match goal with
  | |- context [childEffects h now es ?w0] =>
      destruct (childEffects_frame h now es w0) as (H1 & H2 & H3 & H4 & _)
  end.
  cbv zeta. rewrite H1, H2, H3, H4. cbn. auto.
Qed.

Lemma fold_left_rest_transitions {B : Type} (step : World -> B -> World) :
  (forall w b,
     m_keyframeAnimations (w_comp (step w b)) = m_keyframeAnimations (w_comp w)
     /\ w_store (step w b) = w_store w /\ w_calls (step w b) = w_calls w
     /\ m_suspended (w_comp (step w b)) = m_suspended (w_comp w)) ->
  forall l w,
    m_keyframeAnimations (w_comp (fold_left step l w))
    = m_keyframeAnimations (w_comp w)
    /\ w_store (fold_left step l w) = w_store w
    /\ w_calls (fold_left step l w) = w_calls w
    /\ m_suspended (w_comp (fold_left step l w)) = m_suspended (w_comp w).
Proof.
  intros H. induction l as [|b l IH]; intros w; cbn [fold_left]; [auto|].
  destruct (IH (step w b)) as (H1 & H2 & H3 & H4).
  destruct (H w b) as (G1 & G2 & G3 & G4).
  rewrite H1, H2, H3, H4. auto.
Qed.

(** Pausing an animation whose pause time agrees with its state, at a time
    that is not negative. *)
Lemma updatePlayState_halts h (a : AnimationBase) now :
  pauseFlagExact a = true -> dle 0 now = true ->
  let a' := fst (updatePlayState h a false now) in
  suspendedState a' = true
  /\ (waitingForStartTime a' = true ->
      waitingForStyleAvailable a = true /\ m_pauseTime a' = 0%float)
  /\ (paused a = false ->
      m_animState a' = STATE_PAUSED_WAIT_TIMER
      \/ m_animState a' = STATE_PAUSED_RUN ->
      tc_timer (m_animationTimerCallback a') = None
      /\ m_pauseTime a' = now /\ m_startTime a' = m_startTime a).
Proof.
  intros Hx Hnow. unfold pauseFlagExact in Hx. apply eqb_prop in Hx.
  unfold updatePlayState, suspendedState.
  destruct (paused a) eqn:Ep.
  - cbn [Bool.eqb orb].
    assert (Ea : (if isnew a
                  then updateStateMachine h a STATE_INPUT_PLAY_STATE_PAUSED
                         (-1) now
                  else (a, [])) = (a, [])).
    { destruct (isnew a) eqn:En; [|reflexivity].
      unfold updateStateMachine. unfold isnew in En.
      destruct (m_animState a) eqn:Es; try discriminate En. reflexivity. }
    rewrite Ea. cbn [fst]. rewrite Ep, <- Hx. cbn [andb orb].
    split; [apply orb_true_r|]. split.
    + intros Hw. exfalso. revert Hx Hw.
      unfold logicallyPaused, waitingForStartTime.
      destruct (m_animState a); cbn; intros; discriminate.
    + discriminate.
  - cbn [Bool.eqb orb]. unfold dle in Hnow.
    unfold updateStateMachine, logicallyPaused, pauseWhileRunning,
      waitingForStartTime, waitingForStyleAvailable in *.
    destruct (m_animState a) eqn:Es; cbn in Hx; try discriminate Hx;
      cbn; unfold postactive, isnew, paused, dge, logicallyPaused; cbn;
      rewrite ?Es; cbn; rewrite ?Hnow; rewrite ?orb_true_r;
      repeat split; try reflexivity; try discriminate;
      try (match goal with
           | H : _ \/ _ |- _ => destruct H as [H|H]; discriminate H
           end).
Qed.

Lemma updatePlayState_hasStyle h (a : AnimationBase) run now :
  hasStyle (fst (updatePlayState h a run now)) = hasStyle a.
Proof.
  unfold updatePlayState, hasStyle.
  destruct (Bool.eqb (paused a) run || isnew a); [|reflexivity].
  rewrite (proj2 (updateStateMachine_static h a _ _ now)). reflexivity.
Qed.

(** X18.  [CompositeAnimation::suspendAnimations].  On a renderer that is not
    suspended, whose maps have no repeated key and whose animations have a
    pause time exactly when they are in a paused state, at a time that is
    not negative: the renderer is marked suspended; every keyframe
    animation, and every transition that has its two styles, has been told
    to pause, in place; afterwards each of these is new, or done, or has a
    pause time and is in one of the three paused states, except that one
    that waited for the style is left waiting for its start time, with
    pause time 0; one that is paused by this call while it waited for a
    timer, looped or ended has its timer cancelled, the time of the call as
    its pause time and its start time as before; the styles and the calls
    are untouched; and a second call changes nothing. *)
Theorem suspendAnimations_pauses_what_runs (h : Host) (now : float)
    (w : World) :
  m_suspended (w_comp w) = false ->
  NoDup (map fst (m_keyframeAnimations (w_comp w))) ->
  NoDup (map fst (m_transitions (w_comp w))) ->
  Forall (fun e => pauseFlagExact (snd e) = true)
    (m_keyframeAnimations (w_comp w)) ->
  Forall (fun e => pauseFlagExact (snd e) = true) (m_transitions (w_comp w)) ->
  dle 0 now = true ->
  let w' := CompositeAnimation_suspendAnimations h now w in
  let told (a : AnimationBase) := fst (updatePlayState h a false now) in
  let settled (a : AnimationBase) :=
    suspendedState (told a) = true
    /\ (waitingForStartTime (told a) = true ->
        waitingForStyleAvailable a = true /\ m_pauseTime (told a) = 0%float)
    /\ (paused a = false ->
        m_animState (told a) = STATE_PAUSED_WAIT_TIMER
        \/ m_animState (told a) = STATE_PAUSED_RUN ->
        tc_timer (m_animationTimerCallback (told a)) = None
        /\ m_pauseTime (told a) = now
        /\ m_startTime (told a) = m_startTime a) in
  m_suspended (w_comp w') = true
  /\ m_keyframeAnimations (w_comp w')
     = map (fun e => (fst e, told (snd e))) (m_keyframeAnimations (w_comp w))
  /\ m_transitions (w_comp w')
     = map (fun e => (fst e, if hasStyle (snd e) then told (snd e) else snd e))
         (m_transitions (w_comp w))
  /\ Forall (fun e => settled (snd e)) (m_keyframeAnimations (w_comp w))
  /\ Forall (fun e => hasStyle (snd e) = true -> settled (snd e))
       (m_transitions (w_comp w))
  /\ w_store w' = w_store w /\ w_calls w' = w_calls w
  /\ forall now2, CompositeAnimation_suspendAnimations h now2 w' = w'.
Proof.
  intros Hs Hndk Hndt Hik Hit Hnow w' told settled.
  set (w1 := with_suspended w true).
  set (w2 := fold_left (updatePlayStateKeyframe h now false (fun _ => true))
               (map fst (m_keyframeAnimations (w_comp w1))) w1).
  assert (Ew : w' = fold_left (updatePlayStateTransition h now false hasStyle)
                      (map fst (m_transitions (w_comp w2))) w2).
  { unfold w', CompositeAnimation_suspendAnimations. rewrite Hs. reflexivity. }
  destruct (fold_left_rest _
              (updatePlayStateKeyframe_rest h now false (fun _ => true))
              (map fst (m_keyframeAnimations (w_comp w1))) w1)
    as (K1 & K2 & K3 & K4).
  fold w2 in K1, K2, K3, K4.
  assert (Kk : m_keyframeAnimations (w_comp w2)
               = map (fun e => (fst e, told (snd e)))
                   (m_keyframeAnimations (w_comp w))).
  { unfold w2.
    rewrite (fold_left_proj (fun w => m_keyframeAnimations (w_comp w))
               (updatePlayStateKeyframe h now false (fun _ => true))
               (updateEntry String.eqb
                  (fun a => fst (updatePlayState h a false now)))
               (updatePlayStateKeyframe_map h now false (fun _ => true))).
    apply (updateEntry_map String.eqb String.eqb_eq
             (fun a => fst (updatePlayState h a false now))). exact Hndk. }
  destruct (fold_left_rest_transitions _
              (updatePlayStateTransition_rest h now false hasStyle)
              (map fst (m_transitions (w_comp w2))) w2)
    as (T1 & T2 & T3 & T4).
  rewrite <- Ew in T1, T2, T3, T4.
  assert (Tt : m_transitions (w_comp w')
               = map (fun e => (fst e,
                                if hasStyle (snd e) then told (snd e)
                                else snd e))
                   (m_transitions (w_comp w))).
  { rewrite Ew.
    rewrite (fold_left_proj (fun w => m_transitions (w_comp w))
               (updatePlayStateTransition h now false hasStyle)
               (updateEntry Z.eqb
                  (fun a => if hasStyle a
                            then fst (updatePlayState h a false now) else a))
               (updatePlayStateTransition_map h now false hasStyle)).
    rewrite K1. change (m_transitions (w_comp w1)) with (m_transitions (w_comp w)).
    apply (updateEntry_map Z.eqb Z.eqb_eq
             (fun a => if hasStyle a
                       then fst (updatePlayState h a false now) else a)).
    exact Hndt. }
  assert (S' : m_suspended (w_comp w') = true).
  { rewrite T4, K4. reflexivity. }
  split; [exact S'|]. split; [rewrite T1; exact Kk|]. split; [exact Tt|].
  split; [|split; [|split; [|split]]].
  - apply Forall_forall. intros e He. rewrite Forall_forall in Hik.
    exact (updatePlayState_halts h (snd e) now (Hik _ He) Hnow).
  - apply Forall_forall. intros e He _. rewrite Forall_forall in Hit.
    exact (updatePlayState_halts h (snd e) now (Hit _ He) Hnow).
  - rewrite T2, K2. reflexivity.
  - rewrite T3, K3. reflexivity.
  - intros now2. unfold CompositeAnimation_suspendAnimations at 1.
    rewrite S'. reflexivity.
Qed.

End Suspension.

Section TransitionStartTimes.
Context {P : Platform}.

Lemma setStartTimeTransition_map h now prop t w key :
  m_transitions (w_comp (setStartTimeTransition h now prop t w key))
  = updateEntry Z.eqb
      (fun a => if animatingProperty a =? prop then giveStartTime a t now
                else a)
      (m_transitions (w_comp w)) key.
Proof.
  unfold setStartTimeTransition, updateEntry, giveStartTime.
  destruct (map_get _ _ key) as [anim|] eqn:E; [|reflexivity].
  destruct (waitingForStartTime anim) eqn:Ew;
    destruct (animatingProperty anim =? prop); cbn [andb].
  - rewrite (startTimeSet_input h anim t now Ew). unfold startTimeSet.
    cbv zeta. cbn [fst].
    rewrite (childEffects_hostOnly h now
               [E_setChanged; E_startUpdateRenderingDispatcher] _ eq_refl).
    reflexivity.
  - rewrite map_set_same_value by exact E. reflexivity.
  - rewrite map_set_same_value by exact E. reflexivity.
  - rewrite map_set_same_value by exact E. reflexivity.
Qed.

Lemma setStartTimeTransition_rest h now prop t w key :
  let w' := setStartTimeTransition h now prop t w key in
  m_keyframeAnimations (w_comp w') = m_keyframeAnimations (w_comp w)
  /\ w_store w' = w_store w /\ w_calls w' = w_calls w
  /\ m_suspended (w_comp w') = m_suspended (w_comp w).
Proof.
  unfold setStartTimeTransition.
  destruct (map_get _ _ key) as [anim|]; [|cbn; auto].
  destruct (waitingForStartTime anim && (animatingProperty anim =? prop));
    [|cbn; auto].
  destruct (updateStateMachine h anim STATE_INPUT_START_TIME_SET t now)
    as [a' es].
  match goal with
  | |- context [childEffects h now es ?w0] =>
      destruct (childEffects_frame h now es w0) as (H1 & H2 & H3 & H4 & _)
  end.
  cbv zeta. rewrite H1, H2, H3, H4. cbn. auto.
Qed.

Lemma setStartTimeTransition_idle h now prop t w :
  Forall (fun e => animatingProperty (snd e) = prop ->
                   waitingForStartTime (snd e) = false)
    (m_transitions (w_comp w)) ->
  forall keys, fold_left (setStartTimeTransition h now prop t) keys w = w.
Proof.
  intros Hall. induction keys as [|key keys IH]; [reflexivity|].
  cbn [fold_left].
  assert (E : setStartTimeTransition h now prop t w key = w).
  { unfold setStartTimeTransition.
    destruct (map_get _ _ key) as [anim|] eqn:Eg; [|reflexivity].
    apply (map_get_Some_In Z.eqb Z.eqb_eq) in Eg.
    rewrite Forall_forall in Hall. pose proof (Hall _ Eg) as Hn.
    cbn [snd] in Hn.
    destruct (animatingProperty anim =? prop) eqn:Ep.
    - apply Z.eqb_eq in Ep. rewrite (Hn Ep). reflexivity.
    - rewrite andb_false_r. reflexivity. }
  rewrite E. exact IH.
Qed.

(** X19.  [CompositeAnimation::setTransitionStartTime].  In a map without a
    repeated key, every transition of the property that waits for its start
    time is given it, and every other transition (of another property, or
    not waiting) is left as it was, in place; the keyframe animations, the
    styles and the calls are untouched; afterwards no transition of the
    property waits for a start time, so that a second call for the property
    changes nothing at all. *)
Theorem setTransitionStartTime_serves_the_property (h : Host)
    (now : float) (prop : Z) (t : float) (w : World) :
  NoDup (map fst (m_transitions (w_comp w))) ->
  let w' := CompositeAnimation_setTransitionStartTime h now prop t w in
  m_transitions (w_comp w')
  = map (fun e => (fst e,
                   if animatingProperty (snd e) =? prop
                   then giveStartTime (snd e) t now else snd e))
      (m_transitions (w_comp w))
  /\ m_keyframeAnimations (w_comp w') = m_keyframeAnimations (w_comp w)
  /\ w_store w' = w_store w /\ w_calls w' = w_calls w
  /\ Forall (fun e => animatingProperty (snd e) = prop ->
                      waitingForStartTime (snd e) = false)
       (m_transitions (w_comp w'))
  /\ forall now2 t2,
       CompositeAnimation_setTransitionStartTime h now2 prop t2 w' = w'.
Proof.
  intros Hnd w'.
  assert (Hm : m_transitions (w_comp w')
               = map (fun e => (fst e,
                                if animatingProperty (snd e) =? prop
                                then giveStartTime (snd e) t now else snd e))
                   (m_transitions (w_comp w))).
  { unfold w', CompositeAnimation_setTransitionStartTime.
    rewrite (fold_left_proj (fun w => m_transitions (w_comp w))
               (setStartTimeTransition h now prop t)
               (updateEntry Z.eqb
                  (fun a => if animatingProperty a =? prop
                            then giveStartTime a t now else a))
               (setStartTimeTransition_map h now prop t)).
    apply (updateEntry_map Z.eqb Z.eqb_eq
             (fun a => if animatingProperty a =? prop
                       then giveStartTime a t now else a)). exact Hnd. }
  assert (Hw : Forall (fun e => animatingProperty (snd e) = prop ->
                                waitingForStartTime (snd e) = false)
                 (m_transitions (w_comp w'))).
  { rewrite Hm. apply Forall_forall. intros e He.
    apply in_map_iff in He. destruct He as (e0 & <- & _). cbn [snd].
    destruct (animatingProperty (snd e0) =? prop) eqn:Ep.
    - intros _. apply giveStartTime_not_waiting.
    - intros C. apply Z.eqb_eq in C. rewrite C in Ep. discriminate Ep. }
  destruct (fold_left_rest_transitions (setStartTimeTransition h now prop t)
              (setStartTimeTransition_rest h now prop t)
              (map fst (m_transitions (w_comp w))) w)
    as (H1 & H2 & H3 & _).
  split; [exact Hm|]. split; [exact H1|]. split; [exact H2|].
  split; [exact H3|]. split; [exact Hw|].
  intros now2 t2. unfold CompositeAnimation_setTransitionStartTime.
  apply setStartTimeTransition_idle. exact Hw.
Qed.

End TransitionStartTimes.

(** ** Overridden transitions *)

Section Overrides.
Context {P : Platform}.

(** Overriding a transition that is not overridden and does not wait for
    its start time only sets its flag, and resuming it clears the flag. *)
Lemma setOverridden_round h (a : AnimationBase) now1 now2 :
  isImplicit a = true -> overridden a = false ->
  waitingForStartTime a = false ->
  snd (setOverridden h a true now1) = []
  /\ overridden (fst (setOverridden h a true now1)) = true
  /\ m_animState (fst (setOverridden h a true now1)) = m_animState a
  /\ setOverridden h (fst (setOverridden h a true now1)) false now2 = (a, []).
Proof.
  unfold isImplicit, overridden, waitingForStartTime, setOverridden.
  destruct a as [st it an wr stt pt tc ed wf anim k]. cbn [m_kind m_animState].
  destruct k as [d|d]; [|discriminate].
  destruct d as [tp ap ov fs ts]. cbn [m_overridden].
  intros _ -> Hw. cbn [Bool.eqb negb set_kind m_kind m_overridden
                         m_transitionProperty m_animatingProperty
                         m_fromStyle m_toStyle].
  unfold updateStateMachine. cbn [set_kind m_animState]. rewrite Hw.
  cbn [fst snd m_kind m_overridden Bool.eqb negb set_kind m_animState
       m_transitionProperty m_animatingProperty m_fromStyle m_toStyle
       overridden].
  repeat split.
  destruct (AnimState_eq st STATE_LOOPING || AnimState_eq st STATE_ENDING);
    reflexivity.
Qed.

Lemma setOverriddenAll_round h prop now1 now2 (ts : list (Z * AnimationBase)) :
  Forall (fun e => isImplicit (snd e) = true /\ overridden (snd e) = false
                   /\ waitingForStartTime (snd e) = false) ts ->
  snd (setOverriddenAll h ts prop true now1) = []
  /\ Forall2 (fun e e1 =>
                fst e1 = fst e
                /\ overridden (snd e1) = (animatingProperty (snd e) =? prop)
                /\ m_animState (snd e1) = m_animState (snd e))
       ts (fst (setOverriddenAll h ts prop true now1))
  /\ setOverriddenAll h (fst (setOverriddenAll h ts prop true now1)) prop
       false now2 = (ts, []).
Proof.
  induction 1 as [|[k a] ts (Hi & Ho & Hw) Hts (IH1 & IH2 & IH3)];
    cbn [setOverriddenAll]; [repeat split; constructor|].
  destruct (setOverriddenAll h ts prop true now1) as [rest e2].
  cbn [fst snd] in *. subst e2.
  destruct (animatingProperty a =? prop) eqn:Ep.
  - destruct (setOverridden_round h a now1 now2 Hi Ho Hw)
      as (Q1 & Q2 & Q3 & Q4).
    pose proof (setOverridden_static h a true now1) as [_ Hs].
    destruct (setOverridden h a true now1) as [a1 e1].
    cbn [fst snd] in *. subst e1. cbn [app fst snd setOverriddenAll].
    split; [reflexivity|]. split.
    + constructor; [|exact IH2]. cbn [fst snd]. rewrite Ep. auto.
    + rewrite Hs, Ep, Q4, IH3. reflexivity.
  - cbn [app fst snd setOverriddenAll].
    split; [reflexivity|]. split.
    + constructor; [|exact IH2]. cbn [fst snd]. rewrite Ep, Ho. auto.
    + rewrite Ep, IH3. reflexivity.
Qed.

(** X20.  A keyframe animation borrows a property and gives it back.  When the
    transitions of the renderer are implicit animations of which none is
    overridden or waits for its start time,
    [overrideImplicitAnimations] marks exactly the transitions of the
    property as overridden, leaves every state as it is and tells the host
    nothing, and a following [resumeOverriddenImplicitAnimations] for the
    same property gives back the renderer as it was. *)
Theorem override_then_resume_restores (h : Host) (now1 now2 : float)
    (w : World) (prop : Z) :
  Forall (fun e => isImplicit (snd e) = true /\ overridden (snd e) = false
                   /\ waitingForStartTime (snd e) = false)
    (m_transitions (w_comp w)) ->
  let w1 := childEffect h now1 w (E_overrideImplicitAnimations prop) in
  let w2 := childEffect h now2 w1 (E_resumeOverriddenImplicitAnimations prop) in
  Forall2 (fun e e1 =>
             fst e1 = fst e
             /\ overridden (snd e1) = (animatingProperty (snd e) =? prop)
             /\ m_animState (snd e1) = m_animState (snd e))
    (m_transitions (w_comp w)) (m_transitions (w_comp w1))
  /\ w_effects w1 = w_effects w
  /\ w2 = w.
Proof.
  intros H w1 w2.
  destruct (setOverriddenAll_round h prop now1 now2 _ H) as (H1 & H2 & H3).
  subst w2 w1. unfold childEffect.
  destruct (setOverriddenAll h (m_transitions (w_comp w)) prop true now1)
    as [ts1 e1].
  cbn [fst snd] in *. subst e1.
  cbn [fold_left with_transitions w_comp m_transitions].
  rewrite H3. cbn [fold_left].
  split; [exact H2|]. split; [reflexivity|].
  destruct w as [[ts ks su nw] store effs calls]. reflexivity.
Qed.

End Overrides.

Lemma override_then_resume_restores_witness :
  let running := set_animState
                   (@ImplicitAnimation_new examplePlatform
                      (exampleDeclaration 1001 2 0 1) 1001) STATE_LOOPING in
  let w := exampleComposite [(1001, running)] [] in
  let w1 := childEffect exampleHost 3 w (E_overrideImplicitAnimations 1001) in
  childEffect exampleHost 4 w1 (E_resumeOverriddenImplicitAnimations 1001) = w.
Proof.
  intros running w w1.
  apply (@override_then_resume_restores examplePlatform exampleHost 3 4 w 1001).
  constructor; [|constructor]. repeat split.
Defined.

(** ** Renderers of the example platform *)

Lemma first_keyframe_animations_numbered_witness :
  let l := [exampleKeyframeDeclaration "fade"%string exampleKeyframes;
            exampleKeyframeDeclaration "slide"%string exampleKeyframes] in
  let w := exampleWorld [exampleStyleAnimating (Some l)] in
  NoDup (map name (filter animatable l))
  /\ @updateKeyframeAnimations examplePlatform exampleHost 0 None 0%nat w
     = Some (with_keyframeAnimations w (numbered 0 (filter animatable l))).
Proof.
  intros l w.
  assert (H1 : animatable (exampleKeyframeDeclaration "fade"%string
                             exampleKeyframes) = true)
    by (vm_compute; reflexivity).
  assert (H2 : animatable (exampleKeyframeDeclaration "slide"%string
                             exampleKeyframes) = true)
    by (vm_compute; reflexivity).
  assert (Hnd : NoDup (map name (filter animatable l))).
  { unfold l. cbn [filter]. rewrite H1, H2. cbn [map name exampleKeyframeDeclaration].
    constructor.
    - intros [H|[]]. discriminate H.
    - constructor; [intros []|constructor]. }
  split; [exact Hnd|].
  apply (@first_keyframe_animations_numbered examplePlatform exampleHost 0
           0%nat w (exampleStyleAnimating (Some l)) l).
  - reflexivity.
  - reflexivity.
  - reflexivity.
  - discriminate.
  - exact Hnd.
  - unfold INT_MAX. cbn. lia.
Defined.

Lemma differing_property_starts_transition_witness :
  let decl := exampleDeclaration 1001 2 0 1 in
  let w := exampleWorld [exampleStyleAt 0 None;
                         exampleStyleAt 100 (Some [decl])] in
  @updateTransitions examplePlatform examplePropertyMap exampleHost 0
    (Some 0%nat) 1%nat w
  = Some (add_call
            (with_transitions w [(1001, ImplicitAnimation_new decl 1001)])
            (C_newImplicitAnimation 1001)).
Proof.
  intros decl w.
  apply (@differing_property_starts_transition examplePlatform
           examplePropertyMap exampleHost 0 0%nat 1%nat w
           (exampleStyleAt 100 (Some [decl])) decl).
  - reflexivity.
  - reflexivity.
  - vm_compute; reflexivity.
  - cbn. discriminate.
  - reflexivity.
  - vm_compute; reflexivity.
Defined.

Lemma transitions_blend_into_a_new_style_witness :
  let decl := exampleDeclaration 1001 2 0 1 in
  let w := exampleWorld [exampleStyleAt 0 None;
                         exampleStyleAt 100 (Some [decl])] in
  match @CompositeAnimation_animate examplePlatform examplePropertyMap
          exampleHost 0 (Some 0%nat) 1%nat w with
  | Some (w', r) =>
      oldStylesKept (w_store w) (w_store w')
      /\ (r = 1%nat \/ (2 <= r)%nat)
  | None => False
  end.
Proof.
  intros decl w.
  assert (Hsome : match @CompositeAnimation_animate examplePlatform
                          examplePropertyMap exampleHost 0 (Some 0%nat) 1%nat w
                  with Some _ => true | None => false end = true)
    by (vm_compute; reflexivity).
  destruct (@CompositeAnimation_animate examplePlatform examplePropertyMap
              exampleHost 0 (Some 0%nat) 1%nat w) as [[w' r]|] eqn:Hrun;
    [|discriminate].
  apply (@transitions_blend_into_a_new_style examplePlatform
           examplePropertyMap exampleHost 0 (Some 0%nat) 1%nat w w' r
           (exampleStyleAt 100 (Some [decl])) Hrun).
  - reflexivity.
  - reflexivity.
Defined.

Lemma isAnimatingProperty_running_is_stricter_witness :
  let c := w_comp
             (exampleComposite []
                [("fade"%string,
                  set_animState
                    (@KeyframeAnimation_new examplePlatform
                       (exampleKeyframeDeclaration "fade"%string
                          exampleKeyframes) 0)
                    STATE_LOOPING)]) in
  CompositeAnimation_isAnimatingProperty c 1001 true = true
  /\ CompositeAnimation_isAnimatingProperty c 1001 false = true.
Proof.
  intros c.
  assert (H : CompositeAnimation_isAnimatingProperty c 1001 true = true)
    by (vm_compute; reflexivity).
  split; [exact H|].
  exact (proj1 (@isAnimatingProperty_running_is_stricter examplePlatform
                  AnimationControllerPrivate_new (exampleRenderer None) c 1001)
           H).
Defined.

Lemma cleanup_removes_the_finished_witness :
  let over := set_animState
                (@ImplicitAnimation_new examplePlatform
                   (exampleDeclaration 1001 2 0 1) 1001) STATE_DONE in
  let w := exampleComposite [(1001, over)] [] in
  finished over = true
  /\ m_transitions
       (w_comp (@cleanupFinishedAnimations examplePlatform exampleHost 3 w))
     = []
  /\ w_calls (@cleanupFinishedAnimations examplePlatform exampleHost 3 w)
     = [C_deleteImplicitAnimation 1001].
Proof.
  intros over w.
  assert (Hf : finished over = true) by (vm_compute; reflexivity).
  split; [exact Hf|].
  destruct (proj2 (@cleanup_removes_the_finished examplePlatform exampleHost
                     3 w) eq_refl) as (Ht & _ & Hc & _).
  - constructor; [intros []|constructor].
  - constructor; [reflexivity|constructor].
  - constructor.
  - constructor.
  - split.
    + rewrite Ht. cbn [w exampleComposite w_comp m_transitions filter snd].
      rewrite Hf. reflexivity.
    + rewrite Hc. cbn [w exampleComposite w_comp m_transitions filter snd
                       w_calls app].
      rewrite Hf. reflexivity.
Defined.

Lemma setAnimationStartTime_serves_the_waiting_witness :
  let waiting := set_animState
                   (@KeyframeAnimation_new examplePlatform
                      (exampleKeyframeDeclaration "fade"%string
                         exampleKeyframes) 0)
                   STATE_START_WAIT_RESPONSE in
  let other := @KeyframeAnimation_new examplePlatform
                 (exampleKeyframeDeclaration "slide"%string
                    exampleKeyframes) 1 in
  let w := exampleComposite [] [("fade"%string, waiting);
                                ("slide"%string, other)] in
  let w' := @CompositeAnimation_setAnimationStartTime examplePlatform
              exampleHost 5 5 w in
  waitingForStartTime waiting = true
  /\ Forall (fun e => waitingForStartTime (snd e) = false)
       (m_keyframeAnimations (w_comp w'))
  /\ @CompositeAnimation_setAnimationStartTime examplePlatform exampleHost
       6 6 w' = w'.
Proof.
  intros waiting other w w'.
  split; [reflexivity|].
  assert (Hnd : NoDup (map fst (m_keyframeAnimations (w_comp w)))).
  { cbn. constructor.
    - intros [H|[]]. discriminate H.
    - constructor; [intros []|constructor]. }
  destruct (@setAnimationStartTime_serves_the_waiting examplePlatform
              exampleHost 5 5 w Hnd) as (_ & _ & _ & _ & _ & Hw & Hidle).
  split; [exact Hw|]. exact (Hidle 6%float 6%float).
Defined.

Lemma suspendAnimations_pauses_what_runs_witness :
  let looping := set_animState
                   (@KeyframeAnimation_new examplePlatform
                      (exampleKeyframeDeclaration "fade"%string
                         exampleKeyframes) 0)
                   STATE_LOOPING in
  let w := exampleComposite [] [("fade"%string, looping)] in
  let w' := @CompositeAnimation_suspendAnimations examplePlatform
              exampleHost 5 w in
  paused looping = false
  /\ m_suspended (w_comp w') = true
  /\ Forall (fun e => m_animState (snd e) = STATE_PAUSED_RUN
                      /\ m_pauseTime (snd e) = 5%float)
       (m_keyframeAnimations (w_comp w')).
Proof.
  intros looping w w'.
  split; [reflexivity|].
  assert (Hnd : NoDup (map fst (m_keyframeAnimations (w_comp w)))).
  { cbn. constructor; [intros []|constructor]. }
  assert (Hinv : Forall (fun e => pauseFlagExact (snd e) = true)
                   (m_keyframeAnimations (w_comp w))).
  { constructor; [|constructor]. reflexivity. }
  destruct (@suspendAnimations_pauses_what_runs examplePlatform exampleHost
              5 w eq_refl Hnd (NoDup_nil _) Hinv (Forall_nil _) eq_refl)
    as (Hs & Hk & _).
  split; [exact Hs|].
  unfold w'. rewrite Hk.
  cbn [map w exampleComposite w_comp m_keyframeAnimations].
  constructor; [|constructor]. split; [reflexivity|].
  vm_compute. reflexivity.
Defined.

Lemma setTransitionStartTime_serves_the_property_witness :
  let waiting := set_animState
                   (@ImplicitAnimation_new examplePlatform
                      (exampleDeclaration 1001 2 0 1) 1001)
                   STATE_START_WAIT_RESPONSE in
  let w := exampleComposite [(1001, waiting)] [] in
  let w' := @CompositeAnimation_setTransitionStartTime examplePlatform
              exampleHost 5 1001 5 w in
  waitingForStartTime waiting = true
  /\ Forall (fun e => animatingProperty (snd e) = 1001 ->
                      waitingForStartTime (snd e) = false)
       (m_transitions (w_comp w'))
  /\ @CompositeAnimation_setTransitionStartTime examplePlatform exampleHost
       6 1001 6 w' = w'.
Proof.
  intros waiting w w'.
  split; [reflexivity|].
  assert (Hnd : NoDup (map fst (m_transitions (w_comp w)))).
  { cbn. constructor; [intros []|constructor]. }
  destruct (@setTransitionStartTime_serves_the_property examplePlatform
              exampleHost 5 1001 5 w Hnd) as (_ & _ & _ & _ & Hw & Hidle).
  split; [exact Hw|]. exact (Hidle 6%float 6%float).
Defined.
